(** * json_sax: a streaming (SAX) JSON reader

    Shallow embedding of [json_sax.py]: the position tracker, the numeric
    state machine, the lexer, the recursive-descent parser and the basic
    in-memory handler, followed by the properties established about them.

    Conventions of the embedding
    - a Python character is its code point ([N]); a [str] is a list of them;
    - the text stream is the list of characters still to be read;
    - [Lexer._c] is [""] before the first read and at end of stream, and a
      one-character string otherwise: it is an [option char];
    - an exception aborts the computation: [Raise e];
    - Python integers and recursion are unbounded. *)

From Stdlib Require Import String Ascii List NArith ZArith Bool Arith Lia.
Import ListNotations.

Set Implicit Arguments.

(** ** Characters and strings *)

Definition char := N.
Definition str := list char.

Definition ch (a : ascii) : char := N_of_ascii a.
Definition lit (s : string) : str := map N_of_ascii (list_ascii_of_string s).

Definition c_str (c : option char) : str :=
  match c with Some x => [x] | None => [] end.

Definition char_in (x : char) (l : list char) : bool := existsb (N.eqb x) l.

Definition c_is (c : option char) (x : char) : bool :=
  match c with Some y => N.eqb y x | None => false end.

Definition c_in (c : option char) (l : list char) : bool :=
  match c with Some y => char_in y l | None => false end.

Fixpoint str_eqb (a b : str) : bool :=
  match a, b with
  | [], [] => true
  | x :: a', y :: b' => N.eqb x y && str_eqb a' b'
  | _, _ => false
  end.

Definition LF : char := 10%N.
Definition CR : char := 13%N.
Definition TAB : char := 9%N.
Definition BS : char := 8%N.
Definition FF : char := 12%N.
Definition QUOTE : char := 34%N.
Definition BACKSLASH : char := 92%N.

(** ** The built-ins [str.isdigit], [int] and [float]

    [str.isdigit] is Unicode aware: it holds of the decimal digits of every
    script (general category Nd, in runs of ten starting at the code points
    of [DECIMAL_ZEROS]) and of the other characters with a digit value of
    [OTHER_DIGITS], such as the superscript two U+00B2.  [int] and [float]
    read the former only. *)

Definition DECIMAL_ZEROS : list N :=
  [48; 1632; 1776; 1984; 2406; 2534; 2662; 2790; 2918; 3046; 3174; 3302; 3430;
   3558; 3664; 3792; 3872; 4160; 4240; 6112; 6160; 6470; 6608; 6784; 6800;
   6992; 7088; 7232; 7248; 42528; 43216; 43264; 43472; 43504; 43600; 44016;
   65296; 66720; 68912; 69734; 69872; 69942; 70096; 70384; 70736; 70864; 71248;
   71360; 71472; 71904; 72016; 72784; 73040; 73120; 92768; 92864; 93008;
   120782; 120792; 120802; 120812; 120822; 123200; 123632; 125264; 130032]%N.

Definition OTHER_DIGITS : list (N * N) :=
  [(178, 179); (185, 185); (4969, 4977); (6618, 6618); (8304, 8304);
   (8308, 8313); (8320, 8329); (9312, 9320); (9332, 9340); (9352, 9360);
   (9450, 9450); (9461, 9469); (9471, 9471); (10102, 10110); (10112, 10120);
   (10122, 10130); (68160, 68163); (69216, 69224); (69714, 69722);
   (127232, 127242)]%N.

Fixpoint decimal_in (zeros : list N) (x : char) : option N :=
  match zeros with
  | [] => None
  | z :: zs => if (z <=? x)%N && (x <? z + 10)%N then Some (x - z)%N
               else decimal_in zs x
  end.

(** The value of a decimal digit character ([unicodedata.decimal]). *)
Definition decimal_value (x : char) : option N := decimal_in DECIMAL_ZEROS x.

Definition isdecimal (x : char) : bool :=
  match decimal_value x with Some _ => true | None => false end.

Definition isdigit (x : char) : bool :=
  isdecimal x
  || existsb (fun r => (fst r <=? x)%N && (x <=? snd r)%N) OTHER_DIGITS.

Definition c_isdigit (c : option char) : bool :=
  match c with Some x => isdigit x | None => false end.

(** ** Positions *)

Record TextPos := mkTextPos { line : nat; col : nat }.

Definition TextPos_init : TextPos := mkTextPos 1 0.

Definition newline (p : TextPos) : TextPos := mkTextPos (S (line p)) 0.

(** ** Tokens *)

Inductive Token :=
| UNKNOWN | BEGIN_ARRAY | BEGIN_OBJECT | END_ARRAY | END_OBJECT
| LITERAL_FALSE | LITERAL_NULL | LITERAL_TRUE | NAME_SEPARATOR
| NUMBER_DECIMAL | NUMBER_FLOAT | NUMBER_INT | STRING | VALUE_SEPARATOR.

Inductive LiteralTokenKind := LT_UNKNOWN | LT_FALSE | LT_NULL | LT_TRUE.

Inductive NumericTokenKind := NT_UNKNOWN | NT_INTEGER | NT_DECIMAL | NT_FLOAT.

Definition Token_eqb (a b : Token) : bool :=
  match a, b with
  | UNKNOWN, UNKNOWN | BEGIN_ARRAY, BEGIN_ARRAY | BEGIN_OBJECT, BEGIN_OBJECT
  | END_ARRAY, END_ARRAY | END_OBJECT, END_OBJECT
  | LITERAL_FALSE, LITERAL_FALSE | LITERAL_NULL, LITERAL_NULL
  | LITERAL_TRUE, LITERAL_TRUE | NAME_SEPARATOR, NAME_SEPARATOR
  | NUMBER_DECIMAL, NUMBER_DECIMAL | NUMBER_FLOAT, NUMBER_FLOAT
  | NUMBER_INT, NUMBER_INT | STRING, STRING
  | VALUE_SEPARATOR, VALUE_SEPARATOR => true
  | _, _ => false
  end.

Definition NumericTokenKind_eqb (a b : NumericTokenKind) : bool :=
  match a, b with
  | NT_UNKNOWN, NT_UNKNOWN | NT_INTEGER, NT_INTEGER
  | NT_DECIMAL, NT_DECIMAL | NT_FLOAT, NT_FLOAT => true
  | _, _ => false
  end.

Definition is_literal_token (tok : Token) : bool :=
  existsb (Token_eqb tok) [LITERAL_FALSE; LITERAL_NULL; LITERAL_TRUE].

(** ** Messages and exceptions *)

Inductive JSONParserMessage :=
| ERR_INVALID_LITERAL_FMT | ERR_INVALID_NUMBER | ERR_UNALLOWED_CHAR_FMT
| ERR_UNALLOWED_ESCAPE_SEQ | ERR_UNCLOSED_STRING | ERR_UNEXPECTED_CHAR_FMT
| ERR_UNRECOGNIZED_ESCAPE_SEQ_FMT
| ERR_EXPECTED_ARRAY | ERR_EXPECTED_ARRAY_ITEM | ERR_EXPECTED_EOF
| ERR_EXPECTED_LITERAL | ERR_EXPECTED_MEMBER_NAME
| ERR_EXPECTED_NAME_SEPARATOR | ERR_EXPECTED_NUMBER | ERR_EXPECTED_OBJECT
| ERR_EXPECTED_STRING | ERR_EXPECTED_VALUE | ERR_EXPECTED_VALUE_BUT_FOUND_FMT
| ERR_MEMBER_NAME_DUPLICATE_FMT | ERR_MEMBER_NAME_IS_EMPTY
| ERR_PARENT_IS_NOT_CONTAINER | ERR_UNCLOSED_ARRAY | ERR_UNCLOSED_OBJECT
| ERR_UNEXPECTED_LEXEME_FMT | ERR_UNEXPECTED_TEXT_END
| ERR_UNSUPPORTED_DOM_VALUE_TYPE_FMT.

(** The message table [JSONParserMessage._MESSAGES]. *)
Definition message_text (m : JSONParserMessage) : string :=
  match m with
  | ERR_UNALLOWED_ESCAPE_SEQ => "Unallowed escape sequention"
  | ERR_INVALID_LITERAL_FMT => "Invalid literal: {}"
  | ERR_INVALID_NUMBER => "Invalid number"
  | ERR_UNALLOWED_CHAR_FMT => "Unallowed char '{}'"
  | ERR_UNCLOSED_STRING => "Unclosed string"
  | ERR_UNEXPECTED_CHAR_FMT => "Unexpected character: {}"
  | ERR_UNRECOGNIZED_ESCAPE_SEQ_FMT => "Unrecognized escape sequence: {}"
  | ERR_EXPECTED_ARRAY => "Array expected"
  | ERR_EXPECTED_ARRAY_ITEM => "Array item expected"
  | ERR_EXPECTED_EOF => "End of document expected"
  | ERR_EXPECTED_LITERAL => "Literal expected"
  | ERR_EXPECTED_MEMBER_NAME => "Object member name expected"
  | ERR_EXPECTED_NAME_SEPARATOR => "Name separator ':' expected"
  | ERR_EXPECTED_NUMBER => "Number expected"
  | ERR_EXPECTED_OBJECT => "Object expected"
  | ERR_EXPECTED_STRING => "String expected"
  | ERR_EXPECTED_VALUE => "Expected value"
  | ERR_EXPECTED_VALUE_BUT_FOUND_FMT => "Expected value but '%ls' found"
  | ERR_MEMBER_NAME_DUPLICATE_FMT => "Duplicate member name '%ls'"
  | ERR_MEMBER_NAME_IS_EMPTY => "Member name is empty"
  | ERR_PARENT_IS_NOT_CONTAINER => "Parent DOM value is not container"
  | ERR_UNCLOSED_ARRAY => "Unclosed array"
  | ERR_UNCLOSED_OBJECT => "Unclosed object"
  | ERR_UNEXPECTED_LEXEME_FMT => "Unexpected '%ls'"
  | ERR_UNEXPECTED_TEXT_END => "Unexpected end of text"
  | ERR_UNSUPPORTED_DOM_VALUE_TYPE_FMT => "Unsupported DOM value type: %ls"
  end.

(** What a handler of the module reports through [JSONError]. *)
Inductive JSONErrorKind :=
| UnexpectedStackSize (size : nat)
| UnsupportedLiteralKind
| UnsupportedNumberKind
| CountExceedsStack (count size : nat).

(** The exceptions that can leave the module.  [JSONParserError] carries the
    position, the message id and the arguments given to the message; an
    argument is a string or [None]. *)
Inductive exn :=
| JSONParserError (pos : TextPos) (msg_id : JSONParserMessage)
                  (args : list (option str))
| JSONError (kind : JSONErrorKind)
| ValueError
| IndexError
| TypeError.

Definition is_JSONParserError (e : exn) : bool :=
  match e with JSONParserError _ _ _ => true | _ => false end.

(** ** Computations that may raise

    [OutOfFuel] is the outcome of a loop of the model that was given too few
    iterations; the entry points give enough. *)

Inductive Res (A : Type) :=
| Ok (a : A)
| Raise (e : exn)
| OutOfFuel.

Arguments Ok {A} a.
Arguments Raise {A} e.
Arguments OutOfFuel {A}.

Definition M (S A : Type) : Type := S -> Res (A * S).

Definition ret {S A} (a : A) : M S A := fun s => Ok (a, s).

Definition bind {S A B} (m : M S A) (k : A -> M S B) : M S B :=
  fun s => match m s with
           | Ok (a, s') => k a s'
           | Raise e => Raise e
           | OutOfFuel => OutOfFuel
           end.

Definition raise {S A} (e : exn) : M S A := fun _ => Raise e.
Definition out_of_fuel {S A} : M S A := fun _ => OutOfFuel.
Definition gets {S A} (f : S -> A) : M S A := fun s => Ok (f s, s).
Definition modify {S} (f : S -> S) : M S unit := fun s => Ok (tt, f s).
Definition total {S A} (f : S -> A * S) : M S A := fun s => Ok (f s).

Declare Scope monad_scope.
Delimit Scope monad_scope with monad.
Notation "x <- m ;; k" := (bind m (fun x => k))
  (at level 61, m at next level, right associativity) : monad_scope.
Notation "m ;; k" := (bind m (fun _ => k))
  (at level 61, right associativity) : monad_scope.
Open Scope monad_scope.

(** ** Lexemes *)

Record Lexeme := mkLexeme {
  lex_pos : TextPos;
  token : Token;
  text : str;
  literal_kind : LiteralTokenKind;
  numeric_kind : NumericTokenKind
}.

(** ** NumericParser: the number state machine *)

Record NumericParser := mkNumericParser {
  np_char_count : nat;
  np_digit_count : nat;
  np_type : NumericTokenKind;
  np_accepting_type : NumericTokenKind;
  np_value : str
}.

Definition NumericParser_init : NumericParser :=
  mkNumericParser 0 0 NT_UNKNOWN NT_INTEGER [].

Definition EXP_CHARS : list char := [ch "e"; ch "E"].

Definition accept (np : NumericParser) (x : char) : NumericParser :=
  mkNumericParser (S (np_char_count np)) (np_digit_count np) (np_type np)
                  (np_accepting_type np) (np_value np ++ [x]).

Definition set_type (np : NumericParser) (t : NumericTokenKind) :=
  mkNumericParser (np_char_count np) (np_digit_count np) t
                  (np_accepting_type np) (np_value np).

(** [read_char]: the flag returned and the machine after the call. *)
Definition read_char (np : NumericParser) (c : option char)
  : bool * NumericParser :=
  if c_is c (ch "-") then
    if np_char_count np =? 0 then (true, accept np (ch "-"))
    else (true, np)
  else if c_is c (ch "+") then
    if NumericTokenKind_eqb (np_accepting_type np) NT_FLOAT
       && (np_char_count np =? 0)
    then (true, accept np (ch "+"))
    else (false, np)
  else if c_is c (ch ".") then
    if NumericTokenKind_eqb (np_accepting_type np) NT_INTEGER
       && (0 <? np_digit_count np)
    then
      let np1 := accept np (ch ".") in
      (true, mkNumericParser (np_char_count np1) (np_digit_count np1)
                             NT_UNKNOWN NT_DECIMAL (np_value np1))
    else (false, np)
  else if c_isdigit c then
    if NumericTokenKind_eqb (np_accepting_type np) NT_INTEGER
       && (np_digit_count np =? 1) && str_eqb (np_value np) (lit "0")
    then (false, set_type np NT_UNKNOWN)
    else
      let np1 := mkNumericParser (S (np_char_count np)) (np_digit_count np)
                   (np_type np) (np_accepting_type np)
                   (np_value np ++ c_str c) in
      (true, mkNumericParser (np_char_count np1) (S (np_digit_count np1))
                             (np_accepting_type np1) (np_accepting_type np1)
                             (np_value np1))
  else if c_in c EXP_CHARS then
    if NumericTokenKind_eqb (np_accepting_type np) NT_INTEGER
       || NumericTokenKind_eqb (np_accepting_type np) NT_DECIMAL
    then
      (true, mkNumericParser 0 0 NT_UNKNOWN NT_FLOAT (np_value np ++ c_str c))
    else (false, set_type np NT_UNKNOWN)
  else (false, np).

(** ** [int(value, base = 16)] and [chr]

    On the strings [handle_escaped_char] builds (four characters, each a
    digit or one of a-f, A-F), [int] raises [ValueError] exactly when a
    character is a digit without a decimal value. *)

Definition HEX_DIGITS : list char :=
  [ch "a"; ch "A"; ch "b"; ch "B"; ch "c"; ch "C";
   ch "d"; ch "D"; ch "e"; ch "E"; ch "f"; ch "F"].

Definition hex_value (x : char) : option N :=
  match decimal_value x with
  | Some d => Some d
  | None =>
      if (ch "a" <=? x)%N && (x <=? ch "f")%N then Some (x - ch "a" + 10)%N
      else if (ch "A" <=? x)%N && (x <=? ch "F")%N
           then Some (x - ch "A" + 10)%N
      else None
  end.

Fixpoint int_base16_from (acc : N) (s : str) : option N :=
  match s with
  | [] => Some acc
  | x :: s' => match hex_value x with
               | Some d => int_base16_from (16 * acc + d)%N s'
               | None => None
               end
  end.

Definition int_base16 (s : str) : Res N :=
  match s with
  | [] => Raise ValueError
  | _ => match int_base16_from 0%N s with
         | Some n => Ok n
         | None => Raise ValueError
         end
  end.

Definition chr (code : N) : str := [code].

(** ** Lexer *)

Record Lexer := mkLexer {
  reader : list char;
  eof : bool;
  initial : bool;
  c : option char;
  c_accepted : bool;
  pos : TextPos
}.

Definition Lexer_init (input : str) : Lexer :=
  mkLexer input false true None false TextPos_init.

Definition DEC_DIGITS : list char :=
  [ch "0"; ch "1"; ch "2"; ch "3"; ch "4";
   ch "5"; ch "6"; ch "7"; ch "8"; ch "9"].
Definition DEC_DIGITS_S : list char := DEC_DIGITS ++ [ch "-"; ch "+"].
Definition WHITESPACES : list char := [ch " "; TAB; CR; LF].
Definition LITERAL_PREFIXES : list char := [ch "f"; ch "n"; ch "t"].

Definition STRUCTURALS : list (char * Token) :=
  [(ch "[", BEGIN_ARRAY); (ch "{", BEGIN_OBJECT); (ch "]", END_ARRAY);
   (ch "}", END_OBJECT); (ch ":", NAME_SEPARATOR); (ch ",", VALUE_SEPARATOR)].

Definition ESCAPE_CHARS : list (char * char) :=
  [(QUOTE, QUOTE); (BACKSLASH, BACKSLASH); (ch "/", ch "/"); (ch "b", BS);
   (ch "f", FF); (ch "n", LF); (ch "r", CR); (ch "t", TAB)].

Fixpoint dict_get {V} (d : list (char * V)) (x : char) : option V :=
  match d with
  | [] => None
  | (k, v) :: d' => if N.eqb x k then Some v else dict_get d' x
  end.

Definition c_get {V} (d : list (char * V)) (c : option char) : option V :=
  match c with Some x => dict_get d x | None => None end.

Definition is_digit (c : option char) : bool := c_isdigit c.
Definition is_hex_digit (c : option char) : bool :=
  c_isdigit c || c_in c HEX_DIGITS.
Definition is_structural (c : option char) : bool :=
  match c_get STRUCTURALS c with Some _ => true | None => false end.
Definition is_whitespace (c : option char) : bool := c_in c WHITESPACES.

Definition set_c_accepted (b : bool) (L : Lexer) : Lexer :=
  mkLexer (reader L) (eof L) (initial L) (c L) b (pos L).

Definition set_initial (b : bool) (L : Lexer) : Lexer :=
  mkLexer (reader L) (eof L) b (c L) (c_accepted L) (pos L).

(** [next_char]: reads one character; at end of stream only [_c] and [_eof]
    change. *)
Definition next_char (L : Lexer) : bool * Lexer :=
  let is_new_line := c_is (c L) LF in
  match reader L with
  | [] => (false, mkLexer [] true (initial L) None (c_accepted L) (pos L))
  | x :: rd =>
      let p := if is_new_line then newline (pos L) else pos L in
      (true, mkLexer rd false (initial L) (Some x) false
                     (mkTextPos (line p) (S (col p))))
  end.

Definition LexM := M Lexer.

Fixpoint handle_escaped_char_loop (n : nat) (start : TextPos) (value : str)
  : LexM str :=
  match n with
  | 0 => ret value
  | S n' =>
      ok <- total next_char ;;
      cur <- gets c ;;
      if negb (ok && is_hex_digit cur)
      then raise (JSONParserError start ERR_UNALLOWED_ESCAPE_SEQ [])
      else modify (set_c_accepted true) ;;
           handle_escaped_char_loop n' start (value ++ c_str cur)
  end.

Definition handle_escaped_char (start : TextPos) : LexM str :=
  value <- handle_escaped_char_loop 4 start [] ;;
  fun L => match int_base16 value with
           | Ok code => Ok (chr code, L)
           | Raise e => Raise e
           | OutOfFuel => OutOfFuel
           end.

Fixpoint handle_literal_loop (fuel : nat) (value : str) : LexM str :=
  match fuel with
  | 0 => out_of_fuel
  | S fuel' =>
      ok <- total next_char ;;
      if ok then
        cur <- gets c ;;
        if is_whitespace cur || is_structural cur then ret value
        else modify (set_c_accepted true) ;;
             handle_literal_loop fuel' (value ++ c_str cur)
      else ret value
  end.

Definition loop_fuel (L : Lexer) : nat := S (S (length (reader L))).
Arguments loop_fuel : simpl never.

Definition handle_literal : LexM Lexeme :=
  p <- gets pos ;;
  cur <- gets c ;;
  modify (set_c_accepted true) ;;
  fuel <- gets loop_fuel ;;
  value <- handle_literal_loop fuel (c_str cur) ;;
  if str_eqb value (lit "false") then
    ret (mkLexeme p LITERAL_FALSE value LT_FALSE NT_UNKNOWN)
  else if str_eqb value (lit "null") then
    ret (mkLexeme p LITERAL_NULL value LT_NULL NT_UNKNOWN)
  else if str_eqb value (lit "true") then
    ret (mkLexeme p LITERAL_TRUE value LT_TRUE NT_UNKNOWN)
  else raise (JSONParserError p ERR_INVALID_LITERAL_FMT [Some value]).

Fixpoint handle_number_loop (fuel : nat) (np : NumericParser)
  : LexM NumericParser :=
  match fuel with
  | 0 => out_of_fuel
  | S fuel' =>
      cur <- gets c ;;
      let (ok, np') := read_char np cur in
      if ok then
        modify (set_c_accepted true) ;;
        accepting <- total next_char ;;
        if accepting then handle_number_loop fuel' np' else ret np'
      else ret np'
  end.

Definition handle_number : LexM Lexeme :=
  p <- gets pos ;;
  fuel <- gets loop_fuel ;;
  np <- handle_number_loop fuel NumericParser_init ;;
  cur_pos <- gets pos ;;
  match np_type np with
  | NT_UNKNOWN => raise (JSONParserError cur_pos ERR_INVALID_NUMBER [])
  | kind =>
      let tok := match kind with
                 | NT_DECIMAL => NUMBER_DECIMAL
                 | NT_FLOAT => NUMBER_FLOAT
                 | _ => NUMBER_INT
                 end in
      accepted <- gets c_accepted ;;
      cur <- gets c ;;
      if accepted || is_whitespace cur || is_structural cur
      then ret (mkLexeme p tok (np_value np) LT_UNKNOWN kind)
      else raise (JSONParserError cur_pos ERR_INVALID_NUMBER [])
  end.

Fixpoint handle_string_loop (fuel : nat) (start_pos : TextPos) (value : str)
  : LexM Lexeme :=
  match fuel with
  | 0 => out_of_fuel
  | S fuel' =>
      ok <- total next_char ;;
      if ok then
        cur <- gets c ;;
        if c_is cur QUOTE then
          modify (set_c_accepted true) ;;
          ret (mkLexeme start_pos STRING value LT_UNKNOWN NT_UNKNOWN)
        else if c_is cur BACKSLASH then
          p <- gets pos ;;
          ok' <- total next_char ;;
          if negb ok' then raise (JSONParserError p ERR_UNCLOSED_STRING [])
          else
            esc <- gets c ;;
            match c_get ESCAPE_CHARS esc with
            | Some esc_char =>
                modify (set_c_accepted true) ;;
                handle_string_loop fuel' start_pos (value ++ [esc_char])
            | None =>
                if c_is esc (ch "u") then
                  decoded <- handle_escaped_char p ;;
                  handle_string_loop fuel' start_pos (value ++ decoded)
                else
                  raise (JSONParserError p ERR_UNRECOGNIZED_ESCAPE_SEQ_FMT
                           [Some (BACKSLASH :: c_str esc)])
            end
        else
          modify (set_c_accepted true) ;;
          handle_string_loop fuel' start_pos (value ++ c_str cur)
      else
        cur_pos <- gets pos ;;
        raise (JSONParserError cur_pos ERR_UNCLOSED_STRING [])
  end.

Definition handle_string : LexM Lexeme :=
  start_pos <- gets pos ;;
  fuel <- gets loop_fuel ;;
  handle_string_loop fuel start_pos [].

Fixpoint skip_whitespaces_loop (fuel : nat) : LexM unit :=
  match fuel with
  | 0 => out_of_fuel
  | S fuel' =>
      cur <- gets c ;;
      if is_whitespace cur then
        modify (set_c_accepted true) ;;
        total next_char ;;
        skip_whitespaces_loop fuel'
      else ret tt
  end.

Definition skip_whitespaces : LexM unit :=
  fuel <- gets loop_fuel ;;
  skip_whitespaces_loop fuel.

(** The body of [if not self._c_accepted:] in [Lexer.next_lexeme]: the
    lexeme that starts at the current character. *)
Definition lexeme_at_char : LexM Lexeme :=
  cur <- gets c ;;
  p <- gets pos ;;
  if c_is cur QUOTE then handle_string
  else if c_in cur DEC_DIGITS_S then handle_number
  else
    match c_get STRUCTURALS cur with
    | Some tok =>
        modify (set_c_accepted true) ;;
        ret (mkLexeme p tok (c_str cur) LT_UNKNOWN NT_UNKNOWN)
    | None =>
        if c_in cur LITERAL_PREFIXES then handle_literal
        else raise (JSONParserError p ERR_UNEXPECTED_CHAR_FMT
                      [Some (c_str cur)])
    end.

(** [Lexer.next_lexeme] from [self._initial = False] on.  [None] is the end
    of the stream. *)
Definition scan_lexeme : LexM (option Lexeme) :=
  modify (set_initial false) ;;
  skip_whitespaces ;;
  accepted <- gets c_accepted ;;
  if negb accepted then
    lx <- lexeme_at_char ;; ret (Some lx)
  else
    at_end <- gets eof ;;
    cur_pos <- gets pos ;;
    cur <- gets c ;;
    if at_end then ret None
    else raise (JSONParserError cur_pos ERR_UNEXPECTED_CHAR_FMT
                  [Some (c_str cur)]).

(** [Lexer.next_lexeme] *)
Definition Lexer_next_lexeme : LexM (option Lexeme) :=
  accepted <- gets c_accepted ;;
  init <- gets initial ;;
  if accepted || init then
    ok <- total next_char ;;
    if negb ok then ret None else scan_lexeme
  else scan_lexeme.

(** Every lexeme of an input, as the tests of the lexer read them. *)
Fixpoint lex_all (fuel : nat) (L : Lexer) : Res (list Lexeme) :=
  match fuel with
  | 0 => OutOfFuel
  | S fuel' =>
      match Lexer_next_lexeme L with
      | Ok (Some lx, L') =>
          match lex_all fuel' L' with
          | Ok lxs => Ok (lx :: lxs)
          | Raise e => Raise e
          | OutOfFuel => OutOfFuel
          end
      | Ok (None, _) => Ok []
      | Raise e => Raise e
      | OutOfFuel => OutOfFuel
      end
  end.

Definition lexemes (input : str) : Res (list Lexeme) :=
  lex_all (S (length input)) (Lexer_init input).

(** ** The handler interface

    A handler is a state [H] with one transition per event; a transition may
    raise. *)

Class SAXHandlerIntf (H : Type) := {
  on_literal : LiteralTokenKind -> str -> H -> Res H;
  on_number : NumericTokenKind -> str -> H -> Res H;
  on_string : str -> H -> Res H;
  on_begin_object : H -> Res H;
  on_member_name : str -> H -> Res H;
  on_end_object : nat -> H -> Res H;
  on_begin_array : H -> Res H;
  on_end_array : nat -> H -> Res H;
  textpos_changed : TextPos -> H -> Res H
}.

(** ** SAXParser *)

Section Parser.

Context {H : Type} {handler_intf : SAXHandlerIntf H}.

Record SAXParser := mkSAXParser {
  lexer : Lexer;
  curr : option Lexeme;
  handler : H
}.

Definition SAXParser_init (input : str) (h : H) : SAXParser :=
  mkSAXParser (Lexer_init input)
              (Some (mkLexeme TextPos_init UNKNOWN [] LT_UNKNOWN NT_UNKNOWN))
              h.

Definition ParM := M SAXParser.

Definition curr_token (P : SAXParser) : Token :=
  match curr P with None => UNKNOWN | Some lx => token lx end.

Definition curr_text (P : SAXParser) : option str :=
  match curr P with None => None | Some lx => Some (text lx) end.

Definition curr_pos (P : SAXParser) : TextPos := pos (lexer P).

Definition curr_token_is (tok : Token) : ParM bool :=
  gets (fun P => Token_eqb (curr_token P) tok).

Definition curr_token_in (toks : list Token) : ParM bool :=
  gets (fun P => existsb (Token_eqb (curr_token P)) toks).

(** A call of the handler. *)
Definition call (f : H -> Res H) : ParM unit :=
  fun P => match f (handler P) with
           | Ok h => Ok (tt, mkSAXParser (lexer P) (curr P) h)
           | Raise e => Raise e
           | OutOfFuel => OutOfFuel
           end.

(** [raise JSONParserError(self._curr_pos(), msg_id, ...)] *)
Definition raise_here {A} (msg_id : JSONParserMessage)
           (args : SAXParser -> list (option str)) : ParM A :=
  fun P => Raise (JSONParserError (curr_pos P) msg_id (args P)).

Definition no_args (P : SAXParser) : list (option str) := [].
Definition text_arg (P : SAXParser) : list (option str) := [curr_text P].

Definition next_lexeme : ParM bool :=
  fun P => match Lexer_next_lexeme (lexer P) with
           | Ok (lx, L) =>
               let P' := mkSAXParser L lx (handler P) in
               match lx with
               | Some _ => (call (textpos_changed (pos L)) ;; ret true) P'
               | None => Ok (false, P')
               end
           | Raise e => Raise e
           | OutOfFuel => OutOfFuel
           end.

Definition parser_eof : ParM bool := gets (fun P => eof (lexer P)).

Definition parse_literal : ParM unit :=
  fun P => match curr P with
           | Some lx =>
               if is_literal_token (token lx)
               then call (on_literal (literal_kind lx) (text lx)) P
               else raise_here ERR_EXPECTED_LITERAL no_args P
           | None => raise_here ERR_EXPECTED_LITERAL no_args P
           end.

Definition parse_number : ParM unit :=
  fun P => match curr P with
           | Some lx =>
               if existsb (Token_eqb (token lx)) [NUMBER_DECIMAL; NUMBER_FLOAT]
               then call (on_number NT_FLOAT (text lx)) P
               else if Token_eqb (token lx) NUMBER_INT
               then call (on_number NT_INTEGER (text lx)) P
               else raise_here ERR_EXPECTED_NUMBER no_args P
           | None => raise_here ERR_EXPECTED_NUMBER no_args P
           end.

Definition parse_string : ParM unit :=
  fun P => match curr P with
           | Some lx =>
               if Token_eqb (token lx) STRING
               then call (on_string (text lx)) P
               else raise_here ERR_EXPECTED_STRING no_args P
           | None => raise_here ERR_EXPECTED_STRING no_args P
           end.

Section Containers.

(** [self.parse_value()], as called from inside a container. *)
Variable parse_value_rec : ParM unit.

Fixpoint parse_array_items_loop (fuel : nat) (element_count : nat)
  : ParM nat :=
  match fuel with
  | 0 => out_of_fuel
  | S fuel' =>
      parse_value_rec ;;
      let element_count := S element_count in
      ok <- next_lexeme ;;
      sep <- curr_token_is VALUE_SEPARATOR ;;
      let is_next_item := ok && sep in
      (if is_next_item then
         ok' <- next_lexeme ;;
         if negb ok' then raise_here ERR_EXPECTED_ARRAY_ITEM no_args
         else ret tt
       else ret tt) ;;
      if is_next_item then parse_array_items_loop fuel' element_count
      else ret element_count
  end.

Definition parse_array_items (fuel : nat) : ParM nat :=
  parse_array_items_loop fuel 0.

Definition parse_array (fuel : nat) : ParM unit :=
  is_array <- curr_token_is BEGIN_ARRAY ;;
  if negb is_array then raise_here ERR_EXPECTED_ARRAY no_args
  else
    call on_begin_array ;;
    ok <- next_lexeme ;;
    closed <- curr_token_is END_ARRAY ;;
    element_count <- (if ok && negb closed then parse_array_items fuel
                      else ret 0) ;;
    closed' <- curr_token_is END_ARRAY ;;
    if closed' then call (on_end_array element_count)
    else raise_here ERR_UNCLOSED_ARRAY no_args.

Fixpoint parse_object_members_loop (fuel : nat) (member_count : nat)
  : ParM nat :=
  match fuel with
  | 0 => out_of_fuel
  | S fuel' =>
      is_name <- curr_token_is STRING ;;
      if negb is_name then raise_here ERR_EXPECTED_MEMBER_NAME no_args
      else
        name <- gets curr_text ;;
        call (on_member_name (match name with Some s => s | None => [] end)) ;;
        let member_count := S member_count in
        ok <- next_lexeme ;;
        is_sep <- curr_token_is NAME_SEPARATOR ;;
        if negb ok || negb is_sep
        then raise_here ERR_EXPECTED_NAME_SEPARATOR no_args
        else
          ok' <- next_lexeme ;;
          if negb ok' then raise_here ERR_EXPECTED_VALUE no_args
          else
            parse_value_rec ;;
            ok'' <- next_lexeme ;;
            sep <- curr_token_is VALUE_SEPARATOR ;;
            let is_next_member := ok'' && sep in
            (if is_next_member then
               ok3 <- next_lexeme ;;
               if negb ok3
               then raise_here ERR_EXPECTED_MEMBER_NAME no_args
               else ret tt
             else ret tt) ;;
            if is_next_member
            then parse_object_members_loop fuel' member_count
            else ret member_count
  end.

Definition parse_object_members (fuel : nat) : ParM nat :=
  parse_object_members_loop fuel 0.

Definition parse_object (fuel : nat) : ParM unit :=
  is_object <- curr_token_is BEGIN_OBJECT ;;
  if negb is_object then raise_here ERR_EXPECTED_OBJECT no_args
  else
    start_pos <- gets curr_pos ;;
    call on_begin_object ;;
    ok <- next_lexeme ;;
    closed <- curr_token_is END_OBJECT ;;
    member_count <- (if ok && negb closed then parse_object_members fuel
                     else ret 0) ;;
    closed' <- curr_token_is END_OBJECT ;;
    if closed' then call (on_end_object member_count)
    else raise (JSONParserError start_pos ERR_UNCLOSED_OBJECT []).

End Containers.

(** [fuel] bounds the nesting depth and the number of items of a
    container. *)
Fixpoint parse_value (fuel : nat) : ParM unit :=
  match fuel with
  | 0 => out_of_fuel
  | S fuel' =>
      is_array <- curr_token_is BEGIN_ARRAY ;;
      if is_array then parse_array (parse_value fuel') fuel'
      else
        is_object <- curr_token_is BEGIN_OBJECT ;;
        if is_object then parse_object (parse_value fuel') fuel'
        else
          is_lit <- curr_token_in [LITERAL_FALSE; LITERAL_NULL; LITERAL_TRUE] ;;
          if is_lit then parse_literal
          else
            is_num <- curr_token_in [NUMBER_DECIMAL; NUMBER_FLOAT; NUMBER_INT] ;;
            if is_num then parse_number
            else
              is_str <- curr_token_is STRING ;;
              if is_str then parse_string
              else raise_here ERR_EXPECTED_VALUE_BUT_FOUND_FMT text_arg
  end.

(** What [parse_doc] does once the top-level value is read. *)
Definition expect_end : ParM unit :=
  next_lexeme ;;
  at_end <- parser_eof ;;
  if negb at_end then
    ok <- next_lexeme ;;
    if ok then raise_here ERR_UNEXPECTED_LEXEME_FMT text_arg
    else raise_here ERR_EXPECTED_EOF text_arg
  else ret tt.

Definition parse_doc (fuel : nat) : ParM unit :=
  ok <- next_lexeme ;;
  if ok then parse_value fuel ;; expect_end
  else
    at_end <- parser_eof ;;
    if at_end then ret tt  (* Empty doc *)
    else expect_end.

Definition run_fuel (input : str) : nat := S (S (length input)).

(** [SAXParser(reader, handler).run()]: the handler after the run. *)
Definition run (input : str) (h : H) : Res H :=
  match parse_doc (run_fuel input) (SAXParser_init input h) with
  | Ok (_, P) => Ok (handler P)
  | Raise e => Raise e
  | OutOfFuel => OutOfFuel
  end.

End Parser.

Arguments SAXParser H : clear implicits.
Arguments ParM H : clear implicits.

(** ** Python values and the conversions of [SAXHandlerBasic]

    A [float] is kept as the text it was converted from: [PyFloat t] is the
    value of [float(t)].  A [dict] is the list of its items in insertion
    order; its keys are strings here. *)

#[warnings="-register-all"] Inductive pyval :=
| PyNone
| PyBool (b : bool)
| PyInt (z : Z)
| PyFloat (t : str)
| PyStr (s : str)
| PyList (items : list pyval)
| PyDict (items : list (str * pyval)).

Fixpoint decimal_from (acc : N) (s : str) : option N :=
  match s with
  | [] => Some acc
  | x :: s' => match decimal_value x with
               | Some d => decimal_from (10 * acc + d)%N s'
               | None => None
               end
  end.

Definition strip_sign (s : str) : bool * str :=
  match s with
  | x :: s' => if N.eqb x (ch "-") then (true, s')
               else if N.eqb x (ch "+") then (false, s')
               else (false, s)
  | [] => (false, [])
  end.

(** [int(text)] on a sign and digits; anything else is a [ValueError]. *)
Definition py_int (s : str) : Res Z :=
  let (neg, ds) := strip_sign s in
  match ds with
  | [] => Raise ValueError
  | _ => match decimal_from 0%N ds with
         | Some n => Ok (if neg then (- Z.of_N n)%Z else Z.of_N n)
         | None => Raise ValueError
         end
  end.

Fixpoint span_decimal (s : str) : str * str :=
  match s with
  | x :: s' => if isdecimal x
               then let (ds, r) := span_decimal s' in (x :: ds, r)
               else ([], s)
  | [] => ([], [])
  end.

Definition nonempty {A} (l : list A) : bool :=
  match l with [] => false | _ => true end.

(** The decimal literals [float] reads: a sign, digits with an optional
    fraction (or a fraction alone), an optional exponent. *)
Definition float_literal (s : str) : bool :=
  let (_, s1) := strip_sign s in
  let (ds, s2) := span_decimal s1 in
  let (mantissa, s3) :=
    match s2 with
    | x :: r => if N.eqb x (ch ".")
                then let (fs, r') := span_decimal r in
                     (nonempty ds || nonempty fs, r')
                else (nonempty ds, s2)
    | [] => (nonempty ds, [])
    end in
  mantissa &&
  match s3 with
  | [] => true
  | x :: r => char_in x EXP_CHARS &&
              let (_, r1) := strip_sign r in
              let (es, r2) := span_decimal r1 in
              nonempty es && negb (nonempty r2)
  end.

Definition py_float (s : str) : Res pyval :=
  if float_literal s then Ok (PyFloat s) else Raise ValueError.

(** [obj[name] = value] *)
Fixpoint dict_set (d : list (str * pyval)) (k : str) (v : pyval)
  : list (str * pyval) :=
  match d with
  | [] => [(k, v)]
  | (k', v') :: d' => if str_eqb k' k then (k', v) :: d'
                      else (k', v') :: dict_set d' k v
  end.

Fixpoint dict_lookup (d : list (str * pyval)) (k : str) : option pyval :=
  match d with
  | [] => None
  | (k', v) :: d' => if str_eqb k' k then Some v else dict_lookup d' k
  end.

(** ** SimpleStack and SAXHandlerBasic

    [SimpleStack._data] is kept with its last element (the top) first. *)

Definition SimpleStack := list pyval.

Definition SimpleStack_init : SimpleStack := [].

Definition push (item : pyval) (s : SimpleStack) : SimpleStack := item :: s.

Definition pop (s : SimpleStack) : Res (pyval * SimpleStack) :=
  match s with
  | item :: s' => Ok (item, s')
  | [] => Raise IndexError
  end.

Definition size (s : SimpleStack) : nat := length s.

(** The property [SAXHandlerBasic.result]: the value read and the stack
    after the read. *)
Definition result (s : SimpleStack) : Res (pyval * SimpleStack) :=
  if size s =? 0 then Ok (PyNone, s)
  else if size s =? 1 then pop s
  else Raise (JSONError (UnexpectedStackSize (size s))).

Definition basic_on_literal (kind : LiteralTokenKind) (t : str)
           (s : SimpleStack) : Res SimpleStack :=
  match kind with
  | LT_FALSE => Ok (push (PyBool false) s)
  | LT_TRUE => Ok (push (PyBool true) s)
  | LT_NULL => Ok (push PyNone s)
  | LT_UNKNOWN => Raise (JSONError UnsupportedLiteralKind)
  end.

Definition basic_on_number (kind : NumericTokenKind) (t : str)
           (s : SimpleStack) : Res SimpleStack :=
  match kind with
  | NT_INTEGER => match py_int t with
                  | Ok z => Ok (push (PyInt z) s)
                  | Raise e => Raise e
                  | OutOfFuel => OutOfFuel
                  end
  | NT_DECIMAL | NT_FLOAT => match py_float t with
                             | Ok f => Ok (push f s)
                             | Raise e => Raise e
                             | OutOfFuel => OutOfFuel
                             end
  | NT_UNKNOWN => Raise (JSONError UnsupportedNumberKind)
  end.

(** The loop of [on_end_object]: [obj[name] = value] for the [n] topmost
    pairs. *)
Fixpoint pop_members (n : nat) (obj : list (str * pyval)) (s : SimpleStack)
  : Res (list (str * pyval) * SimpleStack) :=
  match n with
  | 0 => Ok (obj, s)
  | S n' =>
      match pop s with
      | Ok (value, s1) =>
          match pop s1 with
          | Ok (PyStr name, s2) => pop_members n' (dict_set obj name value) s2
          | Ok (_, _) => Raise TypeError
          | Raise e => Raise e
          | OutOfFuel => OutOfFuel
          end
      | Raise e => Raise e
      | OutOfFuel => OutOfFuel
      end
  end.

Definition basic_on_end_object (member_count : nat) (s : SimpleStack)
  : Res SimpleStack :=
  let member_item_count := member_count * 2 in
  if size s <? member_item_count
  then Raise (JSONError (CountExceedsStack member_item_count (size s)))
  else match pop_members member_count [] s with
       | Ok (obj, s') => Ok (push (PyDict obj) s')
       | Raise e => Raise e
       | OutOfFuel => OutOfFuel
       end.

(** The loop of [on_end_array]: [array.insert(0, self._stack.pop())]. *)
Fixpoint pop_elements (n : nat) (array : list pyval) (s : SimpleStack)
  : Res (list pyval * SimpleStack) :=
  match n with
  | 0 => Ok (array, s)
  | S n' =>
      match pop s with
      | Ok (item, s') => pop_elements n' (item :: array) s'
      | Raise e => Raise e
      | OutOfFuel => OutOfFuel
      end
  end.

Definition basic_on_end_array (element_count : nat) (s : SimpleStack)
  : Res SimpleStack :=
  if size s <? element_count
  then Raise (JSONError (CountExceedsStack element_count (size s)))
  else match pop_elements element_count [] s with
       | Ok (array, s') => Ok (push (PyList array) s')
       | Raise e => Raise e
       | OutOfFuel => OutOfFuel
       end.

#[export] Instance SAXHandlerBasic : SAXHandlerIntf SimpleStack := {
  on_literal := basic_on_literal;
  on_number := basic_on_number;
  on_string := fun t s => Ok (push (PyStr t) s);
  on_begin_object := fun s => Ok s;
  on_member_name := fun t s => Ok (push (PyStr t) s);
  on_end_object := basic_on_end_object;
  on_begin_array := fun s => Ok s;
  on_end_array := basic_on_end_array;
  textpos_changed := fun _ s => Ok s
}.

(** [parser.run()] with a fresh [SAXHandlerBasic], then one read of
    [handler.result]. *)
Definition parse_basic (input : str) : Res pyval :=
  match run input SimpleStack_init with
  | Ok s => match result s with
            | Ok (v, _) => Ok v
            | Raise e => Raise e
            | OutOfFuel => OutOfFuel
            end
  | Raise e => Raise e
  | OutOfFuel => OutOfFuel
  end.

(** * Properties *)

(** ** Reasoning about computations *)

Lemma bind_Ok {S A B} (m : M S A) (k : A -> M S B) s a s' :
  m s = Ok (a, s') -> bind m k s = k a s'.
Proof. unfold bind. intros ->. reflexivity. Qed.

Lemma bind_Raise {S A B} (m : M S A) (k : A -> M S B) s e :
  m s = Raise e -> bind m k s = Raise e.
Proof. unfold bind. intros ->. reflexivity. Qed.

Lemma bind_inv_Ok {S A B} (m : M S A) (k : A -> M S B) s b s2 :
  bind m k s = Ok (b, s2) ->
  exists a s1, m s = Ok (a, s1) /\ k a s1 = Ok (b, s2).
Proof.
  unfold bind. destruct (m s) as [[a s1]| |]; try discriminate.
  intros Hk. exists a, s1. split; [reflexivity | exact Hk].
Qed.

(** [triple P m Q E]: from a state of [P], [m] ends in a state of [Q] or
    raises an exception of [E]. *)
Definition triple {S A} (P : S -> Prop) (m : M S A)
           (Q : A -> S -> Prop) (E : exn -> Prop) : Prop :=
  forall s, P s ->
    match m s with
    | Ok (a, s') => Q a s'
    | Raise e => E e
    | OutOfFuel => True
    end.

Lemma triple_bind {S A B} (P : S -> Prop) (m : M S A) (k : A -> M S B)
      (Q : A -> S -> Prop) (R : B -> S -> Prop) (E : exn -> Prop) :
  triple P m Q E -> (forall a, triple (Q a) (k a) R E) ->
  triple P (bind m k) R E.
Proof.
  intros Hm Hk s Hs. unfold bind. specialize (Hm s Hs).
  destruct (m s) as [[a s1]| |]; auto. apply (Hk a s1 Hm).
Qed.

Lemma triple_ret {S A} (P : S -> Prop) (a : A) (Q : A -> S -> Prop) E :
  (forall s, P s -> Q a s) -> triple P (ret a) Q E.
Proof. intros HQ s Hs. simpl. auto. Qed.

Lemma triple_gets {S A} (P : S -> Prop) (f : S -> A) (Q : A -> S -> Prop) E :
  (forall s, P s -> Q (f s) s) -> triple P (gets f) Q E.
Proof. intros HQ s Hs. simpl. auto. Qed.

Lemma triple_modify {S} (P : S -> Prop) (f : S -> S) (Q : unit -> S -> Prop) E :
  (forall s, P s -> Q tt (f s)) -> triple P (modify f) Q E.
Proof. intros HQ s Hs. simpl. auto. Qed.

Lemma triple_total {S A} (P : S -> Prop) (f : S -> A * S)
      (Q : A -> S -> Prop) E :
  (forall s, P s -> Q (fst (f s)) (snd (f s))) -> triple P (total f) Q E.
Proof.
  intros HQ s Hs. unfold total. specialize (HQ s Hs).
  destruct (f s); exact HQ.
Qed.

Lemma triple_raise {S A} (P : S -> Prop) (e : exn) (Q : A -> S -> Prop)
      (E : exn -> Prop) :
  (forall s, P s -> E e) -> triple P (raise e) Q E.
Proof. intros HE s Hs. simpl. eauto. Qed.

Lemma triple_out_of_fuel {S A} (P : S -> Prop) (Q : A -> S -> Prop) E :
  triple P out_of_fuel Q E.
Proof. intros s Hs. exact I. Qed.

Lemma triple_weaken {S A} (P P' : S -> Prop) (m : M S A)
      (Q Q' : A -> S -> Prop) (E E' : exn -> Prop) :
  triple P' m Q' E' ->
  (forall s, P s -> P' s) -> (forall a s, Q' a s -> Q a s) ->
  (forall e, E' e -> E e) ->
  triple P m Q E.
Proof.
  intros Hm HP HQ HE s Hs. specialize (Hm s (HP s Hs)).
  destruct (m s) as [[a s1]| |]; auto.
Qed.

Lemma triple_if {S A} (b : bool) (P : S -> Prop) (m1 m2 : M S A) Q E :
  (b = true -> triple P m1 Q E) -> (b = false -> triple P m2 Q E) ->
  triple P (if b then m1 else m2) Q E.
Proof. destruct b; auto. Qed.

(** Unfolds the plumbing of a computation applied to a state. *)
Ltac run_m :=
  cbv beta iota delta [bind gets modify total ret raise out_of_fuel];
  cbn [fst snd c reader pos eof initial c_accepted set_c_accepted set_initial].

(** ** Position tracking *)

(** The lexer after [k] more calls of [next_char]. *)
Fixpoint consume (k : nat) (L : Lexer) : Lexer :=
  match k with
  | 0 => L
  | S k' => snd (next_char (consume k' L))
  end.

(** The position of the last character of [consumed], computed by hand:
    lines are counted from 1 and end at LF, columns are counted from 1.
    [before] lists the characters in front of that character, nearest
    first. *)
Fixpoint since_newline (before : str) : nat :=
  match before with
  | [] => 0
  | x :: before' => if N.eqb x LF then 0 else S (since_newline before')
  end.

Definition hand_pos (consumed : str) : TextPos :=
  match rev consumed with
  | [] => mkTextPos 1 0
  | _ :: before =>
      mkTextPos (S (count_occ N.eq_dec before LF)) (S (since_newline before))
  end.

(** The rule of the position tracker, in the words of the specification:
    after a newline the line is incremented and the column reset; then the
    column is incremented. *)
Definition advance (previous : option char) (p : TextPos) : TextPos :=
  if c_is previous LF then mkTextPos (S (line p)) 1
  else mkTextPos (line p) (S (col p)).

Lemma next_char_more (L : Lexer) x rd :
  reader L = x :: rd ->
  next_char L
  = (true, mkLexer rd false (initial L) (Some x) false (advance (c L) (pos L))).
Proof.
  intros Hrd. unfold next_char, advance. rewrite Hrd.
  destruct (c_is (c L) LF); reflexivity.
Qed.

Lemma next_char_end (L : Lexer) :
  reader L = [] ->
  next_char L = (false, mkLexer [] true (initial L) None (c_accepted L) (pos L)).
Proof. intros Hrd. unfold next_char. rewrite Hrd. reflexivity. Qed.

Lemma hand_pos_snoc (consumed : str) (x : char) :
  hand_pos (consumed ++ [x])
  = advance (hd_error (rev consumed)) (hand_pos consumed).
Proof.
  unfold hand_pos, advance. rewrite rev_app_distr. simpl.
  destruct (rev consumed) as [|y before]; simpl; [reflexivity|].
  destruct (N.eqb_spec y LF) as [->|Hne].
  - destruct (N.eq_dec LF LF) as [_|Hc]; [reflexivity | congruence].
  - destruct (N.eq_dec y LF) as [Hc|_]; [congruence | reflexivity].
Qed.

Lemma consume_app (consumed rest : str) :
  let L := consume (length consumed) (Lexer_init (consumed ++ rest)) in
  reader L = rest /\ c L = hd_error (rev consumed)
  /\ pos L = hand_pos consumed.
Proof.
  revert rest. induction consumed as [|x consumed IH] using rev_ind; intros rest.
  - simpl. auto.
  - rewrite length_app, Nat.add_comm. simpl.
    rewrite <- app_assoc. simpl.
    destruct (IH (x :: rest)) as (Hrd & Hc & Hpos).
    rewrite (next_char_more _ Hrd). simpl.
    rewrite rev_app_distr. simpl. rewrite Hc, Hpos, hand_pos_snoc. auto.
Qed.

(** *** Every position the lexer reports is the position of a consumed
    prefix of the input *)

Section Tracking.

Variable input : str.

(** A part of the input that is known to be consumed already: the number of
    its characters. *)
Variable low : nat.

(** The position of the lexer is the one of what it has consumed. *)
Definition tracked (L : Lexer) : Prop :=
  exists consumed,
    input = consumed ++ reader L /\ pos L = hand_pos consumed
    /\ (reader L = [] \/ c L = hd_error (rev consumed))
    /\ low <= length consumed.

Definition on_input (p : TextPos) : Prop :=
  exists consumed rest,
    input = consumed ++ rest /\ p = hand_pos consumed
    /\ low <= length consumed.

(** What the lexer raises: a parser error positioned on the input, or the
    [ValueError] of [int]. *)
Definition exn_on_input (e : exn) : Prop :=
  match e with
  | JSONParserError p _ _ => on_input p
  | ValueError => True
  | _ => False
  end.

(** A lexeme of the lexer: positioned on the input, and of a known kind
    when it is a literal. *)
Definition lexeme_ok (lx : Lexeme) : Prop :=
  on_input (lex_pos lx)
  /\ (is_literal_token (token lx) = true -> literal_kind lx <> LT_UNKNOWN).

Lemma lexeme_ok_other p tok t lk nk :
  on_input p -> is_literal_token tok = false ->
  lexeme_ok (mkLexeme p tok t lk nk).
Proof. intros Hp Htok. split; [exact Hp|]. simpl. congruence. Qed.

Lemma tracked_init : low = 0 -> tracked (Lexer_init input).
Proof.
  intros ->. exists []. simpl.
  split; [reflexivity|]. split; [reflexivity|]. split; [auto | lia].
Qed.

Lemma tracked_pos L : tracked L -> on_input (pos L).
Proof.
  intros (consumed & Hin & Hpos & _ & Hlow). exists consumed, (reader L). auto.
Qed.

Lemma tracked_next_char L : tracked L -> tracked (snd (next_char L)).
Proof.
  intros (consumed & Hin & Hpos & Hc & Hlow).
  destruct (reader L) as [|x rd] eqn:Hrd.
  - rewrite (next_char_end _ Hrd). exists consumed. simpl. auto.
  - rewrite (next_char_more _ Hrd). simpl.
    destruct Hc as [Hc|Hc]; [discriminate|].
    exists (consumed ++ [x]). simpl.
    rewrite <- app_assoc, hand_pos_snoc, rev_app_distr, Hc, Hpos, length_app.
    simpl. repeat split; auto. lia.
Qed.

Lemma tracked_set_c_accepted b L : tracked L -> tracked (set_c_accepted b L).
Proof. intros H. exact H. Qed.

Lemma tracked_set_initial b L : tracked L -> tracked (set_initial b L).
Proof. intros H. exact H. Qed.

Create HintDb track.
#[local] Hint Resolve tracked_pos tracked_next_char tracked_set_c_accepted
  tracked_set_initial : track.


Lemma tracked_handle_escaped_char_loop n start value :
  on_input start ->
  triple tracked (handle_escaped_char_loop n start value)
         (fun _ L => tracked L) exn_on_input.
Proof.
  intros Hstart. revert value.
  induction n as [|n IH]; intros value L HL; simpl.
  - exact HL.
  - run_m. pose proof (tracked_next_char HL) as HL1.
    destruct (next_char L) as [ok L1]. simpl in *.
    destruct (negb (ok && is_hex_digit (c L1))); simpl; [exact Hstart|].
    apply (IH _ _ (tracked_set_c_accepted true HL1)).
Qed.

Lemma tracked_handle_escaped_char start :
  on_input start ->
  triple tracked (handle_escaped_char start) (fun _ L => tracked L)
         exn_on_input.
Proof.
  intros Hstart L HL. unfold handle_escaped_char, bind.
  pose proof (tracked_handle_escaped_char_loop 4 [] Hstart HL) as H4.
  destruct (handle_escaped_char_loop 4 start [] L) as [[value L1]|e|]; auto.
  unfold int_base16. destruct value as [|x value]; simpl; [exact I|].
  destruct (hex_value x) as [d|]; simpl; [|exact I].
  destruct (int_base16_from _ value); simpl; auto.
Qed.

Lemma tracked_handle_literal_loop fuel value :
  triple tracked (handle_literal_loop fuel value)
         (fun _ L => tracked L) exn_on_input.
Proof.
  revert value. induction fuel as [|fuel IH]; intros value L HL; simpl.
  - exact I.
  - run_m. pose proof (tracked_next_char HL) as HL1.
    destruct (next_char L) as [ok L1]. simpl in *.
    destruct ok; [|exact HL1].
    destruct (is_whitespace (c L1) || is_structural (c L1)); [exact HL1|].
    apply (IH _ _ (tracked_set_c_accepted true HL1)).
Qed.

Lemma tracked_handle_literal :
  triple tracked handle_literal
         (fun lx L => tracked L /\ lexeme_ok lx) exn_on_input.
Proof.
  intros L HL. unfold handle_literal. run_m.
  pose proof (tracked_handle_literal_loop (loop_fuel L) (c_str (c L))
                (tracked_set_c_accepted true HL)) as Hloop.
  change (loop_fuel (set_c_accepted true L)) with (loop_fuel L).
  destruct (handle_literal_loop _ _ _) as [[value L1]|e|]; auto.
  pose proof (tracked_pos HL) as Hp.
  assert (Hok : forall tok t lk, lk <> LT_UNKNOWN ->
                                 lexeme_ok (mkLexeme (pos L) tok t lk NT_UNKNOWN))
    by (intros; split; auto).
  destruct (str_eqb value (lit "false"));
    [simpl; split; [auto | apply Hok; discriminate]|].
  destruct (str_eqb value (lit "null"));
    [simpl; split; [auto | apply Hok; discriminate]|].
  destruct (str_eqb value (lit "true")); simpl; auto.
  split; [auto | apply Hok; discriminate].
Qed.

Lemma tracked_handle_number_loop fuel np :
  triple tracked (handle_number_loop fuel np)
         (fun _ L => tracked L) exn_on_input.
Proof.
  revert np. induction fuel as [|fuel IH]; intros np L HL; simpl.
  - exact I.
  - run_m. destruct (read_char np (c L)) as [ok np']. destruct ok; [|exact HL].
    run_m. pose proof (tracked_next_char (tracked_set_c_accepted true HL)) as HL1.
    destruct (next_char (set_c_accepted true L)) as [accepting L1]. simpl in *.
    destruct accepting; [|exact HL1].
    apply (IH _ _ HL1).
Qed.

Lemma tracked_handle_number :
  triple tracked handle_number
         (fun lx L => tracked L /\ lexeme_ok lx) exn_on_input.
Proof.
  intros L HL. unfold handle_number. run_m.
  pose proof (tracked_handle_number_loop (loop_fuel L) NumericParser_init HL)
    as Hloop.
  destruct (handle_number_loop _ _ _) as [[np L1]|e|]; auto.
  pose proof (tracked_pos HL) as Hp. pose proof (tracked_pos Hloop) as Hp1.
  destruct (np_type np); simpl; auto;
    destruct (c_accepted L1 || is_whitespace (c L1) || is_structural (c L1));
    simpl; auto using lexeme_ok_other.
Qed.

Lemma tracked_handle_string_loop fuel start_pos value :
  on_input start_pos ->
  triple tracked (handle_string_loop fuel start_pos value)
         (fun lx L => tracked L /\ lexeme_ok lx) exn_on_input.
Proof.
  intros Hstart. revert value.
  induction fuel as [|fuel IH]; intros value L HL; simpl.
  - exact I.
  - run_m. pose proof (tracked_next_char HL) as HL1.
    destruct (next_char L) as [ok L1]. simpl in *.
    destruct ok; [|simpl; auto with track].
    destruct (c_is (c L1) QUOTE); [simpl; auto using lexeme_ok_other|].
    destruct (c_is (c L1) BACKSLASH).
    + pose proof (tracked_next_char HL1) as HL2.
      pose proof (tracked_pos HL1) as Hp1.
      destruct (next_char L1) as [ok' L2]. simpl in *.
      destruct ok'; simpl; [|exact Hp1].
      destruct (c_get ESCAPE_CHARS (c L2)) as [esc_char|].
      * apply (IH _ _ (tracked_set_c_accepted true HL2)).
      * destruct (c_is (c L2) _); [|exact Hp1].
        pose proof (tracked_handle_escaped_char Hp1 HL2) as Hesc.
        destruct (handle_escaped_char (pos L1) L2) as [[decoded L3]|e|]; auto.
        apply (IH _ _ Hesc).
    + apply (IH _ _ (tracked_set_c_accepted true HL1)).
Qed.

Lemma tracked_handle_string :
  triple tracked handle_string
         (fun lx L => tracked L /\ lexeme_ok lx) exn_on_input.
Proof.
  intros L HL. unfold handle_string. run_m.
  apply (tracked_handle_string_loop _ _ (tracked_pos HL) HL).
Qed.

Lemma tracked_skip_whitespaces_loop fuel :
  triple tracked (skip_whitespaces_loop fuel)
         (fun _ L => tracked L) exn_on_input.
Proof.
  induction fuel as [|fuel IH]; intros L HL; simpl.
  - exact I.
  - run_m. destruct (is_whitespace (c L)); [|exact HL].
    pose proof (tracked_next_char (tracked_set_c_accepted true HL)) as HL1.
    destruct (next_char (set_c_accepted true L)) as [ok L1]. simpl in *.
    apply (IH _ HL1).
Qed.

Definition lexeme_on_input (lx : option Lexeme) (L : Lexer) : Prop :=
  tracked L /\ match lx with
               | Some x => lexeme_ok x
               | None => True
               end.

Lemma tracked_lexeme_at_char :
  triple tracked lexeme_at_char (fun lx L => tracked L /\ lexeme_ok lx)
         exn_on_input.
Proof.
  intros L HL. unfold lexeme_at_char. run_m.
  pose proof (tracked_pos HL) as Hp.
  destruct (c_is (c L) QUOTE); [apply (tracked_handle_string HL)|].
  destruct (c_in (c L) DEC_DIGITS_S); [apply (tracked_handle_number HL)|].
  destruct (c_get STRUCTURALS (c L)) as [tok|] eqn:Htok; simpl.
  { split; [exact HL|]. apply lexeme_ok_other; [exact Hp|].
    destruct (c L) as [x|]; [|discriminate Htok]. simpl in Htok.
    repeat match type of Htok with
           | (if ?b then _ else _) = _ => destruct b
           end; inversion Htok; reflexivity. }
  destruct (c_in (c L) LITERAL_PREFIXES); simpl; [|exact Hp].
  apply (tracked_handle_literal HL).
Qed.

Lemma tracked_scan_lexeme :
  triple tracked scan_lexeme lexeme_on_input exn_on_input.
Proof.
  intros L HL. unfold scan_lexeme, skip_whitespaces, lexeme_on_input. run_m.
  pose proof (tracked_skip_whitespaces_loop
                (loop_fuel (set_initial false L))
                (tracked_set_initial false HL)) as Hws.
  destruct (skip_whitespaces_loop _ _) as [[[] L2]|e|]; auto.
  pose proof (tracked_pos Hws) as Hp2.
  destruct (c_accepted L2); cbn [negb].
  - destruct (eof L2); simpl; auto.
  - pose proof (tracked_lexeme_at_char Hws) as Hlx.
    destruct (lexeme_at_char L2) as [[lx L3]|e|]; auto.
Qed.

(** Whatever [Lexer.next_lexeme] returns or raises is positioned on the
    input. *)
Lemma tracked_Lexer_next_lexeme :
  triple tracked Lexer_next_lexeme lexeme_on_input exn_on_input.
Proof.
  intros L HL. unfold Lexer_next_lexeme. run_m.
  destruct (c_accepted L || initial L).
  - pose proof (tracked_next_char HL) as HL1.
    destruct (next_char L) as [ok L1]. simpl in HL1.
    destruct ok; cbn [negb].
    + apply (tracked_scan_lexeme HL1).
    + split; [exact HL1 | exact I].
  - apply (tracked_scan_lexeme HL).
Qed.

End Tracking.

Example hand_pos_second_line :
  hand_pos (lit "ab" ++ [LF] ++ lit "cd") = mkTextPos 2 2
  /\ hand_pos (lit "ab" ++ [LF]) = mkTextPos 1 3.
Proof. split; reflexivity. Qed.

(** ** The number state machine *)

Definition number_lexeme (p : TextPos) (tok : Token) (t : str)
           (kind : NumericTokenKind) : Lexeme :=
  mkLexeme p tok t LT_UNKNOWN kind.

Definition invalid_number_at (ln cl : nat) : exn :=
  JSONParserError (mkTextPos ln cl) ERR_INVALID_NUMBER [].

Lemma c_is_digit_other (d x : char) :
  isdigit d = true -> isdigit x = false -> c_is (Some d) x = false.
Proof.
  intros Hd Hx. unfold c_is. destruct (N.eqb_spec d x); congruence.
Qed.

(** A digit that follows the single digit 0 of the integer part is
    rejected. *)
Lemma read_char_leading_zero (np : NumericParser) (d : char) :
  np_accepting_type np = NT_INTEGER -> np_digit_count np = 1 ->
  np_value np = lit "0" -> isdigit d = true ->
  read_char np (Some d) = (false, set_type np NT_UNKNOWN).
Proof.
  intros Hacc Hcount Hval Hd. unfold read_char.
  rewrite !(@c_is_digit_other d _ Hd) by reflexivity. simpl c_isdigit. rewrite Hd, Hacc, Hcount, Hval.
  reflexivity.
Qed.

Example leading_zero_examples :
  lexemes (lit "00") = Raise (invalid_number_at 1 2)
  /\ lexemes (lit "01") = Raise (invalid_number_at 1 2)
  /\ lexemes (lit "0")
     = Ok [number_lexeme (mkTextPos 1 1) NUMBER_INT (lit "0") NT_INTEGER]
  /\ lexemes (lit "-0")
     = Ok [number_lexeme (mkTextPos 1 1) NUMBER_INT (lit "-0") NT_INTEGER]
  /\ lexemes (lit "0.0")
     = Ok [number_lexeme (mkTextPos 1 1) NUMBER_DECIMAL (lit "0.0") NT_DECIMAL]
  /\ lexemes (lit "-0.0e-0")
     = Ok [number_lexeme (mkTextPos 1 1) NUMBER_FLOAT (lit "-0.0e-0") NT_FLOAT].
Proof. repeat split; vm_compute; reflexivity. Qed.

(** C4.  The leading-zero rule compares the accumulated text with ["0"], so
    it misses the text ["-0"]: after a minus sign and a single 0 a further
    digit is accepted, and [-01] is an integer lexeme. *)
Theorem leading_zero_after_minus_accepted :
  (forall np d,
      np_accepting_type np = NT_INTEGER -> np_value np = lit "-0" ->
      isdigit d = true -> fst (read_char np (Some d)) = true)
  /\ lexemes (lit "-01")
     = Ok [number_lexeme (mkTextPos 1 1) NUMBER_INT (lit "-01") NT_INTEGER].
Proof.
  split; [|vm_compute; reflexivity].
  intros np d Hacc Hval Hd. unfold read_char.
  rewrite !(@c_is_digit_other d _ Hd) by reflexivity. simpl c_isdigit. rewrite Hd, Hacc, Hval.
  rewrite andb_false_r. reflexivity.
Qed.

Lemma leading_zero_after_minus_accepted_witness :
  fst (read_char (mkNumericParser 2 1 NT_INTEGER NT_INTEGER (lit "-0"))
                 (Some (ch "1"))) = true.
Proof.
  apply (proj1 leading_zero_after_minus_accepted); reflexivity.
Defined.

(** A minus sign that is not the first character of the number or of its
    exponent is reported as read and leaves the machine as it was. *)
Lemma read_char_minus_inside (np : NumericParser) :
  np_char_count np <> 0 -> read_char np (Some (ch "-")) = (true, np).
Proof.
  intros Hcount. unfold read_char. simpl.
  destruct (Nat.eqb_spec (np_char_count np) 0); [contradiction | reflexivity].
Qed.

(** C5.  [read_char] has no [else] branch for a minus sign inside a number:
    it returns true without appending the sign, so [1-2] is scanned as the
    single integer with text [12]. *)
Theorem minus_inside_number_is_dropped :
  read_char (mkNumericParser 1 1 NT_INTEGER NT_INTEGER (lit "1"))
            (Some (ch "-"))
  = (true, mkNumericParser 1 1 NT_INTEGER NT_INTEGER (lit "1"))
  /\ lexemes (lit "1-2")
     = Ok [number_lexeme (mkTextPos 1 1) NUMBER_INT (lit "12") NT_INTEGER].
Proof. split; vm_compute; reflexivity. Qed.

Example invalid_number_examples :
  lexemes (lit "1e") = Raise (invalid_number_at 1 2)
  /\ lexemes (lit "1eA") = Raise (invalid_number_at 1 3)
  /\ lexemes (lit "1e-1A") = Raise (invalid_number_at 1 5)
  /\ lexemes (lit "123.") = Raise (invalid_number_at 1 4)
  /\ lexemes (lit "1e-") = Raise (invalid_number_at 1 3)
  /\ lexemes (lit "-") = Raise (invalid_number_at 1 1).
Proof. repeat split; vm_compute; reflexivity. Qed.

(** C7.  When the input ends right after a minus sign that follows a digit,
    the sign has been dropped by [read_char] and the number read so far is
    returned: no invalid-number error is raised. *)
Theorem number_ending_in_minus_is_accepted :
  lexemes (lit "1-")
  = Ok [number_lexeme (mkTextPos 1 1) NUMBER_INT (lit "1") NT_INTEGER]
  /\ lexemes (lit "1.5-")
     = Ok [number_lexeme (mkTextPos 1 1) NUMBER_DECIMAL (lit "1.5") NT_DECIMAL].
Proof. split; vm_compute; reflexivity. Qed.

(** ** Errors of other kinds *)

(** The text ["\u12²4"]: a quoted string whose escape has the superscript
    two U+00B2 among its four characters. *)
Definition escape_with_superscript : str :=
  [QUOTE; BACKSLASH] ++ lit "u12" ++ [178%N] ++ lit "4" ++ [QUOTE].

(** C9.  [is_hex_digit] accepts every character of [str.isdigit], also those
    that [int(value, base = 16)] cannot read: on such an escape the lexer
    leaves [run] with a [ValueError], whatever the handler. *)
Theorem run_raises_ValueError :
  is_hex_digit (Some 178%N) = true
  /\ int_base16 (lit "12" ++ [178%N] ++ lit "4") = Raise ValueError
  /\ forall (H : Type) (handler_intf : SAXHandlerIntf H) (h : H),
       run escape_with_superscript h = Raise ValueError.
Proof.
  split; [reflexivity|]. split; [reflexivity|].
  intros H handler_intf h. unfold run, parse_doc, bind, next_lexeme.
  cbn [lexer SAXParser_init].
  replace (Lexer_next_lexeme (Lexer_init escape_with_superscript))
    with (@Raise (option Lexeme * Lexer) ValueError)
    by (vm_compute; reflexivity).
  reflexivity.
Qed.

(** ** Unclosed containers *)

(** C2.  [parse_array] reports an unclosed array at the current position of
    the lexer, where [parse_object] keeps the position of the opening brace:
    for [[1] the error is at column 2, behind the bracket of column 1. *)
Theorem unclosed_array_position :
  lexemes (lit "[1")
  = Ok [mkLexeme (mkTextPos 1 1) BEGIN_ARRAY (lit "[") LT_UNKNOWN NT_UNKNOWN;
        number_lexeme (mkTextPos 1 2) NUMBER_INT (lit "1") NT_INTEGER]
  /\ run (lit "[1") SimpleStack_init
     = Raise (JSONParserError (mkTextPos 1 2) ERR_UNCLOSED_ARRAY [])
  /\ run (lit "[1 2") SimpleStack_init
     = Raise (JSONParserError (mkTextPos 1 4) ERR_UNCLOSED_ARRAY [])
  /\ run (lit "{" ++ [QUOTE] ++ lit "a" ++ [QUOTE] ++ lit ":1") SimpleStack_init
     = Raise (JSONParserError (mkTextPos 1 1) ERR_UNCLOSED_OBJECT []).
Proof. repeat split; vm_compute; reflexivity. Qed.

Example unclosed_array_at_bracket :
  run (lit "[") SimpleStack_init
  = Raise (JSONParserError (mkTextPos 1 1) ERR_UNCLOSED_ARRAY [])
  /\ run (lit "[[") SimpleStack_init
     = Raise (JSONParserError (mkTextPos 1 2) ERR_UNCLOSED_ARRAY []).
Proof. split; vm_compute; reflexivity. Qed.

(** ** Unicode escapes *)

Definition ASCII_HEX : list char := lit "0123456789abcdefABCDEF".

Definition is_ascii_hex (x : char) : bool := char_in x ASCII_HEX.

Definition ascii_hex_value (x : char) : N :=
  if (x <=? ch "9")%N then (x - ch "0")%N
  else if (x <=? ch "F")%N then (x - ch "A" + 10)%N
  else (x - ch "a" + 10)%N.

(** The code point written by four hexadecimal digits. *)
Definition code_point (h1 h2 h3 h4 : char) : N :=
  (4096 * ascii_hex_value h1 + 256 * ascii_hex_value h2
   + 16 * ascii_hex_value h3 + ascii_hex_value h4)%N.

Lemma char_in_In (x : char) (l : list char) :
  char_in x l = true <-> In x l.
Proof.
  unfold char_in. rewrite existsb_exists. split.
  - intros (y & Hy & Heq). apply N.eqb_eq in Heq. subst. exact Hy.
  - intros Hin. exists x. split; [exact Hin | apply N.eqb_refl].
Qed.

Lemma ascii_hex_facts (x : char) :
  is_ascii_hex x = true ->
  is_hex_digit (Some x) = true
  /\ hex_value x = Some (ascii_hex_value x)
  /\ N.eqb x LF = false.
Proof.
  intros Hx. apply char_in_In in Hx.
  assert (Hall : forallb (fun y => is_hex_digit (Some y)
                          && match hex_value y with
                             | Some v => N.eqb v (ascii_hex_value y)
                             | None => false
                             end
                          && negb (N.eqb y LF)) ASCII_HEX = true)
    by (vm_compute; reflexivity).
  rewrite forallb_forall in Hall. specialize (Hall x Hx).
  apply andb_prop in Hall. destruct Hall as [Hall Hlf].
  apply andb_prop in Hall. destruct Hall as [Hhex Hval].
  split; [exact Hhex|]. split.
  - destruct (hex_value x) as [v|]; [|discriminate].
    apply N.eqb_eq in Hval. congruence.
  - apply negb_true_iff. exact Hlf.
Qed.

Lemma not_hex_digit (x : char) :
  is_ascii_hex x = false -> isdigit x = false -> is_hex_digit (Some x) = false.
Proof.
  intros Hx Hd. unfold is_hex_digit, c_isdigit, c_in. rewrite Hd. cbn [orb].
  destruct (char_in x HEX_DIGITS) eqn:Hin; [|reflexivity].
  apply char_in_In in Hin.
  assert (Hall : forallb is_ascii_hex HEX_DIGITS = true)
    by (vm_compute; reflexivity).
  rewrite forallb_forall in Hall. rewrite (Hall x Hin) in Hx. discriminate.
Qed.

Lemma next_char_set_c_accepted b L x rd :
  reader L = x :: rd ->
  next_char (set_c_accepted b L) = next_char L.
Proof.
  intros Hrd. rewrite (next_char_more L Hrd).
  rewrite (next_char_more (set_c_accepted b L) (x := x) (rd := rd)) by exact Hrd.
  reflexivity.
Qed.

(** The position [n] columns further on the same line. *)
Definition right_of (p : TextPos) (n : nat) : TextPos :=
  mkTextPos (line p) (col p + n).

Lemma advance_not_LF (x : char) (p : TextPos) :
  N.eqb x LF = false -> advance (Some x) p = right_of p 1.
Proof.
  intros Hx. unfold advance, right_of. simpl. rewrite Hx.
  rewrite Nat.add_1_r. reflexivity.
Qed.

Lemma right_of_right_of p n m : right_of (right_of p n) m = right_of p (n + m).
Proof. unfold right_of. simpl. rewrite Nat.add_assoc. reflexivity. Qed.

(** Four hexadecimal digits are read and decoded. *)
Lemma handle_escaped_char_decodes start L h1 h2 h3 h4 rest :
  reader L = h1 :: h2 :: h3 :: h4 :: rest ->
  is_ascii_hex h1 = true -> is_ascii_hex h2 = true ->
  is_ascii_hex h3 = true -> is_ascii_hex h4 = true ->
  handle_escaped_char start L
  = Ok ([code_point h1 h2 h3 h4],
        mkLexer rest false (initial L) (Some h4) true
                (right_of (advance (c L) (pos L)) 3)).
Proof.
  intros Hrd H1 H2 H3 H4.
  destruct (@ascii_hex_facts h1 H1) as (Hd1 & Hv1 & Hl1).
  destruct (@ascii_hex_facts h2 H2) as (Hd2 & Hv2 & Hl2).
  destruct (@ascii_hex_facts h3 H3) as (Hd3 & Hv3 & Hl3).
  destruct (@ascii_hex_facts h4 H4) as (Hd4 & Hv4 & Hl4).
  destruct L as [rd e i prev a p]. simpl in Hrd. subst rd.
  unfold handle_escaped_char, bind at 1.
  assert (Hloop : handle_escaped_char_loop 4 start []
                    (mkLexer (h1 :: h2 :: h3 :: h4 :: rest) e i prev a p)
                  = Ok ([h1; h2; h3; h4],
                        mkLexer rest false i (Some h4) true
                                (right_of (advance prev p) 3))).
  { cbn [handle_escaped_char_loop].
    unfold bind, total, gets, modify, ret.
    rewrite (next_char_more _ (x := h1) (rd := h2 :: h3 :: h4 :: rest)) by reflexivity.
    cbn [c set_c_accepted reader eof initial pos c_accepted]. rewrite Hd1.
    cbn [andb negb].
    rewrite (next_char_more _ (x := h2) (rd := h3 :: h4 :: rest)) by reflexivity.
    cbn [c set_c_accepted reader eof initial pos c_accepted]. rewrite Hd2.
    cbn [andb negb].
    rewrite (next_char_more _ (x := h3) (rd := h4 :: rest)) by reflexivity.
    cbn [c set_c_accepted reader eof initial pos c_accepted]. rewrite Hd3.
    cbn [andb negb].
    rewrite (next_char_more _ (x := h4) (rd := rest)) by reflexivity.
    cbn [c set_c_accepted reader eof initial pos c_accepted]. rewrite Hd4.
    cbn [andb negb c_str app].
    rewrite (@advance_not_LF h1 _ Hl1), (@advance_not_LF h2 _ Hl2),
      (@advance_not_LF h3 _ Hl3), !right_of_right_of.
    reflexivity. }
  rewrite Hloop. unfold int_base16. cbn [int_base16_from].
  rewrite Hv1, Hv2, Hv3, Hv4. unfold chr, code_point. cbn [c pos initial].
  do 3 f_equal. lia.
Qed.

(** A missing character, or one that [is_hex_digit] refuses, among the [n]
    characters to read. *)
Definition escape_cut_short (n : nat) (tail : str) : Prop :=
  length tail < n
  \/ exists x, In x (firstn n tail) /\ is_hex_digit (Some x) = false.

Lemma handle_escaped_char_loop_fails n start value L :
  escape_cut_short n (reader L) ->
  handle_escaped_char_loop n start value L
  = Raise (JSONParserError start ERR_UNALLOWED_ESCAPE_SEQ []).
Proof.
  revert value L. induction n as [|n IH]; intros value L Hcut.
  - destruct Hcut as [Hlen|(x & Hin & _)]; [inversion Hlen | destruct Hin].
  - cbn [handle_escaped_char_loop]. unfold bind, total, gets, modify.
    destruct (reader L) as [|y tail] eqn:Hrd.
    + rewrite (next_char_end L Hrd). reflexivity.
    + rewrite (next_char_more L Hrd). cbn [c andb].
      destruct (is_hex_digit (Some y)) eqn:Hy; [|reflexivity].
      cbn [negb]. apply IH. cbn [set_c_accepted reader].
      destruct Hcut as [Hlen|(x & Hin & Hx)].
      * left. simpl in Hlen. lia.
      * right. exists x. split; [|exact Hx].
        simpl in Hin. destruct Hin as [->|Hin]; [congruence | exact Hin].
Qed.

Lemma string_loop_escape fuel start value L rest k :
  reader L = BACKSLASH :: ch "u" :: rest ->
  (forall L2, reader L2 = rest -> initial L2 = initial L ->
              c L2 = Some (ch "u") ->
              pos L2 = right_of (advance (c L) (pos L)) 1 ->
     bind (handle_escaped_char (advance (c L) (pos L)))
          (fun decoded => handle_string_loop fuel start (value ++ decoded)) L2
     = k) ->
  handle_string_loop (S fuel) start value L = k.
Proof.
  intros Hrd Hk. cbn [handle_string_loop].
  unfold bind at 1, total. rewrite (next_char_more L Hrd).
  unfold bind at 1, gets at 1. cbn [c].
  change (c_is (Some BACKSLASH) QUOTE) with false.
  change (c_is (Some BACKSLASH) BACKSLASH) with true. cbn iota.
  unfold bind at 1, gets at 1. cbn [pos].
  unfold bind at 1, total.
  rewrite (next_char_more _ (x := ch "u") (rd := rest)) by reflexivity.
  cbn [negb].
  unfold bind at 1, gets at 1. cbn [c].
  change (c_get ESCAPE_CHARS (Some (ch "u"))) with (@None char).
  change (c_is (Some (ch "u")) (ch "u")) with true. cbn iota.
  apply Hk; try reflexivity.
  cbn [pos c initial]. apply advance_not_LF. reflexivity.
Qed.

(** The input ["\u123"]: an escape with three hexadecimal digits. *)
Definition escape_three_digits : str :=
  [QUOTE; BACKSLASH] ++ lit "u123" ++ [QUOTE].

(** C6 (as stated).  The error of a short escape is not at the [u]
    (column 3) but at the backslash in front of it (column 2). *)
Lemma unallowed_escape_not_at_u :
  nth_error escape_three_digits 1 = Some BACKSLASH
  /\ hand_pos (firstn 2 escape_three_digits) = mkTextPos 1 2
  /\ nth_error escape_three_digits 2 = Some (ch "u")
  /\ hand_pos (firstn 3 escape_three_digits) = mkTextPos 1 3
  /\ lexemes escape_three_digits
     = Raise (JSONParserError (mkTextPos 1 2) ERR_UNALLOWED_ESCAPE_SEQ [])
  /\ lexemes escape_three_digits
     <> Raise (JSONParserError (hand_pos (firstn 3 escape_three_digits))
                               ERR_UNALLOWED_ESCAPE_SEQ []).
Proof.
  repeat split; try (vm_compute; reflexivity).
  vm_compute. discriminate.
Qed.

(** C6 (amended).  Inside a string token, a backslash and [u] followed by
    four hexadecimal digits add the single character with that code point
    to the value of the string and the scan goes on behind them; when one of
    the four characters is missing, or is neither a hexadecimal digit nor a
    digit of [str.isdigit], the lexer raises the unallowed-escape-sequence
    error at the position of the backslash. *)
Theorem unicode_escape fuel start value L :
  (forall h1 h2 h3 h4 rest,
      reader L = BACKSLASH :: ch "u" :: h1 :: h2 :: h3 :: h4 :: rest ->
      is_ascii_hex h1 = true -> is_ascii_hex h2 = true ->
      is_ascii_hex h3 = true -> is_ascii_hex h4 = true ->
      handle_string_loop (S fuel) start value L
      = handle_string_loop fuel start (value ++ [code_point h1 h2 h3 h4])
          (mkLexer rest false (initial L) (Some h4) true
                   (right_of (pos (consume 1 L)) 5)))
  /\ (forall tail,
        reader L = BACKSLASH :: ch "u" :: tail ->
        (length tail < 4
         \/ exists x, In x (firstn 4 tail)
                      /\ is_ascii_hex x = false /\ isdigit x = false) ->
        handle_string_loop (S fuel) start value L
        = Raise (JSONParserError (pos (consume 1 L))
                                 ERR_UNALLOWED_ESCAPE_SEQ [])).
Proof.
  split.
  - intros h1 h2 h3 h4 rest Hrd H1 H2 H3 H4.
    eapply string_loop_escape; [exact Hrd|]. intros L2 Hrd2 Hi2 Hc2 Hp2.
    unfold bind.
    rewrite (@handle_escaped_char_decodes _ L2 h1 h2 h3 h4 rest Hrd2 H1 H2 H3 H4).
    rewrite Hc2, Hp2, Hi2.
    rewrite (@advance_not_LF (ch "u") _ eq_refl), !right_of_right_of.
    cbn [consume]. rewrite (next_char_more L Hrd). reflexivity.
  - intros tail Hrd Hcut.
    eapply string_loop_escape; [exact Hrd|]. intros L2 Hrd2 Hi2 Hc2 Hp2.
    cbn [consume]. rewrite (next_char_more L Hrd). cbn [snd pos].
    apply bind_Raise. unfold handle_escaped_char. apply bind_Raise.
    apply handle_escaped_char_loop_fails. rewrite Hrd2.
    destruct Hcut as [Hlen|(x & Hin & Hx & Hd)]; [left; exact Hlen|].
    right. exists x. split; [exact Hin | apply not_hex_digit; assumption].
Qed.

Lemma unicode_escape_witness :
  handle_string_loop 2 (mkTextPos 1 1) []
    (mkLexer ([BACKSLASH] ++ lit "u1234" ++ [QUOTE]) false false
             (Some QUOTE) false (mkTextPos 1 1))
  = handle_string_loop 1 (mkTextPos 1 1) [4660%N]
      (mkLexer [QUOTE] false false (Some (ch "4")) true (mkTextPos 1 7))
  /\ handle_string_loop 2 (mkTextPos 1 1) []
       (mkLexer ([BACKSLASH] ++ lit "u123" ++ [QUOTE]) false false
                (Some QUOTE) false (mkTextPos 1 1))
     = Raise (JSONParserError (mkTextPos 1 2) ERR_UNALLOWED_ESCAPE_SEQ []).
Proof.
  split.
  - apply (proj1 (unicode_escape 1 (mkTextPos 1 1) []
             (mkLexer ([BACKSLASH] ++ lit "u1234" ++ [QUOTE]) false false
                      (Some QUOTE) false (mkTextPos 1 1)))
             (ch "1") (ch "2") (ch "3") (ch "4") [QUOTE]); reflexivity.
  - apply (proj2 (unicode_escape 1 (mkTextPos 1 1) []
             (mkLexer ([BACKSLASH] ++ lit "u123" ++ [QUOTE]) false false
                      (Some QUOTE) false (mkTextPos 1 1)))
             (lit "123" ++ [QUOTE])); [reflexivity|].
    right. exists QUOTE. split; [|split; reflexivity].
    simpl. auto.
Defined.

Example unicode_escape_examples :
  lexemes ([QUOTE; BACKSLASH] ++ lit "u1234" ++ [QUOTE])
  = Ok [mkLexeme (mkTextPos 1 1) STRING [4660%N] LT_UNKNOWN NT_UNKNOWN]
  /\ lexemes ([QUOTE; BACKSLASH] ++ lit "uABCD" ++ [BACKSLASH] ++ lit "u123H"
              ++ [QUOTE])
     = Raise (JSONParserError (mkTextPos 1 8) ERR_UNALLOWED_ESCAPE_SEQ [])
  /\ lexemes ([QUOTE; BACKSLASH] ++ lit "u12")
     = Raise (JSONParserError (mkTextPos 1 2) ERR_UNALLOWED_ESCAPE_SEQ []).
Proof. repeat split; vm_compute; reflexivity. Qed.

(** ** The basic handler: what a run leaves on the stack *)

Lemma triple_keep {S A} (P : S -> Prop) (f : S -> A) E :
  triple P (gets f) (fun _ s => P s) E.
Proof. intros s Hs. exact Hs. Qed.

Lemma triple_exists {S A X} (P : X -> S -> Prop) (m : M S A) Q E :
  (forall x, triple (P x) m Q E) ->
  triple (fun s => exists x, P x s) m Q E.
Proof. intros Hm s [x Hs]. apply (Hm x s Hs). Qed.

(** The items that the members of an object leave on the stack: for each
    member its value above its name, the last member on top. *)
Fixpoint member_items (members : list (str * pyval)) : list pyval :=
  match members with
  | [] => []
  | (k, v) :: members' => v :: PyStr k :: member_items members'
  end.

Lemma member_items_app (a b : list (str * pyval)) :
  member_items (a ++ b) = member_items a ++ member_items b.
Proof.
  induction a as [|[k v] a IH]; simpl; [reflexivity|]. rewrite IH. reflexivity.
Qed.

Lemma member_items_length (a : list (str * pyval)) :
  length (member_items a) = length a * 2.
Proof. induction a as [|[k v] a IH]; simpl; [reflexivity|]. rewrite IH. lia. Qed.

(** [obj[name] = value] for each member in turn. *)
Definition dict_of (obj : list (str * pyval)) (members : list (str * pyval))
  : list (str * pyval) :=
  fold_left (fun o kv => dict_set o (fst kv) (snd kv)) members obj.

Lemma pop_members_items (members : list (str * pyval)) obj (s : SimpleStack) :
  pop_members (length members) obj (member_items members ++ s)
  = Ok (dict_of obj members, s).
Proof.
  revert obj. induction members as [|[k v] members IH]; intros obj; simpl.
  - reflexivity.
  - apply IH.
Qed.

Lemma pop_elements_items (items : list pyval) array (s : SimpleStack) :
  pop_elements (length items) array (items ++ s) = Ok (rev items ++ array, s).
Proof.
  revert array. induction items as [|v items IH]; intros array; simpl.
  - reflexivity.
  - rewrite IH, <- app_assoc. reflexivity.
Qed.

Lemma basic_on_end_array_items (items : list pyval) (s : SimpleStack) :
  basic_on_end_array (length items) (items ++ s)
  = Ok (PyList (rev items) :: s).
Proof.
  unfold basic_on_end_array, size.
  destruct (Nat.ltb_spec (length (items ++ s)) (length items)) as [Hlt|_].
  - rewrite length_app in Hlt. lia.
  - rewrite pop_elements_items, app_nil_r. reflexivity.
Qed.

Lemma basic_on_end_object_items (members : list (str * pyval))
      (s : SimpleStack) :
  basic_on_end_object (length members) (member_items members ++ s)
  = Ok (PyDict (dict_of [] members) :: s).
Proof.
  unfold basic_on_end_object, size.
  destruct (Nat.ltb_spec (length (member_items members ++ s))
                         (length members * 2)) as [Hlt|_].
  - rewrite length_app, member_items_length in Hlt. lia.
  - rewrite pop_members_items. reflexivity.
Qed.

Lemma triple_pure {S A} (P : S -> Prop) (phi : Prop) (m : M S A) Q E :
  (phi -> triple P m Q E) -> triple (fun s => P s /\ phi) m Q E.
Proof. intros Hm s [Hs Hphi]. apply (Hm Hphi s Hs). Qed.

Section BasicRun.

Variable input : str.
Variable low : nat.

Definition curr_ok (P : SAXParser SimpleStack) : Prop :=
  match curr P with
  | Some lx => is_literal_token (token lx) = true -> literal_kind lx <> LT_UNKNOWN
  | None => True
  end.

(** The lexer is on the input and the stack is [h]. *)
Definition at_stack (h : SimpleStack) (P : SAXParser SimpleStack) : Prop :=
  tracked input low (lexer P) /\ curr_ok P /\ handler P = h.

Definition pushed_one (h : SimpleStack) (P : SAXParser SimpleStack) : Prop :=
  exists v, at_stack (v :: h) P.

Local Abbreviation raises := (exn_on_input input low).

Lemma basic_next_lexeme h :
  triple (at_stack h) next_lexeme (fun _ P => at_stack h P) raises.
Proof.
  intros P (HL & Hcurr & Hh). unfold next_lexeme.
  pose proof (tracked_Lexer_next_lexeme HL) as Hnext.
  destruct (Lexer_next_lexeme (lexer P)) as [[[lx|] L1]|e|]; auto.
  - destruct Hnext as [HL1 [_ Hkind]]. repeat split; auto.
  - destruct Hnext as [HL1 _]. repeat split; auto.
Qed.

Lemma basic_raise_here {A} h msg_id args (Q : A -> _ -> Prop) :
  triple (at_stack h) (raise_here msg_id args) Q raises.
Proof. intros P (HL & _ & _). simpl. apply (tracked_pos HL). Qed.

Lemma basic_call h (f : SimpleStack -> Res SimpleStack) :
  triple (at_stack h) (call f)
         (fun _ P => exists h', f h = Ok h' /\ at_stack h' P)
         (fun e => f h = Raise e).
Proof.
  intros P (HL & Hcurr & Hh). unfold call. rewrite Hh.
  destruct (f h) as [h'| |]; auto.
  exists h'. repeat split; auto.
Qed.

Lemma basic_call_ok h h' (f : SimpleStack -> Res SimpleStack) :
  f h = Ok h' ->
  triple (at_stack h) (call f) (fun _ P => at_stack h' P) raises.
Proof.
  intros Hf P HP. pose proof (basic_call f HP) as Hcall.
  destruct (call f P) as [[[] P']|e|]; auto.
  - destruct Hcall as (h2 & Hf2 & HP'). congruence.
  - congruence.
Qed.

Lemma basic_parse_literal h :
  triple (at_stack h) parse_literal (fun _ P => pushed_one h P) raises.
Proof.
  intros P HP. unfold parse_literal.
  pose proof HP as (_ & Hcurr & _). unfold curr_ok in Hcurr.
  destruct (curr P) as [lx|]; [|apply (basic_raise_here _ _ _ HP)].
  destruct (is_literal_token (token lx)); [|apply (basic_raise_here _ _ _ HP)].
  specialize (Hcurr eq_refl).
  pose proof (basic_call (on_literal (literal_kind lx) (text lx)) HP) as Hcall.
  destruct (call _ P) as [[[] P']|e|]; auto.
  - destruct Hcall as (h' & Hf & HP'). simpl in Hf. unfold basic_on_literal in Hf.
    destruct (literal_kind lx); inversion Hf; subst; eexists; exact HP'.
  - simpl in Hcall. unfold basic_on_literal in Hcall.
    destruct (literal_kind lx); try discriminate. congruence.
Qed.

Lemma basic_on_number_pushes kind t h :
  kind <> NT_UNKNOWN ->
  match basic_on_number kind t h with
  | Ok h' => exists v, h' = v :: h
  | Raise e => e = ValueError
  | OutOfFuel => True
  end.
Proof.
  intros Hkind. unfold basic_on_number, py_int, py_float.
  destruct kind; try congruence.
  - destruct (strip_sign t) as [neg ds]. destruct ds; [reflexivity|].
    destruct (decimal_from _ _); [eexists|]; reflexivity.
  - destruct (float_literal t); [eexists|]; reflexivity.
  - destruct (float_literal t); [eexists|]; reflexivity.
Qed.

Lemma basic_call_number h kind t :
  kind <> NT_UNKNOWN ->
  triple (at_stack h) (call (on_number kind t)) (fun _ P => pushed_one h P)
         raises.
Proof.
  intros Hkind P HP.
  pose proof (basic_call (on_number kind t) HP) as Hcall.
  pose proof (basic_on_number_pushes t h Hkind) as Hnum.
  destruct (call _ P) as [[[] P']|e|]; auto.
  - destruct Hcall as (h' & Hf & HP'). simpl in Hf. rewrite Hf in Hnum.
    destruct Hnum as [v ->]. exists v. exact HP'.
  - simpl in Hcall. rewrite Hcall in Hnum. subst e. exact I.
Qed.

Lemma basic_parse_number h :
  triple (at_stack h) parse_number (fun _ P => pushed_one h P) raises.
Proof.
  intros P HP. unfold parse_number.
  destruct (curr P) as [lx|]; [|apply (basic_raise_here _ _ _ HP)].
  destruct (existsb _ _).
  - apply (@basic_call_number h NT_FLOAT (text lx)); [discriminate | exact HP].
  - destruct (Token_eqb (token lx) NUMBER_INT);
      [|apply (basic_raise_here _ _ _ HP)].
    apply (@basic_call_number h NT_INTEGER (text lx)); [discriminate | exact HP].
Qed.

Lemma basic_parse_string h :
  triple (at_stack h) parse_string (fun _ P => pushed_one h P) raises.
Proof.
  intros P HP. unfold parse_string.
  destruct (curr P) as [lx|]; [|apply (basic_raise_here _ _ _ HP)].
  destruct (Token_eqb (token lx) STRING); [|apply (basic_raise_here _ _ _ HP)].
  pose proof (@basic_call_ok h (PyStr (text lx) :: h) (on_string (text lx))
                eq_refl P HP) as Hcall.
  destruct (call _ P) as [[[] P']|e|]; auto. exists (PyStr (text lx)). exact Hcall.
Qed.

Section BasicContainers.

Variable parse_value_rec : ParM SimpleStack unit.

Hypothesis parse_value_rec_pushes :
  forall h, triple (at_stack h) parse_value_rec (fun _ P => pushed_one h P)
                   raises.

Lemma basic_parse_array_items_loop fuel count h :
  triple (at_stack h) (parse_array_items_loop parse_value_rec fuel count)
         (fun n P => exists items,
                       at_stack (items ++ h) P /\ n = count + length items)
         raises.
Proof.
  revert count h. induction fuel as [|fuel IH]; intros count h.
  - apply triple_out_of_fuel.
  - cbn [parse_array_items_loop].
    eapply triple_bind; [apply parse_value_rec_pushes|]. intros [].
    apply triple_exists. intros v.
    eapply triple_bind; [apply basic_next_lexeme|]. intros ok.
    eapply triple_bind; [apply triple_keep|]. intros sep.
    eapply triple_bind with (Q := fun _ P => at_stack (v :: h) P).
    { destruct (ok && sep); [|apply triple_ret; auto].
      eapply triple_bind; [apply basic_next_lexeme|]. intros ok'.
      destruct (negb ok'); [apply basic_raise_here | apply triple_ret; auto]. }
    intros [].
    destruct (ok && sep).
    + eapply triple_weaken; [apply (IH (S count) (v :: h)) | auto | | auto].
      intros n P (items & HP & ->). exists (items ++ [v]).
      rewrite <- app_assoc, length_app. simpl. split; [exact HP | lia].
    + apply triple_ret. intros P HP. exists [v]. simpl. split; [exact HP | lia].
Qed.

Lemma basic_parse_array fuel h :
  triple (at_stack h) (parse_array parse_value_rec fuel)
         (fun _ P => pushed_one h P) raises.
Proof.
  unfold parse_array.
  eapply triple_bind; [apply triple_keep|]. intros is_array.
  destruct (negb is_array); [apply basic_raise_here|].
  eapply triple_bind; [apply (@basic_call_ok h h (@on_begin_array _ SAXHandlerBasic) eq_refl)|].
  intros [].
  eapply triple_bind; [apply basic_next_lexeme|]. intros ok.
  eapply triple_bind; [apply triple_keep|]. intros closed.
  eapply triple_bind
    with (Q := fun n P => exists items,
                 at_stack (items ++ h) P /\ n = 0 + length items).
  { destruct (ok && negb closed).
    - apply basic_parse_array_items_loop.
    - apply triple_ret. intros P HP. exists []. auto. }
  intros n. apply triple_exists. intros items. apply triple_pure. intros ->.
  eapply triple_bind; [apply triple_keep|]. intros closed'.
  destruct closed'; [|apply basic_raise_here].
  eapply triple_weaken;
    [apply (@basic_call_ok (items ++ h) _ (@on_end_array _ SAXHandlerBasic (0 + length items))
              (basic_on_end_array_items items h)) | auto | | auto].
  intros [] P HP. eexists. exact HP.
Qed.

Lemma basic_parse_object_members_loop fuel count h :
  triple (at_stack h) (parse_object_members_loop parse_value_rec fuel count)
         (fun n P => exists members,
                       at_stack (member_items members ++ h) P
                       /\ n = count + length members)
         raises.
Proof.
  revert count h. induction fuel as [|fuel IH]; intros count h.
  - apply triple_out_of_fuel.
  - cbn [parse_object_members_loop].
    eapply triple_bind; [apply triple_keep|]. intros is_name.
    destruct (negb is_name); [apply basic_raise_here|].
    eapply triple_bind; [apply triple_keep|]. intros name.
    set (k := match name with Some s => s | None => [] end).
    eapply triple_bind;
      [apply (@basic_call_ok h (PyStr k :: h)
                (@on_member_name _ SAXHandlerBasic k) eq_refl)|].
    intros [].
    eapply triple_bind; [apply basic_next_lexeme|]. intros ok.
    eapply triple_bind; [apply triple_keep|]. intros is_sep.
    destruct (negb ok || negb is_sep); [apply basic_raise_here|].
    eapply triple_bind; [apply basic_next_lexeme|]. intros ok'.
    destruct (negb ok'); [apply basic_raise_here|].
    eapply triple_bind; [apply parse_value_rec_pushes|]. intros [].
    apply triple_exists. intros v.
    eapply triple_bind; [apply basic_next_lexeme|]. intros ok''.
    eapply triple_bind; [apply triple_keep|]. intros sep.
    eapply triple_bind with (Q := fun _ P => at_stack (v :: PyStr k :: h) P).
    { destruct (ok'' && sep); [|apply triple_ret; auto].
      eapply triple_bind; [apply basic_next_lexeme|]. intros ok3.
      destruct (negb ok3); [apply basic_raise_here | apply triple_ret; auto]. }
    intros [].
    destruct (ok'' && sep).
    + eapply triple_weaken;
        [apply (IH (S count) (v :: PyStr k :: h)) | auto | | auto].
      intros n P (members & HP & ->). exists (members ++ [(k, v)]).
      rewrite member_items_app, <- app_assoc, length_app. simpl.
      split; [exact HP | lia].
    + apply triple_ret. intros P HP. exists [(k, v)]. simpl.
      split; [exact HP | lia].
Qed.

Lemma basic_parse_object fuel h :
  triple (at_stack h) (parse_object parse_value_rec fuel)
         (fun _ P => pushed_one h P) raises.
Proof.
  unfold parse_object.
  eapply triple_bind; [apply triple_keep|]. intros is_object.
  destruct (negb is_object); [apply basic_raise_here|].
  eapply triple_bind
    with (Q := fun p P => at_stack h P /\ on_input input low p).
  { intros P HP. simpl. split; [exact HP|].
    destruct HP as (HL & _). apply (tracked_pos HL). }
  intros start_pos. apply triple_pure. intros Hstart.
  eapply triple_bind; [apply (@basic_call_ok h h (@on_begin_object _ SAXHandlerBasic) eq_refl)|].
  intros [].
  eapply triple_bind; [apply basic_next_lexeme|]. intros ok.
  eapply triple_bind; [apply triple_keep|]. intros closed.
  eapply triple_bind
    with (Q := fun n P => exists members,
                 at_stack (member_items members ++ h) P
                 /\ n = 0 + length members).
  { destruct (ok && negb closed).
    - apply basic_parse_object_members_loop.
    - apply triple_ret. intros P HP. exists []. auto. }
  intros n. apply triple_exists. intros members. apply triple_pure. intros ->.
  eapply triple_bind; [apply triple_keep|]. intros closed'.
  destruct closed'; [|apply triple_raise; intros; exact Hstart].
  eapply triple_weaken;
    [apply (@basic_call_ok (member_items members ++ h) _
              (@on_end_object _ SAXHandlerBasic (0 + length members))
              (basic_on_end_object_items members h)) | auto | | auto].
  intros [] P HP. eexists. exact HP.
Qed.

End BasicContainers.

(** Whatever the tokens, a value that is parsed leaves exactly one item on
    the stack; what is raised is a parser error on the input or the
    [ValueError] of a conversion. *)
Lemma basic_parse_value fuel h :
  triple (at_stack h) (parse_value fuel) (fun _ P => pushed_one h P) raises.
Proof.
  revert h. induction fuel as [|fuel IH]; intros h.
  - apply triple_out_of_fuel.
  - cbn [parse_value].
    eapply triple_bind; [apply triple_keep|]. intros is_array.
    destruct is_array; [apply basic_parse_array; exact IH|].
    eapply triple_bind; [apply triple_keep|]. intros is_object.
    destruct is_object; [apply basic_parse_object; exact IH|].
    eapply triple_bind; [apply triple_keep|]. intros is_lit.
    destruct is_lit; [apply basic_parse_literal|].
    eapply triple_bind; [apply triple_keep|]. intros is_num.
    destruct is_num; [apply basic_parse_number|].
    eapply triple_bind; [apply triple_keep|]. intros is_str.
    destruct is_str; [apply basic_parse_string | apply basic_raise_here].
Qed.

Lemma basic_expect_end h :
  triple (at_stack h) expect_end (fun _ P => at_stack h P) raises.
Proof.
  unfold expect_end.
  eapply triple_bind; [apply basic_next_lexeme|]. intros more.
  eapply triple_bind; [apply triple_keep|]. intros at_end.
  destruct (negb at_end); [|apply triple_ret; auto].
  eapply triple_bind; [apply basic_next_lexeme|]. intros ok.
  destruct ok; apply basic_raise_here.
Qed.

End BasicRun.

(** ** What the lexer reads

    [lexer_at rest L]: the characters that [L] has not yet turned into
    lexemes are [rest].  Either the next character is still to be read, or
    it has been read ahead and not accepted. *)

Definition is_ws_char (x : char) : bool := is_whitespace (Some x).

Definition blank (w : str) : Prop := Forall (fun x => is_ws_char x = true) w.

Definition is_delimiter (x : char) : bool :=
  is_whitespace (Some x) || is_structural (Some x).

(** Nothing, or something that starts with whitespace or a structural
    character. *)
Definition delimited (rest : str) : Prop :=
  match rest with
  | [] => True
  | x :: _ => is_delimiter x = true
  end.

Inductive lexer_at (rest : str) (L : Lexer) : Prop :=
| at_fresh :
    c_accepted L || initial L = true -> reader L = rest -> lexer_at rest L
| at_look x :
    c_accepted L = false -> initial L = false -> eof L = false ->
    c L = Some x -> rest = x :: reader L -> lexer_at rest L.

(** The character [x] has just been read and [rest] follows. *)
Definition on_char (x : char) (rest : str) (L : Lexer) : Prop :=
  c L = Some x /\ reader L = rest /\ c_accepted L = false /\ eof L = false.

Lemma lexer_at_init input : lexer_at input (Lexer_init input).
Proof. apply at_fresh; reflexivity. Qed.

Lemma on_char_next L x rest :
  reader L = x :: rest -> on_char x rest (snd (next_char L)).
Proof. intros Hrd. rewrite (next_char_more L Hrd). repeat split. Qed.

Lemma on_char_lexer_at x rest L :
  on_char x rest L -> initial L = false -> lexer_at (x :: rest) L.
Proof.
  intros (Hc & Hrd & Hacc & Heof) Hinit.
  apply at_look with (x := x); auto. rewrite Hrd. reflexivity.
Qed.

Lemma accepted_lexer_at rest L :
  c_accepted L = true -> reader L = rest -> lexer_at rest L.
Proof. intros Hacc Hrd. apply at_fresh; [rewrite Hacc|]; auto. Qed.

(** [next_lexeme] reads a character if none is pending and scans from it. *)
Lemma Lexer_next_lexeme_scan x rest L :
  lexer_at (x :: rest) L ->
  exists L1, on_char x rest L1 /\ initial L1 = initial L
             /\ Lexer_next_lexeme L = scan_lexeme L1
             /\ (forall input low, tracked input low L -> tracked input low L1).
Proof.
  intros [Hfresh Hrd | y Hacc Hinit Heof Hc Hrest].
  - exists (snd (next_char L)). split; [apply on_char_next; exact Hrd|].
    split; [rewrite (next_char_more L Hrd); reflexivity|].
    split; [|intros input low; apply tracked_next_char].
    unfold Lexer_next_lexeme. run_m. rewrite Hfresh.
    rewrite (next_char_more L Hrd). auto.
  - exists L. inversion Hrest; subst. split; [repeat split; auto|].
    split; [reflexivity|]. split; [|auto].
    unfold Lexer_next_lexeme. run_m. rewrite Hacc, Hinit. reflexivity.
Qed.

Lemma Lexer_next_lexeme_end L :
  lexer_at [] L ->
  exists L', Lexer_next_lexeme L = Ok (None, L') /\ eof L' = true
             /\ reader L' = [] /\ c_accepted L' = c_accepted L
             /\ initial L' = initial L.
Proof.
  intros [Hfresh Hrd | y _ _ _ _ Hrest]; [|discriminate Hrest].
  unfold Lexer_next_lexeme. run_m. rewrite Hfresh.
  rewrite (next_char_end L Hrd). eexists. split; [reflexivity|]. auto.
Qed.

Lemma is_whitespace_blank_hd x w : blank (x :: w) -> is_whitespace (Some x) = true.
Proof. intros Hw. inversion Hw; assumption. Qed.

(** Skipping whitespace up to the character [x]. *)
Lemma skip_whitespaces_loop_to w : forall fuel L y r x rest,
  blank w -> is_ws_char x = false -> y :: r = w ++ x :: rest ->
  on_char y r L -> length w < fuel ->
  exists L', skip_whitespaces_loop fuel L = Ok (tt, L')
             /\ on_char x rest L' /\ initial L' = initial L
             /\ (forall input low, tracked input low L -> tracked input low L').
Proof.
  induction w as [|z w IH]; intros fuel L y r x rest Hw Hx Heq HL Hfuel;
    (destruct fuel as [|fuel]; [inversion Hfuel|]);
    simpl in Heq; inversion Heq; subst; clear Heq;
    pose proof HL as (Hc & Hrd & Hacc & Heof);
    cbn [skip_whitespaces_loop]; run_m; rewrite Hc.
  - change (is_whitespace (Some x)) with (is_ws_char x). rewrite Hx.
    exists L. auto.
  - rewrite (is_whitespace_blank_hd Hw).
    destruct w as [|z' w].
    + simpl in Hrd.
      rewrite (@next_char_set_c_accepted true L x rest Hrd).
      destruct (IH fuel (snd (next_char L)) x rest x rest)
        as (L' & Hrun & HL' & Hi & Htr);
        auto; [constructor | apply on_char_next; exact Hrd | simpl in *; lia|].
      exists L'. split; [rewrite (next_char_more L Hrd) in *; exact Hrun|].
      split; [exact HL'|].
      split; [rewrite (next_char_more L Hrd) in Hi; exact Hi|].
      intros input low HT. apply Htr, tracked_next_char, HT.
    + simpl in Hrd.
      rewrite (@next_char_set_c_accepted true L z' (w ++ x :: rest) Hrd).
      destruct (IH fuel (snd (next_char L)) z' (w ++ x :: rest) x rest)
        as (L' & Hrun & HL' & Hi & Htr); auto;
        [inversion Hw; assumption | apply on_char_next; exact Hrd
         | simpl in *; lia|].
      exists L'. split; [rewrite (next_char_more L Hrd) in *; exact Hrun|].
      split; [exact HL'|].
      split; [rewrite (next_char_more L Hrd) in Hi; exact Hi|].
      intros input low HT. apply Htr, tracked_next_char, HT.
Qed.

(** Skipping whitespace up to the end of the input. *)
Lemma skip_whitespaces_loop_end w : forall fuel L y r,
  blank w -> y :: r = w -> on_char y r L -> length w < fuel ->
  exists L', skip_whitespaces_loop fuel L = Ok (tt, L')
             /\ c_accepted L' = true /\ eof L' = true /\ reader L' = []
             /\ initial L' = initial L.
Proof.
  induction w as [|z w IH]; intros fuel L y r Hw Heq HL Hfuel;
    [discriminate Heq|].
  destruct fuel as [|fuel]; [inversion Hfuel|].
  inversion Heq; subst; clear Heq.
  pose proof HL as (Hc & Hrd & Hacc & Heof).
  cbn [skip_whitespaces_loop]. run_m. rewrite Hc.
  rewrite (is_whitespace_blank_hd Hw).
  destruct w as [|z' w].
  - rewrite (next_char_end (set_c_accepted true L) Hrd). cbn [snd].
    destruct fuel as [|fuel]; [simpl in Hfuel; lia|].
    cbn [skip_whitespaces_loop]. run_m. simpl. eexists. split; [reflexivity|].
    auto.
  - rewrite (@next_char_set_c_accepted true L z' w Hrd).
    destruct (IH fuel (snd (next_char L)) z' w) as (L' & Hrun & HL');
      auto; [inversion Hw; assumption | apply on_char_next; exact Hrd
             | simpl in *; lia|].
    exists L'. rewrite (next_char_more L Hrd) in *. auto.
Qed.

Lemma loop_fuel_on_char x rest L :
  on_char x rest L -> loop_fuel L = S (S (length rest)).
Proof. intros (_ & Hrd & _). unfold loop_fuel. rewrite Hrd. reflexivity. Qed.

Lemma on_char_set_initial x rest L b :
  on_char x rest L -> on_char x rest (set_initial b L).
Proof. intros H. exact H. Qed.

(** After the whitespace [w], [scan_lexeme] reads the lexeme that starts at
    the character [x]. *)
Lemma scan_lexeme_at w x rest y r L :
  blank w -> is_ws_char x = false -> y :: r = w ++ x :: rest ->
  on_char y r L ->
  exists L2, on_char x rest L2 /\ initial L2 = false
             /\ scan_lexeme L = (lx <- lexeme_at_char ;; ret (Some lx)) L2
             /\ (forall input low, tracked input low L -> tracked input low L2).
Proof.
  intros Hw Hx Heq HL.
  destruct (@skip_whitespaces_loop_to w (loop_fuel L) (set_initial false L)
              y r x rest Hw Hx Heq (on_char_set_initial false HL))
    as (L2 & Hrun & HL2 & Hinit & Htr).
  { rewrite (loop_fuel_on_char HL).
    assert (Hlen : length (y :: r) = length (w ++ x :: rest)) by (rewrite Heq; reflexivity).
    rewrite length_app in Hlen. simpl in Hlen. lia. }
  exists L2. split; [exact HL2|]. split; [exact Hinit|].
  split; [|intros input low HT; apply Htr; exact HT].
  unfold scan_lexeme, skip_whitespaces.
  cbv beta iota delta [bind gets modify].
  change (loop_fuel (set_initial false L)) with (loop_fuel L).
  rewrite Hrun. cbv beta iota.
  destruct HL2 as (_ & _ & Hacc & _). rewrite Hacc. reflexivity.
Qed.

Lemma scan_lexeme_blank y r L :
  blank (y :: r) -> on_char y r L ->
  exists L', scan_lexeme L = Ok (None, L') /\ eof L' = true
             /\ lexer_at [] L' /\ initial L' = false.
Proof.
  intros Hw HL.
  destruct (@skip_whitespaces_loop_end (y :: r) (loop_fuel L)
              (set_initial false L) y r Hw eq_refl
              (on_char_set_initial false HL))
    as (L2 & Hrun & Hacc & Heof & Hrd & Hinit).
  { rewrite (loop_fuel_on_char HL). simpl. lia. }
  exists L2. unfold scan_lexeme, skip_whitespaces.
  cbv beta iota delta [bind gets modify].
  change (loop_fuel (set_initial false L)) with (loop_fuel L).
  rewrite Hrun. cbv beta iota. rewrite Hacc.
  cbv beta iota delta [negb]. rewrite Heof.
  split; [reflexivity|]. split; [reflexivity|].
  split; [apply accepted_lexer_at; assumption | exact Hinit].
Qed.

(** [next_lexeme] in front of whitespace and a character [x]: the lexeme
    that starts at [x]. *)
Lemma Lexer_next_lexeme_at_tracked w x rest L :
  blank w -> is_ws_char x = false -> lexer_at (w ++ x :: rest) L ->
  exists L2, on_char x rest L2 /\ initial L2 = false
             /\ Lexer_next_lexeme L = (lx <- lexeme_at_char ;; ret (Some lx)) L2
             /\ (forall input low, tracked input low L -> tracked input low L2).
Proof.
  intros Hw Hx HL.
  destruct w as [|z w].
  - destruct (Lexer_next_lexeme_scan HL) as (L1 & HL1 & _ & Hscan & Htr1).
    destruct (@scan_lexeme_at [] x rest x rest L1 Hw Hx eq_refl HL1)
      as (L2 & HL2 & Hinit & Hat & Htr2).
    exists L2. rewrite Hscan, Hat. repeat split; auto; apply HL2.
  - simpl in HL.
    destruct (Lexer_next_lexeme_scan HL) as (L1 & HL1 & _ & Hscan & Htr1).
    destruct (@scan_lexeme_at (z :: w) x rest z (w ++ x :: rest) L1 Hw Hx
                eq_refl HL1) as (L2 & HL2 & Hinit & Hat & Htr2).
    exists L2. rewrite Hscan, Hat. repeat split; auto; apply HL2.
Qed.

Lemma Lexer_next_lexeme_at w x rest L :
  blank w -> is_ws_char x = false -> lexer_at (w ++ x :: rest) L ->
  exists L2, on_char x rest L2 /\ initial L2 = false
             /\ Lexer_next_lexeme L = (lx <- lexeme_at_char ;; ret (Some lx)) L2.
Proof.
  intros Hw Hx HL.
  destruct (@Lexer_next_lexeme_at_tracked w x rest L Hw Hx HL)
    as (L2 & H1 & H2 & H3 & _).
  exists L2. auto.
Qed.

(** [next_lexeme] in front of nothing but whitespace: the end of the
    stream. *)
Lemma Lexer_next_lexeme_blank w L :
  blank w -> lexer_at w L ->
  exists L', Lexer_next_lexeme L = Ok (None, L') /\ eof L' = true
             /\ lexer_at [] L'.
Proof.
  intros Hw HL. destruct w as [|z w].
  - destruct (Lexer_next_lexeme_end HL) as (L' & Hrun & Heof & Hrd & Hacc & Hi).
    exists L'. split; [exact Hrun|]. split; [exact Heof|].
    apply at_fresh; [|exact Hrd]. rewrite Hacc, Hi.
    destruct HL as [Hfresh _ | y _ _ _ _ Hrest]; [exact Hfresh | discriminate].
  - destruct (Lexer_next_lexeme_scan HL) as (L1 & HL1 & _ & Hscan & _).
    destruct (scan_lexeme_blank Hw HL1) as (L' & Hrun & Heof & Hat & _).
    exists L'. rewrite Hscan. auto.
Qed.

(** *** Structural characters *)

Lemma structural_char_cases x tok :
  dict_get STRUCTURALS x = Some tok ->
  In (x, tok) STRUCTURALS.
Proof.
  unfold STRUCTURALS. cbn [dict_get].
  repeat match goal with
         | |- (if N.eqb ?a ?b then _ else _) = _ -> _ =>
             destruct (N.eqb_spec a b) as [->|_];
             [intros Heq; inversion Heq; simpl; tauto|]
         end.
  discriminate.
Qed.

Lemma lexeme_at_char_structural x tok rest L :
  dict_get STRUCTURALS x = Some tok -> on_char x rest L ->
  lexeme_at_char L
  = Ok (mkLexeme (pos L) tok [x] LT_UNKNOWN NT_UNKNOWN, set_c_accepted true L).
Proof.
  intros Htok (Hc & _). unfold lexeme_at_char. run_m. rewrite Hc.
  pose proof (structural_char_cases _ Htok) as Hin.
  assert (Hall : forallb (fun xt => negb (N.eqb (fst xt) QUOTE)
                                    && negb (char_in (fst xt) DEC_DIGITS_S))
                         STRUCTURALS = true) by (vm_compute; reflexivity).
  rewrite forallb_forall in Hall. specialize (Hall _ Hin). simpl fst in Hall.
  apply andb_prop in Hall. destruct Hall as [Hq Hd].
  apply negb_true_iff in Hq, Hd.
  unfold c_is, c_in, c_get. rewrite Hq, Hd, Htok. reflexivity.
Qed.

(** [next_lexeme] on whitespace and a structural character. *)
Lemma Lexer_next_lexeme_structural w x tok rest L :
  blank w -> dict_get STRUCTURALS x = Some tok ->
  lexer_at (w ++ x :: rest) L ->
  exists p L', Lexer_next_lexeme L
               = Ok (Some (mkLexeme p tok [x] LT_UNKNOWN NT_UNKNOWN), L')
               /\ lexer_at rest L' /\ initial L' = false /\ eof L' = false.
Proof.
  intros Hw Htok HL.
  assert (Hx : is_ws_char x = false).
  { pose proof (structural_char_cases _ Htok) as Hin.
    assert (Hall : forallb (fun xt => negb (is_ws_char (fst xt))) STRUCTURALS
                   = true) by (vm_compute; reflexivity).
    rewrite forallb_forall in Hall. specialize (Hall _ Hin).
    apply negb_true_iff in Hall. exact Hall. }
  destruct (@Lexer_next_lexeme_at w x rest L Hw Hx HL)
    as (L2 & HL2 & Hinit & Hrun).
  exists (pos L2), (set_c_accepted true L2).
  rewrite Hrun. unfold bind. rewrite (lexeme_at_char_structural Htok HL2).
  destruct HL2 as (_ & Hrd & _ & Heof).
  split; [reflexivity|]. split; [apply accepted_lexer_at; auto|]. auto.
Qed.

(** *** Literals *)

Lemma handle_literal_loop_run word : forall fuel value L rest,
  Forall (fun x => is_delimiter x = false) word -> delimited rest ->
  reader L = word ++ rest -> c_accepted L = true -> initial L = false ->
  length word < fuel ->
  exists L', handle_literal_loop fuel value L = Ok (value ++ word, L')
             /\ lexer_at rest L' /\ initial L' = false
             /\ (rest <> [] -> eof L' = false).
Proof.
  induction word as [|x word IH];
    intros fuel value L rest Hword Hrest Hrd Hacc Hinit Hfuel;
    (destruct fuel as [|fuel]; [inversion Hfuel|]);
    cbn [handle_literal_loop]; run_m; simpl in Hrd.
  - rewrite app_nil_r. destruct rest as [|d rest].
    + rewrite (next_char_end L Hrd). eexists. split; [reflexivity|].
      split; [apply accepted_lexer_at; auto|]. split; [exact Hinit|].
      congruence.
    + rewrite (next_char_more L Hrd). cbn [c]. simpl in Hrest.
      unfold is_delimiter in Hrest. rewrite Hrest.
      eexists. split; [reflexivity|].
      split; [apply on_char_lexer_at; [repeat split | exact Hinit]|].
      split; [exact Hinit | reflexivity].
  - rewrite (next_char_more L Hrd). cbn [c].
    inversion Hword as [|? ? Hx Hword']; subst.
    unfold is_delimiter in Hx. rewrite Hx.
    destruct (IH fuel (value ++ [x])
                (set_c_accepted true
                   (mkLexer (word ++ rest) false (initial L) (Some x) false
                            (advance (c L) (pos L))))
                rest Hword' Hrest eq_refl eq_refl Hinit)
      as (L' & Hrun & HL'); [simpl in Hfuel; lia|].
    exists L'. cbn [c_str]. rewrite Hrun, <- app_assoc. auto.
Qed.

Definition literal_word (kind : LiteralTokenKind) : str :=
  match kind with
  | LT_FALSE => lit "false"
  | LT_NULL => lit "null"
  | LT_TRUE => lit "true"
  | LT_UNKNOWN => []
  end.

Definition literal_token (kind : LiteralTokenKind) : Token :=
  match kind with
  | LT_FALSE => LITERAL_FALSE
  | LT_NULL => LITERAL_NULL
  | LT_TRUE => LITERAL_TRUE
  | LT_UNKNOWN => UNKNOWN
  end.

Lemma handle_literal_word x tail rest L :
  on_char x (tail ++ rest) L -> initial L = false ->
  Forall (fun y => is_delimiter y = false) tail -> delimited rest ->
  exists L', handle_literal_loop (loop_fuel L) [x] (set_c_accepted true L)
             = Ok (x :: tail, L')
             /\ lexer_at rest L' /\ initial L' = false
             /\ (rest <> [] -> eof L' = false).
Proof.
  intros (Hc & Hrd & _) Hinit Htail Hrest.
  apply (@handle_literal_loop_run tail (loop_fuel L) [x]
           (set_c_accepted true L) rest Htail Hrest Hrd eq_refl Hinit).
  unfold loop_fuel. rewrite Hrd, length_app. lia.
Qed.

Lemma lexeme_at_char_literal kind x r rest L :
  kind <> LT_UNKNOWN -> x :: r = literal_word kind ++ rest ->
  delimited rest -> on_char x r L -> initial L = false ->
  exists L', lexeme_at_char L
             = Ok (mkLexeme (pos L) (literal_token kind) (literal_word kind)
                            kind NT_UNKNOWN, L')
             /\ lexer_at rest L' /\ initial L' = false
             /\ (rest <> [] -> eof L' = false).
Proof.
  intros Hkind Heq Hrest HL Hinit.
  assert (Hc : c L = Some x) by apply HL.
  destruct kind; try congruence;
    simpl in Heq; inversion Heq; subst x r; clear Heq;
    match type of HL with
    | on_char ?x (?a :: ?b :: ?c :: ?d) L =>
        destruct (@handle_literal_word x [a; b; c] d L HL Hinit
                    ltac:(repeat constructor) Hrest) as (L' & Hrun & HL')
    | on_char ?x (?a :: ?b :: ?c :: ?d :: ?e) L =>
        destruct (@handle_literal_word x [a; b; c; d] e L HL Hinit
                    ltac:(repeat constructor) Hrest) as (L' & Hrun & HL')
    end;
    exists L'; (split; [|exact HL']);
    unfold lexeme_at_char, handle_literal; run_m; rewrite Hc;
    change (loop_fuel (set_c_accepted true L)) with (loop_fuel L);
    match goal with
    | |- context [c_is (Some ?x) QUOTE] =>
        change (c_is (Some x) QUOTE) with false;
        change (c_in (Some x) DEC_DIGITS_S) with false;
        change (c_get STRUCTURALS (Some x)) with (@None Token);
        change (c_in (Some x) LITERAL_PREFIXES) with true
    end;
    cbv beta iota; rewrite Hc;
    change (loop_fuel (set_c_accepted true L)) with (loop_fuel L);
    cbn [c_str]; rewrite Hrun; reflexivity.
Qed.

(** *** Numbers: the state machine on the JSON number grammar *)

Definition is_ascii_digit (x : char) : bool := char_in x DEC_DIGITS.

Definition digits (ds : str) : Prop :=
  Forall (fun x => is_ascii_digit x = true) ds.

(** The integer part: one digit, or several that do not start with 0. *)
Definition int_part (ds : str) : Prop :=
  digits ds /\ match ds with
               | [] => False
               | [_] => True
               | x :: _ => x <> ch "0"
               end.

(** The syntax of a number: sign, integer part, fraction, exponent (its
    marker, its sign and its digits). *)
Record number := mkNumber {
  n_minus : bool;
  n_int : str;
  n_frac : option str;
  n_exp : option (char * str * str)
}.

Definition exp_wf (ex : char * str * str) : Prop :=
  let '(e, sg, es) := ex in
  char_in e EXP_CHARS = true
  /\ (sg = [] \/ sg = [ch "-"] \/ sg = [ch "+"])
  /\ es <> [] /\ digits es.

Definition number_wf (n : number) : Prop :=
  int_part (n_int n)
  /\ match n_frac n with Some fs => fs <> [] /\ digits fs | None => True end
  /\ match n_exp n with Some ex => exp_wf ex | None => True end.

Definition sign_text (minus : bool) : str :=
  if minus then [ch "-"] else [].

Definition frac_text (frac : option str) : str :=
  match frac with Some fs => ch "." :: fs | None => [] end.

Definition exp_text (ex : option (char * str * str)) : str :=
  match ex with Some (e, sg, es) => e :: sg ++ es | None => [] end.

Definition number_text (n : number) : str :=
  sign_text (n_minus n) ++ n_int n ++ frac_text (n_frac n)
  ++ exp_text (n_exp n).

Definition number_kind (n : number) : NumericTokenKind :=
  match n_exp n, n_frac n with
  | Some _, _ => NT_FLOAT
  | None, Some _ => NT_DECIMAL
  | None, None => NT_INTEGER
  end.

(** Feeding the characters of [s] one after the other, all accepted. *)
Fixpoint np_feed (np : NumericParser) (s : str) : option NumericParser :=
  match s with
  | [] => Some np
  | x :: s' => let (ok, np') := read_char np (Some x) in
               if ok then np_feed np' s' else None
  end.

Lemma np_feed_app np a b :
  np_feed np (a ++ b)
  = match np_feed np a with Some np' => np_feed np' b | None => None end.
Proof.
  revert np. induction a as [|x a IH]; intros np; simpl; [reflexivity|].
  destruct (read_char np (Some x)) as [[] np']; [apply IH | reflexivity].
Qed.

Lemma ascii_digit_facts x :
  is_ascii_digit x = true ->
  isdigit x = true /\ N.eqb x (ch "-") = false /\ N.eqb x (ch "+") = false
  /\ N.eqb x (ch ".") = false /\ N.eqb x QUOTE = false
  /\ char_in x DEC_DIGITS_S = true
  /\ decimal_value x = Some (x - ch "0")%N.
Proof.
  intros Hx. apply char_in_In in Hx.
  assert (Hall : forallb (fun y => isdigit y && negb (N.eqb y (ch "-"))
                            && negb (N.eqb y (ch "+"))
                            && negb (N.eqb y (ch "."))
                            && negb (N.eqb y QUOTE)
                            && char_in y DEC_DIGITS_S
                            && match decimal_value y with
                               | Some v => N.eqb v (y - ch "0")
                               | None => false
                               end) DEC_DIGITS = true)
    by (vm_compute; reflexivity).
  rewrite forallb_forall in Hall. specialize (Hall x Hx).
  repeat (apply andb_prop in Hall; destruct Hall as [Hall ?]).
  repeat match goal with
         | H : negb _ = true |- _ => apply negb_true_iff in H
         end.
  destruct (decimal_value x) as [v|]; [|discriminate].
  match goal with H : N.eqb v _ = true |- _ => apply N.eqb_eq in H; subst v end.
  auto 10.
Qed.

(** The leading-zero guard of [read_char] cannot fire. *)
Definition guard_free (dc : nat) (A : NumericTokenKind) (v : str) : Prop :=
  A <> NT_INTEGER \/ dc <> 1 \/ str_eqb v (lit "0") = false.

Lemma read_char_ascii_digit cc dc ty A v x :
  is_ascii_digit x = true -> guard_free dc A v ->
  read_char (mkNumericParser cc dc ty A v) (Some x)
  = (true, mkNumericParser (S cc) (S dc) A A (v ++ [x])).
Proof.
  intros Hx Hguard.
  destruct (ascii_digit_facts _ Hx) as (Hd & Hm & Hp & Hdot & _).
  unfold read_char, c_is, c_isdigit. rewrite Hm, Hp, Hdot, Hd.
  cbn [np_accepting_type np_digit_count np_value np_char_count np_type c_str].
  replace (NumericTokenKind_eqb A NT_INTEGER && (dc =? 1)
           && str_eqb v (lit "0")) with false; [reflexivity|].
  symmetry. destruct Hguard as [HA|[Hdc|Hv]].
  - destruct A; try congruence; reflexivity.
  - apply Nat.eqb_neq in Hdc. rewrite Hdc, andb_false_r. reflexivity.
  - rewrite Hv, andb_false_r. reflexivity.
Qed.

Lemma np_feed_digits ds : forall cc dc ty A v,
  digits ds -> A <> NT_INTEGER \/ 2 <= dc \/ (dc = 1 /\ str_eqb v (lit "0") = false) ->
  np_feed (mkNumericParser cc dc ty A v) ds
  = Some (mkNumericParser (length ds + cc) (length ds + dc)
                          (match ds with [] => ty | _ => A end) A (v ++ ds)).
Proof.
  induction ds as [|x ds IH]; intros cc dc ty A v Hds Hsafe.
  - simpl. rewrite app_nil_r. reflexivity.
  - inversion Hds as [|? ? Hx Hds']; subst. cbn [np_feed].
    rewrite (@read_char_ascii_digit cc dc ty A v x Hx).
    + rewrite IH; [|exact Hds'|].
      * simpl length. rewrite <- app_assoc. simpl.
        rewrite <- !plus_n_Sm. destruct ds; reflexivity.
      * destruct Hsafe as [HA|[Hdc|[Hdc _]]]; [left; exact HA | right; left; lia
                                               | right; left; lia].
    + destruct Hsafe as [HA|[Hdc|[_ Hv]]]; [left; exact HA | right; left; lia
                                            | right; right; exact Hv].
Qed.

Lemma str_eqb_eq a b : str_eqb a b = true -> a = b.
Proof.
  revert b. induction a as [|x a IH]; intros [|y b]; simpl; try discriminate;
    [reflexivity|].
  intros H. apply andb_prop in H. destruct H as [Hxy Hab].
  apply N.eqb_eq in Hxy. rewrite (IH b Hab), Hxy. reflexivity.
Qed.

(** The integer part, after an optional sign. *)
Lemma np_feed_int ds cc ty v :
  int_part ds -> v = [] \/ v = [ch "-"] ->
  np_feed (mkNumericParser cc 0 ty NT_INTEGER v) ds
  = Some (mkNumericParser (length ds + cc) (length ds) NT_INTEGER NT_INTEGER
                          (v ++ ds)).
Proof.
  intros [Hds Hshape] Hv. destruct ds as [|x ds]; [destruct Hshape|].
  inversion Hds as [|? ? Hx Hds']; subst. cbn [np_feed].
  rewrite (@read_char_ascii_digit cc 0 ty NT_INTEGER v x Hx)
    by (right; left; discriminate).
  destruct ds as [|y ds].
  - simpl. reflexivity.
  - rewrite np_feed_digits; [|exact Hds'|].
    + simpl length. rewrite <- app_assoc. simpl.
      rewrite <- !plus_n_Sm, Nat.add_0_r. reflexivity.
    + right. right. split; [reflexivity|].
      destruct (str_eqb (v ++ [x]) (lit "0")) eqn:Heq; [|reflexivity].
      apply str_eqb_eq in Heq. exfalso.
      destruct Hv as [->| ->]; simpl in Heq; inversion Heq.
      apply Hshape. assumption.
Qed.

Lemma np_feed_sign minus :
  np_feed NumericParser_init (sign_text minus)
  = Some (mkNumericParser (length (sign_text minus)) 0 NT_UNKNOWN NT_INTEGER
                          (sign_text minus)).
Proof. destruct minus; reflexivity. Qed.

Definition frac_kind (frac : option str) : NumericTokenKind :=
  match frac with Some _ => NT_DECIMAL | None => NT_INTEGER end.

Lemma np_feed_frac frac cc dc v :
  0 < dc ->
  match frac with Some fs => fs <> [] /\ digits fs | None => True end ->
  exists cc' dc',
    np_feed (mkNumericParser cc dc NT_INTEGER NT_INTEGER v) (frac_text frac)
    = Some (mkNumericParser cc' dc' (frac_kind frac) (frac_kind frac)
                            (v ++ frac_text frac)).
Proof.
  intros Hdc Hfrac. destruct frac as [fs|]; cbn [frac_text].
  - destruct Hfrac as [Hne Hfs]. cbn [np_feed].
    assert (Hdot : read_char (mkNumericParser cc dc NT_INTEGER NT_INTEGER v)
                             (Some (ch "."))
                   = (true, mkNumericParser (S cc) dc NT_UNKNOWN NT_DECIMAL
                                            (v ++ [ch "."]))).
    { unfold read_char. simpl.
      destruct (Nat.ltb_spec 0 dc); [reflexivity | lia]. }
    rewrite Hdot, np_feed_digits by (auto; left; discriminate).
    rewrite <- app_assoc. simpl. destruct fs; [congruence|].
    eexists. eexists. reflexivity.
  - simpl. rewrite app_nil_r. eexists. eexists. reflexivity.
Qed.

Lemma read_char_exp_marker cc dc ty A v e :
  char_in e EXP_CHARS = true -> A = NT_INTEGER \/ A = NT_DECIMAL ->
  read_char (mkNumericParser cc dc ty A v) (Some e)
  = (true, mkNumericParser 0 0 NT_UNKNOWN NT_FLOAT (v ++ [e])).
Proof.
  intros He HA. apply char_in_In in He.
  destruct He as [<-|[<-|[]]]; destruct HA as [->| ->]; reflexivity.
Qed.

Lemma np_feed_exp_sign sg v :
  sg = [] \/ sg = [ch "-"] \/ sg = [ch "+"] ->
  np_feed (mkNumericParser 0 0 NT_UNKNOWN NT_FLOAT v) sg
  = Some (mkNumericParser (length sg) 0 NT_UNKNOWN NT_FLOAT (v ++ sg)).
Proof.
  intros [->|[->| ->]]; simpl; [rewrite app_nil_r|..]; reflexivity.
Qed.

Lemma np_feed_exp ex cc dc ty v :
  ty = NT_INTEGER \/ ty = NT_DECIMAL ->
  match ex with Some ex' => exp_wf ex' | None => True end ->
  exists cc' dc' A',
    np_feed (mkNumericParser cc dc ty ty v) (exp_text ex)
    = Some (mkNumericParser cc' dc'
              (match ex with Some _ => NT_FLOAT | None => ty end) A'
              (v ++ exp_text ex)).
Proof.
  intros Hty Hex. destruct ex as [[[e sg] es]|]; cbn [exp_text].
  - destruct Hex as (He & Hsg & Hne & Hes). cbn [np_feed].
    rewrite (@read_char_exp_marker cc dc ty ty v e He Hty).
    rewrite np_feed_app, (np_feed_exp_sign _ Hsg).
    rewrite np_feed_digits by (auto; left; discriminate).
    rewrite <- !app_assoc. simpl. destruct es; [congruence|].
    eexists. eexists. eexists. reflexivity.
  - simpl. rewrite app_nil_r. eexists. eexists. eexists. reflexivity.
Qed.

(** The state machine accepts every number of the JSON grammar, with its
    text as the value and its kind as the type. *)
Lemma np_feed_number n :
  number_wf n ->
  exists cc dc A,
    np_feed NumericParser_init (number_text n)
    = Some (mkNumericParser cc dc (number_kind n) A (number_text n)).
Proof.
  intros (Hint & Hfrac & Hexp). unfold number_text, number_kind.
  rewrite np_feed_app, np_feed_sign.
  rewrite np_feed_app, (np_feed_int _ _ Hint)
    by (destruct (n_minus n); auto).
  assert (Hlen : 0 < length (n_int n)).
  { destruct Hint as [_ Hshape]. destruct (n_int n); [destruct Hshape|simpl; lia]. }
  rewrite np_feed_app.
  destruct (@np_feed_frac (n_frac n)
              (length (n_int n) + length (sign_text (n_minus n)))
              (length (n_int n)) (sign_text (n_minus n) ++ n_int n) Hlen Hfrac)
    as (cc1 & dc1 & Hf).
  rewrite Hf.
  destruct (@np_feed_exp (n_exp n) cc1 dc1 (frac_kind (n_frac n))
              ((sign_text (n_minus n) ++ n_int n) ++ frac_text (n_frac n)))
    as (cc2 & dc2 & A2 & He).
  { destruct (n_frac n); auto. }
  { exact Hexp. }
  exists cc2, dc2, A2. rewrite He, <- !app_assoc.
  destruct (n_exp n), (n_frac n); reflexivity.
Qed.

Definition DELIMITERS : list char := WHITESPACES ++ map fst STRUCTURALS.

Lemma is_delimiter_In d : is_delimiter d = true -> In d DELIMITERS.
Proof.
  unfold is_delimiter, is_whitespace, is_structural, c_in, c_get, DELIMITERS.
  intros H. apply in_or_app. apply orb_prop in H. destruct H as [H|H].
  - left. apply char_in_In. exact H.
  - right. destruct (dict_get STRUCTURALS d) as [tok|] eqn:Htok; [|discriminate].
    apply structural_char_cases in Htok.
    apply (in_map fst) in Htok. exact Htok.
Qed.

Lemma read_char_delimiter np d :
  is_delimiter d = true -> read_char np (Some d) = (false, np).
Proof.
  intros Hd. apply is_delimiter_In in Hd.
  assert (Hall : forallb (fun y => negb (N.eqb y (ch "-"))
                            && negb (N.eqb y (ch "+"))
                            && negb (N.eqb y (ch "."))
                            && negb (isdigit y)
                            && negb (char_in y EXP_CHARS)) DELIMITERS = true)
    by (vm_compute; reflexivity).
  rewrite forallb_forall in Hall. specialize (Hall d Hd).
  repeat (apply andb_prop in Hall; destruct Hall as [Hall ?]).
  repeat match goal with
         | H : negb _ = true |- _ => apply negb_true_iff in H
         end.
  unfold read_char, c_is, c_isdigit, c_in.
  repeat match goal with H : _ = false |- _ => rewrite H; clear H end.
  reflexivity.
Qed.

(** The scan of a number: the characters of [t] are fed and accepted, the
    scan stops at the delimiter behind them or at the end of the input. *)
Lemma handle_number_loop_run t : forall fuel np np' L x r rest,
  t <> [] -> x :: r = t ++ rest -> np_feed np t = Some np' ->
  delimited rest -> on_char x r L -> initial L = false -> length t < fuel ->
  exists L', handle_number_loop fuel np L = Ok (np', L')
             /\ lexer_at rest L' /\ initial L' = false
             /\ (rest <> [] -> eof L' = false)
             /\ c_accepted L' || is_whitespace (c L') || is_structural (c L')
                = true.
Proof.
  induction t as [|y t IH];
    intros fuel np np' L x r rest Hne Heq Hfeed Hrest HL Hinit Hfuel;
    [congruence|].
  destruct fuel as [|fuel]; [inversion Hfuel|].
  simpl in Heq. inversion Heq; subst y r; clear Heq.
  pose proof HL as (Hc & Hrd & Hacc & Heof).
  cbn [np_feed] in Hfeed.
  cbn [handle_number_loop]. run_m. rewrite Hc.
  destruct (read_char np (Some x)) as [ok np1]. destruct ok; [|discriminate].
  run_m.
  destruct t as [|y t].
  - simpl in Hfeed. inversion Hfeed; subst np1. simpl in Hrd.
    destruct rest as [|d rest].
    + rewrite (next_char_end (set_c_accepted true L) Hrd). cbn [fst snd].
      eexists. split; [reflexivity|].
      split; [apply accepted_lexer_at; reflexivity|].
      split; [exact Hinit|]. split; [congruence | reflexivity].
    + rewrite (@next_char_set_c_accepted true L d rest Hrd).
      rewrite (next_char_more L Hrd). cbn [fst snd].
      destruct fuel as [|fuel]; [simpl in Hfuel; lia|].
      cbn [handle_number_loop]. run_m.
      simpl in Hrest. rewrite (@read_char_delimiter np' d Hrest).
      eexists. split; [reflexivity|].
      split; [apply on_char_lexer_at; [repeat split | exact Hinit]|].
      split; [exact Hinit|]. split; [reflexivity|]. cbn [c c_accepted].
      unfold is_delimiter in Hrest. rewrite <- orb_assoc, Hrest. reflexivity.
  - simpl in Hrd.
    rewrite (@next_char_set_c_accepted true L y (t ++ rest) Hrd).
    pose proof (on_char_next L Hrd) as HL1.
    rewrite (next_char_more L Hrd) in *. cbn [fst snd].
    apply (IH fuel np1 np' _ y (t ++ rest) rest); auto;
      [discriminate | simpl in Hfuel |- *; lia].
Qed.

Definition numeric_token (kind : NumericTokenKind) : Token :=
  match kind with
  | NT_DECIMAL => NUMBER_DECIMAL
  | NT_FLOAT => NUMBER_FLOAT
  | _ => NUMBER_INT
  end.

Lemma number_text_first n :
  number_wf n ->
  exists x t, number_text n = x :: t /\ char_in x DEC_DIGITS_S = true
              /\ N.eqb x QUOTE = false.
Proof.
  intros ([Hds Hshape] & _). unfold number_text.
  destruct (n_minus n); simpl.
  - eexists. eexists. split; [reflexivity|]. split; reflexivity.
  - destruct (n_int n) as [|x ds]; [destruct Hshape|].
    inversion Hds as [|? ? Hx _]; subst.
    destruct (ascii_digit_facts _ Hx) as (_ & _ & _ & _ & Hq & Hin & _).
    simpl. eexists. eexists. split; [reflexivity|]. split; assumption.
Qed.

Lemma number_kind_known n : number_kind n <> NT_UNKNOWN.
Proof. unfold number_kind. destruct (n_exp n), (n_frac n); discriminate. Qed.

(** A number of the JSON grammar in front of a delimiter is one lexeme. *)
Lemma lexeme_at_char_number n x r rest L :
  number_wf n -> x :: r = number_text n ++ rest -> delimited rest ->
  on_char x r L -> initial L = false ->
  exists L', lexeme_at_char L
             = Ok (number_lexeme (pos L) (numeric_token (number_kind n))
                                 (number_text n) (number_kind n), L')
             /\ lexer_at rest L' /\ initial L' = false
             /\ (rest <> [] -> eof L' = false).
Proof.
  intros Hwf Heq Hrest HL Hinit.
  destruct (np_feed_number Hwf) as (cc & dc & A & Hfeed).
  destruct (number_text_first Hwf) as (x' & t & Htext & Hstart & Hq).
  assert (Hx : x' = x) by (rewrite Htext in Heq; inversion Heq; reflexivity).
  subst x'.
  destruct (@handle_number_loop_run (number_text n) (loop_fuel L)
              NumericParser_init
              (mkNumericParser cc dc (number_kind n) A (number_text n))
              L x r rest) as (L' & Hrun & Hat & Hi & He & Hok);
    auto.
  { rewrite Htext. discriminate. }
  { rewrite (loop_fuel_on_char HL).
    assert (Hlen : length (x :: r) = length (number_text n ++ rest))
      by (rewrite Heq; reflexivity).
    rewrite length_app in Hlen. simpl in Hlen. lia. }
  exists L'. split; [|auto].
  pose proof HL as (Hc & _).
  unfold lexeme_at_char, handle_number. run_m. rewrite Hc.
  unfold c_is, c_in. rewrite Hq, Hstart. cbv beta iota delta [bind gets].
  rewrite Hrun. cbv beta iota. cbn [np_type np_value].
  pose proof (number_kind_known n) as Hk.
  unfold number_lexeme, numeric_token.
  destruct (number_kind n); [congruence|..]; cbv beta; rewrite Hok;
    reflexivity.
Qed.

(** *** Strings *)

(** A character that may stand for itself in a JSON string. *)
Definition is_plain_char (x : char) : bool :=
  (32 <=? x)%N && (x <=? 1114111)%N
  && negb (N.eqb x QUOTE) && negb (N.eqb x BACKSLASH).

(** The two-character escapes of JSON. *)
Inductive escape :=
| E_quote | E_backslash | E_slash | E_b | E_f | E_n | E_r | E_t.

Definition escape_letter (e : escape) : char :=
  match e with
  | E_quote => QUOTE | E_backslash => BACKSLASH | E_slash => ch "/"
  | E_b => ch "b" | E_f => ch "f" | E_n => ch "n" | E_r => ch "r"
  | E_t => ch "t"
  end.

Definition escape_value (e : escape) : char :=
  match e with
  | E_quote => 34%N | E_backslash => 92%N | E_slash => 47%N
  | E_b => 8%N | E_f => 12%N | E_n => 10%N | E_r => 13%N | E_t => 9%N
  end.

(** What stands between the quotes: characters, escapes and [\uXXXX]. *)
Inductive string_item :=
| Plain (x : char)
| Escape (e : escape)
| Unicode (h1 h2 h3 h4 : char).

Definition item_wf (it : string_item) : Prop :=
  match it with
  | Plain x => is_plain_char x = true
  | Escape _ => True
  | Unicode h1 h2 h3 h4 =>
      is_ascii_hex h1 = true /\ is_ascii_hex h2 = true
      /\ is_ascii_hex h3 = true /\ is_ascii_hex h4 = true
  end.

Definition item_text (it : string_item) : str :=
  match it with
  | Plain x => [x]
  | Escape e => [BACKSLASH; escape_letter e]
  | Unicode h1 h2 h3 h4 => [BACKSLASH; ch "u"; h1; h2; h3; h4]
  end.

Definition item_value (it : string_item) : char :=
  match it with
  | Plain x => x
  | Escape e => escape_value e
  | Unicode h1 h2 h3 h4 => code_point h1 h2 h3 h4
  end.

Definition string_text (items : list string_item) : str :=
  QUOTE :: flat_map item_text items ++ [QUOTE].

Definition string_value (items : list string_item) : str :=
  map item_value items.

Lemma plain_char_facts x :
  is_plain_char x = true -> N.eqb x QUOTE = false /\ N.eqb x BACKSLASH = false.
Proof.
  unfold is_plain_char. intros H.
  apply andb_prop in H. destruct H as [H Hb].
  apply andb_prop in H. destruct H as [_ Hq].
  apply negb_true_iff in Hq, Hb. auto.
Qed.

Lemma handle_string_loop_items items : forall fuel start value L rest,
  Forall item_wf items ->
  reader L = flat_map item_text items ++ QUOTE :: rest ->
  length items < fuel ->
  exists L', handle_string_loop fuel start value L
             = Ok (mkLexeme start STRING (value ++ string_value items)
                            LT_UNKNOWN NT_UNKNOWN, L')
             /\ c_accepted L' = true /\ reader L' = rest /\ eof L' = false
             /\ initial L' = initial L.
Proof.
  induction items as [|it items IH]; intros fuel start value L rest Hwf Hrd Hfuel;
    (destruct fuel as [|fuel]; [inversion Hfuel|]).
  - simpl in Hrd. cbn [handle_string_loop]. run_m.
    rewrite (next_char_more L Hrd). cbn [fst snd c].
    change (c_is (Some QUOTE) QUOTE) with true. cbv beta iota.
    rewrite app_nil_r. eexists. split; [reflexivity|]. auto.
  - inversion Hwf as [|? ? Hit Hwf']; subst.
    assert (Hfuel' : length items < fuel) by (simpl in Hfuel; lia).
    destruct it as [x|e|h1 h2 h3 h4]; simpl in Hrd.
    + destruct (plain_char_facts _ Hit) as [Hq Hb].
      cbn [handle_string_loop]. run_m.
      rewrite (next_char_more L Hrd). cbn [fst snd c].
      unfold c_is. rewrite Hq, Hb.
      destruct (IH fuel start (value ++ [x])
                  (set_c_accepted true
                     (mkLexer (flat_map item_text items ++ QUOTE :: rest) false
                              (initial L) (Some x) false
                              (advance (c L) (pos L))))
                  rest Hwf' eq_refl Hfuel') as (L' & Hrun & HL').
      exists L'. cbn [c_str]. rewrite Hrun, <- app_assoc. auto.
    + cbn [handle_string_loop]. run_m.
      rewrite (next_char_more L Hrd). cbn [fst snd c].
      change (c_is (Some BACKSLASH) QUOTE) with false.
      change (c_is (Some BACKSLASH) BACKSLASH) with true. cbv beta iota.
      rewrite (next_char_more _ (x := escape_letter e)
                 (rd := flat_map item_text items ++ QUOTE :: rest))
        by reflexivity.
      cbn [fst snd c negb initial pos].
      assert (Hesc : c_get ESCAPE_CHARS (Some (escape_letter e))
                     = Some (escape_value e)) by (destruct e; reflexivity).
      rewrite Hesc.
      destruct (IH fuel start (value ++ [escape_value e])
                  (set_c_accepted true
                     (mkLexer (flat_map item_text items ++ QUOTE :: rest) false
                              (initial L) (Some (escape_letter e)) false
                              (advance (Some BACKSLASH)
                                       (advance (c L) (pos L)))))
                  rest Hwf' eq_refl Hfuel') as (L' & Hrun & HL').
      exists L'. rewrite Hrun, <- app_assoc. auto.
    + destruct Hit as (H1 & H2 & H3 & H4).
      destruct (IH fuel start (value ++ [code_point h1 h2 h3 h4])
                  (mkLexer (flat_map item_text items ++ QUOTE :: rest) false
                           (initial L) (Some h4) true
                           (right_of (advance (Some (ch "u"))
                                        (right_of (advance (c L) (pos L)) 1)) 3))
                  rest Hwf' eq_refl Hfuel') as (L' & Hrun & HL').
      exists L'. split; [|exact HL'].
      replace (value ++ string_value (Unicode h1 h2 h3 h4 :: items))
        with ((value ++ [code_point h1 h2 h3 h4]) ++ string_value items)
        by (rewrite <- app_assoc; reflexivity).
      rewrite <- Hrun.
      eapply string_loop_escape; [exact Hrd|]. intros L2 Hrd2 Hi2 Hc2 Hp2.
      unfold bind.
      rewrite (@handle_escaped_char_decodes _ L2 h1 h2 h3 h4 _ Hrd2 H1 H2 H3 H4).
      rewrite Hc2, Hp2, Hi2. reflexivity.
Qed.

(** A JSON string is one lexeme, with the decoded characters as its text. *)
Lemma lexeme_at_char_string items r rest L :
  Forall item_wf items ->
  QUOTE :: r = string_text items ++ rest -> on_char QUOTE r L ->
  exists L', lexeme_at_char L
             = Ok (mkLexeme (pos L) STRING (string_value items)
                            LT_UNKNOWN NT_UNKNOWN, L')
             /\ lexer_at rest L' /\ initial L' = initial L /\ eof L' = false.
Proof.
  intros Hwf Heq HL. pose proof HL as (Hc & Hrd & _).
  unfold string_text in Heq. simpl in Heq. inversion Heq as [Hr].
  rewrite <- app_assoc in Hr. simpl in Hr.
  destruct (@handle_string_loop_items items (loop_fuel L) (pos L) [] L rest Hwf)
    as (L' & Hrun & Hacc & Hrd' & Heof & Hinit).
  { rewrite Hrd. exact Hr. }
  { unfold loop_fuel. rewrite Hrd, Hr, length_app.
    assert (length items <= length (flat_map item_text items)).
    { clear. induction items as [|it items IH]; simpl; [lia|].
      rewrite length_app. destruct it; simpl; lia. }
    lia. }
  exists L'. split; [|split; [apply accepted_lexer_at; assumption | auto]].
  unfold lexeme_at_char, handle_string. run_m. rewrite Hc.
  change (c_is (Some QUOTE) QUOTE) with true. cbv beta iota delta [bind gets].
  exact Hrun.
Qed.

(** ** Well-formed JSON texts

    The syntax of a JSON text (RFC 8259) as a tree: every place where the
    grammar allows whitespace carries it, so that [doc_text] ranges over the
    well-formed texts.  An element of an array is a value between
    whitespace; a member of an object is a name and a value, each between
    whitespace, with a colon in between. *)

Inductive doc :=
| DLiteral (kind : LiteralTokenKind)
| DNumber (n : number)
| DString (items : list string_item)
| DArray (w : str) (es : elems)
| DObject (w : str) (ms : members)
with elems :=
| ENil
| ECons (a : str) (d : doc) (b : str) (es : elems)
with members :=
| MNil
| MCons (a : str) (name : list string_item) (b c : str) (d : doc) (e : str)
        (ms : members).

Scheme doc_mut := Induction for doc Sort Prop
  with elems_mut := Induction for elems Sort Prop
  with members_mut := Induction for members Sort Prop.
Combined Scheme doc_mutind from doc_mut, elems_mut, members_mut.

Fixpoint doc_text (d : doc) : str :=
  match d with
  | DLiteral kind => literal_word kind
  | DNumber n => number_text n
  | DString items => string_text items
  | DArray w es => ch "[" :: w ++ elems_text es ++ [ch "]"]
  | DObject w ms => ch "{" :: w ++ members_text ms ++ [ch "}"]
  end
with elems_text (es : elems) : str :=
  match es with
  | ENil => []
  | ECons a d b es' =>
      a ++ doc_text d ++ b
      ++ match es' with ENil => [] | _ => ch "," :: elems_text es' end
  end
with members_text (ms : members) : str :=
  match ms with
  | MNil => []
  | MCons a name b c d e ms' =>
      a ++ string_text name ++ b ++ ch ":" :: c ++ doc_text d ++ e
      ++ match ms' with MNil => [] | _ => ch "," :: members_text ms' end
  end.

Fixpoint doc_wf (d : doc) : Prop :=
  match d with
  | DLiteral kind => kind <> LT_UNKNOWN
  | DNumber n => number_wf n
  | DString items => Forall item_wf items
  | DArray w es => blank w /\ elems_wf es
  | DObject w ms => blank w /\ members_wf ms
  end
with elems_wf (es : elems) : Prop :=
  match es with
  | ENil => True
  | ECons a d b es' => blank a /\ doc_wf d /\ blank b /\ elems_wf es'
  end
with members_wf (ms : members) : Prop :=
  match ms with
  | MNil => True
  | MCons a name b c d e ms' =>
      blank a /\ Forall item_wf name /\ blank b /\ blank c /\ doc_wf d
      /\ blank e /\ members_wf ms'
  end.

(** The digits of an integer, read in base ten. *)
Definition digits_value (ds : str) : N :=
  fold_left (fun acc x => (10 * acc + (x - ch "0"))%N) ds 0%N.

Definition int_value (n : number) : Z :=
  if n_minus n then (- Z.of_N (digits_value (n_int n)))%Z
  else Z.of_N (digits_value (n_int n)).

Definition number_value (n : number) : pyval :=
  match number_kind n with
  | NT_INTEGER => PyInt (int_value n)
  | _ => PyFloat (number_text n)
  end.

Definition literal_value (kind : LiteralTokenKind) : pyval :=
  match kind with
  | LT_TRUE => PyBool true
  | LT_FALSE => PyBool false
  | _ => PyNone
  end.

(** The value of a document.  The members of an object are entered into the
    dict from the last to the first, as [on_end_object] pops them. *)
Fixpoint doc_value (d : doc) : pyval :=
  match d with
  | DLiteral kind => literal_value kind
  | DNumber n => number_value n
  | DString items => PyStr (string_value items)
  | DArray _ es => PyList (elems_values es)
  | DObject _ ms => PyDict (dict_of [] (rev (members_values ms)))
  end
with elems_values (es : elems) : list pyval :=
  match es with
  | ENil => []
  | ECons _ d _ es' => doc_value d :: elems_values es'
  end
with members_values (ms : members) : list (str * pyval) :=
  match ms with
  | MNil => []
  | MCons _ name _ _ d _ ms' =>
      (string_value name, doc_value d) :: members_values ms'
  end.

(** The number of values in a document. *)
Fixpoint doc_size (d : doc) : nat :=
  match d with
  | DArray _ es => S (elems_size es)
  | DObject _ ms => S (members_size ms)
  | _ => 1
  end
with elems_size (es : elems) : nat :=
  match es with
  | ENil => 0
  | ECons _ d _ es' => doc_size d + elems_size es'
  end
with members_size (ms : members) : nat :=
  match ms with
  | MNil => 0
  | MCons _ _ _ _ d _ ms' => doc_size d + members_size ms'
  end.

Example doc_text_nested_array :
  doc_text
    (DArray []
       (ECons [] (DNumber (mkNumber false (lit "1") None None)) []
       (ECons [] (DNumber (mkNumber false (lit "2") None None)) []
       (ECons [] (DArray []
                    (ECons [] (DNumber (mkNumber false (lit "3") None None)) []
                    (ECons [] (DNumber (mkNumber false (lit "4") None None)) []
                     ENil))) []
        ENil))))
  = lit "[1,2,[3,4]]".
Proof. reflexivity. Qed.

(** *** The conversions on the numbers of the grammar *)

Lemma decimal_from_digits ds : forall acc,
  digits ds ->
  decimal_from acc ds
  = Some (fold_left (fun a x => (10 * a + (x - ch "0"))%N) ds acc).
Proof.
  induction ds as [|x ds IH]; intros acc Hds; [reflexivity|].
  inversion Hds as [|? ? Hx Hds']; subst. cbn [decimal_from fold_left].
  destruct (ascii_digit_facts _ Hx) as (_ & _ & _ & _ & _ & _ & Hv).
  rewrite Hv. apply IH. exact Hds'.
Qed.

Lemma strip_sign_digits x ds :
  is_ascii_digit x = true -> strip_sign (x :: ds) = (false, x :: ds).
Proof.
  intros Hx. destruct (ascii_digit_facts _ Hx) as (_ & Hm & Hp & _).
  unfold strip_sign. rewrite Hm, Hp. reflexivity.
Qed.

Lemma py_int_integer n :
  number_wf n -> number_kind n = NT_INTEGER ->
  py_int (number_text n) = Ok (int_value n).
Proof.
  intros ([Hds Hshape] & _) Hkind. unfold number_kind in Hkind.
  unfold number_text, int_value, digits_value.
  destruct (n_exp n); [discriminate|]. destruct (n_frac n); [discriminate|].
  simpl frac_text. simpl exp_text. rewrite !app_nil_r.
  destruct (n_int n) as [|x ds]; [destruct Hshape|].
  unfold py_int. destruct (n_minus n); cbn [sign_text].
  - change (strip_sign ([ch "-"] ++ x :: ds)) with (true, x :: ds).
    cbv beta iota. rewrite (decimal_from_digits 0 Hds). reflexivity.
  - cbn [app].
    rewrite strip_sign_digits by (inversion Hds; assumption).
    cbv beta iota. rewrite (decimal_from_digits 0 Hds). reflexivity.
Qed.

Lemma span_decimal_digits ds r :
  digits ds -> match r with [] => True | x :: _ => isdecimal x = false end ->
  span_decimal (ds ++ r) = (ds, r).
Proof.
  intros Hds Hr. induction ds as [|x ds IH]; cbn [span_decimal app].
  - destruct r as [|y r]; [reflexivity|]. cbn [span_decimal].
    rewrite Hr. reflexivity.
  - inversion Hds as [|? ? Hx Hds']; subst.
    destruct (ascii_digit_facts _ Hx) as (_ & _ & _ & _ & _ & _ & Hv).
    unfold isdecimal at 1. rewrite Hv, (IH Hds'). reflexivity.
Qed.

Lemma nonempty_true {A} (l : list A) : l <> [] -> nonempty l = true.
Proof. destruct l; [congruence | reflexivity]. Qed.

Lemma float_literal_exp ex :
  match ex with Some ex' => exp_wf ex' | None => True end ->
  match exp_text ex with
  | [] => true
  | x :: r => char_in x EXP_CHARS &&
              (let (_, r1) := strip_sign r in
               let (es, r2) := span_decimal r1 in
               nonempty es && negb (nonempty r2))
  end = true.
Proof.
  destruct ex as [[[e sg] es]|]; [|reflexivity].
  intros (He & Hsg & Hne & Hes). cbn [exp_text]. rewrite He. cbn [andb].
  assert (Hstrip : strip_sign (sg ++ es) = (false, es) \/
                   strip_sign (sg ++ es) = (true, es)).
  { destruct Hsg as [->|[->| ->]]; [|right; reflexivity | left; reflexivity].
    left. simpl. destruct es as [|x es]; [congruence|].
    apply strip_sign_digits. inversion Hes; assumption. }
  pose proof (@span_decimal_digits es [] Hes I) as Hspan.
  rewrite app_nil_r in Hspan.
  destruct Hstrip as [-> | ->]; rewrite Hspan, (nonempty_true Hne); reflexivity.
Qed.

Lemma exp_text_not_decimal ex :
  match ex with Some ex' => exp_wf ex' | None => True end ->
  match exp_text ex with [] => True | x :: _ => isdecimal x = false end.
Proof.
  destruct ex as [[[e sg] es]|]; [|intros; exact I].
  intros (He & _). cbn [exp_text]. apply char_in_In in He.
  destruct He as [<-|[<-|[]]]; reflexivity.
Qed.

Lemma py_float_number n :
  number_wf n -> py_float (number_text n) = Ok (PyFloat (number_text n)).
Proof.
  intros ([Hds Hshape] & Hfrac & Hexp). unfold py_float.
  replace (float_literal (number_text n)) with true; [reflexivity|].
  symmetry. unfold float_literal, number_text.
  assert (Hne : n_int n <> []) by (destruct (n_int n); [destruct Hshape | discriminate]).
  assert (Hstrip : strip_sign (sign_text (n_minus n) ++ n_int n
                               ++ frac_text (n_frac n) ++ exp_text (n_exp n))
                   = (n_minus n, n_int n ++ frac_text (n_frac n)
                                 ++ exp_text (n_exp n))).
  { destruct (n_minus n); [reflexivity|]. cbn [sign_text app].
    destruct (n_int n) as [|x ds]; [congruence|]. cbn [app].
    apply strip_sign_digits. inversion Hds; assumption. }
  rewrite Hstrip.
  pose proof (exp_text_not_decimal _ Hexp) as Hnd.
  pose proof (float_literal_exp _ Hexp) as Hlit.
  destruct (n_frac n) as [fs|]; cbn [frac_text].
  - destruct Hfrac as [_ Hfs].
    change ((ch "." :: fs) ++ exp_text (n_exp n))
      with (ch "." :: fs ++ exp_text (n_exp n)).
    rewrite (@span_decimal_digits (n_int n) (ch "." :: fs ++ exp_text (n_exp n))
               Hds eq_refl).
    change (N.eqb (ch ".") (ch ".")) with true. cbv beta iota.
    rewrite (@span_decimal_digits fs (exp_text (n_exp n)) Hfs Hnd).
    rewrite (nonempty_true Hne). exact Hlit.
  - cbn [app].
    rewrite (@span_decimal_digits (n_int n) (exp_text (n_exp n)) Hds Hnd).
    rewrite (nonempty_true Hne).
    destruct (exp_text (n_exp n)) as [|x r] eqn:Hex; [reflexivity|].
    assert (Hx : N.eqb x (ch ".") = false).
    { destruct (n_exp n) as [[[e sg] es]|]; [|discriminate Hex].
      destruct Hexp as (He & _). simpl in Hex. inversion Hex; subst.
      apply char_in_In in He. destruct He as [<-|[<-|[]]]; reflexivity. }
    rewrite Hx. exact Hlit.
Qed.

(** What [parse_number] makes the handler push. *)
Lemma basic_on_number_value n h :
  number_wf n ->
  basic_on_number (match number_kind n with
                   | NT_INTEGER => NT_INTEGER
                   | _ => NT_FLOAT
                   end) (number_text n) h
  = Ok (number_value n :: h).
Proof.
  intros Hwf. unfold number_value.
  pose proof (number_kind_known n) as Hk.
  destruct (number_kind n) eqn:Hkind; try congruence; unfold basic_on_number.
  - rewrite (py_int_integer Hwf Hkind). reflexivity.
  - rewrite (py_float_number Hwf). reflexivity.
  - rewrite (py_float_number Hwf). reflexivity.
Qed.

(** ** Parsing a well-formed text with the basic handler *)

Definition needs_delimiter (d : doc) : bool :=
  match d with
  | DLiteral _ | DNumber _ => true
  | _ => false
  end.

(** The tokens a value can start with. *)
Definition starts_value (tok : Token) : bool :=
  existsb (Token_eqb tok)
          [BEGIN_ARRAY; BEGIN_OBJECT; LITERAL_FALSE; LITERAL_NULL; LITERAL_TRUE;
           NUMBER_DECIMAL; NUMBER_FLOAT; NUMBER_INT; STRING].

Fixpoint elems_len (es : elems) : nat :=
  match es with
  | ENil => 0
  | ECons _ _ _ es' => S (elems_len es')
  end.

Fixpoint members_len (ms : members) : nat :=
  match ms with
  | MNil => 0
  | MCons _ _ _ _ _ _ ms' => S (members_len ms')
  end.

Abbreviation BasicParser := (@mkSAXParser SimpleStack).

Lemma basic_next_lexeme_some L cur h lx L1 :
  Lexer_next_lexeme L = Ok (Some lx, L1) ->
  next_lexeme (BasicParser L cur h) = Ok (true, BasicParser L1 (Some lx) h).
Proof. intros Hlex. unfold next_lexeme. simpl. rewrite Hlex. reflexivity. Qed.

Lemma basic_next_lexeme_none L cur h L1 :
  Lexer_next_lexeme L = Ok (None, L1) ->
  next_lexeme (BasicParser L cur h) = Ok (false, BasicParser L1 None h).
Proof. intros Hlex. unfold next_lexeme. simpl. rewrite Hlex. reflexivity. Qed.

(** The parser reads a structural character. *)
Lemma next_lexeme_structural w x tok rest L cur h :
  blank w -> dict_get STRUCTURALS x = Some tok ->
  lexer_at (w ++ x :: rest) L ->
  exists p L1,
    next_lexeme (BasicParser L cur h)
    = Ok (true, BasicParser L1
                  (Some (mkLexeme p tok [x] LT_UNKNOWN NT_UNKNOWN)) h)
    /\ lexer_at rest L1 /\ initial L1 = false /\ eof L1 = false.
Proof.
  intros Hw Htok HL.
  destruct (@Lexer_next_lexeme_structural w x tok rest L Hw Htok HL)
    as (p & L1 & Hlex & HL1).
  exists p, L1. split; [apply basic_next_lexeme_some; exact Hlex | exact HL1].
Qed.

(** The value that the document is made of, when it has no parts. *)
Definition scalar_parsed (d : doc) (lx : Lexeme) : Prop :=
  starts_value (token lx) = true
  /\ forall fuel L h,
       parse_value (S fuel) (BasicParser L (Some lx) h)
       = Ok (tt, BasicParser L (Some lx) (doc_value d :: h)).

Lemma literal_parsed kind p :
  kind <> LT_UNKNOWN ->
  scalar_parsed (DLiteral kind)
    (mkLexeme p (literal_token kind) (literal_word kind) kind NT_UNKNOWN).
Proof.
  intros Hkind. split; [destruct kind; try congruence; reflexivity|].
  intros fuel L h. destruct kind; try congruence; reflexivity.
Qed.

Lemma number_parsed n p :
  number_wf n ->
  scalar_parsed (DNumber n)
    (number_lexeme p (numeric_token (number_kind n)) (number_text n)
                   (number_kind n)).
Proof.
  intros Hwf. pose proof (number_kind_known n) as Hk.
  pose proof (basic_on_number_value [] Hwf) as Hnum.
  split; [destruct (number_kind n); try congruence; reflexivity|].
  intros fuel L h. pose proof (basic_on_number_value h Hwf) as Hpush.
  unfold doc_value.
  destruct (number_kind n); try congruence;
    cbn [parse_value]; unfold bind, curr_token_is, curr_token_in, gets;
    cbn [curr_token curr token numeric_token number_lexeme Token_eqb existsb
         orb];
    unfold parse_number, call;
    cbn [curr token text numeric_token number_lexeme Token_eqb existsb orb
         handler lexer on_number SAXHandlerBasic];
    rewrite Hpush; reflexivity.
Qed.

Lemma string_parsed items p :
  scalar_parsed (DString items)
    (mkLexeme p STRING (string_value items) LT_UNKNOWN NT_UNKNOWN).
Proof. split; [reflexivity|]. intros fuel L h. reflexivity. Qed.

(** *** The loops of the containers, one turn at a time *)

Section BasicSteps.

Variable pv : ParM SimpleStack unit.

Lemma parse_array_items_loop_last n count P P1 P2 :
  pv P = Ok (tt, P1) -> next_lexeme P1 = Ok (true, P2) ->
  Token_eqb (curr_token P2) VALUE_SEPARATOR = false ->
  parse_array_items_loop pv (S n) count P = Ok (S count, P2).
Proof.
  intros Hpv Hnext Hsep. cbn [parse_array_items_loop].
  unfold bind at 1. rewrite Hpv. unfold bind at 1. rewrite Hnext.
  unfold bind, curr_token_is, gets, ret. rewrite Hsep. reflexivity.
Qed.

Lemma parse_array_items_loop_more n count P P1 P2 P3 :
  pv P = Ok (tt, P1) -> next_lexeme P1 = Ok (true, P2) ->
  Token_eqb (curr_token P2) VALUE_SEPARATOR = true ->
  next_lexeme P2 = Ok (true, P3) ->
  parse_array_items_loop pv (S n) count P
  = parse_array_items_loop pv n (S count) P3.
Proof.
  intros Hpv Hnext Hsep Hnext'. cbn [parse_array_items_loop].
  unfold bind at 1. rewrite Hpv. unfold bind at 1. rewrite Hnext.
  unfold bind at 1, curr_token_is at 1, gets at 1. rewrite Hsep.
  cbn [andb]. unfold bind at 1. unfold bind at 1. rewrite Hnext'.
  reflexivity.
Qed.

Lemma parse_array_run fuel L lx h P1 n P2 :
  token lx = BEGIN_ARRAY ->
  next_lexeme (BasicParser L (Some lx) h) = Ok (true, P1) ->
  (if Token_eqb (curr_token P1) END_ARRAY then n = 0 /\ P2 = P1
   else parse_array_items pv fuel P1 = Ok (n, P2)) ->
  Token_eqb (curr_token P2) END_ARRAY = true ->
  parse_array pv fuel (BasicParser L (Some lx) h)
  = call (on_end_array n) P2.
Proof.
  intros Htok Hnext Hitems Hclosed. unfold parse_array.
  unfold bind at 1, curr_token_is at 1, gets at 1.
  cbn [curr_token curr]. rewrite Htok. cbn [Token_eqb negb].
  unfold bind at 1, call at 1. cbn [handler on_begin_array SAXHandlerBasic lexer curr].
  unfold bind at 1. rewrite Hnext.
  unfold bind at 1, curr_token_is at 1, gets at 1.
  destruct (Token_eqb (curr_token P1) END_ARRAY).
  - destruct Hitems as [-> ->]. cbn [andb negb]. unfold bind at 1, ret at 1.
    unfold bind, curr_token_is, gets. rewrite Hclosed. reflexivity.
  - cbn [andb negb]. unfold bind at 1. rewrite Hitems.
    unfold bind, curr_token_is, gets. rewrite Hclosed. reflexivity.
Qed.

Lemma parse_object_members_loop_step n count L lx h P1 P2 P3 P4 :
  token lx = STRING ->
  next_lexeme (BasicParser L (Some lx) (PyStr (text lx) :: h)) = Ok (true, P1) ->
  Token_eqb (curr_token P1) NAME_SEPARATOR = true ->
  next_lexeme P1 = Ok (true, P2) ->
  pv P2 = Ok (tt, P3) ->
  next_lexeme P3 = Ok (true, P4) ->
  parse_object_members_loop pv (S n) count (BasicParser L (Some lx) h)
  = if Token_eqb (curr_token P4) VALUE_SEPARATOR
    then bind next_lexeme
              (fun ok => if negb ok
                         then raise_here ERR_EXPECTED_MEMBER_NAME no_args
                         else parse_object_members_loop pv n (S count)) P4
    else Ok (S count, P4).
Proof.
  intros Htok Hnext1 Hsep Hnext2 Hpv Hnext3. cbn [parse_object_members_loop].
  unfold bind at 1, curr_token_is at 1, gets at 1.
  cbn [curr_token curr]. rewrite Htok. cbn [Token_eqb negb].
  unfold bind at 1, gets at 1. cbn [curr_text curr].
  unfold bind at 1, call at 1.
  cbn [handler on_member_name SAXHandlerBasic lexer curr]. unfold push.
  unfold bind at 1. rewrite Hnext1.
  unfold bind at 1, curr_token_is at 1, gets at 1. rewrite Hsep.
  cbn [negb orb]. unfold bind at 1. rewrite Hnext2. cbn [negb].
  unfold bind at 1. rewrite Hpv. unfold bind at 1. rewrite Hnext3.
  unfold bind at 1, curr_token_is at 1, gets at 1.
  destruct (Token_eqb (curr_token P4) VALUE_SEPARATOR); cbn [andb].
  - unfold bind.
    destruct (next_lexeme P4) as [[[] P5]| |]; reflexivity.
  - reflexivity.
Qed.

Lemma parse_object_run fuel L lx h P1 n P2 :
  token lx = BEGIN_OBJECT ->
  next_lexeme (BasicParser L (Some lx) h) = Ok (true, P1) ->
  (if Token_eqb (curr_token P1) END_OBJECT then n = 0 /\ P2 = P1
   else parse_object_members pv fuel P1 = Ok (n, P2)) ->
  Token_eqb (curr_token P2) END_OBJECT = true ->
  parse_object pv fuel (BasicParser L (Some lx) h)
  = call (on_end_object n) P2.
Proof.
  intros Htok Hnext Hitems Hclosed. unfold parse_object.
  unfold bind at 1, curr_token_is at 1, gets at 1.
  cbn [curr_token curr]. rewrite Htok. cbn [Token_eqb negb].
  unfold bind at 1, gets at 1.
  unfold bind at 1, call at 1. cbn [handler on_begin_object SAXHandlerBasic lexer curr].
  unfold bind at 1. rewrite Hnext.
  unfold bind at 1, curr_token_is at 1, gets at 1.
  destruct (Token_eqb (curr_token P1) END_OBJECT).
  - destruct Hitems as [-> ->]. cbn [andb negb]. unfold bind at 1, ret at 1.
    unfold bind, curr_token_is, gets. rewrite Hclosed. reflexivity.
  - cbn [andb negb]. unfold bind at 1. rewrite Hitems.
    unfold bind, curr_token_is, gets. rewrite Hclosed. reflexivity.
Qed.

End BasicSteps.

(** *** Values *)

Definition doc_parsed (d : doc) : Prop :=
  doc_wf d ->
  forall fuel L cur h w rest,
    doc_size d <= fuel -> blank w ->
    (needs_delimiter d = true -> delimited rest) ->
    lexer_at (w ++ doc_text d ++ rest) L ->
    exists L1 lx L2 cur2,
      next_lexeme (BasicParser L cur h) = Ok (true, BasicParser L1 (Some lx) h)
      /\ starts_value (token lx) = true
      /\ parse_value fuel (BasicParser L1 (Some lx) h)
         = Ok (tt, BasicParser L2 cur2 (doc_value d :: h))
      /\ lexer_at rest L2 /\ initial L2 = false.

Definition elems_parsed (es : elems) : Prop :=
  elems_wf es -> es <> ENil ->
  forall fuel n L cur h w rest count,
    elems_size es <= fuel -> elems_len es <= n -> blank w ->
    lexer_at (w ++ elems_text es ++ ch "]" :: rest) L ->
    exists L1 lx L2 lx2,
      next_lexeme (BasicParser L cur h) = Ok (true, BasicParser L1 (Some lx) h)
      /\ Token_eqb (token lx) END_ARRAY = false
      /\ parse_array_items_loop (parse_value fuel) n count
           (BasicParser L1 (Some lx) h)
         = Ok (count + elems_len es,
               BasicParser L2 (Some lx2) (rev (elems_values es) ++ h))
      /\ token lx2 = END_ARRAY /\ lexer_at rest L2 /\ initial L2 = false.

Definition members_parsed (ms : members) : Prop :=
  members_wf ms -> ms <> MNil ->
  forall fuel n L cur h w rest count,
    members_size ms <= fuel -> members_len ms <= n -> blank w ->
    lexer_at (w ++ members_text ms ++ ch "}" :: rest) L ->
    exists L1 lx L2 lx2,
      next_lexeme (BasicParser L cur h) = Ok (true, BasicParser L1 (Some lx) h)
      /\ Token_eqb (token lx) END_OBJECT = false
      /\ parse_object_members_loop (parse_value fuel) n count
           (BasicParser L1 (Some lx) h)
         = Ok (count + members_len ms,
               BasicParser L2 (Some lx2)
                 (member_items (rev (members_values ms)) ++ h))
      /\ token lx2 = END_OBJECT /\ lexer_at rest L2 /\ initial L2 = false.

Lemma scalar_doc_parsed d x t lx :
  doc_text d = x :: t -> is_ws_char x = false -> doc_size d = 1 ->
  (forall p, scalar_parsed d (lx p)) ->
  (forall rest L2, (needs_delimiter d = true -> delimited rest) ->
                   on_char x (t ++ rest) L2 -> initial L2 = false ->
     exists L', lexeme_at_char L2 = Ok (lx (pos L2), L')
                /\ lexer_at rest L' /\ initial L' = false) ->
  doc_parsed d.
Proof.
  intros Htext Hx Hsize Hscalar Hlex _ fuel L cur h w rest Hfuel Hw Hrest HL.
  rewrite Htext in HL. simpl in HL.
  destruct (@Lexer_next_lexeme_at w x (t ++ rest) L Hw Hx HL)
    as (L2 & HL2 & Hinit & Hrun).
  destruct (Hlex rest L2 Hrest HL2 Hinit) as (L' & Hat & HL' & Hinit').
  destruct (Hscalar (pos L2)) as [Hstart Hparse].
  exists L', (lx (pos L2)), L', (Some (lx (pos L2))).
  split.
  { apply basic_next_lexeme_some. rewrite Hrun. unfold bind. rewrite Hat.
    reflexivity. }
  split; [exact Hstart|]. split; [|auto].
  destruct fuel as [|fuel]; [lia|]. apply Hparse.
Qed.

Lemma digit_start_not_ws x :
  char_in x DEC_DIGITS_S = true -> is_ws_char x = false.
Proof.
  intros Hx. apply char_in_In in Hx.
  assert (Hall : forallb (fun y => negb (is_ws_char y)) DEC_DIGITS_S = true)
    by (vm_compute; reflexivity).
  rewrite forallb_forall in Hall. apply negb_true_iff. apply Hall. exact Hx.
Qed.

Lemma literal_doc_parsed kind : doc_parsed (DLiteral kind).
Proof.
  intros Hwf. pose proof Hwf as Hkind. simpl in Hkind.
  assert (Hword : exists x t, literal_word kind = x :: t /\ is_ws_char x = false).
  { destruct kind; try congruence; eexists; eexists; split; reflexivity. }
  destruct Hword as (x & t & Hword & Hx).
  apply (@scalar_doc_parsed (DLiteral kind) x t
           (fun p => mkLexeme p (literal_token kind) (literal_word kind) kind
                              NT_UNKNOWN)); auto.
  - intros p. apply literal_parsed. exact Hkind.
  - intros rest L2 Hrest HL2 Hinit.
    destruct (@lexeme_at_char_literal kind x (t ++ rest) rest L2)
      as (L' & Hat & HL' & Hinit' & _); auto.
    + rewrite Hword. reflexivity.
    + exists L'. auto.
Qed.

Lemma number_doc_parsed n : doc_parsed (DNumber n).
Proof.
  intros Hwf. pose proof Hwf as Hn. simpl in Hn.
  destruct (number_text_first Hn) as (x & t & Htext & Hstart & _).
  apply (@scalar_doc_parsed (DNumber n) x t
           (fun p => number_lexeme p (numeric_token (number_kind n))
                                   (number_text n) (number_kind n))); auto.
  - apply digit_start_not_ws. exact Hstart.
  - intros p. apply number_parsed. exact Hn.
  - intros rest L2 Hrest HL2 Hinit.
    destruct (@lexeme_at_char_number n x (t ++ rest) rest L2)
      as (L' & Hat & HL' & Hinit' & _); auto.
    + rewrite Htext. reflexivity.
    + exists L'. auto.
Qed.

Lemma string_doc_parsed items : doc_parsed (DString items).
Proof.
  intros Hwf. pose proof Hwf as Hitems. simpl in Hitems.
  apply (@scalar_doc_parsed (DString items) QUOTE
           (flat_map item_text items ++ [QUOTE])
           (fun p => mkLexeme p STRING (string_value items) LT_UNKNOWN
                              NT_UNKNOWN)); auto.
  - intros p. apply string_parsed.
  - intros rest L2 _ HL2 Hinit.
    destruct (@lexeme_at_char_string items
                ((flat_map item_text items ++ [QUOTE]) ++ rest) rest L2 Hitems)
      as (L' & Hat & HL' & Hinit' & _); auto.
    exists L'. split; [exact Hat|]. split; [exact HL' | congruence].
Qed.

Lemma next_lexeme_string w items rest L cur h :
  blank w -> Forall item_wf items ->
  lexer_at (w ++ string_text items ++ rest) L ->
  exists p L1,
    next_lexeme (BasicParser L cur h)
    = Ok (true, BasicParser L1
                  (Some (mkLexeme p STRING (string_value items) LT_UNKNOWN
                                  NT_UNKNOWN)) h)
    /\ lexer_at rest L1 /\ initial L1 = false.
Proof.
  intros Hw Hitems HL.
  destruct (@Lexer_next_lexeme_at w QUOTE
              ((flat_map item_text items ++ [QUOTE]) ++ rest) L Hw eq_refl HL)
    as (L2 & HL2 & Hinit & Hrun).
  destruct (@lexeme_at_char_string items
              ((flat_map item_text items ++ [QUOTE]) ++ rest) rest L2 Hitems
              eq_refl HL2) as (L' & Hat & HL' & Hinit' & _).
  exists (pos L2), L'. split; [|split; [exact HL' | congruence]].
  apply basic_next_lexeme_some. rewrite Hrun. unfold bind. rewrite Hat.
  reflexivity.
Qed.

Lemma blank_app a b : blank a -> blank b -> blank (a ++ b).
Proof. intros Ha Hb. apply Forall_app. split; assumption. Qed.

Lemma blank_nil : blank [].
Proof. constructor. Qed.

Lemma delimited_blank_then b x rest :
  blank b -> is_delimiter x = true -> delimited (b ++ x :: rest).
Proof.
  intros Hb Hx. destruct b as [|y b]; simpl; [exact Hx|].
  unfold is_delimiter. inversion Hb as [|? ? Hy _]; subst.
  unfold is_ws_char in Hy. rewrite Hy. reflexivity.
Qed.

Lemma delimited_blank w : blank w -> delimited w.
Proof.
  intros Hw. destruct w as [|y w]; simpl; [exact I|].
  unfold is_delimiter. inversion Hw as [|? ? Hy _]; subst.
  unfold is_ws_char in Hy. rewrite Hy. reflexivity.
Qed.

Lemma starts_value_not_end tok :
  starts_value tok = true ->
  Token_eqb tok END_ARRAY = false /\ Token_eqb tok END_OBJECT = false.
Proof. destruct tok; simpl; try discriminate; auto. Qed.

Lemma elems_values_length es : length (elems_values es) = elems_len es.
Proof. induction es as [|a d b es IH]; simpl; [reflexivity|]. rewrite IH. reflexivity. Qed.

Lemma members_values_length ms : length (members_values ms) = members_len ms.
Proof.
  induction ms as [|a name b c d e ms IH]; simpl; [reflexivity|].
  rewrite IH. reflexivity.
Qed.

Lemma doc_size_pos :
  (forall d, 1 <= doc_size d)
  /\ (forall es, elems_len es <= elems_size es)
  /\ (forall ms, members_len ms <= members_size ms).
Proof.
  apply doc_mutind; simpl; intros; lia.
Qed.

Lemma array_doc_parsed w es :
  elems_parsed es -> doc_parsed (DArray w es).
Proof.
  intros Hes [Hw Hwf] fuel L cur h w0 rest Hfuel Hw0 _ HL.
  simpl in Hfuel. destruct fuel as [|fuel]; [lia|].
  assert (Hsize : elems_size es <= fuel) by lia.
  cbn [doc_text] in HL.
  replace ((ch "[" :: w ++ elems_text es ++ [ch "]"]) ++ rest)
    with (ch "[" :: w ++ elems_text es ++ ch "]" :: rest) in HL
    by (simpl; rewrite <- !app_assoc; reflexivity).
  destruct (@next_lexeme_structural w0 (ch "[") BEGIN_ARRAY _ L cur h Hw0
              eq_refl HL) as (p & L1 & Hnext & HL1 & _).
  exists L1. eexists. cbn [doc_value].
  destruct (match es with ENil => true | _ => false end) eqn:Hnil.
  - destruct es; [|discriminate Hnil]. simpl in HL1.
    destruct (@next_lexeme_structural w (ch "]") END_ARRAY rest L1
                (Some (mkLexeme p BEGIN_ARRAY [ch "["] LT_UNKNOWN NT_UNKNOWN))
                h Hw eq_refl HL1) as (p2 & L2 & Hnext2 & HL2 & Hinit2 & _).
    exists L2. eexists. split; [exact Hnext|]. split; [reflexivity|].
    split; [|split; assumption].
    cbn [parse_value]. unfold bind at 1, curr_token_is at 1, gets at 1.
    cbn [curr_token curr token Token_eqb].
    etransitivity;
      [eapply parse_array_run;
       [reflexivity | exact Hnext2
        | cbn [curr_token curr token Token_eqb]; split; reflexivity
        | reflexivity]|].
    reflexivity.
  - destruct (Hes Hwf) with (fuel := fuel) (n := fuel) (L := L1)
      (cur := Some (mkLexeme p BEGIN_ARRAY [ch "["] LT_UNKNOWN NT_UNKNOWN))
      (h := h) (w := w) (rest := rest) (count := 0)
      as (L1' & lx & L2 & lx2 & Hnext2 & Hopen & Hloop & Hclose & HL2 & Hinit2);
      auto.
    { intros ->. discriminate Hnil. }
    { pose proof (proj1 (proj2 doc_size_pos) es). lia. }
    exists L2. eexists. split; [exact Hnext|]. split; [reflexivity|].
    split; [|split; assumption].
    cbn [parse_value]. unfold bind at 1, curr_token_is at 1, gets at 1.
    cbn [curr_token curr token Token_eqb].
    etransitivity;
      [eapply parse_array_run;
       [reflexivity | exact Hnext2
        | cbn [curr_token curr]; rewrite Hopen; exact Hloop
        | cbn [curr_token curr]; rewrite Hclose; reflexivity]|].
    unfold call. cbn [handler on_end_array SAXHandlerBasic lexer curr].
    rewrite <- (elems_values_length es), <- length_rev. cbn [Nat.add].
    rewrite (basic_on_end_array_items (rev (elems_values es)) h).
    rewrite rev_involutive. reflexivity.
Qed.

Lemma elems_cons_parsed a d b es :
  doc_parsed d -> elems_parsed es -> elems_parsed (ECons a d b es).
Proof.
  intros Hd Hes (Ha & Hwfd & Hb & Hwfes) _ fuel n L cur h w rest count
         Hfuel Hn Hw HL.
  simpl in Hfuel, Hn. destruct n as [|n]; [lia|].
  set (tail := match es with ENil => [] | _ => ch "," :: elems_text es end) in *.
  cbn [elems_text] in HL. fold tail in HL.
  replace (w ++ (a ++ doc_text d ++ b ++ tail) ++ ch "]" :: rest)
    with ((w ++ a) ++ doc_text d ++ (b ++ tail ++ ch "]" :: rest)) in HL
    by (rewrite <- !app_assoc; reflexivity).
  destruct (Hd Hwfd fuel L cur h (w ++ a) (b ++ tail ++ ch "]" :: rest))
    as (L1 & lx & L2 & cur2 & Hnext & Hstart & Hvalue & HL2 & Hinit2);
    [lia | apply blank_app; assumption | | exact HL |].
  { intros _. subst tail. destruct es; apply delimited_blank_then; auto. }
  exists L1, lx.
  destruct (starts_value_not_end _ Hstart) as [Hopen _].
  destruct (match es with ENil => true | _ => false end) eqn:Hnil.
  - destruct es; [|discriminate Hnil]. subst tail. simpl in HL2.
    destruct (@next_lexeme_structural b (ch "]") END_ARRAY rest L2 cur2
                (doc_value d :: h) Hb eq_refl HL2)
      as (p3 & L3 & Hnext3 & HL3 & Hinit3 & _).
    exists L3, (mkLexeme p3 END_ARRAY [ch "]"] LT_UNKNOWN NT_UNKNOWN).
    split; [exact Hnext|]. split; [exact Hopen|].
    split; [|split; [reflexivity | split; assumption]].
    erewrite parse_array_items_loop_last;
      [| exact Hvalue | exact Hnext3 | reflexivity].
    simpl. rewrite Nat.add_1_r. reflexivity.
  - assert (Htail : tail = ch "," :: elems_text es)
      by (subst tail; destruct es; [discriminate Hnil | reflexivity]).
    rewrite Htail in HL2. simpl in HL2.
    destruct (@next_lexeme_structural b (ch ",") VALUE_SEPARATOR
                (elems_text es ++ ch "]" :: rest) L2 cur2
                (doc_value d :: h) Hb eq_refl HL2)
      as (p3 & L3 & Hnext3 & HL3 & Hinit3 & _).
    destruct (Hes Hwfes) with (fuel := fuel) (n := n) (L := L3)
      (cur := Some (mkLexeme p3 VALUE_SEPARATOR [ch ","] LT_UNKNOWN NT_UNKNOWN))
      (h := doc_value d :: h) (w := @nil char) (rest := rest)
      (count := S count)
      as (L4 & lx4 & L5 & lx5 & Hnext4 & Hopen4 & Hloop & Hclose & HL5 & Hinit5);
      [intros ->; discriminate Hnil | lia | lia | apply blank_nil
       | exact HL3 |].
    exists L5, lx5. split; [exact Hnext|]. split; [exact Hopen|].
    split; [|split; [exact Hclose | split; assumption]].
    erewrite parse_array_items_loop_more;
      [| exact Hvalue | exact Hnext3 | reflexivity | exact Hnext4].
    rewrite Hloop. cbn [elems_len elems_values rev].
    rewrite <- app_assoc, <- plus_n_Sm. reflexivity.
Qed.

Lemma members_cons_parsed a name b c d e ms :
  doc_parsed d -> members_parsed ms ->
  members_parsed (MCons a name b c d e ms).
Proof.
  intros Hd Hms (Ha & Hname & Hb & Hc & Hwfd & He & Hwfms) _
         fuel n L cur h w rest count Hfuel Hn Hw HL.
  simpl in Hfuel, Hn. destruct n as [|n]; [lia|].
  set (tail := match ms with MNil => [] | _ => ch "," :: members_text ms end)
    in *.
  cbn [members_text] in HL. fold tail in HL.
  replace (w ++ (a ++ string_text name ++ b ++ ch ":" :: c ++ doc_text d
                   ++ e ++ tail) ++ ch "}" :: rest)
    with ((w ++ a) ++ string_text name
          ++ (b ++ ch ":" :: c ++ doc_text d ++ e ++ tail ++ ch "}" :: rest))
    in HL by (rewrite <- !app_assoc; simpl; rewrite <- !app_assoc; reflexivity).
  destruct (@next_lexeme_string (w ++ a) name _ L cur h
              (blank_app Hw Ha) Hname HL)
    as (p1 & L1 & Hnext1 & HL1 & Hinit1).
  set (lx1 := mkLexeme p1 STRING (string_value name) LT_UNKNOWN NT_UNKNOWN)
    in *.
  destruct (@next_lexeme_structural b (ch ":") NAME_SEPARATOR _ L1 (Some lx1)
              (PyStr (string_value name) :: h) Hb eq_refl HL1)
    as (p2 & L2 & Hnext2 & HL2 & Hinit2 & _).
  destruct (Hd Hwfd fuel L2
              (Some (mkLexeme p2 NAME_SEPARATOR [ch ":"] LT_UNKNOWN NT_UNKNOWN))
              (PyStr (string_value name) :: h) c
              (e ++ tail ++ ch "}" :: rest))
    as (L3 & lx3 & L4 & cur4 & Hnext3 & Hstart & Hvalue & HL4 & Hinit4);
    [lia | exact Hc | | exact HL2 |].
  { intros _. subst tail. destruct ms; apply delimited_blank_then; auto. }
  exists L1, lx1.
  destruct (match ms with MNil => true | _ => false end) eqn:Hnil.
  - destruct ms; [|discriminate Hnil]. subst tail. simpl in HL4.
    destruct (@next_lexeme_structural e (ch "}") END_OBJECT rest L4 cur4
                (doc_value d :: PyStr (string_value name) :: h) He eq_refl HL4)
      as (p5 & L5 & Hnext5 & HL5 & Hinit5 & _).
    exists L5, (mkLexeme p5 END_OBJECT [ch "}"] LT_UNKNOWN NT_UNKNOWN).
    split; [exact Hnext1|]. split; [reflexivity|].
    split; [|split; [reflexivity | split; assumption]].
    erewrite parse_object_members_loop_step;
      [| reflexivity | exact Hnext2 | reflexivity | exact Hnext3
       | exact Hvalue | exact Hnext5].
    simpl. rewrite Nat.add_1_r. reflexivity.
  - assert (Htail : tail = ch "," :: members_text ms)
      by (subst tail; destruct ms; [discriminate Hnil | reflexivity]).
    rewrite Htail in HL4. simpl in HL4.
    destruct (@next_lexeme_structural e (ch ",") VALUE_SEPARATOR
                (members_text ms ++ ch "}" :: rest) L4 cur4
                (doc_value d :: PyStr (string_value name) :: h) He eq_refl HL4)
      as (p5 & L5 & Hnext5 & HL5 & Hinit5 & _).
    destruct (Hms Hwfms) with (fuel := fuel) (n := n) (L := L5)
      (cur := Some (mkLexeme p5 VALUE_SEPARATOR [ch ","] LT_UNKNOWN NT_UNKNOWN))
      (h := doc_value d :: PyStr (string_value name) :: h) (w := @nil char)
      (rest := rest) (count := S count)
      as (L6 & lx6 & L7 & lx7 & Hnext6 & Hopen6 & Hloop & Hclose & HL7 & Hinit7);
      [intros ->; discriminate Hnil | lia | lia | apply blank_nil
       | exact HL5 |].
    exists L7, lx7. split; [exact Hnext1|]. split; [reflexivity|].
    split; [|split; [exact Hclose | split; assumption]].
    erewrite parse_object_members_loop_step;
      [| reflexivity | exact Hnext2 | reflexivity | exact Hnext3
       | exact Hvalue | exact Hnext5].
    cbn [curr_token curr token Token_eqb]. unfold bind. rewrite Hnext6.
    cbn [negb]. rewrite Hloop. cbn [members_len members_values rev].
    rewrite member_items_app, <- app_assoc, <- plus_n_Sm. reflexivity.
Qed.

Lemma object_doc_parsed w ms :
  members_parsed ms -> doc_parsed (DObject w ms).
Proof.
  intros Hms [Hw Hwf] fuel L cur h w0 rest Hfuel Hw0 _ HL.
  simpl in Hfuel. destruct fuel as [|fuel]; [lia|].
  assert (Hsize : members_size ms <= fuel) by lia.
  cbn [doc_text] in HL.
  replace ((ch "{" :: w ++ members_text ms ++ [ch "}"]) ++ rest)
    with (ch "{" :: w ++ members_text ms ++ ch "}" :: rest) in HL
    by (simpl; rewrite <- !app_assoc; reflexivity).
  destruct (@next_lexeme_structural w0 (ch "{") BEGIN_OBJECT _ L cur h Hw0
              eq_refl HL) as (p & L1 & Hnext & HL1 & _).
  exists L1. eexists. cbn [doc_value].
  destruct (match ms with MNil => true | _ => false end) eqn:Hnil.
  - destruct ms; [|discriminate Hnil]. simpl in HL1.
    destruct (@next_lexeme_structural w (ch "}") END_OBJECT rest L1
                (Some (mkLexeme p BEGIN_OBJECT [ch "{"] LT_UNKNOWN NT_UNKNOWN))
                h Hw eq_refl HL1) as (p2 & L2 & Hnext2 & HL2 & Hinit2 & _).
    exists L2. eexists. split; [exact Hnext|]. split; [reflexivity|].
    split; [|split; assumption].
    cbn [parse_value]. unfold bind at 1, curr_token_is at 1, gets at 1.
    cbn [curr_token curr token Token_eqb].
    unfold bind at 1, curr_token_is at 1, gets at 1.
    cbn [curr_token curr token Token_eqb].
    etransitivity;
      [eapply parse_object_run;
       [reflexivity | exact Hnext2
        | cbn [curr_token curr token Token_eqb]; split; reflexivity
        | reflexivity]|].
    reflexivity.
  - destruct (Hms Hwf) with (fuel := fuel) (n := fuel) (L := L1)
      (cur := Some (mkLexeme p BEGIN_OBJECT [ch "{"] LT_UNKNOWN NT_UNKNOWN))
      (h := h) (w := w) (rest := rest) (count := 0)
      as (L1' & lx & L2 & lx2 & Hnext2 & Hopen & Hloop & Hclose & HL2 & Hinit2);
      auto.
    { intros ->. discriminate Hnil. }
    { pose proof (proj2 (proj2 doc_size_pos) ms). lia. }
    exists L2. eexists. split; [exact Hnext|]. split; [reflexivity|].
    split; [|split; assumption].
    cbn [parse_value]. unfold bind at 1, curr_token_is at 1, gets at 1.
    cbn [curr_token curr token Token_eqb].
    unfold bind at 1, curr_token_is at 1, gets at 1.
    cbn [curr_token curr token Token_eqb].
    etransitivity;
      [eapply parse_object_run;
       [reflexivity | exact Hnext2
        | cbn [curr_token curr]; rewrite Hopen; exact Hloop
        | cbn [curr_token curr]; rewrite Hclose; reflexivity]|].
    unfold call. cbn [handler on_end_object SAXHandlerBasic lexer curr].
    rewrite <- (members_values_length ms), <- length_rev. cbn [Nat.add].
    rewrite (basic_on_end_object_items (rev (members_values ms)) h).
    reflexivity.
Qed.

(** Every well-formed document is parsed, whatever follows it. *)
Lemma wf_doc_parsed :
  (forall d, doc_parsed d) /\ (forall es, elems_parsed es)
  /\ (forall ms, members_parsed ms).
Proof.
  apply doc_mutind.
  - apply literal_doc_parsed.
  - apply number_doc_parsed.
  - apply string_doc_parsed.
  - intros w es. apply array_doc_parsed.
  - intros w ms. apply object_doc_parsed.
  - intros _ Hnil. congruence.
  - intros a d Hd b es Hes. apply elems_cons_parsed; assumption.
  - intros _ Hnil. congruence.
  - intros a name b c d Hd e ms Hms. apply members_cons_parsed; assumption.
Qed.

(** The fuel of [run] covers the values of the document. *)
Lemma doc_size_text :
  (forall d, doc_wf d -> doc_size d <= length (doc_text d))
  /\ (forall es, elems_wf es -> elems_size es <= length (elems_text es))
  /\ (forall ms, members_wf ms -> members_size ms <= length (members_text ms)).
Proof.
  apply doc_mutind.
  - intros kind Hkind. destruct kind; simpl in *; try lia. congruence.
  - intros n Hn. destruct (number_text_first Hn) as (x & t & Htext & _).
    simpl. rewrite Htext. simpl. lia.
  - intros items _. simpl. rewrite length_app. simpl. lia.
  - intros w es IH [_ Hwf]. specialize (IH Hwf). simpl.
    rewrite !length_app. simpl. lia.
  - intros w ms IH [_ Hwf]. specialize (IH Hwf). simpl.
    rewrite !length_app. simpl. lia.
  - intros _. simpl. lia.
  - intros a d IHd b es IHes (_ & Hd & _ & Hes).
    specialize (IHd Hd). specialize (IHes Hes). cbn [elems_size elems_text].
    rewrite !length_app. destruct es; simpl in *; lia.
  - intros _. simpl. lia.
  - intros a name b c d IHd e ms IHms (_ & _ & _ & _ & Hd & _ & Hms).
    specialize (IHd Hd). specialize (IHms Hms).
    cbn [members_size members_text].
    rewrite !length_app. cbn [length]. rewrite !length_app.
    destruct ms; simpl in *; lia.
Qed.

(** [parse_doc] on a well-formed document, up to the end of its top-level
    value: the value is on the stack and the lexer is at what follows. *)
Lemma top_value_parsed d w1 rest (h : SimpleStack) :
  doc_wf d -> blank w1 -> (needs_delimiter d = true -> delimited rest) ->
  exists L2 cur2,
    parse_doc (run_fuel (w1 ++ doc_text d ++ rest))
              (SAXParser_init (w1 ++ doc_text d ++ rest) h)
    = expect_end (BasicParser L2 cur2 (doc_value d :: h))
    /\ lexer_at rest L2 /\ initial L2 = false
    /\ tracked (w1 ++ doc_text d ++ rest) 0 L2.
Proof.
  intros Hwf Hw Hrest.
  destruct (proj1 wf_doc_parsed d Hwf (run_fuel (w1 ++ doc_text d ++ rest))
              (Lexer_init (w1 ++ doc_text d ++ rest))
              (Some (mkLexeme TextPos_init UNKNOWN [] LT_UNKNOWN NT_UNKNOWN))
              h w1 rest)
    as (L1 & lx & L2 & cur2 & Hnext & _ & Hvalue & HL2 & Hinit2);
    [| exact Hw | exact Hrest | apply lexer_at_init |].
  { pose proof (proj1 doc_size_text d Hwf). unfold run_fuel.
    rewrite !length_app. lia. }
  exists L2, cur2. split; [|split; [|split]]; try assumption.
  - unfold parse_doc, SAXParser_init. unfold bind at 1. rewrite Hnext.
    unfold bind at 1. rewrite Hvalue. reflexivity.
  - set (input := w1 ++ doc_text d ++ rest) in *.
    assert (Hinit : at_stack input 0 h (SAXParser_init input h)).
    { split; [apply tracked_init; reflexivity|]. split; [|reflexivity].
      simpl. intros Hlit. discriminate Hlit. }
    pose proof (@basic_next_lexeme input 0 h _ Hinit) as Hat.
    unfold SAXParser_init in Hat. rewrite Hnext in Hat.
    pose proof (@basic_parse_value input 0 (run_fuel input) h _ Hat) as Hat2.
    rewrite Hvalue in Hat2. destruct Hat2 as (v & HT & _). exact HT.
Qed.

(** [expect_end] when only whitespace is left. *)
Lemma expect_end_blank w L cur (h : SimpleStack) :
  blank w -> lexer_at w L ->
  exists L', expect_end (BasicParser L cur h) = Ok (tt, BasicParser L' None h).
Proof.
  intros Hw HL.
  destruct (Lexer_next_lexeme_blank Hw HL) as (L' & Hrun & Heof & _).
  exists L'. unfold expect_end. unfold bind at 1.
  rewrite (@basic_next_lexeme_none L cur h L' Hrun).
  unfold bind, parser_eof, gets. cbn [lexer]. rewrite Heof. reflexivity.
Qed.

Lemma run_wf_doc d w1 w2 (h : SimpleStack) :
  doc_wf d -> blank w1 -> blank w2 ->
  run (w1 ++ doc_text d ++ w2) h = Ok (doc_value d :: h).
Proof.
  intros Hwf Hw1 Hw2.
  destruct (@top_value_parsed d w1 w2 h Hwf Hw1 (fun _ => delimited_blank Hw2))
    as (L2 & cur2 & Hdoc & HL2 & _).
  destruct (@expect_end_blank w2 L2 cur2 (doc_value d :: h) Hw2 HL2)
    as (L' & Hend).
  unfold run. rewrite Hdoc, Hend. reflexivity.
Qed.

(** ** Well-formed documents and the basic handler *)

Lemma str_eqb_refl a : str_eqb a a = true.
Proof.
  induction a as [|x a IH]; simpl; [reflexivity|].
  rewrite N.eqb_refl, IH. reflexivity.
Qed.

Lemma str_eqb_sym a b : str_eqb a b = str_eqb b a.
Proof.
  revert b. induction a as [|x a IH]; intros [|y b]; simpl; try reflexivity.
  rewrite N.eqb_sym, IH. reflexivity.
Qed.

Lemma dict_lookup_set (o : list (str * pyval)) k v k' :
  dict_lookup (dict_set o k v) k'
  = if str_eqb k k' then Some v else dict_lookup o k'.
Proof.
  induction o as [|[k0 v0] o IH]; simpl.
  - destruct (str_eqb k k'); reflexivity.
  - destruct (str_eqb k0 k) eqn:Hk0; simpl.
    + apply str_eqb_eq in Hk0. subst k0.
      destruct (str_eqb k k'); reflexivity.
    + rewrite IH. destruct (str_eqb k0 k') eqn:Hk0'; [|reflexivity].
      apply str_eqb_eq in Hk0'. subst k0. rewrite str_eqb_sym, Hk0.
      reflexivity.
Qed.

(** In the dict that [on_end_object] builds, a name has the value of the
    first member of that name: the members are popped from the last to the
    first and each assignment replaces the value of its name. *)
Lemma dict_of_first_member (members : list (str * pyval)) k :
  dict_lookup (dict_of [] (rev members)) k = dict_lookup members k.
Proof.
  induction members as [|[k0 v0] members IH]; [reflexivity|].
  cbn [rev]. unfold dict_of in *. rewrite fold_left_app. cbn [fold_left fst snd].
  rewrite dict_lookup_set, IH. reflexivity.
Qed.

(** With distinct names, every pair of the document is in the dict. *)
Lemma dict_of_all_members (members : list (str * pyval)) k v :
  NoDup (map fst members) -> In (k, v) members ->
  dict_lookup (dict_of [] (rev members)) k = Some v.
Proof.
  rewrite dict_of_first_member.
  induction members as [|[k0 v0] members IH]; intros Hnd Hin; [destruct Hin|].
  simpl in Hnd. inversion Hnd as [|? ? Hfresh Hnd']; subst.
  destruct Hin as [Heq|Hin].
  - inversion Heq; subst. simpl. rewrite str_eqb_refl. reflexivity.
  - simpl. destruct (str_eqb k0 k) eqn:Hk.
    + apply str_eqb_eq in Hk. subst k0. exfalso. apply Hfresh.
      apply (in_map fst _ _ Hin).
    + apply IH; assumption.
Qed.

(** The text [{"a":1,"a":2}]. *)
Definition object_with_repeated_name : str :=
  lit "{" ++ [QUOTE] ++ lit "a" ++ [QUOTE] ++ lit ":1,"
  ++ [QUOTE] ++ lit "a" ++ [QUOTE] ++ lit ":2}".

(** C3 (as stated).  An object may repeat a name: the result then holds one
    pair for that name, the one of its first member, and the pair of the
    second member is not in it. *)
Lemma repeated_name_pair_absent :
  parse_basic object_with_repeated_name = Ok (PyDict [(lit "a", PyInt 1)])
  /\ forall obj, parse_basic object_with_repeated_name = Ok (PyDict obj) ->
                 ~ In (lit "a", PyInt 2) obj.
Proof.
  assert (Hrun : parse_basic object_with_repeated_name
                 = Ok (PyDict [(lit "a", PyInt 1)]))
    by (vm_compute; reflexivity).
  split; [exact Hrun|]. intros obj Hobj. rewrite Hrun in Hobj.
  inversion Hobj; subst. intros [Heq|[]]. discriminate Heq.
Qed.

(** C3 (amended).  For every well-formed JSON document, with whitespace
    around it, [run] with a [SAXHandlerBasic] completes without error and
    the result of the handler is the value of the document: integers as
    integers, numbers with a fraction or an exponent as floats, strings with
    their escapes decoded, arrays in the order of their elements, and an
    object as the dict in which each name has the value of its first
    member. *)
Theorem parse_basic_wf_doc d w1 w2 :
  doc_wf d -> blank w1 -> blank w2 ->
  run (w1 ++ doc_text d ++ w2) SimpleStack_init = Ok [doc_value d]
  /\ parse_basic (w1 ++ doc_text d ++ w2) = Ok (doc_value d).
Proof.
  intros Hwf Hw1 Hw2.
  assert (Hrun : run (w1 ++ doc_text d ++ w2) SimpleStack_init
                 = Ok [doc_value d])
    by (apply run_wf_doc; assumption).
  split; [exact Hrun|]. unfold parse_basic. rewrite Hrun. reflexivity.
Qed.

Definition one_digit (x : string) : doc :=
  DNumber (mkNumber false (lit x) None None).

(** The document [[1,2,[3,4]]]. *)
Definition nested_array : doc :=
  DArray []
    (ECons [] (one_digit "1") []
    (ECons [] (one_digit "2") []
    (ECons [] (DArray [] (ECons [] (one_digit "3") []
                         (ECons [] (one_digit "4") [] ENil))) []
     ENil))).

Lemma nested_array_wf : doc_wf nested_array.
Proof.
  simpl. unfold number_wf, int_part, digits, blank. simpl.
  repeat split; repeat constructor.
Defined.

Lemma parse_basic_wf_doc_witness :
  parse_basic (lit "[1,2,[3,4]]")
  = Ok (PyList [PyInt 1; PyInt 2; PyList [PyInt 3; PyInt 4]])
  /\ parse_basic (lit " {} ") = Ok (PyDict []).
Proof.
  split.
  - exact (proj2 (@parse_basic_wf_doc nested_array [] [] nested_array_wf
                    (Forall_nil _) (Forall_nil _))).
  - refine (proj2 (@parse_basic_wf_doc (DObject [] MNil) [ch " "] [ch " "]
                     _ _ _)).
    + split; constructor.
    + repeat constructor.
    + repeat constructor.
Defined.

(** ** The result of the basic handler *)

Definition all_whitespace (input : str) : bool := forallb is_ws_char input.

Lemma all_whitespace_blank input : all_whitespace input = true -> blank input.
Proof.
  intros Hall. apply Forall_forall. intros x Hx.
  exact (proj1 (forallb_forall _ _) Hall x Hx).
Qed.

Lemma first_non_whitespace input :
  all_whitespace input = false ->
  exists w x rest, input = w ++ x :: rest /\ blank w /\ is_ws_char x = false.
Proof.
  induction input as [|y input IH]; simpl; [discriminate|].
  destruct (is_ws_char y) eqn:Hy; simpl.
  - intros Hall. destruct (IH Hall) as (w & x & rest & -> & Hw & Hx).
    exists (y :: w), x, rest. split; [reflexivity|].
    split; [constructor; assumption | exact Hx].
  - intros _. exists [], y, input. split; [reflexivity|].
    split; [constructor | exact Hy].
Qed.

(** [run] on whitespace only: nothing reaches the handler. *)
Lemma run_blank input (h : SimpleStack) : blank input -> run input h = Ok h.
Proof.
  intros Hw.
  destruct (Lexer_next_lexeme_blank Hw (lexer_at_init input))
    as (L' & Hrun & Heof & _).
  unfold run, parse_doc, SAXParser_init. unfold bind at 1.
  rewrite (@basic_next_lexeme_none (Lexer_init input) _ h L' Hrun).
  unfold bind, parser_eof, gets, ret. cbn [lexer]. rewrite Heof. reflexivity.
Qed.

(** A run that returns on an input with something else than whitespace has
    put one value on the stack. *)
Lemma run_pushes_one input (h s : SimpleStack) :
  all_whitespace input = false -> run input h = Ok s ->
  exists v, s = v :: h.
Proof.
  intros Hall Hrun.
  destruct (first_non_whitespace input Hall) as (w & x & rest & Hin & Hw & Hx).
  destruct (@Lexer_next_lexeme_at w x rest (Lexer_init input) Hw Hx)
    as (L2 & _ & _ & Hnext); [rewrite <- Hin; apply lexer_at_init|].
  assert (Hfirst : exists L3 lx,
             next_lexeme (SAXParser_init input h)
             = Ok (true, mkSAXParser L3 (Some lx) h)).
  { unfold run, parse_doc, bind in Hrun.
    unfold next_lexeme in *. cbn [lexer SAXParser_init handler] in *.
    rewrite Hnext in *. unfold bind, ret in *.
    destruct (lexeme_at_char L2) as [[lx L3]| |]; try discriminate Hrun.
    exists L3, lx. reflexivity. }
  destruct Hfirst as (L3 & lx & Hfirst).
  pose proof (@basic_next_lexeme input 0 h (SAXParser_init input h)) as Hat.
  rewrite Hfirst in Hat.
  assert (Hinit : at_stack input 0 h (SAXParser_init input h)).
  { split; [apply tracked_init; reflexivity|]. split; [|reflexivity].
    simpl. intros Hlit. discriminate Hlit. }
  specialize (Hat Hinit).
  unfold run, parse_doc in Hrun. unfold bind at 1 in Hrun.
  rewrite Hfirst in Hrun.
  pose proof (@basic_parse_value input 0 (run_fuel input) h _ Hat) as Hvalue.
  unfold bind at 1 in Hrun.
  destruct (parse_value (run_fuel input) (mkSAXParser L3 (Some lx) h))
    as [[[] P1]| |]; try discriminate Hrun.
  destruct Hvalue as (v & Hat1).
  pose proof (@basic_expect_end input 0 (v :: h) P1 Hat1) as Hend.
  destruct (expect_end P1) as [[[] P2]| |]; try discriminate Hrun.
  destruct Hend as (_ & _ & Hh). inversion Hrun; subst. exists v. exact Hh.
Qed.

(** C10.  After a parse that returns, the stack of a [SAXHandlerBasic] holds
    one item when the input had a document and none when it was empty (or
    whitespace only).  Reading [result] with one item on the stack removes
    and returns it; with an empty stack it returns [None] and leaves the
    stack empty, so every later read returns [None] too; with more than one
    item it raises [JSONError]. *)
Theorem result_is_destructive :
  (forall input s,
      run input SimpleStack_init = Ok s ->
      if all_whitespace input then s = [] else exists v, s = [v])
  /\ (forall v, result [v] = Ok (v, []))
  /\ result [] = Ok (PyNone, [])
  /\ (forall s, 2 <= size s ->
                result s = Raise (JSONError (UnexpectedStackSize (size s)))).
Proof.
  split; [|split; [|split]].
  - intros input s Hrun. destruct (all_whitespace input) eqn:Hall.
    + rewrite (@run_blank input SimpleStack_init
                 (@all_whitespace_blank input Hall)) in Hrun.
      inversion Hrun. reflexivity.
    + exact (@run_pushes_one input SimpleStack_init s Hall Hrun).
  - reflexivity.
  - reflexivity.
  - intros s Hs. unfold result.
    destruct s as [|a [|b s]]; simpl in *; try lia. reflexivity.
Qed.

Lemma result_is_destructive_witness :
  (exists v, [PyBool true] = [v])
  /\ result [PyInt 1; PyInt 2]
     = Raise (JSONError (UnexpectedStackSize 2)).
Proof.
  split.
  - exact (proj1 result_is_destructive (lit "true") [PyBool true] eq_refl).
  - apply (proj2 (proj2 (proj2 result_is_destructive)) [PyInt 1; PyInt 2]).
    simpl. lia.
Defined.

(** ** The lexer on any input

    With the fuel that the model gives them, the loops of the lexer come to
    an end on every input: each turn reads a character of the stream. *)

Definition comes_back {A} (P : Lexer -> Prop) (m : LexM A) : Prop :=
  forall L, P L ->
    match m L with
    | Ok (_, L') => length (reader L') <= length (reader L)
    | Raise _ => True
    | OutOfFuel => False
    end.

Lemma next_char_reader L :
  length (reader (snd (next_char L))) <= length (reader L)
  /\ (fst (next_char L) = true ->
      S (length (reader (snd (next_char L)))) = length (reader L)).
Proof.
  destruct (reader L) as [|x rd] eqn:Hrd.
  - rewrite (next_char_end L Hrd). simpl. split; [lia | discriminate].
  - rewrite (next_char_more L Hrd). simpl. split; [lia | reflexivity].
Qed.

Lemma comes_back_bind {A B} (P : Lexer -> Prop) (Q : A -> Lexer -> Prop)
      (m : LexM A) (k : A -> LexM B) :
  comes_back P m ->
  (forall L a L', P L -> m L = Ok (a, L') -> Q a L') ->
  (forall a, comes_back (Q a) (k a)) ->
  comes_back P (bind m k).
Proof.
  intros Hm Hq Hk L HL. unfold bind. specialize (Hm L HL).
  destruct (m L) as [[a L']| |] eqn:Hrun; auto.
  specialize (Hk a L' (Hq L a L' HL Hrun)).
  destruct (k a L') as [[b L'']| |]; auto. lia.
Qed.

Lemma handle_escaped_char_loop_comes_back n start : forall value,
  comes_back (fun _ => True) (handle_escaped_char_loop n start value).
Proof.
  induction n as [|n IH]; intros value L _; cbn [handle_escaped_char_loop].
  - unfold ret. lia.
  - run_m. pose proof (next_char_reader L) as [Hle _].
    destruct (next_char L) as [ok L1]. cbn [fst snd] in *.
    destruct (negb (ok && is_hex_digit (c L1))); [exact I|].
    specialize (IH (value ++ c_str (c L1)) (set_c_accepted true L1) I).
    destruct (handle_escaped_char_loop n start (value ++ c_str (c L1))
                (set_c_accepted true L1)) as [[v L2]| |]; auto.
    simpl in IH. lia.
Qed.

Lemma handle_escaped_char_comes_back start :
  comes_back (fun _ => True) (handle_escaped_char start).
Proof.
  intros L _. unfold handle_escaped_char, bind.
  pose proof (@handle_escaped_char_loop_comes_back 4 start [] L I) as Hloop.
  destruct (handle_escaped_char_loop 4 start [] L) as [[v L1]| |]; auto.
  unfold int_base16. destruct v as [|x v]; [exact I|].
  destruct (int_base16_from 0 (x :: v)); [exact Hloop | exact I].
Qed.

Lemma handle_literal_loop_comes_back fuel : forall value,
  comes_back (fun L => length (reader L) < fuel)
             (handle_literal_loop fuel value).
Proof.
  induction fuel as [|fuel IH]; intros value L HL; [inversion HL|].
  cbn [handle_literal_loop]. run_m.
  pose proof (next_char_reader L) as [Hle Hlt].
  destruct (next_char L) as [ok L1]. cbn [fst snd] in *.
  destruct ok; [|exact Hle]. specialize (Hlt eq_refl).
  destruct (is_whitespace (c L1) || is_structural (c L1)); [exact Hle|].
  assert (HL1 : length (reader (set_c_accepted true L1)) < fuel)
    by (simpl; lia).
  specialize (IH (value ++ c_str (c L1)) _ HL1).
  destruct (handle_literal_loop fuel (value ++ c_str (c L1))
              (set_c_accepted true L1)) as [[v L2]| |]; auto.
  simpl in IH. lia.
Qed.

Lemma handle_number_loop_comes_back fuel : forall np,
  comes_back (fun L => length (reader L) < fuel) (handle_number_loop fuel np).
Proof.
  induction fuel as [|fuel IH]; intros np L HL; [inversion HL|].
  cbn [handle_number_loop]. run_m.
  destruct (read_char np (c L)) as [ok np']. destruct ok; [|lia].
  pose proof (next_char_reader (set_c_accepted true L)) as [Hle Hlt].
  destruct (next_char (set_c_accepted true L)) as [ok L1]. cbn [fst snd] in *.
  simpl in Hle, Hlt.
  destruct ok; [|exact Hle]. specialize (Hlt eq_refl).
  assert (HL1 : length (reader L1) < fuel) by lia.
  specialize (IH np' _ HL1).
  destruct (handle_number_loop fuel np' L1) as [[v L2]| |]; auto. lia.
Qed.

Lemma handle_string_loop_comes_back fuel start : forall value,
  comes_back (fun L => length (reader L) < fuel)
             (handle_string_loop fuel start value).
Proof.
  induction fuel as [|fuel IH]; intros value L HL; [inversion HL|].
  cbn [handle_string_loop]. run_m.
  pose proof (next_char_reader L) as [Hle Hlt].
  destruct (next_char L) as [ok L1]. cbn [fst snd] in *.
  destruct ok; [|exact I]. specialize (Hlt eq_refl).
  destruct (c_is (c L1) QUOTE); [simpl; lia|].
  destruct (c_is (c L1) BACKSLASH).
  - pose proof (next_char_reader L1) as [Hle2 Hlt2].
    destruct (next_char L1) as [ok2 L2]. cbn [fst snd] in *.
    destruct ok2; [|exact I]. specialize (Hlt2 eq_refl). cbn [negb].
    destruct (c_get ESCAPE_CHARS (c L2)) as [esc_char|].
    + assert (HL2 : length (reader (set_c_accepted true L2)) < fuel)
        by (simpl; lia).
      specialize (IH (value ++ [esc_char]) _ HL2).
      destruct (handle_string_loop fuel start (value ++ [esc_char])
                  (set_c_accepted true L2)) as [[v L3]| |]; auto.
      simpl in IH. lia.
    + destruct (c_is (c L2) (ch "u")); [|exact I].
      pose proof (@handle_escaped_char_comes_back (pos L1) L2 I) as Hesc.
      destruct (handle_escaped_char (pos L1) L2) as [[decoded L3]| |]; auto.
      assert (HL3 : length (reader L3) < fuel) by lia.
      specialize (IH (value ++ decoded) _ HL3).
      destruct (handle_string_loop fuel start (value ++ decoded) L3)
        as [[v L4]| |]; auto. lia.
  - assert (HL1 : length (reader (set_c_accepted true L1)) < fuel)
      by (simpl; lia).
    specialize (IH (value ++ c_str (c L1)) _ HL1).
    destruct (handle_string_loop fuel start (value ++ c_str (c L1))
                (set_c_accepted true L1)) as [[v L3]| |]; auto.
    simpl in IH. lia.
Qed.


Lemma lexeme_at_char_comes_back :
  comes_back (fun _ => True) lexeme_at_char.
Proof.
  intros L _. unfold lexeme_at_char. run_m.
  destruct (c_is (c L) QUOTE).
  { unfold handle_string. run_m.
    apply handle_string_loop_comes_back. unfold loop_fuel. lia. }
  destruct (c_in (c L) DEC_DIGITS_S).
  { unfold handle_number. run_m.
    pose proof (@handle_number_loop_comes_back (loop_fuel L)
                  NumericParser_init L) as Hloop.
    destruct (handle_number_loop (loop_fuel L) NumericParser_init L)
      as [[np L1]| |]; [|exact I | apply Hloop; unfold loop_fuel; lia].
    assert (Hle : length (reader L1) <= length (reader L))
      by (apply Hloop; unfold loop_fuel; lia).
    destruct (np_type np); try exact I;
      destruct (c_accepted L1 || is_whitespace (c L1) || is_structural (c L1));
      auto. }
  destruct (c_get STRUCTURALS (c L)); [simpl; lia|].
  destruct (c_in (c L) LITERAL_PREFIXES); [|exact I].
  unfold handle_literal. run_m.
  pose proof (@handle_literal_loop_comes_back (loop_fuel L) (c_str (c L))
                (set_c_accepted true L)) as Hloop.
  change (loop_fuel (set_c_accepted true L)) with (loop_fuel L).
  destruct (handle_literal_loop (loop_fuel L) (c_str (c L))
              (set_c_accepted true L))
    as [[v L1]| |]; [|exact I | apply Hloop; unfold loop_fuel; simpl; lia].
  assert (Hle : length (reader L1) <= length (reader L))
    by (apply Hloop; unfold loop_fuel; simpl; lia).
  destruct (str_eqb v (lit "false")); [exact Hle|].
  destruct (str_eqb v (lit "null")); [exact Hle|].
  destruct (str_eqb v (lit "true")); [exact Hle | exact I].
Qed.



(** *** When the lexer stops before the end of the stream *)








(** *** When the lexer stops at the end of the stream

    The scan of a literal or of a number ends in front of a character that
    it has read and not accepted, or at the end of the stream, and then
    [eof] is set. *)

Lemma handle_literal_loop_ends fuel : forall value L v L',
  handle_literal_loop fuel value L = Ok (v, L') ->
  eof L' = true \/ c_accepted L' = false.
Proof.
  induction fuel as [|fuel IH]; intros value L v L'; [discriminate|].
  cbn [handle_literal_loop]. run_m.
  destruct (reader L) as [|y rd] eqn:Hrd.
  { rewrite (next_char_end L Hrd). cbn [fst snd].
    intros Hrun. inversion Hrun; subst. left. reflexivity. }
  rewrite (next_char_more L Hrd). cbn [fst snd c].
  destruct (is_whitespace (Some y) || is_structural (Some y)); [|apply IH].
  intros Hrun. inversion Hrun; subst. right. reflexivity.
Qed.

Lemma handle_number_loop_ends fuel : forall np L np' L',
  c_accepted L = false ->
  handle_number_loop fuel np L = Ok (np', L') ->
  eof L' = true \/ c_accepted L' = false.
Proof.
  induction fuel as [|fuel IH]; intros np L np' L' Hacc; [discriminate|].
  cbn [handle_number_loop]. run_m.
  destruct (read_char np (c L)) as [ok np1]. destruct ok.
  2:{ intros Hrun. inversion Hrun; subst. right. exact Hacc. }
  destruct (reader L) as [|y rd] eqn:Hrd.
  { rewrite (next_char_end (set_c_accepted true L) Hrd). cbn [fst snd].
    intros Hrun. inversion Hrun; subst. left. reflexivity. }
  rewrite (@next_char_set_c_accepted true L y rd Hrd).
  rewrite (next_char_more L Hrd). cbn [fst snd].
  apply IH. reflexivity.
Qed.

Lemma lexeme_at_char_ends x rest L lx L' :
  on_char x rest L ->
  char_in x DEC_DIGITS_S || char_in x LITERAL_PREFIXES = true ->
  lexeme_at_char L = Ok (lx, L') ->
  eof L' = true \/ c_accepted L' = false.
Proof.
  intros (Hc & Hrd & Hacc & Heof) Hx. unfold lexeme_at_char. run_m.
  rewrite Hc. cbn [c_is c_in c_get].
  destruct (N.eqb_spec x QUOTE) as [->|_]; [discriminate Hx|].
  destruct (char_in x DEC_DIGITS_S) eqn:Hnum.
  { unfold handle_number. run_m.
    pose proof (@handle_number_loop_ends (loop_fuel L) NumericParser_init L)
      as Hloop.
    destruct (handle_number_loop (loop_fuel L) NumericParser_init L)
      as [[np L1]| |]; [|discriminate | discriminate].
    specialize (Hloop np L1 Hacc eq_refl).
    destruct (np_type np); try discriminate;
      destruct (c_accepted L1 || is_whitespace (c L1) || is_structural (c L1));
      try discriminate; intros Hrun; inversion Hrun; subst; exact Hloop. }
  destruct (dict_get STRUCTURALS x) as [tok|] eqn:Htok.
  { pose proof (structural_char_cases _ Htok) as Hin.
    unfold STRUCTURALS in Hin. cbn [In] in Hin.
    repeat (destruct Hin as [Hin|Hin];
            [injection Hin as <- _; discriminate Hx|]).
    destruct Hin. }
  destruct (char_in x LITERAL_PREFIXES); [|discriminate].
  unfold handle_literal. run_m.
  change (loop_fuel (set_c_accepted true L)) with (loop_fuel L).
  pose proof (@handle_literal_loop_ends (loop_fuel L) (c_str (c L))
                (set_c_accepted true L)) as Hloop.
  destruct (handle_literal_loop (loop_fuel L) (c_str (c L))
              (set_c_accepted true L))
    as [[v L1]| |]; [|discriminate | discriminate].
  specialize (Hloop v L1 eq_refl).
  destruct (str_eqb v (lit "false"));
    [intros Hrun; inversion Hrun; subst; exact Hloop|].
  destruct (str_eqb v (lit "null"));
    [intros Hrun; inversion Hrun; subst; exact Hloop|].
  destruct (str_eqb v (lit "true"));
    [intros Hrun; inversion Hrun; subst; exact Hloop | discriminate].
Qed.

(** ** Content behind the top-level value *)

(** The characters a lexeme can start with. *)
Definition begins_lexeme (x : char) : bool :=
  N.eqb x QUOTE || char_in x DEC_DIGITS_S || is_structural (Some x)
  || char_in x LITERAL_PREFIXES.


(** A lexer that has read [rest] away from the input has consumed what is
    in front of it. *)
Lemma tracked_consumed input low L consumed :
  tracked input low L -> input = consumed ++ reader L ->
  pos L = hand_pos consumed /\ tracked input (length consumed) L.
Proof.
  intros (consumed' & Hin & Hpos & Hc & Hlow) Heq.
  assert (consumed' = consumed).
  { rewrite Hin in Heq. apply app_inv_tail in Heq. exact Heq. }
  subst consumed'. split; [exact Hpos|].
  exists consumed. repeat split; auto.
Qed.

(** In front of a character that starts no lexeme the lexer raises. *)
Lemma lexeme_at_char_unexpected x rest L :
  on_char x rest L -> begins_lexeme x = false ->
  lexeme_at_char L
  = Raise (JSONParserError (pos L) ERR_UNEXPECTED_CHAR_FMT [Some [x]]).
Proof.
  intros (Hc & _) Hx. unfold begins_lexeme, is_structural in Hx.
  cbn [c_get] in Hx.
  apply orb_false_elim in Hx. destruct Hx as [Hx Hlit].
  apply orb_false_elim in Hx. destruct Hx as [Hx Hstr].
  apply orb_false_elim in Hx. destruct Hx as [Hq Hnum].
  unfold lexeme_at_char. run_m. rewrite Hc. cbn [c_is c_in c_get c_str].
  rewrite Hq, Hnum, Hlit.
  destruct (dict_get STRUCTURALS x); [discriminate Hstr | reflexivity].
Qed.

(** Behind the value of [true garbage] the lexer meets a character that
    starts no lexeme and raises its own unexpected-character error, at that
    character: the error is neither the unexpected-lexeme nor the
    expected-end-of-document error of the parser. *)
Lemma garbage_is_a_lexer_error :
  run (lit "true garbage") SimpleStack_init
  = Raise (JSONParserError (mkTextPos 1 6) ERR_UNEXPECTED_CHAR_FMT
                           [Some (lit "g")])
  /\ (forall p args,
        run (lit "true garbage") SimpleStack_init
        <> Raise (JSONParserError p ERR_UNEXPECTED_LEXEME_FMT args))
  /\ (forall p args,
        run (lit "true garbage") SimpleStack_init
        <> Raise (JSONParserError p ERR_EXPECTED_EOF args)).
Proof.
  assert (Hrun : run (lit "true garbage") SimpleStack_init
                 = Raise (JSONParserError (mkTextPos 1 6)
                            ERR_UNEXPECTED_CHAR_FMT [Some (lit "g")]))
    by (vm_compute; reflexivity).
  split; [exact Hrun|]. rewrite Hrun. split; intros p args; discriminate.
Qed.

(** A literal or a number that reaches the end of the stream sets [eof]
    while it is read, and [parse_doc] takes that for the end of the
    document: nothing is raised. *)
Example trailing_lexeme_at_end_of_stream :
  run (lit "true true") SimpleStack_init = Ok [PyBool true]
  /\ run (lit "true 1") SimpleStack_init = Ok [PyBool true]
  /\ run (lit "[] null") SimpleStack_init = Ok [PyList []]
  /\ run (lit "true true ") SimpleStack_init
     = Raise (JSONParserError (mkTextPos 1 10) ERR_EXPECTED_EOF [None])
  /\ run (lit "true [") SimpleStack_init
     = Raise (JSONParserError (mkTextPos 1 6) ERR_EXPECTED_EOF [None])
  /\ run (lit "true [ ]") SimpleStack_init
     = Raise (JSONParserError (mkTextPos 1 8) ERR_UNEXPECTED_LEXEME_FMT
                              [Some (lit "]")]).
Proof. repeat split; vm_compute; reflexivity. Qed.

(** ** Where the lexemes of any input stand

    A lexeme carries the position that the lexer has when it reads the
    first character of the lexeme, and the lexer goes on behind it. *)

(** [rest] is what is left of [t] when a front part is taken away. *)
Definition tail_of (rest t : str) : Prop := exists mid, t = mid ++ rest.

Lemma tail_of_refl t : tail_of t t.
Proof. exists []. reflexivity. Qed.

Lemma tail_of_nil t : tail_of [] t.
Proof. exists t. rewrite app_nil_r. reflexivity. Qed.

Lemma tail_of_cons rest x t : tail_of rest t -> tail_of rest (x :: t).
Proof. intros [mid ->]. exists (x :: mid). reflexivity. Qed.

Lemma tail_of_trans a b t : tail_of a b -> tail_of b t -> tail_of a t.
Proof.
  intros [m1 ->] [m2 ->]. exists (m2 ++ m1). rewrite app_assoc. reflexivity.
Qed.

Lemma tail_of_length rest t : tail_of rest t -> length rest <= length t.
Proof. intros [mid ->]. rewrite length_app. lia. Qed.

Lemma handle_escaped_char_loop_tail n start : forall value L v L',
  handle_escaped_char_loop n start value L = Ok (v, L') ->
  initial L' = initial L /\ tail_of (reader L') (reader L).
Proof.
  induction n as [|n IH]; intros value L v L'; cbn [handle_escaped_char_loop].
  - unfold ret. intros Hrun. inversion Hrun; subst.
    split; [reflexivity | apply tail_of_refl].
  - run_m. destruct (reader L) as [|y rd] eqn:Hrd.
    + rewrite (next_char_end L Hrd). cbn [fst snd c andb negb]. discriminate.
    + rewrite (next_char_more L Hrd). cbn [fst snd c andb].
      destruct (negb (is_hex_digit (Some y))); [discriminate|].
      intros Hrun. apply IH in Hrun. cbn [initial reader set_c_accepted] in Hrun.
      destruct Hrun as [Hi Ht]. split; [exact Hi|].
      apply tail_of_cons. exact Ht.
Qed.

Lemma handle_escaped_char_tail start L v L' :
  handle_escaped_char start L = Ok (v, L') ->
  initial L' = initial L /\ tail_of (reader L') (reader L).
Proof.
  unfold handle_escaped_char, bind.
  pose proof (@handle_escaped_char_loop_tail 4 start [] L) as Hloop.
  destruct (handle_escaped_char_loop 4 start [] L) as [[value L1]| |];
    [|discriminate | discriminate].
  specialize (Hloop value L1 eq_refl).
  destruct (int_base16 value); [|discriminate | discriminate].
  intros Hrun. inversion Hrun; subst. exact Hloop.
Qed.

(** A string lexeme carries the position that [handle_string] has saved,
    and the lexer has accepted the closing quote. *)
Lemma handle_string_loop_tail fuel start : forall value L lx L',
  handle_string_loop fuel start value L = Ok (lx, L') ->
  lex_pos lx = start /\ token lx = STRING /\ c_accepted L' = true
  /\ initial L' = initial L /\ tail_of (reader L') (reader L).
Proof.
  induction fuel as [|fuel IH]; intros value L lx L'; [discriminate|].
  cbn [handle_string_loop]. run_m.
  destruct (reader L) as [|y rd] eqn:Hrd.
  { rewrite (next_char_end L Hrd). cbn [fst snd]. discriminate. }
  rewrite (next_char_more L Hrd). cbn [fst snd c pos].
  destruct (c_is (Some y) QUOTE).
  { intros Hrun. inversion Hrun; subst. cbn.
    repeat split. apply tail_of_cons, tail_of_refl. }
  destruct (c_is (Some y) BACKSLASH).
  - destruct rd as [|z rd2].
    { rewrite next_char_end by reflexivity. cbn [fst snd negb]. discriminate. }
    rewrite (@next_char_more _ z rd2) by reflexivity. cbn [fst snd negb c].
    destruct (c_get ESCAPE_CHARS (Some z)) as [esc_char|].
    + intros Hrun. apply IH in Hrun. cbn in Hrun.
      destruct Hrun as (Hp & Htok & Ha & Hi & Ht). repeat split; auto.
      apply tail_of_cons, tail_of_cons. exact Ht.
    + destruct (c_is (Some z) (ch "u")); [|discriminate].
      match goal with
      | |- context [handle_escaped_char ?p ?L2] =>
          pose proof (@handle_escaped_char_tail p L2) as Hesc;
          destruct (handle_escaped_char p L2) as [[decoded L3]| |];
          [|discriminate | discriminate]
      end.
      destruct (Hesc decoded L3 eq_refl) as [Hi3 Ht3]. cbn in Hi3, Ht3.
      intros Hrun. apply IH in Hrun.
      destruct Hrun as (Hp & Htok & Ha & Hi & Ht).
      repeat split; auto; [congruence|].
      apply tail_of_cons, tail_of_cons.
      apply (tail_of_trans Ht Ht3).
  - intros Hrun. apply IH in Hrun. cbn in Hrun.
    destruct Hrun as (Hp & Htok & Ha & Hi & Ht). repeat split; auto.
    apply tail_of_cons. exact Ht.
Qed.

(** The scan of a literal ends at the end of the stream or in front of a
    delimiter that it has read ahead. *)
Lemma handle_literal_loop_tail fuel : forall value L v L',
  c_accepted L = true -> initial L = false ->
  handle_literal_loop fuel value L = Ok (v, L') ->
  initial L' = false /\ (exists t, v = value ++ t)
  /\ exists rest', lexer_at rest' L' /\ tail_of rest' (reader L).
Proof.
  induction fuel as [|fuel IH]; intros value L v L' Hacc Hinit; [discriminate|].
  cbn [handle_literal_loop]. run_m.
  destruct (reader L) as [|y rd] eqn:Hrd.
  { rewrite (next_char_end L Hrd). cbn [fst snd].
    intros Hrun. inversion Hrun; subst. split; [exact Hinit|].
    split; [exists []; rewrite app_nil_r; reflexivity|].
    exists []. split; [|apply tail_of_refl].
    apply accepted_lexer_at; [exact Hacc | reflexivity]. }
  rewrite (next_char_more L Hrd). cbn [fst snd c].
  destruct (is_whitespace (Some y) || is_structural (Some y)).
  - intros Hrun. inversion Hrun; subst. split; [exact Hinit|].
    split; [exists []; rewrite app_nil_r; reflexivity|].
    exists (y :: rd). split; [|apply tail_of_refl].
    apply at_look with (x := y); auto.
  - intros Hrun. apply IH in Hrun; [|reflexivity | exact Hinit].
    destruct Hrun as (Hi & [t ->] & rest' & Hat & Ht). split; [exact Hi|].
    split; [exists (c_str (Some y) ++ t); rewrite app_assoc; reflexivity|].
    exists rest'. split; [exact Hat|]. apply tail_of_cons. exact Ht.
Qed.

(** [read_char] takes nothing away from the text of the number. *)
Lemma read_char_extends np c ok np' :
  read_char np c = (ok, np') -> exists t, np_value np' = np_value np ++ t.
Proof.
  unfold read_char. intros Hread.
  repeat match type of Hread with
         | (if ?b then _ else _) = _ => destruct b
         end;
    inversion Hread; subst; cbn [np_value accept set_type];
    solve [eexists; reflexivity | exists []; rewrite app_nil_r; reflexivity].
Qed.

(** The first character that [read_char] accepts is the first one of the
    text of the number. *)
Lemma read_char_first x np' :
  read_char NumericParser_init (Some x) = (true, np') -> np_value np' = [x].
Proof.
  unfold read_char, NumericParser_init. cbn [np_char_count np_digit_count
    np_type np_accepting_type np_value NumericTokenKind_eqb Nat.eqb Nat.ltb
    Nat.leb andb orb c_is c_str accept app].
  destruct (N.eqb_spec x (ch "-")) as [->|_].
  { intros Hread. inversion Hread. reflexivity. }
  destruct (N.eqb x (ch "+")); [discriminate|].
  destruct (N.eqb x (ch ".")); [discriminate|].
  destruct (c_isdigit (Some x)).
  { intros Hread. inversion Hread. reflexivity. }
  destruct (c_in (Some x) EXP_CHARS); [|discriminate].
  intros Hread. inversion Hread. reflexivity.
Qed.

(** The scan of a number ends at the character that the state machine
    refuses, or at the end of the stream. *)
Lemma handle_number_loop_tail fuel : forall np L np' L' y r,
  on_char y r L -> initial L = false ->
  handle_number_loop fuel np L = Ok (np', L') ->
  initial L' = false
  /\ ((L' = L /\ read_char np (Some y) = (false, np'))
      \/ (exists np1 t, read_char np (Some y) = (true, np1)
                        /\ np_value np' = np_value np1 ++ t)
         /\ exists rest', lexer_at rest' L' /\ tail_of rest' r).
Proof.
  induction fuel as [|fuel IH]; intros np L np' L' y r HL Hinit; [discriminate|].
  pose proof HL as (Hc & Hrd & Hacc & Heof).
  cbn [handle_number_loop]. run_m. rewrite Hc.
  destruct (read_char np (Some y)) as [ok np1] eqn:Hread.
  destruct ok.
  2:{ intros Hrun. inversion Hrun; subst. split; [exact Hinit|].
      left. split; reflexivity. }
  destruct r as [|z r2].
  { rewrite (next_char_end (set_c_accepted true L) Hrd). cbn [fst snd].
    intros Hrun. inversion Hrun; subst. split; [exact Hinit|].
    right. split; [exists np', []; rewrite app_nil_r; auto|].
    exists []. split; [|apply tail_of_refl].
    apply accepted_lexer_at; reflexivity. }
  rewrite (@next_char_set_c_accepted true L z r2 Hrd).
  pose proof (on_char_next L Hrd) as HL1.
  rewrite (next_char_more L Hrd) in *. cbn [fst snd].
  intros Hrun. apply (IH _ _ _ _ z r2 HL1 Hinit) in Hrun.
  destruct Hrun as (Hi & [[-> Hrej] | [(np2 & t & Hread2 & Hval) (rest' & Hat & Ht)]]);
    (split; [exact Hi|]); right.
  - destruct (read_char_extends _ _ Hrej) as [t Hval].
    split; [exists np1, t; auto|].
    exists (z :: r2). split; [|apply tail_of_refl].
    apply on_char_lexer_at; [exact HL1 | exact Hinit].
  - destruct (read_char_extends _ _ Hread2) as [t2 Hval2].
    split; [exists np1, (t2 ++ t); rewrite Hval, Hval2, app_assoc; auto|].
    exists rest'. split; [exact Hat|]. apply tail_of_cons. exact Ht.
Qed.

Lemma read_char_refused np c np' :
  read_char np c = (false, np') -> np_type np = NT_UNKNOWN ->
  np_type np' = NT_UNKNOWN.
Proof.
  unfold read_char. intros Hread Htype.
  repeat match type of Hread with
         | (if ?b then _ else _) = _ => destruct b
         end;
    inversion Hread; subst; try exact Htype; reflexivity.
Qed.

(** The lexeme [lx] starts with the character [x]: a string with its
    quote, any other lexeme with the first character of its text. *)
Definition begins_with (x : char) (lx : Lexeme) : Prop :=
  match token lx with
  | STRING => x = QUOTE
  | _ => hd_error (text lx) = Some x
  end.

(** The lexeme that starts at the current character [x] carries the
    position of the lexer there, and the lexer goes on behind [x]. *)
Lemma lexeme_at_char_tail x rest L lx L' :
  on_char x rest L -> initial L = false ->
  lexeme_at_char L = Ok (lx, L') ->
  lex_pos lx = pos L /\ begins_with x lx /\ initial L' = false
  /\ exists rest', lexer_at rest' L' /\ tail_of rest' rest.
Proof.
  intros HL Hinit. pose proof HL as (Hc & Hrd & Hacc & Heof).
  unfold lexeme_at_char. run_m. rewrite Hc. cbn [c_is c_in c_get c_str].
  destruct (N.eqb_spec x QUOTE) as [Hq|Hq].
  { unfold handle_string. run_m. intros Hrun.
    apply handle_string_loop_tail in Hrun.
    destruct Hrun as (Hp & Htok & Ha & Hi & Ht). rewrite Hrd in Ht.
    split; [exact Hp|].
    split; [unfold begins_with; rewrite Htok; exact Hq|].
    split; [congruence|].
    exists (reader L'). split; [|exact Ht].
    apply accepted_lexer_at; [exact Ha | reflexivity]. }
  destruct (char_in x DEC_DIGITS_S).
  { unfold handle_number. run_m.
    pose proof (@handle_number_loop_tail (loop_fuel L) NumericParser_init L)
      as Hloop.
    destruct (handle_number_loop (loop_fuel L) NumericParser_init L)
      as [[np L1]| |]; [|discriminate | discriminate].
    destruct (Hloop np L1 x rest HL Hinit eq_refl) as (Hi & Hcases).
    assert (Hgoal : np_type np <> NT_UNKNOWN ->
                    hd_error (np_value np) = Some x
                    /\ initial L1 = false
                    /\ exists rest', lexer_at rest' L1 /\ tail_of rest' rest).
    { intros Htype.
      destruct Hcases as [[_ Hrej] | [(np1 & t & Hread & Hval) Hrest]].
      - apply read_char_refused in Hrej; [congruence | reflexivity].
      - rewrite Hval, (@read_char_first x np1 Hread). auto. }
    destruct (np_type np) eqn:Htype; [discriminate|..];
      (destruct (c_accepted L1 || is_whitespace (c L1) || is_structural (c L1));
       [|discriminate]);
      intros Hrun; inversion Hrun; subst; cbn [lex_pos];
      (split; [reflexivity|]); apply Hgoal; discriminate. }
  destruct (dict_get STRUCTURALS x) as [tok|] eqn:Htok.
  { intros Hrun. injection Hrun as Hlx HL'. subst lx L'. cbn [lex_pos].
    split; [reflexivity|].
    split.
    { unfold begins_with. cbn [token text].
      pose proof (structural_char_cases _ Htok) as Hin.
      unfold STRUCTURALS in Hin. cbn [In] in Hin.
      destruct tok; try reflexivity;
        repeat (destruct Hin as [Hin|Hin]; [discriminate Hin|]);
        destruct Hin. }
    split; [exact Hinit|].
    exists rest. split; [|apply tail_of_refl].
    apply accepted_lexer_at; [reflexivity | exact Hrd]. }
  destruct (char_in x LITERAL_PREFIXES); [|discriminate].
  unfold handle_literal. run_m. rewrite Hc. cbn [c_str].
  change (loop_fuel (set_c_accepted true L)) with (loop_fuel L).
  pose proof (@handle_literal_loop_tail (loop_fuel L) [x]
                (set_c_accepted true L)) as Hloop.
  destruct (handle_literal_loop (loop_fuel L) [x] (set_c_accepted true L))
    as [[v L1]| |]; [|discriminate | discriminate].
  destruct (Hloop v L1 eq_refl Hinit eq_refl)
    as (Hi & [t ->] & rest' & Hat & Ht).
  cbn [reader set_c_accepted] in Ht. rewrite Hrd in Ht.
  assert (Hgoal : initial L1 = false
                  /\ exists rest', lexer_at rest' L1 /\ tail_of rest' rest)
    by (split; [exact Hi | exists rest'; auto]).
  destruct (str_eqb ([x] ++ t) (lit "false"));
    [intros Hrun; inversion Hrun; subst;
     split; [reflexivity | split; [reflexivity | exact Hgoal]]|].
  destruct (str_eqb ([x] ++ t) (lit "null"));
    [intros Hrun; inversion Hrun; subst;
     split; [reflexivity | split; [reflexivity | exact Hgoal]]|].
  destruct (str_eqb ([x] ++ t) (lit "true"));
    [intros Hrun; inversion Hrun; subst;
     split; [reflexivity | split; [reflexivity | exact Hgoal]]
    | discriminate].
Qed.

Lemma tracked_from input low low' L :
  low' <= low -> tracked input low L -> tracked input low' L.
Proof.
  intros Hle (consumed & Hin & Hpos & Hc & Hlow).
  exists consumed. repeat split; auto. lia.
Qed.

Lemma exn_on_input_from input low low' e :
  low' <= low -> exn_on_input input low e -> exn_on_input input low' e.
Proof.
  intros Hle. destruct e; simpl; auto.
  intros (consumed & rest & Hin & Hp & Hlow).
  exists consumed, rest. repeat split; auto. lia.
Qed.

(** What [Lexer.next_lexeme] gives when a lexeme starts at [x], the last
    character of [start], and [rest] follows: a lexeme that starts with [x]
    and carries the position of [x], computed by hand, with the lexer left
    somewhere in [rest]; or an error that is positioned there or behind. *)
Definition lexeme_placed (input start : str) (x : char) (rest : str)
           (r : Res (option Lexeme * Lexer)) : Prop :=
  match r with
  | Ok (Some lx, L') =>
      lex_pos lx = hand_pos start /\ begins_with x lx
      /\ tracked input 0 L'
      /\ exists rest', lexer_at rest' L' /\ tail_of rest' rest
  | Ok (None, _) => False
  | Raise e => exn_on_input input (length start) e
  | OutOfFuel => False
  end.

Lemma Lexer_next_lexeme_placed input pre w x rest L :
  input = pre ++ w ++ x :: rest -> blank w -> is_ws_char x = false ->
  lexer_at (w ++ x :: rest) L -> tracked input 0 L ->
  lexeme_placed input (pre ++ w ++ [x]) x rest (Lexer_next_lexeme L).
Proof.
  intros Hin Hw Hx HL HT.
  destruct (@Lexer_next_lexeme_at_tracked w x rest L Hw Hx HL)
    as (L2 & HL2 & Hinit2 & Hnext & Htr).
  specialize (Htr input 0 HT).
  assert (Hin2 : input = (pre ++ w ++ [x]) ++ reader L2).
  { destruct HL2 as (_ & -> & _). rewrite Hin, <- !app_assoc. reflexivity. }
  destruct (@tracked_consumed input 0 L2 _ Htr Hin2) as [Hpos HT2].
  pose proof (@tracked_lexeme_at_char input _ L2 HT2) as Htrack.
  pose proof (@lexeme_at_char_comes_back L2 I) as Hback.
  pose proof (@lexeme_at_char_tail x rest L2) as Htail.
  rewrite Hnext. unfold bind, lexeme_placed.
  destruct (lexeme_at_char L2) as [[lx L']|e|];
    [|exact Htrack | exact Hback].
  destruct (Htail lx L' HL2 Hinit2 eq_refl) as (Hp & Hx' & _ & Hrest).
  unfold ret. split; [rewrite Hp; exact Hpos|]. split; [exact Hx'|].
  split; [|exact Hrest].
  apply tracked_from with (low := length (pre ++ w ++ [x])); [lia|].
  apply Htrack.
Qed.

(** [stamped pre unread lxs]: behind the text [pre], the text [unread] is
    made of the lexemes [lxs], each behind some whitespace, and whitespace
    at the end; each lexeme starts with the first character [x] of its part
    of the text and carries the position of [x], computed by hand. *)
Inductive stamped : str -> str -> list Lexeme -> Prop :=
| stamped_end pre w : blank w -> stamped pre w []
| stamped_lexeme pre w x body rest lx lxs :
    blank w -> is_ws_char x = false -> begins_with x lx ->
    lex_pos lx = hand_pos (pre ++ w ++ [x]) ->
    stamped (pre ++ w ++ x :: body) rest lxs ->
    stamped pre (w ++ x :: body ++ rest) (lx :: lxs).

Lemma lex_all_stamped input : forall fuel pre unread L,
  input = pre ++ unread -> lexer_at unread L -> tracked input 0 L ->
  length unread < fuel ->
  match lex_all fuel L with
  | Ok lxs => stamped pre unread lxs
  | Raise e => exn_on_input input 1 e
  | OutOfFuel => False
  end.
Proof.
  induction fuel as [|fuel IH]; intros pre unread L Hin HL HT Hfuel;
    [inversion Hfuel|].
  cbn [lex_all]. destruct (all_whitespace unread) eqn:Hall.
  { apply all_whitespace_blank in Hall.
    destruct (Lexer_next_lexeme_blank Hall HL) as (L' & Hrun & _).
    rewrite Hrun. apply stamped_end. exact Hall. }
  destruct (first_non_whitespace _ Hall) as (w & x & rest & -> & Hw & Hx).
  pose proof (@Lexer_next_lexeme_placed input pre w x rest L Hin Hw Hx HL HT)
    as Hstep.
  unfold lexeme_placed in Hstep.
  destruct (Lexer_next_lexeme L) as [[[lx|] L']|e|];
    [|destruct Hstep | |destruct Hstep].
  - destruct Hstep as (Hp & Hx' & HT' & rest' & Hat & [body ->]).
    specialize (IH (pre ++ w ++ x :: body) rest' L').
    rewrite length_app in Hfuel. cbn [length] in Hfuel.
    rewrite length_app in Hfuel.
    assert (Hin' : input = (pre ++ w ++ x :: body) ++ rest').
    { rewrite Hin, <- !app_assoc. cbn [app]. reflexivity. }
    specialize (IH Hin' Hat HT' ltac:(lia)).
    destruct (lex_all fuel L') as [lxs|e|]; [|exact IH | exact IH].
    apply stamped_lexeme; assumption.
  - apply exn_on_input_from with (low := length (pre ++ w ++ [x]));
      [|exact Hstep].
    rewrite !length_app. cbn [length]. lia.
Qed.

(** C8.  Position tracking starts at line 1, column 0; each character read
    increments the column, after the line was incremented and the column
    reset when the character read before it was a newline; nothing changes at
    the end of the stream.  Hence the position after any consumed prefix is
    the one computed by hand (LF-based lines, columns from 1).  A lexeme
    carries the position, computed by hand, of its own first character:
    where the lexer has [w ++ x :: rest] still to read, with [w] whitespace
    and [x] none, the lexeme that [next_lexeme] returns is positioned at
    [x], and the lexer is left with a part of [rest] to read; an error is
    positioned at [x] or behind it, at a prefix of the input.  So the
    lexemes of any input are stamped, one after the other, with the
    positions of their first characters. *)
Theorem position_tracking :
  (forall input, pos (Lexer_init input) = mkTextPos 1 0)
  /\ (forall x rd e i previous a p,
        let L := snd (next_char (mkLexer (x :: rd) e i previous a p)) in
        c L = Some x
        /\ pos L = if c_is previous LF then mkTextPos (S (line p)) 1
                   else mkTextPos (line p) (S (col p)))
  /\ (forall e i previous a p,
        pos (snd (next_char (mkLexer [] e i previous a p))) = p)
  /\ (forall consumed rest,
        pos (consume (length consumed) (Lexer_init (consumed ++ rest)))
        = hand_pos consumed)
  /\ (forall input pre w x rest L,
        input = pre ++ w ++ x :: rest -> blank w -> is_ws_char x = false ->
        lexer_at (w ++ x :: rest) L -> tracked input 0 L ->
        match Lexer_next_lexeme L with
        | Ok (Some lx, L') =>
            lex_pos lx = hand_pos (pre ++ w ++ [x]) /\ begins_with x lx
            /\ tracked input 0 L'
            /\ exists rest', lexer_at rest' L' /\ tail_of rest' rest
        | Ok (None, _) => False
        | Raise e => exn_on_input input (length (pre ++ w ++ [x])) e
        | OutOfFuel => False
        end)
  /\ (forall input,
        lexer_at input (Lexer_init input)
        /\ tracked input 0 (Lexer_init input)
        /\ match lexemes input with
           | Ok lxs => stamped [] input lxs
           | Raise e => exn_on_input input 1 e
           | OutOfFuel => False
           end).
Proof.
  split; [reflexivity|].
  split; [intros; unfold next_char; simpl; destruct (c_is previous LF); auto|].
  split; [reflexivity|].
  split; [intros; apply consume_app|].
  split; [intros input pre w x rest L; apply Lexer_next_lexeme_placed|].
  intros input. split; [apply lexer_at_init|].
  split; [apply tracked_init; reflexivity|].
  apply (@lex_all_stamped input (S (length input)) [] input (Lexer_init input));
    [reflexivity | apply lexer_at_init | apply tracked_init; reflexivity | lia].
Qed.

(** The text is a bracket, a newline, a space, the digit 1 and a bracket.
    The lexer that has read the first bracket returns the number next,
    positioned at line 2, column 2. *)
Definition behind_bracket : Lexer :=
  mkLexer ([LF; ch " "] ++ lit "1]") false false (Some (ch "[")) true
          (mkTextPos 1 1).

Lemma position_tracking_witness :
  Lexer_next_lexeme (Lexer_init (lit "[" ++ [LF; ch " "] ++ lit "1]"))
  = Ok (Some (mkLexeme (mkTextPos 1 1) BEGIN_ARRAY (lit "[")
                       LT_UNKNOWN NT_UNKNOWN), behind_bracket)
  /\ match Lexer_next_lexeme behind_bracket with
     | Ok (Some lx, L') =>
         lex_pos lx = mkTextPos 2 2 /\ begins_with (ch "1") lx
         /\ tracked (lit "[" ++ [LF; ch " "] ++ lit "1]") 0 L'
         /\ exists rest', lexer_at rest' L' /\ tail_of rest' (lit "]")
     | Ok (None, _) => False
     | Raise e => exn_on_input (lit "[" ++ [LF; ch " "] ++ lit "1]") 4 e
     | OutOfFuel => False
     end.
Proof.
  split; [reflexivity|].
  refine (proj1 (proj2 (proj2 (proj2 (proj2 position_tracking))))
            (lit "[" ++ [LF; ch " "] ++ lit "1]") (lit "[") [LF; ch " "]
            (ch "1") (lit "]") behind_bracket eq_refl _ eq_refl _ _).
  - repeat constructor.
  - apply at_fresh; reflexivity.
  - exists (lit "["). repeat split; [right; reflexivity | simpl; lia].
Defined.

(** * Further properties *)

(** ** The lexemes of the JSON grammar

    A lexeme of the grammar: a structural character, a literal name, a
    number or a string. *)

Inductive atom :=
| AStructural (x : char) (tok : Token)
| ALiteral (kind : LiteralTokenKind)
| ANumber (n : number)
| AString (items : list string_item).

Definition atom_text (a : atom) : str :=
  match a with
  | AStructural x _ => [x]
  | ALiteral kind => literal_word kind
  | ANumber n => number_text n
  | AString items => string_text items
  end.

Definition atom_wf (a : atom) : Prop :=
  match a with
  | AStructural x tok => dict_get STRUCTURALS x = Some tok
  | ALiteral kind => kind <> LT_UNKNOWN
  | ANumber n => number_wf n
  | AString items => Forall item_wf items
  end.

(** The lexeme that the lexer makes of it, at the position [p]. *)
Definition atom_lexeme (p : TextPos) (a : atom) : Lexeme :=
  match a with
  | AStructural x tok => mkLexeme p tok [x] LT_UNKNOWN NT_UNKNOWN
  | ALiteral kind =>
      mkLexeme p (literal_token kind) (literal_word kind) kind NT_UNKNOWN
  | ANumber n =>
      number_lexeme p (numeric_token (number_kind n)) (number_text n)
                    (number_kind n)
  | AString items => mkLexeme p STRING (string_value items) LT_UNKNOWN NT_UNKNOWN
  end.

(** Literals and numbers end where a delimiter or the end of the stream is
    found. *)
Definition atom_open (a : atom) : bool :=
  match a with
  | ALiteral _ | ANumber _ => true
  | _ => false
  end.

Lemma structural_not_ws x tok :
  dict_get STRUCTURALS x = Some tok -> is_ws_char x = false.
Proof.
  intros Htok. pose proof (structural_char_cases _ Htok) as Hin.
  assert (Hall : forallb (fun xt => negb (is_ws_char (fst xt))) STRUCTURALS
                 = true) by (vm_compute; reflexivity).
  rewrite forallb_forall in Hall. specialize (Hall _ Hin).
  apply negb_true_iff in Hall. exact Hall.
Qed.

Lemma atom_text_first a :
  atom_wf a ->
  exists x t, atom_text a = x :: t /\ is_ws_char x = false.
Proof.
  destruct a as [x tok|kind|n|items]; simpl; intros Hwf.
  - exists x, []. split; [reflexivity | exact (structural_not_ws _ Hwf)].
  - destruct kind; try congruence; eexists; eexists; split; reflexivity.
  - destruct (number_text_first Hwf) as (x & t & Htext & Hstart & _).
    exists x, t. split; [exact Htext | apply digit_start_not_ws; exact Hstart].
  - eexists. eexists. split; reflexivity.
Qed.

(** The lexeme that starts at the current character. *)
Lemma lexeme_at_char_atom a x t rest L :
  atom_wf a -> atom_text a = x :: t ->
  (atom_open a = true -> delimited rest) ->
  on_char x (t ++ rest) L -> initial L = false ->
  exists L', lexeme_at_char L = Ok (atom_lexeme (pos L) a, L')
             /\ lexer_at rest L' /\ initial L' = false
             /\ (atom_open a = false \/ rest <> [] -> eof L' = false).
Proof.
  destruct a as [y tok|kind|n|items]; simpl; intros Hwf Htext Hrest HL Hinit.
  - inversion Htext; subst y t. simpl in HL.
    rewrite (lexeme_at_char_structural Hwf HL).
    eexists. split; [reflexivity|].
    destruct HL as (_ & Hrd & _ & Heof).
    split; [apply accepted_lexer_at; [reflexivity | exact Hrd]|].
    split; [exact Hinit | intros _; exact Heof].
  - destruct (@lexeme_at_char_literal kind x (t ++ rest) rest L)
      as (L' & Hat & HL' & Hinit' & Heof); auto.
    { rewrite Htext. reflexivity. }
    exists L'. repeat split; auto. intros [Hc|Hne]; [discriminate | auto].
  - destruct (@lexeme_at_char_number n x (t ++ rest) rest L)
      as (L' & Hat & HL' & Hinit' & Heof); auto.
    { rewrite Htext. reflexivity. }
    exists L'. repeat split; auto. intros [Hc|Hne]; [discriminate | auto].
  - unfold string_text in Htext. inversion Htext as [[Hx Ht]]. subst x.
    destruct (@lexeme_at_char_string items (t ++ rest) rest L Hwf)
      as (L' & Hat & HL' & Hinit' & Heof); auto.
    { unfold string_text. rewrite <- Ht. reflexivity. }
    exists L'. repeat split; auto. congruence.
Qed.

(** [Lexer.next_lexeme] in front of whitespace and a lexeme of the grammar:
    it returns the lexeme, positioned at its first character. *)
Lemma Lexer_next_lexeme_atom input low a w rest L :
  atom_wf a -> blank w -> (atom_open a = true -> delimited rest) ->
  lexer_at (w ++ atom_text a ++ rest) L -> tracked input low L ->
  exists p L',
    Lexer_next_lexeme L = Ok (Some (atom_lexeme p a), L')
    /\ lexer_at rest L' /\ initial L' = false /\ tracked input low L'
    /\ (atom_open a = false \/ rest <> [] -> eof L' = false)
    /\ (forall pre, input = pre ++ w ++ atom_text a ++ rest ->
                    p = hand_pos (pre ++ w ++ firstn 1 (atom_text a))).
Proof.
  intros Hwf Hw Hrest HL HT.
  destruct (atom_text_first a Hwf) as (x & t & Htext & Hx).
  rewrite Htext in HL. simpl in HL.
  destruct (@Lexer_next_lexeme_at_tracked w x (t ++ rest) L Hw Hx HL)
    as (L2 & HL2 & Hinit2 & Hnext & Htr).
  specialize (Htr input low HT).
  destruct (@lexeme_at_char_atom a x t rest L2 Hwf Htext Hrest HL2 Hinit2)
    as (L' & Hat & HL' & Hinit' & Heof).
  exists (pos L2), L'.
  assert (Hrun : Lexer_next_lexeme L = Ok (Some (atom_lexeme (pos L2) a), L')).
  { rewrite Hnext. unfold bind. rewrite Hat. reflexivity. }
  split; [exact Hrun|]. split; [exact HL'|]. split; [exact Hinit'|].
  split.
  { pose proof (@tracked_Lexer_next_lexeme input low L HT) as Htrack.
    rewrite Hrun in Htrack. apply Htrack. }
  split; [exact Heof|].
  intros pre Hin. rewrite Htext. cbn [firstn].
  apply (@tracked_consumed input low L2 (pre ++ w ++ [x]) Htr).
  destruct HL2 as (_ & -> & _). rewrite Hin, Htext, <- !app_assoc.
  reflexivity.
Qed.

(** A sequence of lexemes, each with the whitespace in front of it. *)
Definition layout := list (str * atom).

Fixpoint layout_text (l : layout) : str :=
  match l with
  | [] => []
  | (w, a) :: l' => w ++ atom_text a ++ layout_text l'
  end.

(** Well-formed lexemes in front of the text [rest]; a literal or a number
    is followed by whitespace, a structural character or the end of the
    text. *)
Fixpoint layout_ok (l : layout) (rest : str) : Prop :=
  match l with
  | [] => True
  | (w, a) :: l' =>
      blank w /\ atom_wf a
      /\ (atom_open a = true -> delimited (layout_text l' ++ rest))
      /\ layout_ok l' rest
  end.

(** The lexemes of a layout that starts behind [pre]: each one at the
    position of its first character. *)
Fixpoint place (pre : str) (l : layout) : list Lexeme :=
  match l with
  | [] => []
  | (w, a) :: l' =>
      atom_lexeme (hand_pos (pre ++ w ++ firstn 1 (atom_text a))) a
      :: place (pre ++ w ++ atom_text a) l'
  end.

(** The result of [lex_all] with the lexemes [lxs] in front. *)
Definition lexemes_then (lxs : list Lexeme) (r : Res (list Lexeme))
  : Res (list Lexeme) :=
  match r with
  | Ok more => Ok (lxs ++ more)
  | Raise e => Raise e
  | OutOfFuel => OutOfFuel
  end.

Lemma lex_all_layout input rest (l : layout) : forall pre L,
  layout_ok l rest -> lexer_at (layout_text l ++ rest) L ->
  tracked input 0 L -> input = pre ++ layout_text l ++ rest ->
  exists L',
    lexer_at rest L' /\ tracked input 0 L'
    /\ forall fuel,
         lex_all (length l + fuel) L = lexemes_then (place pre l) (lex_all fuel L').
Proof.
  induction l as [|[w a] l IH]; intros pre L Hok HL HT Hin.
  - exists L. split; [exact HL|]. split; [exact HT|]. intros fuel. simpl.
    destruct (lex_all fuel L); reflexivity.
  - destruct Hok as (Hw & Hwf & Hdel & Hok). cbn [layout_text] in HL, Hin.
    rewrite <- !app_assoc in HL.
    destruct (@Lexer_next_lexeme_atom input 0 a w (layout_text l ++ rest) L
                Hwf Hw Hdel HL HT)
      as (p & L1 & Hrun & HL1 & _ & HT1 & _ & Hp).
    destruct (IH (pre ++ w ++ atom_text a) L1 Hok HL1 HT1) as (L' & HL' & HT' & Hall).
    { rewrite Hin, <- !app_assoc. reflexivity. }
    exists L'. split; [exact HL'|]. split; [exact HT'|]. intros fuel.
    cbn [length Nat.add lex_all place]. rewrite Hrun, Hall.
    rewrite (Hp pre) by (rewrite Hin, <- !app_assoc; reflexivity).
    destruct (lex_all fuel L'); reflexivity.
Qed.

Lemma layout_length (l : layout) rest :
  layout_ok l rest -> length l <= length (layout_text l).
Proof.
  induction l as [|[w a] l IH]; simpl; [lia|].
  intros (_ & Hwf & _ & Hok). specialize (IH Hok).
  destruct (atom_text_first a Hwf) as (x & t & Htext & _).
  rewrite !length_app, Htext. simpl. lia.
Qed.

(** The lexemes of a text that starts with a layout: those of the layout,
    and what the lexer makes of the rest. *)
Lemma lexemes_layout_then (l : layout) (rest : str) :
  layout_ok l rest ->
  exists L fuel,
    lexer_at rest L /\ tracked (layout_text l ++ rest) 0 L
    /\ length rest < fuel
    /\ lexemes (layout_text l ++ rest)
       = lexemes_then (place [] l) (lex_all fuel L).
Proof.
  intros Hok.
  destruct (@lex_all_layout (layout_text l ++ rest) rest l []
              (Lexer_init (layout_text l ++ rest)) Hok)
    as (L & HL & HT & Hall); auto.
  { apply lexer_at_init. }
  { apply tracked_init. reflexivity. }
  pose proof (layout_length l rest Hok) as Hlen.
  exists L, (S (length (layout_text l ++ rest)) - length l).
  split; [exact HL|]. split; [exact HT|].
  rewrite length_app. split; [lia|].
  unfold lexemes. rewrite <- Hall. f_equal. rewrite length_app. lia.
Qed.

(** X1.  The lexer reads any sequence of lexemes of the JSON grammar
    (structural characters, literal names, numbers, strings), with
    whitespace between them where wanted and behind a literal or a number
    where nothing else delimits it: it returns exactly these lexemes, with
    the token, the text (for a string, the decoded value) and the kinds of
    each, positioned at its first character. *)
Theorem lexemes_of_layout (l : layout) (tail : str) :
  layout_ok l tail -> blank tail ->
  lexemes (layout_text l ++ tail) = Ok (place [] l).
Proof.
  intros Hok Htail.
  destruct (lexemes_layout_then l tail Hok) as (L & fuel & HL & _ & Hfuel & Hrun).
  rewrite Hrun.
  destruct (Lexer_next_lexeme_blank Htail HL) as (L' & Hnext & _).
  destruct fuel as [|fuel]; [inversion Hfuel|].
  cbn [lex_all]. rewrite Hnext. simpl. rewrite app_nil_r. reflexivity.
Qed.

(** The text [[1, "a\n"]  : true ] as a layout. *)
Definition sample_layout : layout :=
  [([], AStructural (ch "[") BEGIN_ARRAY);
   ([], ANumber (mkNumber false (lit "1") None None));
   ([], AStructural (ch ",") VALUE_SEPARATOR);
   ([ch " "], AString [Plain (ch "a"); Escape E_n]);
   ([], AStructural (ch "]") END_ARRAY);
   ([ch " "; ch " "], AStructural (ch ":") NAME_SEPARATOR);
   ([ch " "], ALiteral LT_TRUE)].

Lemma sample_layout_ok rest : delimited rest -> layout_ok sample_layout rest.
Proof.
  intros Hrest. simpl. unfold number_wf, int_part, digits, blank. simpl.
  repeat split; try discriminate; repeat constructor. intros _. exact Hrest.
Defined.

Lemma lexemes_of_layout_witness :
  lexemes (lit "[1, " ++ [QUOTE] ++ lit "a" ++ [BACKSLASH] ++ lit "n"
           ++ [QUOTE] ++ lit "]  : true ")
  = Ok [mkLexeme (mkTextPos 1 1) BEGIN_ARRAY (lit "[") LT_UNKNOWN NT_UNKNOWN;
        number_lexeme (mkTextPos 1 2) NUMBER_INT (lit "1") NT_INTEGER;
        mkLexeme (mkTextPos 1 3) VALUE_SEPARATOR (lit ",") LT_UNKNOWN NT_UNKNOWN;
        mkLexeme (mkTextPos 1 5) STRING [ch "a"; LF] LT_UNKNOWN NT_UNKNOWN;
        mkLexeme (mkTextPos 1 10) END_ARRAY (lit "]") LT_UNKNOWN NT_UNKNOWN;
        mkLexeme (mkTextPos 1 13) NAME_SEPARATOR (lit ":") LT_UNKNOWN NT_UNKNOWN;
        mkLexeme (mkTextPos 1 15) LITERAL_TRUE (lit "true") LT_TRUE NT_UNKNOWN].
Proof.
  refine (@lexemes_of_layout sample_layout [ch " "] _ _).
  - apply sample_layout_ok. reflexivity.
  - repeat constructor.
Defined.

(** ** The errors of the lexer *)

(** Behind a layout, whitespace and the character [x], the lexer raises what
    it raises at [x]. *)
Lemma lexemes_raise_at (l : layout) w x rest e :
  layout_ok l (w ++ x :: rest) -> blank w -> is_ws_char x = false ->
  (forall L, on_char x rest L -> initial L = false ->
             tracked (layout_text l ++ w ++ x :: rest) 0 L ->
             pos L = hand_pos (layout_text l ++ w ++ [x]) ->
             lexeme_at_char L = Raise e) ->
  lexemes (layout_text l ++ w ++ x :: rest) = Raise e.
Proof.
  intros Hok Hw Hx Hraise.
  destruct (lexemes_layout_then l (w ++ x :: rest) Hok)
    as (L & fuel & HL & HT & Hfuel & Hrun).
  rewrite Hrun. destruct fuel as [|fuel]; [inversion Hfuel|].
  destruct (@Lexer_next_lexeme_at_tracked w x rest L Hw Hx HL)
    as (L2 & HL2 & Hinit2 & Hnext & Htr).
  specialize (Htr _ _ HT).
  assert (Hpos : pos L2 = hand_pos (layout_text l ++ w ++ [x])).
  { apply (@tracked_consumed _ 0 L2 (layout_text l ++ w ++ [x]) Htr).
    destruct HL2 as (_ & -> & _). rewrite <- !app_assoc. reflexivity. }
  cbn [lex_all]. rewrite Hnext. unfold bind.
  rewrite (Hraise L2 HL2 Hinit2 Htr Hpos). reflexivity.
Qed.

(** X2.  Behind any lexemes and whitespace, a character that starts no
    lexeme (no quote, digit, sign, structural character, [f], [n] or [t])
    makes the lexer raise the unexpected-character error, with that
    character as its argument and positioned at it. *)
Theorem unexpected_character (l : layout) w x rest :
  layout_ok l (w ++ x :: rest) -> blank w -> is_ws_char x = false ->
  begins_lexeme x = false ->
  lexemes (layout_text l ++ w ++ x :: rest)
  = Raise (JSONParserError (hand_pos (layout_text l ++ w ++ [x]))
                           ERR_UNEXPECTED_CHAR_FMT [Some [x]]).
Proof.
  intros Hok Hw Hx Hbegin. apply lexemes_raise_at; auto.
  intros L HL _ _ Hpos.
  rewrite (@lexeme_at_char_unexpected x rest L HL Hbegin), Hpos. reflexivity.
Qed.

Lemma unexpected_character_witness :
  lexemes (lit "[1, " ++ [QUOTE] ++ lit "a" ++ [BACKSLASH] ++ lit "n"
           ++ [QUOTE] ++ lit "]  : true" ++ [LF] ++ lit " True")
  = Raise (JSONParserError (mkTextPos 2 2) ERR_UNEXPECTED_CHAR_FMT
                           [Some (lit "T")]).
Proof.
  refine (@unexpected_character sample_layout [LF; ch " "] (ch "T")
            (lit "rue") _ _ _ _).
  - apply sample_layout_ok. reflexivity.
  - repeat constructor.
  - reflexivity.
  - reflexivity.
Defined.

Lemma literal_prefix_facts x :
  char_in x LITERAL_PREFIXES = true ->
  N.eqb x QUOTE = false /\ char_in x DEC_DIGITS_S = false
  /\ dict_get STRUCTURALS x = None /\ is_ws_char x = false.
Proof.
  intros Hx. apply char_in_In in Hx.
  assert (Hall : forallb (fun y => negb (N.eqb y QUOTE)
                            && negb (char_in y DEC_DIGITS_S)
                            && match dict_get STRUCTURALS y with
                               | None => true | Some _ => false end
                            && negb (is_ws_char y)) LITERAL_PREFIXES = true)
    by (vm_compute; reflexivity).
  rewrite forallb_forall in Hall. specialize (Hall x Hx).
  repeat (apply andb_prop in Hall; destruct Hall as [Hall ?]).
  repeat match goal with
         | H : negb _ = true |- _ => apply negb_true_iff in H
         end.
  destruct (dict_get STRUCTURALS x); [discriminate|]. auto.
Qed.

(** The three literal names. *)
Definition is_literal_name (word : str) : bool :=
  str_eqb word (lit "false") || str_eqb word (lit "null")
  || str_eqb word (lit "true").

(** X3.  A word that starts with [f], [n] or [t], runs up to whitespace, a
    structural character or the end of the text, and is none of [false],
    [null], [true], makes the lexer raise the invalid-literal error, with
    the word as its argument and positioned at the first character of the
    word. *)
Theorem invalid_literal (l : layout) w x t rest :
  layout_ok l (w ++ x :: t ++ rest) -> blank w ->
  char_in x LITERAL_PREFIXES = true ->
  Forall (fun y => is_delimiter y = false) t -> delimited rest ->
  is_literal_name (x :: t) = false ->
  lexemes (layout_text l ++ w ++ x :: t ++ rest)
  = Raise (JSONParserError (hand_pos (layout_text l ++ w ++ [x]))
                           ERR_INVALID_LITERAL_FMT [Some (x :: t)]).
Proof.
  intros Hok Hw Hx Ht Hrest Hname.
  destruct (literal_prefix_facts x Hx) as (Hq & Hnum & Hstr & Hws).
  apply lexemes_raise_at; auto.
  intros L HL Hinit _ Hpos. pose proof HL as (Hc & _).
  destruct (@handle_literal_word x t rest L HL Hinit Ht Hrest)
    as (L' & Hloop & _).
  unfold lexeme_at_char. run_m. rewrite Hc. cbn [c_is c_in c_get].
  rewrite Hq, Hnum, Hstr, Hx.
  unfold handle_literal. run_m. rewrite Hc. cbn [c_str].
  change (loop_fuel (set_c_accepted true L)) with (loop_fuel L).
  rewrite Hloop. cbv beta iota.
  unfold is_literal_name in Hname.
  apply orb_false_elim in Hname. destruct Hname as [Hname Htrue].
  apply orb_false_elim in Hname. destruct Hname as [Hfalse Hnull].
  rewrite Hfalse, Hnull, Htrue, Hpos. reflexivity.
Qed.

Lemma invalid_literal_witness :
  lexemes (lit "[ nul, 1]")
  = Raise (JSONParserError (mkTextPos 1 3) ERR_INVALID_LITERAL_FMT
                           [Some (lit "nul")]).
Proof.
  refine (@invalid_literal [([], AStructural (ch "[") BEGIN_ARRAY)] [ch " "]
            (ch "n") (lit "ul") (lit ", 1]") _ _ _ _ _ _).
  - simpl. repeat split; try discriminate. constructor.
  - repeat constructor.
  - reflexivity.
  - repeat constructor.
  - reflexivity.
  - reflexivity.
Defined.

(** One turn of the loop of [handle_string] on a character or an escape of
    the grammar. *)
Lemma string_item_step it tail L :
  item_wf it -> reader L = item_text it ++ tail ->
  exists L',
    (forall fuel start value,
        handle_string_loop (S fuel) start value L
        = handle_string_loop fuel start (value ++ [item_value it]) L')
    /\ reader L' = tail /\ initial L' = initial L
    /\ (forall input low, tracked input low L -> tracked input low L').
Proof.
  intros Hit Hrd. destruct it as [x|e|h1 h2 h3 h4]; simpl in Hrd.
  - destruct (plain_char_facts _ Hit) as [Hq Hb].
    exists (set_c_accepted true (snd (next_char L))).
    split; [|split; [|split]].
    + intros fuel start value. cbn [handle_string_loop]. run_m.
      rewrite (next_char_more L Hrd). cbn [fst snd c].
      unfold c_is. rewrite Hq, Hb. reflexivity.
    + rewrite (next_char_more L Hrd). reflexivity.
    + rewrite (next_char_more L Hrd). reflexivity.
    + intros input low HT. apply tracked_set_c_accepted, tracked_next_char, HT.
  - exists (set_c_accepted true (snd (next_char (snd (next_char L))))).
    rewrite (next_char_more L Hrd). cbn [snd].
    rewrite (next_char_more _ (x := escape_letter e) (rd := tail))
      by reflexivity.
    cbn [snd]. split; [|split; [|split]]; try reflexivity.
    + intros fuel start value. cbn [handle_string_loop]. run_m.
      rewrite (next_char_more L Hrd). cbn [fst snd c].
      change (c_is (Some BACKSLASH) QUOTE) with false.
      change (c_is (Some BACKSLASH) BACKSLASH) with true. cbv beta iota.
      rewrite (next_char_more _ (x := escape_letter e) (rd := tail))
        by reflexivity.
      cbn [fst snd c negb initial pos].
      assert (Hesc : c_get ESCAPE_CHARS (Some (escape_letter e))
                     = Some (escape_value e)) by (destruct e; reflexivity).
      rewrite Hesc. reflexivity.
    + intros input low HT.
      pose proof (tracked_next_char (tracked_next_char HT)) as HT2.
      rewrite (next_char_more L Hrd) in HT2. cbn [snd] in HT2.
      rewrite (next_char_more _ (x := escape_letter e) (rd := tail)) in HT2
        by reflexivity.
      exact HT2.
  - destruct Hit as (H1 & H2 & H3 & H4).
    set (L2 := mkLexer (h1 :: h2 :: h3 :: h4 :: tail) false (initial L)
                       (Some (ch "u")) false
                       (advance (Some BACKSLASH) (advance (c L) (pos L)))).
    assert (Hdec := @handle_escaped_char_decodes
                      (advance (c L) (pos L)) L2 h1 h2 h3 h4 tail eq_refl
                      H1 H2 H3 H4).
    eexists. split; [|split; [|split]].
    + intros fuel start value. cbn [handle_string_loop]. run_m.
      rewrite (next_char_more L Hrd). cbn [fst snd c].
      change (c_is (Some BACKSLASH) QUOTE) with false.
      change (c_is (Some BACKSLASH) BACKSLASH) with true. cbv beta iota.
      rewrite (next_char_more _ (x := ch "u")
                 (rd := h1 :: h2 :: h3 :: h4 :: tail)) by reflexivity.
      cbn [fst snd c negb initial pos].
      change (c_get ESCAPE_CHARS (Some (ch "u"))) with (@None char).
      change (c_is (Some (ch "u")) (ch "u")) with true. cbv beta iota.
      fold L2. rewrite Hdec. reflexivity.
    + reflexivity.
    + reflexivity.
    + intros input low HT.
      pose proof (tracked_next_char HT) as HT1.
      pose proof (tracked_next_char HT1) as HT2.
      rewrite (next_char_more L Hrd) in HT1, HT2. cbn [snd] in HT1, HT2.
      rewrite (next_char_more _ (x := ch "u")
                 (rd := h1 :: h2 :: h3 :: h4 :: tail)) in HT2 by reflexivity.
      cbn [snd initial c pos] in HT2. fold L2 in HT2.
      pose proof (@tracked_handle_escaped_char input low
                    (advance (c L) (pos L)) (tracked_pos HT1) L2 HT2) as HT3.
      rewrite Hdec in HT3. exact HT3.
Qed.

(** The loop of [handle_string] on the characters and escapes [items]. *)
Lemma handle_string_loop_prefix items : forall tail L,
  Forall item_wf items -> reader L = flat_map item_text items ++ tail ->
  exists L',
    (forall fuel start value,
        handle_string_loop (length items + fuel) start value L
        = handle_string_loop fuel start (value ++ string_value items) L')
    /\ reader L' = tail /\ initial L' = initial L
    /\ (forall input low, tracked input low L -> tracked input low L').
Proof.
  induction items as [|it items IH]; intros tail L Hwf Hrd.
  - exists L. split; [|auto]. intros fuel start value.
    simpl. rewrite app_nil_r. reflexivity.
  - inversion Hwf as [|? ? Hit Hwf']; subst. simpl in Hrd.
    rewrite <- app_assoc in Hrd.
    destruct (@string_item_step it _ L Hit Hrd) as (L1 & Hstep & Hrd1 & Hi1 & Ht1).
    destruct (IH tail L1 Hwf' Hrd1) as (L' & Hloop & Hrd' & Hi' & Ht').
    exists L'. split; [|split; [exact Hrd'|split; [congruence|auto]]].
    intros fuel start value. cbn [length Nat.add].
    rewrite Hstep, Hloop. unfold string_value. cbn [map].
    rewrite <- app_assoc. reflexivity.
Qed.

Lemma items_length (items : list string_item) :
  length items <= length (flat_map item_text items).
Proof.
  induction items as [|it items IH]; simpl; [lia|].
  rewrite length_app. destruct it; simpl; lia.
Qed.

(** [handle_string] behind the opening quote, up to what follows the
    characters and escapes [items]. *)
Lemma handle_string_prefix items tail L :
  Forall item_wf items ->
  on_char QUOTE (flat_map item_text items ++ tail) L ->
  exists L' fuel,
    lexeme_at_char L
    = handle_string_loop (S (S (length tail)) + fuel) (pos L)
                         (string_value items) L'
    /\ reader L' = tail
    /\ (forall input low, tracked input low L -> tracked input low L').
Proof.
  intros Hwf (Hc & Hrd & _).
  destruct (@handle_string_loop_prefix items tail L Hwf Hrd)
    as (L' & Hloop & Hrd' & _ & Htr).
  exists L', (length (flat_map item_text items) - length items).
  split; [|split; assumption].
  unfold lexeme_at_char, handle_string. run_m. rewrite Hc.
  change (c_is (Some QUOTE) QUOTE) with true. cbv beta iota.
  rewrite <- (Hloop _ (pos L) []). f_equal.
  unfold loop_fuel. rewrite Hrd, length_app.
  pose proof (items_length items). lia.
Qed.

(** X4.  A string that is not closed when the text ends, behind its
    characters and escapes or behind a backslash, makes the lexer raise the
    unclosed-string error, positioned at the last character of the text. *)
Theorem unclosed_string (l : layout) w items ending :
  let text := QUOTE :: flat_map item_text items ++ ending in
  layout_ok l (w ++ text) -> blank w -> Forall item_wf items ->
  ending = [] \/ ending = [BACKSLASH] ->
  lexemes (layout_text l ++ w ++ text)
  = Raise (JSONParserError (hand_pos (layout_text l ++ w ++ text))
                           ERR_UNCLOSED_STRING []).
Proof.
  intros text Hok Hw Hwf Hending. unfold text in *.
  apply lexemes_raise_at; auto.
  intros L HL _ HT _.
  destruct (@handle_string_prefix items ending L Hwf HL)
    as (L' & fuel & Hrun & Hrd' & Htr).
  specialize (Htr _ _ HT). rewrite Hrun. cbn [Nat.add].
  destruct Hending as [-> | ->].
  - cbn [handle_string_loop]. run_m.
    rewrite (next_char_end L' Hrd'). cbn [fst snd pos].
    destruct (@tracked_consumed _ 0 L'
                (layout_text l ++ w ++ QUOTE :: flat_map item_text items ++ [])
                Htr) as [Hpos _];
      [rewrite Hrd'; symmetry; apply app_nil_r|].
    rewrite Hpos. reflexivity.
  - cbn [handle_string_loop]. run_m.
    rewrite (next_char_more L' Hrd'). cbn [fst snd c pos].
    change (c_is (Some BACKSLASH) QUOTE) with false.
    change (c_is (Some BACKSLASH) BACKSLASH) with true. cbv beta iota.
    match goal with
    | |- context [next_char ?L1] =>
        rewrite (@next_char_end L1 eq_refl)
    end.
    cbn [fst negb].
    pose proof (tracked_next_char Htr) as HT1.
    rewrite (next_char_more L' Hrd') in HT1. cbn [snd] in HT1.
    destruct (@tracked_consumed _ 0 _
                (layout_text l ++ w
                 ++ QUOTE :: flat_map item_text items ++ [BACKSLASH])
                HT1) as [Hpos _];
      [cbn [reader]; rewrite app_nil_r; reflexivity|].
    cbn [pos] in Hpos. rewrite Hpos. reflexivity.
Qed.

Lemma unclosed_string_witness :
  lexemes ([QUOTE] ++ lit "Hello" ++ [BACKSLASH; QUOTE])
  = Raise (JSONParserError (mkTextPos 1 8) ERR_UNCLOSED_STRING []).
Proof.
  refine (@unclosed_string [] []
            [Plain (ch "H"); Plain (ch "e"); Plain (ch "l"); Plain (ch "l");
             Plain (ch "o"); Escape E_quote] [] _ _ _ _).
  - exact I.
  - constructor.
  - repeat constructor.
  - left. reflexivity.
Defined.

(** X5.  In a string, a backslash followed by a character that is neither
    one of the escape letters nor [u] makes the lexer raise the
    unrecognized-escape error, with the two characters as its argument and
    positioned at the backslash. *)
Theorem unrecognized_escape (l : layout) w items e rest :
  let upto := layout_text l ++ w ++ QUOTE :: flat_map item_text items in
  layout_ok l (w ++ QUOTE :: flat_map item_text items ++ BACKSLASH :: e :: rest) ->
  blank w -> Forall item_wf items ->
  dict_get ESCAPE_CHARS e = None -> N.eqb e (ch "u") = false ->
  lexemes (upto ++ BACKSLASH :: e :: rest)
  = Raise (JSONParserError (hand_pos (upto ++ [BACKSLASH]))
                           ERR_UNRECOGNIZED_ESCAPE_SEQ_FMT
                           [Some [BACKSLASH; e]]).
Proof.
  intros upto Hok Hw Hwf Hesc Hu. unfold upto.
  replace ((layout_text l ++ w ++ QUOTE :: flat_map item_text items)
           ++ BACKSLASH :: e :: rest)
    with (layout_text l ++ w
          ++ QUOTE :: flat_map item_text items ++ BACKSLASH :: e :: rest)
    by (rewrite <- !app_assoc; reflexivity).
  apply lexemes_raise_at; auto.
  intros L HL _ HT _.
  destruct (@handle_string_prefix items (BACKSLASH :: e :: rest) L Hwf HL)
    as (L' & fuel & Hrun & Hrd' & Htr).
  specialize (Htr _ _ HT). rewrite Hrun. cbn [Nat.add].
  cbn [handle_string_loop]. run_m.
  rewrite (next_char_more L' Hrd'). cbn [fst snd c pos].
  change (c_is (Some BACKSLASH) QUOTE) with false.
  change (c_is (Some BACKSLASH) BACKSLASH) with true. cbv beta iota.
  rewrite (next_char_more _ (x := e) (rd := rest)) by reflexivity.
  cbn [fst snd c negb c_get c_is c_str]. rewrite Hesc, Hu.
  pose proof (tracked_next_char Htr) as HT1.
  rewrite (next_char_more L' Hrd') in HT1. cbn [snd] in HT1.
  destruct (@tracked_consumed _ 0 _
              ((layout_text l ++ w ++ QUOTE :: flat_map item_text items)
               ++ [BACKSLASH]) HT1) as [Hpos _].
  { cbn [reader]. rewrite <- ?app_assoc. simpl. rewrite <- ?app_assoc.
    reflexivity. }
  cbn [pos] in Hpos. rewrite Hpos. reflexivity.
Qed.

Lemma unrecognized_escape_witness :
  lexemes ([QUOTE] ++ lit "a" ++ [BACKSLASH] ++ lit "x41" ++ [QUOTE])
  = Raise (JSONParserError (mkTextPos 1 3) ERR_UNRECOGNIZED_ESCAPE_SEQ_FMT
                           [Some [BACKSLASH; ch "x"]]).
Proof.
  refine (@unrecognized_escape [] [] [Plain (ch "a")] (ch "x")
            (lit "41" ++ [QUOTE]) _ _ _ _ _).
  - exact I.
  - constructor.
  - repeat constructor.
  - reflexivity.
  - reflexivity.
Defined.

(** The characters that [read_char] may accept. *)
Definition continues_number (y : char) : bool :=
  char_in y [ch "-"; ch "+"; ch "."] || isdigit y || char_in y EXP_CHARS.

Lemma read_char_other np y :
  continues_number y = false -> read_char np (Some y) = (false, np).
Proof.
  unfold continues_number. intros H.
  apply orb_false_elim in H. destruct H as [H Hexp].
  apply orb_false_elim in H. destruct H as [Hsign Hdigit].
  unfold char_in in Hsign. cbn [existsb] in Hsign.
  apply orb_false_elim in Hsign. destruct Hsign as [Hminus Hsign].
  apply orb_false_elim in Hsign. destruct Hsign as [Hplus Hsign].
  apply orb_false_elim in Hsign. destruct Hsign as [Hdot _].
  unfold read_char. cbn [c_is c_isdigit c_in].
  rewrite Hminus, Hplus, Hdot, Hdigit, Hexp. reflexivity.
Qed.

(** The loop of [handle_number] on the accepted characters [t], in front of
    a character that it refuses. *)
Lemma handle_number_loop_stops t : forall fuel np np' L x r y rest,
  t <> [] -> x :: r = t ++ y :: rest -> np_feed np t = Some np' ->
  read_char np' (Some y) = (false, np') -> on_char x r L ->
  length t < fuel ->
  exists L', handle_number_loop fuel np L = Ok (np', L')
             /\ on_char y rest L'
             /\ (forall input low, tracked input low L -> tracked input low L').
Proof.
  induction t as [|z t IH];
    intros fuel np np' L x r y rest Hne Heq Hfeed Hstop HL Hfuel;
    [congruence|].
  destruct fuel as [|fuel]; [inversion Hfuel|].
  simpl in Heq. inversion Heq; subst z r; clear Heq.
  pose proof HL as (Hc & Hrd & Hacc & Heof).
  cbn [np_feed] in Hfeed.
  cbn [handle_number_loop]. run_m. rewrite Hc.
  destruct (read_char np (Some x)) as [ok np1]. destruct ok; [|discriminate].
  run_m.
  destruct t as [|z t].
  - simpl in Hfeed. inversion Hfeed; subst np1. simpl in Hrd.
    rewrite (@next_char_set_c_accepted true L y rest Hrd).
    pose proof (on_char_next L Hrd) as HL1.
    destruct fuel as [|fuel]; [simpl in Hfuel; lia|].
    exists (snd (next_char L)). split; [|split; [exact HL1|]].
    + rewrite (next_char_more L Hrd). cbn [fst snd].
      cbn [handle_number_loop]. run_m. rewrite Hstop. reflexivity.
    + intros input low HT. apply tracked_next_char, HT.
  - simpl in Hrd.
    rewrite (@next_char_set_c_accepted true L z (t ++ y :: rest) Hrd).
    pose proof (on_char_next L Hrd) as HL1.
    destruct (IH fuel np1 np' (snd (next_char L)) z (t ++ y :: rest) y rest)
      as (L' & Hrun & HL' & Htr); auto;
      [discriminate | simpl in Hfuel |- *; lia|].
    exists L'. split; [|split; [exact HL'|]].
    + rewrite (next_char_more L Hrd) in *. cbn [fst snd]. exact Hrun.
    + intros input low HT. apply Htr, tracked_next_char, HT.
Qed.

(** X6.  A number of the JSON grammar that is followed at once by a
    character which can neither continue a number nor end it (no digit,
    sign, point or exponent letter; no whitespace or structural character)
    makes the lexer raise the invalid-number error, positioned at that
    character. *)
Theorem invalid_number_tail (l : layout) w n y rest :
  layout_ok l (w ++ number_text n ++ y :: rest) -> blank w ->
  number_wf n -> continues_number y = false -> is_delimiter y = false ->
  lexemes (layout_text l ++ w ++ number_text n ++ y :: rest)
  = Raise (JSONParserError
             (hand_pos (layout_text l ++ w ++ number_text n ++ [y]))
             ERR_INVALID_NUMBER []).
Proof.
  intros Hok Hw Hwf Hy Hdel.
  destruct (np_feed_number Hwf) as (cc & dc & A & Hfeed).
  destruct (number_text_first Hwf) as (x & t & Htext & Hstart & Hq).
  rewrite Htext in *. cbn [app] in *.
  apply lexemes_raise_at; auto; [apply digit_start_not_ws; exact Hstart|].
  intros L HL _ HT _. pose proof HL as (Hc & Hrd & _).
  destruct (@handle_number_loop_stops (x :: t) (loop_fuel L)
              NumericParser_init
              (mkNumericParser cc dc (number_kind n) A (x :: t))
              L x (t ++ y :: rest) y rest)
    as (L' & Hrun & HL' & Htr); auto.
  { discriminate. }
  { apply read_char_other. exact Hy. }
  { unfold loop_fuel. rewrite Hrd, length_app. simpl. lia. }
  specialize (Htr _ _ HT).
  destruct (@tracked_consumed _ 0 L'
              (layout_text l ++ w ++ x :: t ++ [y]) Htr) as [Hpos _].
  { destruct HL' as (_ & -> & _). rewrite <- ?app_assoc. simpl.
    rewrite <- ?app_assoc. reflexivity. }
  unfold lexeme_at_char, handle_number. run_m. rewrite Hc.
  unfold c_is, c_in. rewrite Hq, Hstart. cbv beta iota delta [bind gets].
  rewrite Hrun. cbv beta iota. cbn [np_type np_value].
  destruct HL' as (Hc' & _ & Hacc' & _).
  unfold is_delimiter in Hdel.
  pose proof (number_kind_known n) as Hk.
  destruct (number_kind n); [congruence|..]; cbv beta;
    rewrite Hc', Hacc'; cbn [orb]; rewrite Hdel, Hpos; reflexivity.
Qed.

Lemma invalid_number_tail_witness :
  lexemes (lit "[1e-1A")
  = Raise (JSONParserError (mkTextPos 1 6) ERR_INVALID_NUMBER []).
Proof.
  refine (@invalid_number_tail [([], AStructural (ch "[") BEGIN_ARRAY)] []
            (mkNumber false (lit "1") None
                      (Some (ch "e", lit "-", lit "1")))
            (ch "A") [] _ _ _ _ _).
  - simpl. repeat split; try discriminate. constructor.
  - constructor.
  - unfold number_wf, int_part, digits, exp_wf. simpl.
    repeat split; try discriminate; auto; repeat constructor.
  - reflexivity.
  - reflexivity.
Defined.

(** ** The events of a document

    What [SAXParser.run] tells a handler about a well-formed document, for
    any handler whose [textpos_changed] leaves it as it is. *)

Lemma Lexer_next_lexeme_atom_at a w rest L :
  atom_wf a -> blank w -> (atom_open a = true -> delimited rest) ->
  lexer_at (w ++ atom_text a ++ rest) L ->
  exists p L',
    Lexer_next_lexeme L = Ok (Some (atom_lexeme p a), L')
    /\ lexer_at rest L' /\ initial L' = false.
Proof.
  intros Hwf Hw Hrest HL.
  destruct (atom_text_first a Hwf) as (x & t & Htext & Hx).
  rewrite Htext in HL. simpl in HL.
  destruct (@Lexer_next_lexeme_at w x (t ++ rest) L Hw Hx HL)
    as (L2 & HL2 & Hinit2 & Hnext).
  destruct (@lexeme_at_char_atom a x t rest L2 Hwf Htext Hrest HL2 Hinit2)
    as (L' & Hat & HL' & Hinit' & _).
  exists (pos L2), L'. split; [|split; assumption].
  rewrite Hnext. unfold bind. rewrite Hat. reflexivity.
Qed.

Section Events.

Context {H : Type} {handler_intf : SAXHandlerIntf H}.

Hypothesis textpos_ignored : forall p (h : H), textpos_changed p h = Ok h.

Definition and_then (r : Res H) (f : H -> Res H) : Res H :=
  match r with
  | Ok h => f h
  | Raise e => Raise e
  | OutOfFuel => OutOfFuel
  end.

(** [parse_number] passes [NT_FLOAT] for decimal and float tokens. *)
Definition number_event_kind (n : number) : NumericTokenKind :=
  match number_kind n with
  | NT_INTEGER => NT_INTEGER
  | _ => NT_FLOAT
  end.

(** The calls of the handler for a document, in the order of the text; a
    call that raises ends them. *)
Fixpoint doc_events (d : doc) (h : H) {struct d} : Res H :=
  match d with
  | DLiteral kind => on_literal kind (literal_word kind) h
  | DNumber n => on_number (number_event_kind n) (number_text n) h
  | DString items => on_string (string_value items) h
  | DArray _ es =>
      and_then (on_begin_array h)
        (fun h1 => and_then (elems_events es h1) (on_end_array (elems_len es)))
  | DObject _ ms =>
      and_then (on_begin_object h)
        (fun h1 => and_then (members_events ms h1)
                            (on_end_object (members_len ms)))
  end
with elems_events (es : elems) (h : H) {struct es} : Res H :=
  match es with
  | ENil => Ok h
  | ECons _ d _ es' => and_then (doc_events d h) (elems_events es')
  end
with members_events (ms : members) (h : H) {struct ms} : Res H :=
  match ms with
  | MNil => Ok h
  | MCons _ name _ _ d _ ms' =>
      and_then (on_member_name (string_value name) h)
        (fun h1 => and_then (doc_events d h1) (members_events ms'))
  end.

(** The parser with the handler that a call returns. *)
Definition lift {A} (a : A) (L : Lexer) (cur : option Lexeme) (r : Res H)
  : Res (A * SAXParser H) :=
  match r with
  | Ok h => Ok (a, mkSAXParser L cur h)
  | Raise e => Raise e
  | OutOfFuel => OutOfFuel
  end.

Lemma call_lift (f : H -> Res H) L cur h :
  call f (mkSAXParser L cur h) = lift tt L cur (f h).
Proof. reflexivity. Qed.

Lemma next_lexeme_some L cur (h : H) lx L1 :
  Lexer_next_lexeme L = Ok (Some lx, L1) ->
  next_lexeme (mkSAXParser L cur h) = Ok (true, mkSAXParser L1 (Some lx) h).
Proof.
  intros Hlex. unfold next_lexeme. cbn [lexer handler]. rewrite Hlex.
  unfold bind, call. cbn [handler]. rewrite textpos_ignored. reflexivity.
Qed.

Lemma next_lexeme_none L cur (h : H) L1 :
  Lexer_next_lexeme L = Ok (None, L1) ->
  next_lexeme (mkSAXParser L cur h) = Ok (false, mkSAXParser L1 None h).
Proof.
  intros Hlex. unfold next_lexeme. cbn [lexer handler]. rewrite Hlex.
  reflexivity.
Qed.

(** What follows when the calls [r] of the handler have returned. *)
Definition pass {X} (r : Res H) (k : H -> Res X) : Res X :=
  match r with
  | Ok h => k h
  | Raise e => Raise e
  | OutOfFuel => OutOfFuel
  end.

(** The parser reads a lexeme of the grammar. *)
Lemma next_lexeme_atom a w rest L :
  atom_wf a -> blank w -> (atom_open a = true -> delimited rest) ->
  lexer_at (w ++ atom_text a ++ rest) L ->
  exists p L1,
    (forall cur (h : H),
        next_lexeme (mkSAXParser L cur h)
        = Ok (true, mkSAXParser L1 (Some (atom_lexeme p a)) h))
    /\ lexer_at rest L1 /\ initial L1 = false
    /\ (forall input low, tracked input low L -> tracked input low L1).
Proof.
  intros Hwf Hw Hrest HL.
  destruct (@Lexer_next_lexeme_atom_at a w rest L Hwf Hw Hrest HL)
    as (p & L1 & Hlex & HL1 & Hinit1).
  exists p, L1. split; [|split; [exact HL1 | split; [exact Hinit1|]]].
  - intros cur h. apply next_lexeme_some. exact Hlex.
  - intros input low HT.
    pose proof (@tracked_Lexer_next_lexeme input low L HT) as Htrack.
    rewrite Hlex in Htrack. apply Htrack.
Qed.

(** The parser finds the end of the text. *)
Lemma next_lexeme_end w L :
  blank w -> lexer_at w L ->
  exists L1,
    (forall cur (h : H),
        next_lexeme (mkSAXParser L cur h) = Ok (false, mkSAXParser L1 None h))
    /\ eof L1 = true /\ reader L1 = []
    /\ (forall input low, tracked input low L -> tracked input low L1).
Proof.
  intros Hw HL.
  destruct (Lexer_next_lexeme_blank Hw HL) as (L1 & Hlex & Heof & HL1).
  exists L1. split; [|split; [exact Heof | split]].
  - intros cur h. apply next_lexeme_none. exact Hlex.
  - destruct HL1 as [_ Hrd | x _ _ _ _ Hrest]; [exact Hrd | discriminate].
  - intros input low HT.
    pose proof (@tracked_Lexer_next_lexeme input low L HT) as Htrack.
    rewrite Hlex in Htrack. apply Htrack.
Qed.

(** A value without parts is one lexeme and one call. *)
Definition scalar_atom (d : doc) : option atom :=
  match d with
  | DLiteral kind => Some (ALiteral kind)
  | DNumber n => Some (ANumber n)
  | DString items => Some (AString items)
  | _ => None
  end.

Lemma scalar_starts_value d a p :
  scalar_atom d = Some a -> doc_wf d ->
  starts_value (token (atom_lexeme p a)) = true.
Proof.
  destruct d as [kind|n|items|w es|w ms]; simpl; intros Ha Hwf;
    inversion Ha; subst a; clear Ha;
    unfold atom_lexeme, number_lexeme.
  - destruct kind; try congruence; reflexivity.
  - pose proof (number_kind_known n) as Hk.
    destruct (number_kind n); try congruence; reflexivity.
  - reflexivity.
Qed.

Lemma parse_value_scalar d a p fuel L (h : H) :
  scalar_atom d = Some a -> doc_wf d ->
  parse_value (S fuel) (mkSAXParser L (Some (atom_lexeme p a)) h)
  = lift tt L (Some (atom_lexeme p a)) (doc_events d h).
Proof.
  destruct d as [kind|n|items|w es|w ms]; simpl; intros Ha Hwf;
    inversion Ha; subst a; clear Ha;
    unfold atom_lexeme, number_lexeme, number_event_kind.
  - destruct kind; try congruence; reflexivity.
  - pose proof (number_kind_known n) as Hk.
    destruct (number_kind n); try congruence; reflexivity.
  - reflexivity.
Qed.

Local Abbreviation mk := (@mkSAXParser H).

(** What [parse_array_items] does behind the value of an item. *)
Definition items_tail (fuel n count : nat) : ParM H nat :=
  ok <- next_lexeme ;;
  sep <- curr_token_is VALUE_SEPARATOR ;;
  (if ok && sep then
     ok' <- next_lexeme ;;
     if negb ok' then raise_here ERR_EXPECTED_ARRAY_ITEM no_args
     else ret tt
   else ret tt) ;;
  if ok && sep then parse_array_items_loop (parse_value fuel) n count
  else ret count.

(** What [parse_object_members] does behind the value of a member. *)
Definition members_tail (fuel n count : nat) : ParM H nat :=
  ok <- next_lexeme ;;
  sep <- curr_token_is VALUE_SEPARATOR ;;
  (if ok && sep then
     ok3 <- next_lexeme ;;
     if negb ok3 then raise_here ERR_EXPECTED_MEMBER_NAME no_args
     else ret tt
   else ret tt) ;;
  if ok && sep then parse_object_members_loop (parse_value fuel) n count
  else ret count.

Lemma items_loop_step fuel n count :
  parse_array_items_loop (parse_value fuel) (S n) count
  = (parse_value fuel ;; items_tail fuel n (S count)).
Proof. reflexivity. Qed.

Lemma delimited_app_blank b follow :
  blank b -> delimited follow -> delimited (b ++ follow).
Proof.
  intros Hb Hfollow. destruct b as [|y b]; [exact Hfollow|].
  apply delimited_blank in Hb. exact Hb.
Qed.

(** A document is read, whatever the handler holds. *)
Definition doc_run (d : doc) : Prop :=
  doc_wf d ->
  forall fuel L w rest,
    doc_size d <= fuel -> blank w ->
    (needs_delimiter d = true -> delimited rest) ->
    lexer_at (w ++ doc_text d ++ rest) L ->
    exists L1 lx L2 cur2,
      (forall cur h, next_lexeme (mk L cur h) = Ok (true, mk L1 (Some lx) h))
      /\ starts_value (token lx) = true
      /\ (forall h, parse_value fuel (mk L1 (Some lx) h)
                    = lift tt L2 cur2 (doc_events d h))
      /\ lexer_at rest L2 /\ initial L2 = false
      /\ (forall input low, tracked input low L -> tracked input low L2).

(** The items of an array are read up to what follows the last one. *)
Definition elems_through (es : elems) : Prop :=
  elems_wf es -> es <> ENil ->
  forall fuel n L w follow,
    elems_size es <= fuel -> blank w -> delimited follow ->
    lexer_at (w ++ elems_text es ++ follow) L ->
    exists L1 lx L2 cur2 b,
      (forall cur h, next_lexeme (mk L cur h) = Ok (true, mk L1 (Some lx) h))
      /\ Token_eqb (token lx) END_ARRAY = false
      /\ blank b /\ lexer_at (b ++ follow) L2
      /\ (forall input low, tracked input low L -> tracked input low L2)
      /\ (forall h count,
             parse_array_items_loop (parse_value fuel) (elems_len es + n) count
               (mk L1 (Some lx) h)
             = pass (elems_events es h)
                 (fun h' => items_tail fuel n (count + elems_len es)
                              (mk L2 cur2 h'))).

Lemma scalar_doc_run d a :
  scalar_atom d = Some a -> doc_run d.
Proof.
  intros Ha Hwf fuel L w rest Hfuel Hw Hrest HL.
  assert (Hatom : atom_wf a /\ atom_text a = doc_text d
                  /\ atom_open a = needs_delimiter d /\ doc_size d = 1).
  { destruct d; inversion Ha; subst a; simpl in *; auto. }
  destruct Hatom as (Hawf & Htext & Hopen & Hsize).
  rewrite <- Htext in HL. rewrite <- Hopen in Hrest.
  destruct (@next_lexeme_atom a w rest L Hawf Hw Hrest HL)
    as (p & L1 & Hnext & HL1 & Hinit1 & Htr1).
  exists L1, (atom_lexeme p a), L1, (Some (atom_lexeme p a)).
  split; [exact Hnext|].
  split; [apply scalar_starts_value with (d := d); assumption|].
  split; [|split; [exact HL1 | split; [exact Hinit1 | exact Htr1]]].
  intros h. destruct fuel as [|fuel]; [lia|].
  apply parse_value_scalar; assumption.
Qed.

(** Behind the last item: the bracket that closes the array. *)
Lemma items_tail_closes fuel n count L cur b rest :
  blank b -> lexer_at (b ++ ch "]" :: rest) L ->
  exists L1 lx,
    (forall h, items_tail fuel n count (mk L cur h)
               = Ok (count, mk L1 (Some lx) h))
    /\ token lx = END_ARRAY /\ lexer_at rest L1 /\ initial L1 = false
    /\ (forall input low, tracked input low L -> tracked input low L1).
Proof.
  intros Hb HL.
  destruct (@next_lexeme_atom (AStructural (ch "]") END_ARRAY) b rest L
              eq_refl Hb (fun H0 => False_ind _ (Bool.diff_false_true H0)) HL)
    as (p & L1 & Hnext & HL1 & Hinit1 & Htr1).
  exists L1, (atom_lexeme p (AStructural (ch "]") END_ARRAY)).
  split; [|split; [reflexivity | split; [exact HL1 | split; assumption]]].
  intros h. unfold items_tail. unfold bind at 1. rewrite Hnext.
  reflexivity.
Qed.

(** [parse_value] on an opening bracket. *)
Lemma parse_value_array fuel L p (h : H) :
  parse_value (S fuel)
    (mk L (Some (atom_lexeme p (AStructural (ch "[") BEGIN_ARRAY))) h)
  = pass (on_begin_array h)
      (fun h1 =>
         (ok <- next_lexeme ;;
          closed <- curr_token_is END_ARRAY ;;
          element_count <- (if ok && negb closed
                            then parse_array_items (parse_value fuel) fuel
                            else ret 0) ;;
          closed' <- curr_token_is END_ARRAY ;;
          if closed' then call (on_end_array element_count)
          else raise_here ERR_UNCLOSED_ARRAY no_args)
           (mk L (Some (atom_lexeme p (AStructural (ch "[") BEGIN_ARRAY))) h1)).
Proof.
  cbn [parse_value]. unfold bind at 1, curr_token_is at 1, gets at 1.
  cbn [curr_token curr token atom_lexeme Token_eqb].
  unfold parse_array. unfold bind at 1, curr_token_is at 1, gets at 1.
  cbn [curr_token curr token atom_lexeme Token_eqb negb].
  unfold bind at 1. rewrite call_lift.
  destruct (on_begin_array h) as [h1|e|]; reflexivity.
Qed.

Lemma array_doc_run w es : elems_through es -> doc_run (DArray w es).
Proof.
  intros Hes [Hw Hwf] fuel L w0 rest Hfuel Hw0 _ HL.
  simpl in Hfuel. destruct fuel as [|fuel]; [lia|].
  cbn [doc_text] in HL.
  replace ((ch "[" :: w ++ elems_text es ++ [ch "]"]) ++ rest)
    with (atom_text (AStructural (ch "[") BEGIN_ARRAY)
          ++ w ++ elems_text es ++ ch "]" :: rest) in HL
    by (simpl; rewrite <- !app_assoc; reflexivity).
  destruct (@next_lexeme_atom (AStructural (ch "[") BEGIN_ARRAY) w0 _ L
              eq_refl Hw0 (fun H0 => False_ind _ (Bool.diff_false_true H0)) HL)
    as (p & L1 & Hnext & HL1 & _ & Htr1).
  exists L1, (atom_lexeme p (AStructural (ch "[") BEGIN_ARRAY)).
  destruct (match es with ENil => true | _ => false end) eqn:Hnil.
  - destruct es; [|discriminate Hnil]. simpl in HL1.
    destruct (@next_lexeme_atom (AStructural (ch "]") END_ARRAY) w rest L1
                eq_refl Hw (fun H0 => False_ind _ (Bool.diff_false_true H0)) HL1)
      as (p2 & L2 & Hnext2 & HL2 & Hinit2 & Htr2).
    exists L2, (Some (atom_lexeme p2 (AStructural (ch "]") END_ARRAY))).
    split; [exact Hnext|]. split; [reflexivity|].
    split; [|split; [exact HL2 | split; [exact Hinit2 | auto]]].
    intros h. rewrite parse_value_array.
    cbn [doc_events elems_events elems_len and_then].
    destruct (on_begin_array h) as [h1|e|]; cbn [pass and_then lift];
      [|reflexivity|reflexivity].
    unfold bind at 1. rewrite Hnext2.
    unfold bind at 1, curr_token_is at 1, gets at 1.
    cbn [curr_token curr token atom_lexeme Token_eqb negb andb].
    unfold bind at 1, ret at 1.
    unfold bind, curr_token_is, gets.
    cbn [curr_token curr token atom_lexeme Token_eqb]. apply call_lift.
  - pose proof (proj1 (proj2 doc_size_pos) es) as Hlen.
    destruct (Hes Hwf) with (fuel := fuel) (n := fuel - elems_len es)
      (L := L1) (w := w) (follow := ch "]" :: rest)
      as (L1' & lx & L2 & cur2 & b & Hnext2 & Hopen & Hb & HL2 & Htr2 & Hloop);
      [intros ->; discriminate Hnil | lia | exact Hw | reflexivity
       | exact HL1 |].
    replace (elems_len es + (fuel - elems_len es)) with fuel in Hloop by lia.
    destruct (@items_tail_closes fuel (fuel - elems_len es) (elems_len es)
                L2 cur2 b rest Hb HL2)
      as (L3 & lx3 & Htail & Hclose & HL3 & Hinit3 & Htr3).
    exists L3, (Some lx3).
    split; [exact Hnext|]. split; [reflexivity|].
    split; [|split; [exact HL3 | split; [exact Hinit3 | auto]]].
    intros h. rewrite parse_value_array. cbn [doc_events and_then].
    destruct (on_begin_array h) as [h1|e|]; cbn [pass and_then];
      [|reflexivity|reflexivity].
    unfold bind at 1. rewrite Hnext2.
    unfold bind at 1, curr_token_is at 1, gets at 1.
    cbn [curr_token curr]. rewrite Hopen. cbn [negb andb].
    unfold bind at 1, parse_array_items. rewrite Hloop. cbn [Nat.add].
    destruct (elems_events es h1) as [h2|e|]; cbn [pass and_then lift];
      [|reflexivity|reflexivity].
    rewrite Htail.
    unfold bind, curr_token_is, gets. cbn [curr_token curr].
    rewrite Hclose. cbn [Token_eqb]. apply call_lift.
Qed.

Lemma elems_cons_through a d b es :
  doc_run d -> elems_through es -> elems_through (ECons a d b es).
Proof.
  intros Hd Hes (Ha & Hwfd & Hb & Hwfes) _ fuel n L w follow Hfuel Hw
         Hfollow HL.
  simpl in Hfuel.
  set (tail := match es with ENil => [] | _ => ch "," :: elems_text es end) in *.
  cbn [elems_text] in HL. fold tail in HL.
  replace (w ++ (a ++ doc_text d ++ b ++ tail) ++ follow)
    with ((w ++ a) ++ doc_text d ++ (b ++ tail ++ follow)) in HL
    by (rewrite <- !app_assoc; reflexivity).
  destruct (Hd Hwfd fuel L (w ++ a) (b ++ tail ++ follow))
    as (L1 & lx & L2 & cur2 & Hnext & Hstart & Hvalue & HL2 & Hinit2 & Htr2);
    [lia | apply blank_app; assumption | | exact HL |].
  { intros _. subst tail.
    destruct es; [apply delimited_app_blank; assumption
                 | apply delimited_blank_then; auto]. }
  exists L1, lx.
  destruct (starts_value_not_end _ Hstart) as [Hopen _].
  destruct (match es with ENil => true | _ => false end) eqn:Hnil.
  - destruct es; [|discriminate Hnil]. subst tail. simpl in HL2.
    exists L2, cur2, b.
    split; [exact Hnext|]. split; [exact Hopen|].
    split; [exact Hb|]. split; [exact HL2|]. split; [exact Htr2|].
    intros h count. cbn [elems_events elems_len Nat.add].
    rewrite Nat.add_1_r, items_loop_step.
    unfold bind at 1. rewrite Hvalue.
    destruct (doc_events d h) as [h1|e|]; reflexivity.
  - assert (Htail : tail = ch "," :: elems_text es)
      by (subst tail; destruct es; [discriminate Hnil | reflexivity]).
    rewrite Htail in HL2. simpl in HL2.
    destruct (@next_lexeme_atom (AStructural (ch ",") VALUE_SEPARATOR) b
                (elems_text es ++ follow) L2
                eq_refl Hb (fun H0 => False_ind _ (Bool.diff_false_true H0)) HL2)
      as (p3 & L3 & Hnext3 & HL3 & Hinit3 & Htr3).
    destruct (Hes Hwfes) with (fuel := fuel) (n := n) (L := L3)
      (w := @nil char) (follow := follow)
      as (L4 & lx4 & L5 & cur5 & b5 & Hnext4 & Hopen4 & Hb5 & HL5 & Htr5
          & Hloop);
      [intros ->; discriminate Hnil | lia | apply blank_nil | exact Hfollow
       | exact HL3 |].
    exists L5, cur5, b5.
    split; [exact Hnext|]. split; [exact Hopen|].
    split; [exact Hb5|]. split; [exact HL5|]. split; [auto|].
    intros h count. cbn [elems_events elems_len Nat.add].
    rewrite <- plus_n_Sm, items_loop_step.
    unfold bind at 1. rewrite Hvalue.
    destruct (doc_events d h) as [h1|e|]; cbn [lift and_then pass];
      [|reflexivity|reflexivity].
    unfold items_tail. unfold bind at 1. rewrite Hnext3.
    unfold bind at 1, curr_token_is at 1, gets at 1.
    cbn [curr_token curr token atom_lexeme Token_eqb andb].
    unfold bind at 1. unfold bind at 1. rewrite Hnext4. cbn [negb].
    unfold ret at 1. apply (Hloop h1 (S count)).
Qed.

(** The members of an object are read up to what follows the last one. *)
Definition members_through (ms : members) : Prop :=
  members_wf ms -> ms <> MNil ->
  forall fuel n L w follow,
    members_size ms <= fuel -> blank w -> delimited follow ->
    lexer_at (w ++ members_text ms ++ follow) L ->
    exists L1 lx L2 cur2 b,
      (forall cur h, next_lexeme (mk L cur h) = Ok (true, mk L1 (Some lx) h))
      /\ Token_eqb (token lx) END_OBJECT = false
      /\ blank b /\ lexer_at (b ++ follow) L2
      /\ (forall input low, tracked input low L -> tracked input low L2)
      /\ (forall h count,
             parse_object_members_loop (parse_value fuel) (members_len ms + n)
               count (mk L1 (Some lx) h)
             = pass (members_events ms h)
                 (fun h' => members_tail fuel n (count + members_len ms)
                              (mk L2 cur2 h'))).

(** Behind the last member: the brace that closes the object. *)
Lemma members_tail_closes fuel n count L cur b rest :
  blank b -> lexer_at (b ++ ch "}" :: rest) L ->
  exists L1 lx,
    (forall h, members_tail fuel n count (mk L cur h)
               = Ok (count, mk L1 (Some lx) h))
    /\ token lx = END_OBJECT /\ lexer_at rest L1 /\ initial L1 = false
    /\ (forall input low, tracked input low L -> tracked input low L1).
Proof.
  intros Hb HL.
  destruct (@next_lexeme_atom (AStructural (ch "}") END_OBJECT) b rest L
              eq_refl Hb (fun H0 => False_ind _ (Bool.diff_false_true H0)) HL)
    as (p & L1 & Hnext & HL1 & Hinit1 & Htr1).
  exists L1, (atom_lexeme p (AStructural (ch "}") END_OBJECT)).
  split; [|split; [reflexivity | split; [exact HL1 | split; assumption]]].
  intros h. unfold members_tail. unfold bind at 1. rewrite Hnext.
  reflexivity.
Qed.

(** [parse_value] on an opening brace: the position of the brace is kept
    for the error. *)
Lemma parse_value_object fuel L p (h : H) :
  parse_value (S fuel)
    (mk L (Some (atom_lexeme p (AStructural (ch "{") BEGIN_OBJECT))) h)
  = pass (on_begin_object h)
      (fun h1 =>
         (ok <- next_lexeme ;;
          closed <- curr_token_is END_OBJECT ;;
          member_count <- (if ok && negb closed
                           then parse_object_members (parse_value fuel) fuel
                           else ret 0) ;;
          closed' <- curr_token_is END_OBJECT ;;
          if closed' then call (on_end_object member_count)
          else raise (JSONParserError (pos L) ERR_UNCLOSED_OBJECT []))
           (mk L (Some (atom_lexeme p (AStructural (ch "{") BEGIN_OBJECT))) h1)).
Proof.
  cbn [parse_value]. unfold bind at 1, curr_token_is at 1, gets at 1.
  cbn [curr_token curr token atom_lexeme Token_eqb].
  unfold bind at 1, curr_token_is at 1, gets at 1.
  cbn [curr_token curr token atom_lexeme Token_eqb].
  unfold parse_object. unfold bind at 1, curr_token_is at 1, gets at 1.
  cbn [curr_token curr token atom_lexeme Token_eqb negb].
  unfold bind at 1, gets at 1.
  unfold bind at 1. rewrite call_lift.
  destruct (on_begin_object h) as [h1|e|]; reflexivity.
Qed.

(** One turn of [parse_object_members] up to the value: the name is told
    to the handler, the colon and the first lexeme of the value are read. *)
Lemma member_turn fuel n count L1 p1 name L2 p2 L3 lx3 (h : H) :
  (forall cur h',
      next_lexeme (mk L1 cur h')
      = Ok (true, mk L2 (Some (atom_lexeme p2 (AStructural (ch ":")
                                                 NAME_SEPARATOR))) h')) ->
  (forall cur h', next_lexeme (mk L2 cur h') = Ok (true, mk L3 (Some lx3) h')) ->
  parse_object_members_loop (parse_value fuel) (S n) count
    (mk L1 (Some (atom_lexeme p1 (AString name))) h)
  = pass (on_member_name (string_value name) h)
      (fun h1 => (parse_value fuel ;; members_tail fuel n (S count))
                   (mk L3 (Some lx3) h1)).
Proof.
  intros Hnext2 Hnext3. cbn [parse_object_members_loop].
  unfold bind at 1, curr_token_is at 1, gets at 1.
  cbn [curr_token curr token atom_lexeme Token_eqb negb].
  unfold bind at 1, gets at 1. cbn [curr_text curr text atom_lexeme].
  unfold bind at 1. rewrite call_lift.
  destruct (on_member_name (string_value name) h) as [h1|e1|];
    cbn [lift pass]; [|reflexivity|reflexivity].
  unfold bind at 1. rewrite Hnext2.
  unfold bind at 1, curr_token_is at 1, gets at 1.
  cbn [curr_token curr token atom_lexeme Token_eqb negb orb].
  unfold bind at 1. rewrite Hnext3. cbn [negb].
  reflexivity.
Qed.

Lemma members_cons_through a name b c d e ms :
  doc_run d -> members_through ms -> members_through (MCons a name b c d e ms).
Proof.
  intros Hd Hms (Ha & Hname & Hb & Hc & Hwfd & He & Hwfms) _
         fuel n L w follow Hfuel Hw Hfollow HL.
  simpl in Hfuel.
  set (tail := match ms with MNil => [] | _ => ch "," :: members_text ms end)
    in *.
  cbn [members_text] in HL. fold tail in HL.
  replace (w ++ (a ++ string_text name ++ b ++ ch ":" :: c ++ doc_text d
                   ++ e ++ tail) ++ follow)
    with ((w ++ a) ++ atom_text (AString name)
          ++ (b ++ ch ":" :: c ++ doc_text d ++ e ++ tail ++ follow))
    in HL by (rewrite <- !app_assoc; simpl; rewrite <- !app_assoc; reflexivity).
  destruct (@next_lexeme_atom (AString name) (w ++ a) _ L Hname
              (blank_app Hw Ha)
              (fun H0 => False_ind _ (Bool.diff_false_true H0)) HL)
    as (p1 & L1 & Hnext1 & HL1 & Hinit1 & Htr1).
  destruct (@next_lexeme_atom (AStructural (ch ":") NAME_SEPARATOR) b _ L1
              eq_refl Hb (fun H0 => False_ind _ (Bool.diff_false_true H0)) HL1)
    as (p2 & L2 & Hnext2 & HL2 & Hinit2 & Htr2).
  destruct (Hd Hwfd fuel L2 c (e ++ tail ++ follow))
    as (L3 & lx3 & L4 & cur4 & Hnext3 & Hstart & Hvalue & HL4 & Hinit4 & Htr4);
    [lia | exact Hc | | exact HL2 |].
  { intros _. subst tail.
    destruct ms; [apply delimited_app_blank; assumption
                 | apply delimited_blank_then; auto]. }
  exists L1, (atom_lexeme p1 (AString name)).
  destruct (match ms with MNil => true | _ => false end) eqn:Hnil.
  - destruct ms; [|discriminate Hnil]. subst tail. simpl in HL4.
    exists L4, cur4, e.
    split; [exact Hnext1|]. split; [reflexivity|].
    split; [exact He|]. split; [exact HL4|]. split; [auto 10|].
    intros h count. cbn [members_events members_len Nat.add].
    rewrite Nat.add_1_r.
    rewrite (@member_turn fuel n count L1 p1 name L2 p2 L3 lx3 h Hnext2 Hnext3).
    destruct (on_member_name (string_value name) h) as [h1|e1|];
      cbn [pass and_then]; [|reflexivity|reflexivity].
    unfold bind at 1. rewrite Hvalue.
    destruct (doc_events d h1) as [h2|e2|]; reflexivity.
  - assert (Htail : tail = ch "," :: members_text ms)
      by (subst tail; destruct ms; [discriminate Hnil | reflexivity]).
    rewrite Htail in HL4. simpl in HL4.
    destruct (@next_lexeme_atom (AStructural (ch ",") VALUE_SEPARATOR) e
                (members_text ms ++ follow) L4
                eq_refl He (fun H0 => False_ind _ (Bool.diff_false_true H0)) HL4)
      as (p5 & L5 & Hnext5 & HL5 & Hinit5 & Htr5).
    destruct (Hms Hwfms) with (fuel := fuel) (n := n) (L := L5)
      (w := @nil char) (follow := follow)
      as (L6 & lx6 & L7 & cur7 & b7 & Hnext6 & Hopen6 & Hb7 & HL7 & Htr7
          & Hloop);
      [intros ->; discriminate Hnil | lia | apply blank_nil | exact Hfollow
       | exact HL5 |].
    exists L7, cur7, b7.
    split; [exact Hnext1|]. split; [reflexivity|].
    split; [exact Hb7|]. split; [exact HL7|]. split; [auto 10|].
    intros h count. cbn [members_events members_len Nat.add].
    rewrite <- plus_n_Sm.
    rewrite (@member_turn fuel (members_len ms + n) count L1 p1 name L2 p2 L3
               lx3 h Hnext2 Hnext3).
    destruct (on_member_name (string_value name) h) as [h1|e1|];
      cbn [pass and_then]; [|reflexivity|reflexivity].
    unfold bind at 1. rewrite Hvalue.
    destruct (doc_events d h1) as [h2|e2|]; cbn [lift and_then pass];
      [|reflexivity|reflexivity].
    unfold members_tail. unfold bind at 1. rewrite Hnext5.
    unfold bind at 1, curr_token_is at 1, gets at 1.
    cbn [curr_token curr token atom_lexeme Token_eqb andb].
    unfold bind at 1. unfold bind at 1. rewrite Hnext6. cbn [negb].
    unfold ret at 1. apply (Hloop h2 (S count)).
Qed.

Lemma object_doc_run w ms : members_through ms -> doc_run (DObject w ms).
Proof.
  intros Hms [Hw Hwf] fuel L w0 rest Hfuel Hw0 _ HL.
  simpl in Hfuel. destruct fuel as [|fuel]; [lia|].
  cbn [doc_text] in HL.
  replace ((ch "{" :: w ++ members_text ms ++ [ch "}"]) ++ rest)
    with (atom_text (AStructural (ch "{") BEGIN_OBJECT)
          ++ w ++ members_text ms ++ ch "}" :: rest) in HL
    by (simpl; rewrite <- !app_assoc; reflexivity).
  destruct (@next_lexeme_atom (AStructural (ch "{") BEGIN_OBJECT) w0 _ L
              eq_refl Hw0 (fun H0 => False_ind _ (Bool.diff_false_true H0)) HL)
    as (p & L1 & Hnext & HL1 & _ & Htr1).
  exists L1, (atom_lexeme p (AStructural (ch "{") BEGIN_OBJECT)).
  destruct (match ms with MNil => true | _ => false end) eqn:Hnil.
  - destruct ms; [|discriminate Hnil]. simpl in HL1.
    destruct (@next_lexeme_atom (AStructural (ch "}") END_OBJECT) w rest L1
                eq_refl Hw (fun H0 => False_ind _ (Bool.diff_false_true H0)) HL1)
      as (p2 & L2 & Hnext2 & HL2 & Hinit2 & Htr2).
    exists L2, (Some (atom_lexeme p2 (AStructural (ch "}") END_OBJECT))).
    split; [exact Hnext|]. split; [reflexivity|].
    split; [|split; [exact HL2 | split; [exact Hinit2 | auto]]].
    intros h. rewrite parse_value_object.
    cbn [doc_events members_events members_len and_then].
    destruct (on_begin_object h) as [h1|e|]; cbn [pass and_then lift];
      [|reflexivity|reflexivity].
    unfold bind at 1. rewrite Hnext2.
    unfold bind at 1, curr_token_is at 1, gets at 1.
    cbn [curr_token curr token atom_lexeme Token_eqb negb andb].
    unfold bind at 1, ret at 1.
    unfold bind, curr_token_is, gets.
    cbn [curr_token curr token atom_lexeme Token_eqb]. apply call_lift.
  - pose proof (proj2 (proj2 doc_size_pos) ms) as Hlen.
    destruct (Hms Hwf) with (fuel := fuel) (n := fuel - members_len ms)
      (L := L1) (w := w) (follow := ch "}" :: rest)
      as (L1' & lx & L2 & cur2 & b & Hnext2 & Hopen & Hb & HL2 & Htr2 & Hloop);
      [intros ->; discriminate Hnil | lia | exact Hw | reflexivity
       | exact HL1 |].
    replace (members_len ms + (fuel - members_len ms)) with fuel in Hloop
      by lia.
    destruct (@members_tail_closes fuel (fuel - members_len ms)
                (members_len ms) L2 cur2 b rest Hb HL2)
      as (L3 & lx3 & Htail & Hclose & HL3 & Hinit3 & Htr3).
    exists L3, (Some lx3).
    split; [exact Hnext|]. split; [reflexivity|].
    split; [|split; [exact HL3 | split; [exact Hinit3 | auto]]].
    intros h. rewrite parse_value_object. cbn [doc_events and_then].
    destruct (on_begin_object h) as [h1|e|]; cbn [pass and_then];
      [|reflexivity|reflexivity].
    unfold bind at 1. rewrite Hnext2.
    unfold bind at 1, curr_token_is at 1, gets at 1.
    cbn [curr_token curr]. rewrite Hopen. cbn [negb andb].
    unfold bind at 1, parse_object_members. rewrite Hloop. cbn [Nat.add].
    destruct (members_events ms h1) as [h2|e|]; cbn [pass and_then lift];
      [|reflexivity|reflexivity].
    rewrite Htail.
    unfold bind, curr_token_is, gets. cbn [curr_token curr].
    rewrite Hclose. cbn [Token_eqb]. apply call_lift.
Qed.

Lemma wf_doc_run :
  (forall d, doc_run d) /\ (forall es, elems_through es)
  /\ (forall ms, members_through ms).
Proof.
  apply doc_mutind.
  - intros kind. apply (@scalar_doc_run _ (ALiteral kind)). reflexivity.
  - intros n. apply (@scalar_doc_run _ (ANumber n)). reflexivity.
  - intros items. apply (@scalar_doc_run _ (AString items)). reflexivity.
  - intros w es. apply array_doc_run.
  - intros w ms. apply object_doc_run.
  - intros _ Hnil. congruence.
  - intros a d Hd b es Hes. apply elems_cons_through; assumption.
  - intros _ Hnil. congruence.
  - intros a name b c d Hd e ms Hms. apply members_cons_through; assumption.
Qed.

(** X7.  For every well-formed JSON document, with whitespace around it,
    and every handler whose [textpos_changed] leaves it as it is, [run]
    makes exactly the calls of the document, in the order of the text:
    [on_literal], [on_number] (with [NT_FLOAT] for decimal and float
    tokens) and [on_string] for the values, [on_begin_array] and
    [on_end_array] with the number of elements around the elements of an
    array, [on_begin_object], [on_member_name] before the value of each
    member and [on_end_object] with the number of members.  It returns
    what the last call returns, and when a call raises, [run] raises the
    same and calls nothing more. *)
Theorem run_emits_events d w1 w2 (h : H) :
  doc_wf d -> blank w1 -> blank w2 ->
  run (w1 ++ doc_text d ++ w2) h = doc_events d h.
Proof.
  intros Hwf Hw1 Hw2.
  destruct (proj1 wf_doc_run d Hwf (run_fuel (w1 ++ doc_text d ++ w2))
              (Lexer_init (w1 ++ doc_text d ++ w2)) w1 w2)
    as (L1 & lx & L2 & cur2 & Hnext & _ & Hvalue & HL2 & _);
    [| exact Hw1 | intros _; apply delimited_blank; exact Hw2
     | apply lexer_at_init |].
  { pose proof (proj1 doc_size_text d Hwf). unfold run_fuel.
    rewrite !length_app. lia. }
  destruct (Lexer_next_lexeme_blank Hw2 HL2) as (L3 & Hend & Heof & _).
  unfold run, parse_doc, SAXParser_init. unfold bind at 1. rewrite Hnext.
  unfold bind at 1. rewrite Hvalue.
  destruct (doc_events d h) as [h'|e|]; cbn [lift]; [|reflexivity..].
  unfold expect_end. unfold bind at 1.
  rewrite (@next_lexeme_none L2 cur2 h' L3 Hend).
  unfold bind, parser_eof, gets. cbn [lexer]. rewrite Heof. reflexivity.
Qed.

(** ** Documents that break off

    What [run] raises on a text that is well-formed up to some place, and
    what it has told the handler by then. *)

(** The calls [r] of the handler, and then the error [e]. *)
Definition then_raise {X} (r : Res H) (e : exn) : Res X :=
  pass r (fun _ => Raise e).

Lemma and_then_assoc (r : Res H) (f g : H -> Res H) :
  and_then (and_then r f) g = and_then r (fun h => and_then (f h) g).
Proof. destruct r; reflexivity. Qed.

Lemma then_raise_and_then {X} (r : Res H) (f : H -> Res H) e :
  @then_raise X (and_then r f) e = pass r (fun h => then_raise (f h) e).
Proof. destruct r; reflexivity. Qed.

(** [breaks input tl tok ev e]: where the parser expects a value, the text
    [tl] (behind whitespace) starts with a lexeme of the token [tok], and
    [parse_value] makes the calls [ev] and raises [e]. *)
Definition breaks (input tl : str) (tok : Token) (ev : H -> Res H) (e : exn)
  : Prop :=
  forall w L, blank w -> lexer_at (w ++ tl) L -> tracked input 0 L ->
    exists L1 lx,
      (forall cur h, next_lexeme (mk L cur h) = Ok (true, mk L1 (Some lx) h))
      /\ token lx = tok
      /\ (forall fuel h, length tl < fuel ->
             parse_value fuel (mk L1 (Some lx) h) = then_raise (ev h) e).

Lemma breaks_blank input b tl tok ev e :
  blank b -> breaks input tl tok ev e -> breaks input (b ++ tl) tok ev e.
Proof.
  intros Hb Hbr w L Hw HL HT. rewrite app_assoc in HL.
  destruct (Hbr (w ++ b) L (blank_app Hw Hb) HL HT)
    as (L1 & lx & Hnext & Htok & Hvalue).
  exists L1, lx. split; [exact Hnext|]. split; [exact Htok|].
  intros fuel h Hfuel. apply Hvalue. rewrite length_app in Hfuel. lia.
Qed.

Lemma breaks_ext input tl tok ev ev' e :
  (forall h, ev h = ev' h) ->
  breaks input tl tok ev e -> breaks input tl tok ev' e.
Proof.
  intros Hev Hbr w L Hw HL HT.
  destruct (Hbr w L Hw HL HT) as (L1 & lx & Hnext & Htok & Hvalue).
  exists L1, lx. split; [exact Hnext|]. split; [exact Htok|].
  intros fuel h Hfuel. rewrite <- Hev. apply Hvalue. exact Hfuel.
Qed.

(** The run of a text that breaks at the top. *)
Lemma run_breaks input tok ev e (h : H) :
  breaks input input tok ev e -> run input h = then_raise (ev h) e.
Proof.
  intros Hbr.
  destruct (Hbr [] (Lexer_init input) blank_nil (lexer_at_init input)
              (@tracked_init input 0 eq_refl))
    as (L1 & lx & Hnext & _ & Hvalue).
  unfold run, parse_doc, SAXParser_init. unfold bind at 1. rewrite Hnext.
  unfold bind at 1. rewrite Hvalue by (unfold run_fuel; lia).
  destruct (ev h); reflexivity.
Qed.

(** The parser reads a structural character: the lexer stands at it. *)
Lemma next_lexeme_opening input pre x tok w rest L :
  dict_get STRUCTURALS x = Some tok -> blank w ->
  lexer_at (w ++ x :: rest) L -> tracked input 0 L ->
  input = pre ++ x :: rest ->
  exists L1,
    (forall cur (h : H),
        next_lexeme (mk L cur h)
        = Ok (true, mk L1 (Some (atom_lexeme (pos L1) (AStructural x tok))) h))
    /\ lexer_at rest L1 /\ tracked input 0 L1
    /\ pos L1 = hand_pos (pre ++ [x]).
Proof.
  intros Htok Hw HL HT Hin.
  destruct (@Lexer_next_lexeme_at_tracked w x rest L Hw
              (structural_not_ws _ Htok) HL)
    as (L2 & HL2 & Hinit2 & Hnext & Htr).
  specialize (Htr input 0 HT).
  pose proof (lexeme_at_char_structural Htok HL2) as Hat.
  assert (Hlex : Lexer_next_lexeme L
                 = Ok (Some (atom_lexeme (pos L2) (AStructural x tok)),
                       set_c_accepted true L2)).
  { rewrite Hnext. unfold bind. rewrite Hat. reflexivity. }
  destruct HL2 as (Hc & Hrd & Hacc & Heof).
  exists (set_c_accepted true L2).
  split; [intros cur h; apply next_lexeme_some; exact Hlex|].
  split; [apply accepted_lexer_at; [reflexivity | exact Hrd]|].
  split; [apply tracked_set_c_accepted; exact Htr|].
  cbn [pos set_c_accepted].
  apply (@tracked_consumed input 0 L2 (pre ++ [x]) Htr).
  rewrite Hrd, Hin, <- app_assoc. reflexivity.
Qed.

(** Where a value is expected, a structural character that starts none. *)
Lemma found_breaks input pre x tok rest :
  input = pre ++ x :: rest ->
  dict_get STRUCTURALS x = Some tok -> starts_value tok = false ->
  breaks input (x :: rest) tok (fun h => Ok h)
    (JSONParserError (hand_pos (pre ++ [x]))
                     ERR_EXPECTED_VALUE_BUT_FOUND_FMT [Some [x]]).
Proof.
  intros Hin Htok Hstart w L Hw HL HT.
  destruct (@next_lexeme_opening input pre x tok w rest L Htok Hw HL HT Hin)
    as (L1 & Hnext & HL1 & HT1 & Hpos).
  exists L1, (atom_lexeme (pos L1) (AStructural x tok)).
  split; [exact Hnext|]. split; [reflexivity|].
  intros fuel h Hfuel. destruct fuel as [|fuel]; [simpl in Hfuel; lia|].
  rewrite <- Hpos.
  pose proof (structural_char_cases _ Htok) as Hcases.
  unfold STRUCTURALS in Hcases. cbn [In] in Hcases.
  destruct tok; try discriminate Hstart; reflexivity.
Qed.

(** The items that stand in front of another one, with their comma. *)
Definition elems_sep (es : elems) : str :=
  match es with
  | ENil => []
  | _ => elems_text es ++ [ch ","]
  end.

(** The members that stand in front of another one, with their comma. *)
Definition members_sep (ms : members) : str :=
  match ms with
  | MNil => []
  | _ => members_text ms ++ [ch ","]
  end.

Lemma Token_eqb_neq (a b : Token) : a <> b -> Token_eqb a b = false.
Proof. intros Hne. destruct a, b; try reflexivity; congruence. Qed.

(** A value that breaks, as an item of an array. *)
Lemma array_breaks input es tl tok ev e :
  elems_wf es -> (es = ENil -> tok <> END_ARRAY) ->
  breaks input tl tok ev e ->
  breaks input (ch "[" :: elems_sep es ++ tl) BEGIN_ARRAY
    (fun h => and_then (on_begin_array h)
                (fun h1 => and_then (elems_events es h1) ev)) e.
Proof.
  intros Hwf Htok Hbr w L Hw HL HT.
  destruct (@next_lexeme_atom (AStructural (ch "[") BEGIN_ARRAY) w
              (elems_sep es ++ tl) L eq_refl Hw
              (fun H0 => False_ind _ (Bool.diff_false_true H0)) HL)
    as (p & L1 & Hnext & HL1 & _ & Htr1).
  exists L1, (atom_lexeme p (AStructural (ch "[") BEGIN_ARRAY)).
  split; [exact Hnext|]. split; [reflexivity|].
  intros fuel h Hfuel. destruct fuel as [|fuel]; [simpl in Hfuel; lia|].
  cbn [length] in Hfuel. rewrite length_app in Hfuel.
  rewrite parse_value_array. unfold then_raise.
  destruct (on_begin_array h) as [h1|e1|]; cbn [pass and_then];
    [|reflexivity|reflexivity].
  destruct (match es with ENil => true | _ => false end) eqn:Hnil.
  - destruct es; [|discriminate Hnil]. cbn [elems_sep app] in HL1.
    destruct (Hbr [] L1 blank_nil HL1 (Htr1 _ _ HT))
      as (L2 & lx2 & Hnext2 & Htok2 & Hvalue2).
    unfold bind at 1. rewrite Hnext2.
    unfold bind at 1, curr_token_is at 1, gets at 1.
    cbn [curr_token curr]. rewrite Htok2.
    rewrite (Token_eqb_neq (Htok eq_refl)). cbn [negb andb].
    unfold bind at 1, parse_array_items.
    destruct fuel as [|n]; [lia|]. rewrite items_loop_step.
    unfold bind at 1. rewrite Hvalue2 by lia.
    cbn [elems_events and_then]. unfold then_raise.
    destruct (ev h1); reflexivity.
  - assert (Hne : es <> ENil) by (intros ->; discriminate Hnil).
    assert (Hsep : elems_sep es = elems_text es ++ [ch ","])
      by (destruct es; [discriminate Hnil | reflexivity]).
    rewrite Hsep in HL1, Hfuel. rewrite length_app in Hfuel.
    cbn [length] in Hfuel. rewrite <- app_assoc in HL1. cbn [app] in HL1.
    pose proof (proj1 (proj2 doc_size_pos) es) as Hlen.
    pose proof (proj1 (proj2 doc_size_text) es Hwf) as Hsize.
    destruct (proj1 (proj2 wf_doc_run) es Hwf Hne fuel
                (S (fuel - elems_len es - 1)) L1 [] (ch "," :: tl))
      as (L1' & lx & L2 & cur2 & b & Hnext2 & Hopen & Hb & HL2 & Htr2 & Hloop);
      [lia | apply blank_nil | reflexivity | exact HL1 |].
    replace (elems_len es + S (fuel - elems_len es - 1)) with fuel in Hloop
      by lia.
    destruct (@next_lexeme_atom (AStructural (ch ",") VALUE_SEPARATOR) b tl L2
                eq_refl Hb (fun H0 => False_ind _ (Bool.diff_false_true H0)) HL2)
      as (p3 & L3 & Hnext3 & HL3 & _ & Htr3).
    destruct (Hbr [] L3 blank_nil HL3 (Htr3 _ _ (Htr2 _ _ (Htr1 _ _ HT))))
      as (L4 & lx4 & Hnext4 & Htok4 & Hvalue4).
    unfold bind at 1. rewrite Hnext2.
    unfold bind at 1, curr_token_is at 1, gets at 1.
    cbn [curr_token curr]. rewrite Hopen. cbn [negb andb].
    unfold bind at 1, parse_array_items. rewrite Hloop. cbn [Nat.add].
    destruct (elems_events es h1) as [h2|e2|]; cbn [pass and_then];
      [|reflexivity|reflexivity].
    unfold items_tail. unfold bind at 1. rewrite Hnext3.
    unfold bind at 1, curr_token_is at 1, gets at 1.
    cbn [curr_token curr token atom_lexeme Token_eqb andb].
    unfold bind at 1. unfold bind at 1. rewrite Hnext4. cbn [negb].
    unfold ret at 1. rewrite items_loop_step.
    unfold bind at 1. rewrite Hvalue4 by lia. unfold then_raise.
    destruct (ev h2); reflexivity.
Qed.

(** [turn_breaks input tl tok ev e]: where [parse_object_members] expects a
    member, the text [tl] starts with a lexeme of the token [tok], and the
    turn of the loop makes the calls [ev] and raises [e]. *)
Definition turn_breaks (input tl : str) (tok : Token) (ev : H -> Res H)
           (e : exn) : Prop :=
  forall L, lexer_at tl L -> tracked input 0 L ->
    exists L1 lx,
      (forall cur h, next_lexeme (mk L cur h) = Ok (true, mk L1 (Some lx) h))
      /\ token lx = tok
      /\ (forall fuel n count h, length tl < fuel ->
             parse_object_members_loop (parse_value fuel) (S n) count
               (mk L1 (Some lx) h)
             = then_raise (ev h) e).

(** A member that breaks, behind the members of an object. *)
Lemma object_breaks input ms tl tok ev e :
  members_wf ms -> (ms = MNil -> tok <> END_OBJECT) ->
  turn_breaks input tl tok ev e ->
  breaks input (ch "{" :: members_sep ms ++ tl) BEGIN_OBJECT
    (fun h => and_then (on_begin_object h)
                (fun h1 => and_then (members_events ms h1) ev)) e.
Proof.
  intros Hwf Htok Hturn w L Hw HL HT.
  destruct (@next_lexeme_atom (AStructural (ch "{") BEGIN_OBJECT) w _ L
              eq_refl Hw (fun H0 => False_ind _ (Bool.diff_false_true H0)) HL)
    as (p & L1 & Hnext & HL1 & _ & Htr1).
  exists L1, (atom_lexeme p (AStructural (ch "{") BEGIN_OBJECT)).
  split; [exact Hnext|]. split; [reflexivity|].
  intros fuel h Hfuel. destruct fuel as [|fuel]; [simpl in Hfuel; lia|].
  cbn [length] in Hfuel. rewrite length_app in Hfuel.
  rewrite parse_value_object. unfold then_raise.
  destruct (on_begin_object h) as [h1|e1|]; cbn [pass and_then];
    [|reflexivity|reflexivity].
  destruct (match ms with MNil => true | _ => false end) eqn:Hnil.
  - destruct ms; [|discriminate Hnil]. cbn [members_sep app] in HL1.
    destruct (Hturn L1 HL1 (Htr1 _ _ HT))
      as (L2 & lx2 & Hnext2 & Htok2 & Hloop).
    unfold bind at 1. rewrite Hnext2.
    unfold bind at 1, curr_token_is at 1, gets at 1.
    cbn [curr_token curr]. rewrite Htok2.
    rewrite (Token_eqb_neq (Htok eq_refl)). cbn [negb andb].
    unfold bind at 1, parse_object_members.
    destruct fuel as [|n]; [lia|]. rewrite Hloop by lia.
    cbn [members_events and_then]. unfold then_raise.
    destruct (ev h1); reflexivity.
  - assert (Hne : ms <> MNil) by (intros ->; discriminate Hnil).
    assert (Hsep : members_sep ms = members_text ms ++ [ch ","])
      by (destruct ms; [discriminate Hnil | reflexivity]).
    rewrite Hsep in HL1, Hfuel. rewrite length_app in Hfuel.
    cbn [length] in Hfuel. rewrite <- app_assoc in HL1. cbn [app] in HL1.
    pose proof (proj2 (proj2 doc_size_pos) ms) as Hlen.
    pose proof (proj2 (proj2 doc_size_text) ms Hwf) as Hsize.
    destruct (proj2 (proj2 wf_doc_run) ms Hwf Hne fuel
                (S (fuel - members_len ms - 1)) L1 [] (ch "," :: tl))
      as (L1' & lx & L2 & cur2 & b2 & Hnext2 & Hopen & Hb2 & HL2 & Htr2
          & Hloop);
      [lia | apply blank_nil | reflexivity | exact HL1 |].
    replace (members_len ms + S (fuel - members_len ms - 1)) with fuel
      in Hloop by lia.
    destruct (@next_lexeme_atom (AStructural (ch ",") VALUE_SEPARATOR) b2 tl L2
                eq_refl Hb2 (fun H0 => False_ind _ (Bool.diff_false_true H0))
                HL2)
      as (p3 & L3 & Hnext3 & HL3 & _ & Htr3).
    destruct (Hturn L3 HL3 (Htr3 _ _ (Htr2 _ _ (Htr1 _ _ HT))))
      as (L4 & lx4 & Hnext4 & Htok4 & Hloop4).
    unfold bind at 1. rewrite Hnext2.
    unfold bind at 1, curr_token_is at 1, gets at 1.
    cbn [curr_token curr]. rewrite Hopen. cbn [negb andb].
    unfold bind at 1, parse_object_members. rewrite Hloop. cbn [Nat.add].
    destruct (members_events ms h1) as [h2|e2|]; cbn [pass and_then];
      [|reflexivity|reflexivity].
    unfold members_tail. unfold bind at 1. rewrite Hnext3.
    unfold bind at 1, curr_token_is at 1, gets at 1.
    cbn [curr_token curr token atom_lexeme Token_eqb andb].
    unfold bind at 1. unfold bind at 1. rewrite Hnext4. cbn [negb].
    unfold ret at 1. rewrite Hloop4 by lia. unfold then_raise.
    destruct (ev h2); reflexivity.
Qed.

(** The turn of a member whose value breaks. *)
Lemma value_turn_breaks input a name b tl tok ev e :
  blank a -> Forall item_wf name -> blank b ->
  breaks input tl tok ev e ->
  turn_breaks input (a ++ string_text name ++ b ++ ch ":" :: tl) STRING
    (fun h => and_then (on_member_name (string_value name) h) ev) e.
Proof.
  intros Ha Hname Hb Hbr L HL HT.
  destruct (@next_lexeme_atom (AString name) a _ L Hname Ha
              (fun H0 => False_ind _ (Bool.diff_false_true H0)) HL)
    as (p1 & L1 & Hnext1 & HL1 & _ & Htr1).
  destruct (@next_lexeme_atom (AStructural (ch ":") NAME_SEPARATOR) b tl L1
              eq_refl Hb (fun H0 => False_ind _ (Bool.diff_false_true H0)) HL1)
    as (p2 & L2 & Hnext2 & HL2 & _ & Htr2).
  destruct (Hbr [] L2 blank_nil HL2 (Htr2 _ _ (Htr1 _ _ HT)))
    as (L3 & lx3 & Hnext3 & Htok3 & Hvalue3).
  exists L1, (atom_lexeme p1 (AString name)).
  split; [exact Hnext1|]. split; [reflexivity|].
  intros fuel n count h Hfuel. rewrite !length_app in Hfuel.
  cbn [length] in Hfuel.
  rewrite (@member_turn fuel n count L1 p1 name L2 p2 L3 lx3 h Hnext2 Hnext3).
  unfold then_raise.
  destruct (on_member_name (string_value name) h) as [h3|e3|];
    cbn [pass and_then]; [|reflexivity|reflexivity].
  unfold bind at 1. rewrite Hvalue3 by lia. unfold then_raise.
  destruct (ev h3); reflexivity.
Qed.

(** The place of a value inside a container: behind the items of an array,
    or behind the members of an object and the name of one more. *)
Inductive frame : Type :=
| InArray (es : elems)
| InObject (ms : members) (a : str) (name : list string_item) (b : str).

Definition frame_text (f : frame) : str :=
  match f with
  | InArray es => ch "[" :: elems_sep es
  | InObject ms a name b =>
      ch "{" :: members_sep ms ++ a ++ string_text name ++ b ++ [ch ":"]
  end.

Definition frame_wf (f : frame) : Prop :=
  match f with
  | InArray es => elems_wf es
  | InObject ms a name b =>
      members_wf ms /\ blank a /\ Forall item_wf name /\ blank b
  end.

Definition frame_token (f : frame) : Token :=
  match f with
  | InArray _ => BEGIN_ARRAY
  | InObject _ _ _ _ => BEGIN_OBJECT
  end.

(** Behind the bracket of an array, a closing bracket ends the array. *)
Definition frame_takes (f : frame) (tok : Token) : Prop :=
  match f with
  | InArray ENil => tok <> END_ARRAY
  | _ => True
  end.

(** What the handler is told on the way to the place. *)
Definition frame_events (f : frame) (h : H) : Res H :=
  match f with
  | InArray es => and_then (on_begin_array h) (elems_events es)
  | InObject ms a name b =>
      and_then (on_begin_object h)
        (fun h1 => and_then (members_events ms h1)
                            (on_member_name (string_value name)))
  end.

Lemma frame_breaks input f tl tok ev e :
  frame_wf f -> frame_takes f tok -> breaks input tl tok ev e ->
  breaks input (frame_text f ++ tl) (frame_token f)
    (fun h => and_then (frame_events f h) ev) e.
Proof.
  intros Hwf Htakes Hbr. destruct f as [es|ms a name b].
  - cbn [frame_text frame_token frame_events app].
    apply breaks_ext
      with (ev := fun h => and_then (on_begin_array h)
                             (fun h1 => and_then (elems_events es h1) ev)).
    { intros h. rewrite and_then_assoc. reflexivity. }
    apply array_breaks with (tok := tok); [exact Hwf | | exact Hbr].
    intros ->. exact Htakes.
  - destruct Hwf as (Hms & Ha & Hname & Hb).
    cbn [frame_text frame_token frame_events app].
    replace ((members_sep ms ++ a ++ string_text name ++ b ++ [ch ":"]) ++ tl)
      with (members_sep ms ++ a ++ string_text name ++ b ++ ch ":" :: tl)
      by (rewrite <- !app_assoc; reflexivity).
    apply breaks_ext
      with (ev := fun h =>
              and_then (on_begin_object h)
                (fun h1 => and_then (members_events ms h1)
                   (fun h2 => and_then (on_member_name (string_value name) h2)
                                       ev))).
    { intros h. rewrite and_then_assoc.
      destruct (on_begin_object h) as [h1|e1|]; cbn [and_then];
        [|reflexivity|reflexivity].
      rewrite and_then_assoc. reflexivity. }
    apply object_breaks with (tok := STRING); [exact Hms | discriminate |].
    apply value_turn_breaks with (tok := tok); assumption.
Qed.

(** The way to a place in a document: the containers around it, the
    outermost first, each with the whitespace in front of it. *)
Definition path := list (str * frame).

Fixpoint path_text (fs : path) : str :=
  match fs with
  | [] => []
  | (w, f) :: fs' => w ++ frame_text f ++ path_text fs'
  end.

(** The token of the first lexeme of a path that leads to a lexeme of the
    token [tok]. *)
Definition path_token (fs : path) (tok : Token) : Token :=
  match fs with
  | [] => tok
  | (_, f) :: _ => frame_token f
  end.

Fixpoint path_wf (fs : path) (tok : Token) : Prop :=
  match fs with
  | [] => True
  | (w, f) :: fs' =>
      blank w /\ frame_wf f /\ frame_takes f (path_token fs' tok)
      /\ path_wf fs' tok
  end.

Fixpoint path_events (fs : path) (h : H) : Res H :=
  match fs with
  | [] => Ok h
  | (_, f) :: fs' => and_then (frame_events f h) (path_events fs')
  end.

Lemma path_breaks input fs w tl tok ev e :
  path_wf fs tok -> blank w -> breaks input tl tok ev e ->
  breaks input (path_text fs ++ w ++ tl) (path_token fs tok)
    (fun h => and_then (path_events fs h) ev) e.
Proof.
  intros Hwf Hw Hbr. induction fs as [|[w0 f] fs IH].
  - cbn [path_text path_token path_events app and_then].
    apply breaks_blank; [exact Hw|].
    apply breaks_ext with (ev := ev); [reflexivity | exact Hbr].
  - destruct Hwf as (Hw0 & Hf & Htakes & Hwf).
    cbn [path_text path_token path_events].
    rewrite <- !app_assoc. apply breaks_blank; [exact Hw0|].
    apply breaks_ext
      with (ev := fun h => and_then (frame_events f h)
                             (fun h1 => and_then (path_events fs h1) ev)).
    { intros h. rewrite and_then_assoc. reflexivity. }
    apply frame_breaks with (tok := path_token fs tok);
      [exact Hf | exact Htakes | exact (IH Hwf)].
Qed.

(** X14.  Where a value is expected (at the start of the text, behind the
    bracket or a comma of an array, behind the colon of a member of an
    object, at any depth) and a closing bracket or brace, a colon or a
    comma stands, [run] raises the value-expected error with that
    character as its argument and positioned at it.  Before that the
    handler has been told all that stands in front: the beginning of each
    open container, its complete items or members, and the name of the
    member.  A closing bracket right behind the opening one is no error:
    it ends the empty array. *)
Theorem value_expected_but_found (fs : path) w x tok rest (h : H) :
  path_wf fs tok -> blank w ->
  dict_get STRUCTURALS x = Some tok -> starts_value tok = false ->
  run (path_text fs ++ w ++ x :: rest) h
  = then_raise (path_events fs h)
      (JSONParserError (hand_pos (path_text fs ++ w ++ [x]))
                       ERR_EXPECTED_VALUE_BUT_FOUND_FMT [Some [x]]).
Proof.
  intros Hwf Hw Htok Hstart.
  rewrite (@run_breaks (path_text fs ++ w ++ x :: rest) (path_token fs tok)
             (fun h => and_then (path_events fs h) (fun h1 => Ok h1))
             (JSONParserError (hand_pos (path_text fs ++ w ++ [x]))
                              ERR_EXPECTED_VALUE_BUT_FOUND_FMT [Some [x]])).
  - unfold then_raise. destruct (path_events fs h); reflexivity.
  - apply path_breaks; [exact Hwf | exact Hw |].
    rewrite (app_assoc (path_text fs) w [x]).
    apply found_breaks; [|exact Htok | exact Hstart].
    rewrite <- app_assoc. reflexivity.
Qed.

(** *** Texts that end inside a container *)

(** The parser finds the end of the text: the lexer stands at the last
    character. *)
Lemma next_lexeme_last input w L :
  blank w -> lexer_at w L -> tracked input 0 L ->
  exists L1,
    (forall cur (h : H), next_lexeme (mk L cur h) = Ok (false, mk L1 None h))
    /\ pos L1 = hand_pos input.
Proof.
  intros Hw HL HT.
  destruct (next_lexeme_end Hw HL) as (L1 & Hnext & Heof & Hrd & Htr).
  exists L1. split; [exact Hnext|].
  apply (@tracked_consumed input 0 L1 input (Htr _ _ HT)).
  rewrite Hrd, app_nil_r. reflexivity.
Qed.

(** An array whose text ends behind its items. *)
Lemma array_unclosed_breaks input es w2 :
  elems_wf es -> blank w2 ->
  breaks input (ch "[" :: elems_text es ++ w2) BEGIN_ARRAY
    (fun h => and_then (on_begin_array h) (elems_events es))
    (JSONParserError (hand_pos input) ERR_UNCLOSED_ARRAY []).
Proof.
  intros Hwf Hw2 w L Hw HL HT.
  destruct (@next_lexeme_atom (AStructural (ch "[") BEGIN_ARRAY) w
              (elems_text es ++ w2) L eq_refl Hw
              (fun H0 => False_ind _ (Bool.diff_false_true H0)) HL)
    as (p & L1 & Hnext & HL1 & _ & Htr1).
  exists L1, (atom_lexeme p (AStructural (ch "[") BEGIN_ARRAY)).
  split; [exact Hnext|]. split; [reflexivity|].
  intros fuel h Hfuel. destruct fuel as [|fuel]; [simpl in Hfuel; lia|].
  cbn [length] in Hfuel. rewrite length_app in Hfuel.
  rewrite parse_value_array. unfold then_raise.
  destruct (on_begin_array h) as [h1|e1|]; cbn [pass and_then];
    [|reflexivity|reflexivity].
  destruct (match es with ENil => true | _ => false end) eqn:Hnil.
  - destruct es; [|discriminate Hnil]. cbn [elems_text app] in HL1.
    destruct (@next_lexeme_last input w2 L1 Hw2 HL1 (Htr1 _ _ HT))
      as (L2 & Hnext2 & Hpos2).
    unfold bind at 1. rewrite Hnext2.
    unfold bind, curr_token_is, gets, ret, raise_here, curr_pos, no_args.
    cbn [curr_token curr lexer Token_eqb negb andb elems_events pass].
    rewrite Hpos2. reflexivity.
  - assert (Hne : es <> ENil) by (intros ->; discriminate Hnil).
    pose proof (proj1 (proj2 doc_size_pos) es) as Hlen.
    pose proof (proj1 (proj2 doc_size_text) es Hwf) as Hsize.
    destruct (proj1 (proj2 wf_doc_run) es Hwf Hne fuel
                (fuel - elems_len es) L1 [] w2)
      as (L1' & lx & L2 & cur2 & b & Hnext2 & Hopen & Hb & HL2 & Htr2 & Hloop);
      [lia | apply blank_nil | apply delimited_blank; exact Hw2 | exact HL1 |].
    replace (elems_len es + (fuel - elems_len es)) with fuel in Hloop by lia.
    destruct (@next_lexeme_last input (b ++ w2) L2 (blank_app Hb Hw2) HL2
                (Htr2 _ _ (Htr1 _ _ HT)))
      as (L3 & Hnext3 & Hpos3).
    unfold bind at 1. rewrite Hnext2.
    unfold bind at 1, curr_token_is at 1, gets at 1.
    cbn [curr_token curr]. rewrite Hopen. cbn [negb andb].
    unfold bind at 1, parse_array_items. rewrite Hloop. cbn [Nat.add].
    destruct (elems_events es h1) as [h2|e2|]; cbn [pass and_then];
      [|reflexivity|reflexivity].
    unfold items_tail. unfold bind at 1. rewrite Hnext3.
    unfold bind, curr_token_is, gets, ret, raise_here, curr_pos, no_args.
    cbn [curr_token curr lexer Token_eqb negb andb].
    rewrite Hpos3. reflexivity.
Qed.

(** An array whose text ends behind a comma. *)
Lemma array_item_breaks input es w2 :
  elems_wf es -> es <> ENil -> blank w2 ->
  breaks input (ch "[" :: elems_text es ++ ch "," :: w2) BEGIN_ARRAY
    (fun h => and_then (on_begin_array h) (elems_events es))
    (JSONParserError (hand_pos input) ERR_EXPECTED_ARRAY_ITEM []).
Proof.
  intros Hwf Hne Hw2 w L Hw HL HT.
  destruct (@next_lexeme_atom (AStructural (ch "[") BEGIN_ARRAY) w
              (elems_text es ++ ch "," :: w2) L eq_refl Hw
              (fun H0 => False_ind _ (Bool.diff_false_true H0)) HL)
    as (p & L1 & Hnext & HL1 & _ & Htr1).
  exists L1, (atom_lexeme p (AStructural (ch "[") BEGIN_ARRAY)).
  split; [exact Hnext|]. split; [reflexivity|].
  intros fuel h Hfuel. destruct fuel as [|fuel]; [simpl in Hfuel; lia|].
  cbn [length] in Hfuel. rewrite length_app in Hfuel.
  rewrite parse_value_array. unfold then_raise.
  destruct (on_begin_array h) as [h1|e1|]; cbn [pass and_then];
    [|reflexivity|reflexivity].
  pose proof (proj1 (proj2 doc_size_pos) es) as Hlen.
  pose proof (proj1 (proj2 doc_size_text) es Hwf) as Hsize.
  destruct (proj1 (proj2 wf_doc_run) es Hwf Hne fuel
              (fuel - elems_len es) L1 [] (ch "," :: w2))
    as (L1' & lx & L2 & cur2 & b & Hnext2 & Hopen & Hb & HL2 & Htr2 & Hloop);
    [lia | apply blank_nil | reflexivity | exact HL1 |].
  replace (elems_len es + (fuel - elems_len es)) with fuel in Hloop by lia.
  destruct (@next_lexeme_atom (AStructural (ch ",") VALUE_SEPARATOR) b w2 L2
              eq_refl Hb (fun H0 => False_ind _ (Bool.diff_false_true H0)) HL2)
    as (p3 & L3 & Hnext3 & HL3 & _ & Htr3).
  destruct (@next_lexeme_last input w2 L3 Hw2 HL3
              (Htr3 _ _ (Htr2 _ _ (Htr1 _ _ HT))))
    as (L4 & Hnext4 & Hpos4).
  unfold bind at 1. rewrite Hnext2.
  unfold bind at 1, curr_token_is at 1, gets at 1.
  cbn [curr_token curr]. rewrite Hopen. cbn [negb andb].
  unfold bind at 1, parse_array_items. rewrite Hloop. cbn [Nat.add].
  destruct (elems_events es h1) as [h2|e2|]; cbn [pass and_then];
    [|reflexivity|reflexivity].
  unfold items_tail. unfold bind at 1. rewrite Hnext3.
  unfold bind at 1, curr_token_is at 1, gets at 1.
  cbn [curr_token curr token atom_lexeme Token_eqb andb].
  unfold bind at 1. unfold bind at 1. rewrite Hnext4.
  unfold raise_here, curr_pos, no_args. cbn [negb lexer].
  rewrite Hpos4. reflexivity.
Qed.

(** An object whose text ends behind its members: the error is where the
    brace is. *)
Lemma object_unclosed_breaks input pre ms w2 :
  input = pre ++ ch "{" :: members_text ms ++ w2 ->
  members_wf ms -> blank w2 ->
  breaks input (ch "{" :: members_text ms ++ w2) BEGIN_OBJECT
    (fun h => and_then (on_begin_object h) (members_events ms))
    (JSONParserError (hand_pos (pre ++ [ch "{"])) ERR_UNCLOSED_OBJECT []).
Proof.
  intros Hin Hwf Hw2 w L Hw HL HT.
  destruct (@next_lexeme_opening input pre (ch "{") BEGIN_OBJECT w
              (members_text ms ++ w2) L eq_refl Hw HL HT Hin)
    as (L1 & Hnext & HL1 & HT1 & Hpos1).
  exists L1, (atom_lexeme (pos L1) (AStructural (ch "{") BEGIN_OBJECT)).
  split; [exact Hnext|]. split; [reflexivity|].
  intros fuel h Hfuel. destruct fuel as [|fuel]; [simpl in Hfuel; lia|].
  cbn [length] in Hfuel. rewrite length_app in Hfuel.
  rewrite parse_value_object. unfold then_raise. rewrite Hpos1.
  destruct (on_begin_object h) as [h1|e1|]; cbn [pass and_then];
    [|reflexivity|reflexivity].
  destruct (match ms with MNil => true | _ => false end) eqn:Hnil.
  - destruct ms; [|discriminate Hnil]. cbn [members_text app] in HL1.
    destruct (@next_lexeme_last input w2 L1 Hw2 HL1 HT1)
      as (L2 & Hnext2 & _).
    unfold bind at 1. rewrite Hnext2.
    unfold bind, curr_token_is, gets, ret, raise.
    cbn [curr_token curr Token_eqb negb andb members_events pass].
    reflexivity.
  - assert (Hne : ms <> MNil) by (intros ->; discriminate Hnil).
    pose proof (proj2 (proj2 doc_size_pos) ms) as Hlen.
    pose proof (proj2 (proj2 doc_size_text) ms Hwf) as Hsize.
    destruct (proj2 (proj2 wf_doc_run) ms Hwf Hne fuel
                (fuel - members_len ms) L1 [] w2)
      as (L1' & lx & L2 & cur2 & b & Hnext2 & Hopen & Hb & HL2 & Htr2 & Hloop);
      [lia | apply blank_nil | apply delimited_blank; exact Hw2 | exact HL1 |].
    replace (members_len ms + (fuel - members_len ms)) with fuel in Hloop
      by lia.
    destruct (@next_lexeme_last input (b ++ w2) L2 (blank_app Hb Hw2) HL2
                (Htr2 _ _ HT1))
      as (L3 & Hnext3 & _).
    unfold bind at 1. rewrite Hnext2.
    unfold bind at 1, curr_token_is at 1, gets at 1.
    cbn [curr_token curr]. rewrite Hopen. cbn [negb andb].
    unfold bind at 1, parse_object_members. rewrite Hloop. cbn [Nat.add].
    destruct (members_events ms h1) as [h2|e2|]; cbn [pass and_then];
      [|reflexivity|reflexivity].
    unfold members_tail. unfold bind at 1. rewrite Hnext3.
    unfold bind, curr_token_is, gets, ret, raise.
    cbn [curr_token curr Token_eqb negb andb].
    reflexivity.
Qed.

(** An object whose text ends behind a comma. *)
Lemma object_member_breaks input ms w2 :
  members_wf ms -> ms <> MNil -> blank w2 ->
  breaks input (ch "{" :: members_text ms ++ ch "," :: w2) BEGIN_OBJECT
    (fun h => and_then (on_begin_object h) (members_events ms))
    (JSONParserError (hand_pos input) ERR_EXPECTED_MEMBER_NAME []).
Proof.
  intros Hwf Hne Hw2 w L Hw HL HT.
  destruct (@next_lexeme_atom (AStructural (ch "{") BEGIN_OBJECT) w
              (members_text ms ++ ch "," :: w2) L eq_refl Hw
              (fun H0 => False_ind _ (Bool.diff_false_true H0)) HL)
    as (p & L1 & Hnext & HL1 & _ & Htr1).
  exists L1, (atom_lexeme p (AStructural (ch "{") BEGIN_OBJECT)).
  split; [exact Hnext|]. split; [reflexivity|].
  intros fuel h Hfuel. destruct fuel as [|fuel]; [simpl in Hfuel; lia|].
  cbn [length] in Hfuel. rewrite length_app in Hfuel.
  rewrite parse_value_object. unfold then_raise.
  destruct (on_begin_object h) as [h1|e1|]; cbn [pass and_then];
    [|reflexivity|reflexivity].
  pose proof (proj2 (proj2 doc_size_pos) ms) as Hlen.
  pose proof (proj2 (proj2 doc_size_text) ms Hwf) as Hsize.
  destruct (proj2 (proj2 wf_doc_run) ms Hwf Hne fuel
              (fuel - members_len ms) L1 [] (ch "," :: w2))
    as (L1' & lx & L2 & cur2 & b & Hnext2 & Hopen & Hb & HL2 & Htr2 & Hloop);
    [lia | apply blank_nil | reflexivity | exact HL1 |].
  replace (members_len ms + (fuel - members_len ms)) with fuel in Hloop
    by lia.
  destruct (@next_lexeme_atom (AStructural (ch ",") VALUE_SEPARATOR) b w2 L2
              eq_refl Hb (fun H0 => False_ind _ (Bool.diff_false_true H0)) HL2)
    as (p3 & L3 & Hnext3 & HL3 & _ & Htr3).
  destruct (@next_lexeme_last input w2 L3 Hw2 HL3
              (Htr3 _ _ (Htr2 _ _ (Htr1 _ _ HT))))
    as (L4 & Hnext4 & Hpos4).
  unfold bind at 1. rewrite Hnext2.
  unfold bind at 1, curr_token_is at 1, gets at 1.
  cbn [curr_token curr]. rewrite Hopen. cbn [negb andb].
  unfold bind at 1, parse_object_members. rewrite Hloop. cbn [Nat.add].
  destruct (members_events ms h1) as [h2|e2|]; cbn [pass and_then];
    [|reflexivity|reflexivity].
  unfold members_tail. unfold bind at 1. rewrite Hnext3.
  unfold bind at 1, curr_token_is at 1, gets at 1.
  cbn [curr_token curr token atom_lexeme Token_eqb andb].
  unfold bind at 1. unfold bind at 1. rewrite Hnext4.
  unfold raise_here, curr_pos, no_args. cbn [negb lexer].
  rewrite Hpos4. reflexivity.
Qed.

(** The turn of a member whose text ends behind the name. *)
Lemma name_cut_breaks input a name w2 :
  blank a -> Forall item_wf name -> blank w2 ->
  turn_breaks input (a ++ string_text name ++ w2) STRING
    (on_member_name (string_value name))
    (JSONParserError (hand_pos input) ERR_EXPECTED_NAME_SEPARATOR []).
Proof.
  intros Ha Hname Hw2 L HL HT.
  destruct (@next_lexeme_atom (AString name) a w2 L Hname Ha
              (fun H0 => False_ind _ (Bool.diff_false_true H0)) HL)
    as (p1 & L1 & Hnext1 & HL1 & _ & Htr1).
  destruct (@next_lexeme_last input w2 L1 Hw2 HL1 (Htr1 _ _ HT))
    as (L2 & Hnext2 & Hpos2).
  exists L1, (atom_lexeme p1 (AString name)).
  split; [exact Hnext1|]. split; [reflexivity|].
  intros fuel n count h Hfuel. cbn [parse_object_members_loop].
  unfold bind at 1, curr_token_is at 1, gets at 1.
  cbn [curr_token curr token atom_lexeme Token_eqb negb].
  unfold bind at 1, gets at 1. cbn [curr_text curr text atom_lexeme].
  unfold bind at 1. rewrite call_lift. unfold then_raise.
  destruct (on_member_name (string_value name) h) as [h1|e1|];
    cbn [lift pass]; [|reflexivity|reflexivity].
  unfold bind at 1. rewrite Hnext2.
  unfold bind, curr_token_is, gets, raise_here, curr_pos, no_args.
  cbn [curr_token curr lexer Token_eqb negb orb].
  rewrite Hpos2. reflexivity.
Qed.

(** The turn of a member whose text ends behind the colon. *)
Lemma value_cut_breaks input a name b w2 :
  blank a -> Forall item_wf name -> blank b -> blank w2 ->
  turn_breaks input (a ++ string_text name ++ b ++ ch ":" :: w2) STRING
    (on_member_name (string_value name))
    (JSONParserError (hand_pos input) ERR_EXPECTED_VALUE []).
Proof.
  intros Ha Hname Hb Hw2 L HL HT.
  destruct (@next_lexeme_atom (AString name) a _ L Hname Ha
              (fun H0 => False_ind _ (Bool.diff_false_true H0)) HL)
    as (p1 & L1 & Hnext1 & HL1 & _ & Htr1).
  destruct (@next_lexeme_atom (AStructural (ch ":") NAME_SEPARATOR) b w2 L1
              eq_refl Hb (fun H0 => False_ind _ (Bool.diff_false_true H0)) HL1)
    as (p2 & L2 & Hnext2 & HL2 & _ & Htr2).
  destruct (@next_lexeme_last input w2 L2 Hw2 HL2 (Htr2 _ _ (Htr1 _ _ HT)))
    as (L3 & Hnext3 & Hpos3).
  exists L1, (atom_lexeme p1 (AString name)).
  split; [exact Hnext1|]. split; [reflexivity|].
  intros fuel n count h Hfuel. cbn [parse_object_members_loop].
  unfold bind at 1, curr_token_is at 1, gets at 1.
  cbn [curr_token curr token atom_lexeme Token_eqb negb].
  unfold bind at 1, gets at 1. cbn [curr_text curr text atom_lexeme].
  unfold bind at 1. rewrite call_lift. unfold then_raise.
  destruct (on_member_name (string_value name) h) as [h1|e1|];
    cbn [lift pass]; [|reflexivity|reflexivity].
  unfold bind at 1. rewrite Hnext2.
  unfold bind at 1, curr_token_is at 1, gets at 1.
  cbn [curr_token curr token atom_lexeme Token_eqb negb orb].
  unfold bind at 1. rewrite Hnext3.
  unfold raise_here, curr_pos, no_args. cbn [negb lexer].
  rewrite Hpos3. reflexivity.
Qed.

(** A container that the end of the text cuts off: behind its items or
    members, behind a comma, behind the name of a member, or behind the
    colon of a member. *)
Inductive cut : Type :=
| CutArray (es : elems)
| CutItem (es : elems)
| CutObject (ms : members)
| CutMember (ms : members)
| CutName (ms : members) (a : str) (name : list string_item)
| CutValue (ms : members) (a : str) (name : list string_item) (b : str).

Definition cut_text (c : cut) : str :=
  match c with
  | CutArray es => ch "[" :: elems_text es
  | CutItem es => ch "[" :: elems_text es ++ [ch ","]
  | CutObject ms => ch "{" :: members_text ms
  | CutMember ms => ch "{" :: members_text ms ++ [ch ","]
  | CutName ms a name => ch "{" :: members_sep ms ++ a ++ string_text name
  | CutValue ms a name b =>
      ch "{" :: members_sep ms ++ a ++ string_text name ++ b ++ [ch ":"]
  end.

Definition cut_wf (c : cut) : Prop :=
  match c with
  | CutArray es => elems_wf es
  | CutItem es => elems_wf es /\ es <> ENil
  | CutObject ms => members_wf ms
  | CutMember ms => members_wf ms /\ ms <> MNil
  | CutName ms a name => members_wf ms /\ blank a /\ Forall item_wf name
  | CutValue ms a name b =>
      members_wf ms /\ blank a /\ Forall item_wf name /\ blank b
  end.

Definition cut_token (c : cut) : Token :=
  match c with
  | CutArray _ | CutItem _ => BEGIN_ARRAY
  | _ => BEGIN_OBJECT
  end.

(** What the handler is told of the container. *)
Definition cut_events (c : cut) (h : H) : Res H :=
  match c with
  | CutArray es | CutItem es => and_then (on_begin_array h) (elems_events es)
  | CutObject ms | CutMember ms =>
      and_then (on_begin_object h) (members_events ms)
  | CutName ms _ name | CutValue ms _ name _ =>
      and_then (on_begin_object h)
        (fun h1 => and_then (members_events ms h1)
                            (on_member_name (string_value name)))
  end.

Definition cut_message (c : cut) : JSONParserMessage :=
  match c with
  | CutArray _ => ERR_UNCLOSED_ARRAY
  | CutItem _ => ERR_EXPECTED_ARRAY_ITEM
  | CutObject _ => ERR_UNCLOSED_OBJECT
  | CutMember _ => ERR_EXPECTED_MEMBER_NAME
  | CutName _ _ _ => ERR_EXPECTED_NAME_SEPARATOR
  | CutValue _ _ _ _ => ERR_EXPECTED_VALUE
  end.

(** Where the error is: at the brace of an object that is not closed, and
    at the last character of the text in the other cases.  [upto] is the
    text in front of the container. *)
Definition cut_pos (c : cut) (upto input : str) : TextPos :=
  match c with
  | CutObject _ => hand_pos (upto ++ [ch "{"])
  | _ => hand_pos input
  end.

Lemma cut_breaks input upto c w2 :
  input = upto ++ cut_text c ++ w2 -> cut_wf c -> blank w2 ->
  breaks input (cut_text c ++ w2) (cut_token c) (cut_events c)
    (JSONParserError (cut_pos c upto input) (cut_message c) []).
Proof.
  intros Hin Hwf Hw2.
  destruct c as [es|es|ms|ms|ms a name|ms a name b];
    cbn [cut_text cut_token cut_events cut_message cut_pos app].
  - apply array_unclosed_breaks; assumption.
  - destruct Hwf as [Hwf Hne]. rewrite <- app_assoc. cbn [app].
    apply array_item_breaks; assumption.
  - apply object_unclosed_breaks with (pre := upto); assumption.
  - destruct Hwf as [Hwf Hne]. rewrite <- app_assoc. cbn [app].
    apply object_member_breaks; assumption.
  - destruct Hwf as (Hwf & Ha & Hname). rewrite <- !app_assoc.
    apply object_breaks with (tok := STRING); [exact Hwf | discriminate |].
    apply name_cut_breaks; assumption.
  - destruct Hwf as (Hwf & Ha & Hname & Hb). rewrite <- !app_assoc.
    cbn [app].
    apply object_breaks with (tok := STRING); [exact Hwf | discriminate |].
    apply value_cut_breaks; assumption.
Qed.

(** X15.  When the text ends inside a container, at any depth, behind
    well-formed items and members and optional whitespace, [run] raises,
    after having told the handler all that stands in front:
    behind the items of an array, the unclosed-array error; behind a
    comma of an array, the array-item-expected error; behind the members
    of an object, the unclosed-object error; behind a comma of an object,
    the member-name-expected error; behind the name of a member, the
    name-separator-expected error; behind the colon of a member, the
    value-expected error.  The unclosed-object error is positioned at the
    opening brace of the object, all the others at the last character of
    the text. *)
Theorem truncated_document (fs : path) w (c : cut) w2 (h : H) :
  let input := path_text fs ++ w ++ cut_text c ++ w2 in
  path_wf fs (cut_token c) -> blank w -> cut_wf c -> blank w2 ->
  run input h
  = then_raise (and_then (path_events fs h) (cut_events c))
      (JSONParserError (cut_pos c (path_text fs ++ w) input)
                       (cut_message c) []).
Proof.
  intros input Hfs Hw Hc Hw2.
  rewrite (@run_breaks input (path_token fs (cut_token c))
             (fun h => and_then (path_events fs h) (cut_events c))
             (JSONParserError (cut_pos c (path_text fs ++ w) input)
                              (cut_message c) [])).
  - reflexivity.
  - unfold input at 2.
    apply path_breaks with (tok := cut_token c); [exact Hfs | exact Hw |].
    apply cut_breaks; [|exact Hc | exact Hw2].
    unfold input. rewrite <- app_assoc. reflexivity.
Qed.

(** ** The end of the document

    [parse_doc] reads one lexeme behind the value and asks the lexer for
    [eof].  The lexer sets [eof] when it finds the end of the stream, also
    while it reads a lexeme. *)


Lemma open_atom_first a :
  atom_wf a -> atom_open a = true ->
  exists x t, atom_text a = x :: t /\ is_ws_char x = false
              /\ char_in x DEC_DIGITS_S || char_in x LITERAL_PREFIXES = true.
Proof.
  destruct a as [x tok|kind|n|items];
    cbn [atom_wf atom_open atom_text]; intros Hwf Hopen;
    try discriminate Hopen.
  - destruct kind; try congruence; eexists; eexists;
      (split; [reflexivity|]); split; reflexivity.
  - destruct (number_text_first Hwf) as (x & t & Htext & Hstart & _).
    exists x, t. split; [exact Htext|].
    split; [apply digit_start_not_ws; exact Hstart|].
    rewrite Hstart. reflexivity.
Qed.

(** The parser reads a literal or a number that ends the text: the lexer
    has found the end of the stream. *)
Lemma next_lexeme_open_last a w L :
  atom_wf a -> atom_open a = true -> blank w ->
  lexer_at (w ++ atom_text a) L ->
  exists p L1,
    (forall cur (h : H),
        next_lexeme (mk L cur h) = Ok (true, mk L1 (Some (atom_lexeme p a)) h))
    /\ eof L1 = true.
Proof.
  intros Hwf Hopen Hw HL.
  destruct (open_atom_first a Hwf Hopen) as (x & t & Htext & Hx & Hstart).
  rewrite Htext in HL.
  destruct (@Lexer_next_lexeme_at w x t L Hw Hx HL)
    as (L2 & HL2 & Hinit2 & Hnext).
  assert (HL2' : on_char x (t ++ []) L2) by (rewrite app_nil_r; exact HL2).
  destruct (@lexeme_at_char_atom a x t [] L2 Hwf Htext (fun _ => I) HL2' Hinit2)
    as (L1 & Hat & HL1 & Hinit1 & _).
  exists (pos L2), L1. split.
  - intros cur h. apply next_lexeme_some. rewrite Hnext. unfold bind.
    rewrite Hat. reflexivity.
  - destruct (lexeme_at_char_ends HL2 Hstart Hat) as [Heof|Hacc];
      [exact Heof|].
    destruct HL1 as [Hfresh _ | y _ _ _ _ Hrest]; [|discriminate Hrest].
    rewrite Hacc, Hinit1 in Hfresh. discriminate Hfresh.
Qed.

(** C1.  Behind a well-formed document, a literal or a number that ends the
    text is read and dropped: [run] returns what it returns for the
    document alone, with no error, and the handler is told nothing of the
    lexeme.  So [run] accepts [true true]. *)
Theorem trailing_lexeme_accepted d w1 w a (h : H) :
  doc_wf d -> blank w1 -> blank w -> (needs_delimiter d = true -> w <> []) ->
  atom_wf a -> atom_open a = true ->
  run (w1 ++ doc_text d ++ w ++ atom_text a) h = doc_events d h.
Proof.
  intros Hwf Hw1 Hw Hsep Ha Hopen.
  destruct (proj1 wf_doc_run d Hwf
              (run_fuel (w1 ++ doc_text d ++ w ++ atom_text a))
              (Lexer_init (w1 ++ doc_text d ++ w ++ atom_text a))
              w1 (w ++ atom_text a))
    as (L1 & lx & L2 & cur2 & Hnext & _ & Hvalue & HL2 & _);
    [| exact Hw1 | | apply lexer_at_init |].
  { pose proof (proj1 doc_size_text d Hwf). unfold run_fuel.
    rewrite !length_app. lia. }
  { intros Hneeds. specialize (Hsep Hneeds).
    destruct w as [|y w]; [congruence|].
    apply (is_whitespace_blank_hd) in Hw. cbn [app delimited].
    unfold is_delimiter. rewrite Hw. reflexivity. }
  destruct (@next_lexeme_open_last a w L2 Ha Hopen Hw HL2)
    as (p & L3 & Hnext3 & Heof).
  unfold run, parse_doc, SAXParser_init. unfold bind at 1. rewrite Hnext.
  unfold bind at 1. rewrite Hvalue.
  destruct (doc_events d h) as [h'|e|]; cbn [lift]; [|reflexivity..].
  unfold expect_end. unfold bind at 1. rewrite Hnext3.
  unfold bind, parser_eof, gets. cbn [lexer]. rewrite Heof. reflexivity.
Qed.



End Events.

Lemma run_emits_events_witness :
  run (lit "[1,2,[3,4]]") SimpleStack_init
  = and_then (on_begin_array SimpleStack_init)
      (fun h1 => and_then (elems_events (match nested_array with
                                         | DArray _ es => es
                                         | _ => ENil
                                         end) h1)
                          (on_end_array 3)).
Proof.
  exact (@run_emits_events SimpleStack SAXHandlerBasic
           (fun _ _ => eq_refl) nested_array [] [] SimpleStack_init
           nested_array_wf (Forall_nil _) (Forall_nil _)).
Defined.

(** The way to the place behind the comma in [{"a":[1,]. *)
Definition trailing_comma_path : path :=
  [([], InObject MNil [] [Plain (ch "a")] []);
   ([], InArray (ECons [] (one_digit "1") [] ENil))].

Lemma value_expected_but_found_witness :
  run (path_text trailing_comma_path ++ [] ++ ch "]" :: []) SimpleStack_init
  = then_raise (path_events trailing_comma_path SimpleStack_init)
      (JSONParserError
         (hand_pos (path_text trailing_comma_path ++ [] ++ [ch "]"]))
         ERR_EXPECTED_VALUE_BUT_FOUND_FMT [Some [ch "]"]]).
Proof.
  refine (@value_expected_but_found SimpleStack SAXHandlerBasic
            (fun _ _ => eq_refl) trailing_comma_path [] (ch "]") END_ARRAY []
            SimpleStack_init _ (Forall_nil _) eq_refl eq_refl).
  simpl. unfold number_wf, int_part, digits, blank. simpl.
  repeat split; repeat constructor.
Defined.

(** The text [[1,{"a":2]: an object that is not closed, in an array. *)
Definition cut_in_array : path :=
  [([], InArray (ECons [] (one_digit "1") [] ENil))].

Definition open_object : cut :=
  CutObject (MCons [] [Plain (ch "a")] [] [] (one_digit "2") [] MNil).

Lemma truncated_document_witness :
  run (path_text cut_in_array ++ [] ++ cut_text open_object ++ [])
      SimpleStack_init
  = then_raise (and_then (path_events cut_in_array SimpleStack_init)
                         (cut_events open_object))
      (JSONParserError
         (cut_pos open_object (path_text cut_in_array ++ [])
            (path_text cut_in_array ++ [] ++ cut_text open_object ++ []))
         (cut_message open_object) []).
Proof.
  refine (@truncated_document SimpleStack SAXHandlerBasic
            (fun _ _ => eq_refl) cut_in_array [] open_object []
            SimpleStack_init _ (Forall_nil _) _ (Forall_nil _)).
  - simpl. unfold number_wf, int_part, digits, blank. simpl.
    repeat split; repeat constructor.
  - simpl. unfold number_wf, int_part, digits, blank. simpl.
    repeat split; repeat constructor.
Defined.

Example truncated_document_positions :
  run (lit "[1,{" ++ [QUOTE] ++ lit "a" ++ [QUOTE] ++ lit ":2") SimpleStack_init
  = Raise (JSONParserError (mkTextPos 1 4) ERR_UNCLOSED_OBJECT [])
  /\ run (lit "{" ++ [QUOTE] ++ lit "a" ++ [QUOTE] ++ lit ":[1, ")
         SimpleStack_init
     = Raise (JSONParserError (mkTextPos 1 9) ERR_EXPECTED_ARRAY_ITEM []).
Proof. split; vm_compute; reflexivity. Qed.

Lemma trailing_lexeme_accepted_witness :
  run (lit "true true") SimpleStack_init = Ok [PyBool true].
Proof.
  refine (@trailing_lexeme_accepted SimpleStack SAXHandlerBasic
            (fun _ _ => eq_refl) (DLiteral LT_TRUE) [] [ch " "]
            (ALiteral LT_TRUE) SimpleStack_init _ _ _ _ _ _).
  - simpl. discriminate.
  - constructor.
  - repeat constructor.
  - intros _. discriminate.
  - simpl. discriminate.
  - reflexivity.
Defined.


(** X8.  On an empty text, or one of whitespace only, [run] returns
    without calling the handler, whatever the handler is. *)
Theorem run_blank_no_events (H : Type) (handler_intf : SAXHandlerIntf H)
        (input : str) (h : H) :
  blank input -> run input h = Ok h.
Proof.
  intros Hw.
  destruct (Lexer_next_lexeme_blank Hw (lexer_at_init input))
    as (L' & Hrun & Heof & _).
  unfold run, parse_doc, SAXParser_init. unfold bind at 1.
  unfold next_lexeme at 1. cbn [lexer handler]. rewrite Hrun.
  unfold bind, parser_eof, gets, ret. cbn [lexer]. rewrite Heof. reflexivity.
Qed.

Lemma run_blank_no_events_witness :
  run [ch " "; LF; TAB] SimpleStack_init = Ok SimpleStack_init.
Proof.
  apply (@run_blank_no_events SimpleStack SAXHandlerBasic). repeat constructor.
Defined.

(** ** What a run with the basic handler can raise *)

(** X9.  Whatever the input, a run of the parser with a [SAXHandlerBasic]
    never makes the handler raise its own errors (the [JSONError] of a count
    greater than the stack or of an unsupported kind, the [IndexError] of an
    empty stack): the parser tells it of an end of array or object only
    behind as many values.  What [run] raises is a [JSONParserError]
    positioned at a prefix of the input or the [ValueError] of a
    conversion, and when it returns, the stack holds at most one value. *)
Theorem basic_run_raises_on_input (input : str) :
  match run input SimpleStack_init with
  | Ok s => s = [] \/ exists v, s = [v]
  | Raise e => exn_on_input input 0 e
  | OutOfFuel => True
  end.
Proof.
  assert (Hinit : at_stack input 0 [] (SAXParser_init input SimpleStack_init)).
  { split; [apply tracked_init; reflexivity|]. split; [|reflexivity].
    simpl. intros Hlit. discriminate Hlit. }
  pose proof (@basic_next_lexeme input 0 [] _ Hinit) as Hnext.
  unfold run, parse_doc. unfold bind at 1.
  destruct (next_lexeme (SAXParser_init input SimpleStack_init))
    as [[ok P1]|e|]; [|exact Hnext|exact I].
  destruct ok.
  - pose proof (@basic_parse_value input 0 (run_fuel input) [] P1 Hnext)
      as Hvalue.
    unfold bind at 1.
    destruct (parse_value (run_fuel input) P1) as [[[] P2]|e|];
      [|exact Hvalue|exact I].
    destruct Hvalue as (v & Hat).
    pose proof (@basic_expect_end input 0 [v] P2 Hat) as Hend.
    destruct (expect_end P2) as [[[] P3]|e|]; [|exact Hend|exact I].
    right. exists v. apply Hend.
  - unfold bind, parser_eof, gets.
    destruct (eof (lexer P1)).
    + left. apply Hnext.
    + pose proof (@basic_expect_end input 0 [] P1 Hnext) as Hend.
      destruct (expect_end P1) as [[[] P3]|e|]; [|exact Hend|exact I].
      left. apply Hend.
Qed.

(** ** The stack of the basic handler *)

(** X10.  [on_end_array(n)] with at least [n] items on the stack replaces
    the [n] topmost items by one list that holds them in the order in which
    they were pushed, and leaves the items below as they are; with fewer
    items it raises [JSONError] (and, as the test comes first, pops
    nothing). *)
Theorem on_end_array_pops (n : nat) (s : SimpleStack) :
  (n <= size s ->
   basic_on_end_array n s = Ok (PyList (rev (firstn n s)) :: skipn n s))
  /\ (size s < n ->
      basic_on_end_array n s
      = Raise (JSONError (CountExceedsStack n (size s)))).
Proof.
  split.
  - intros Hn. unfold size in Hn.
    rewrite <- (firstn_skipn n s) at 1.
    rewrite <- (firstn_length_le s Hn) at 1.
    apply basic_on_end_array_items.
  - intros Hn. unfold basic_on_end_array.
    apply Nat.ltb_lt in Hn. rewrite Hn. reflexivity.
Qed.

Lemma on_end_array_pops_witness :
  basic_on_end_array 2 [PyInt 3; PyInt 2; PyInt 1]
  = Ok [PyList [PyInt 2; PyInt 3]; PyInt 1]
  /\ basic_on_end_array 2 [PyInt 1]
     = Raise (JSONError (CountExceedsStack 2 1)).
Proof.
  split.
  - apply (proj1 (on_end_array_pops 2 [PyInt 3; PyInt 2; PyInt 1])).
    simpl. lia.
  - apply (proj2 (on_end_array_pops 2 [PyInt 1])). simpl. lia.
Defined.

Lemma dict_set_keys (o : list (str * pyval)) k v :
  NoDup (map fst o) -> NoDup (map fst (dict_set o k v)).
Proof.
  induction o as [|[k0 v0] o IH]; simpl; intros Hnd.
  - constructor; [intros [] | constructor].
  - inversion Hnd as [|? ? Hfresh Hnd']; subst.
    destruct (str_eqb k0 k) eqn:Hk; simpl.
    + constructor; assumption.
    + constructor; [|apply IH; exact Hnd'].
      intros Hin. apply Hfresh.
      clear - Hin Hk. induction o as [|[k1 v1] o IH]; simpl in *.
      * destruct Hin as [Heq|[]]. subst. rewrite str_eqb_refl in Hk.
        discriminate.
      * destruct (str_eqb k1 k); simpl in Hin; destruct Hin as [Heq|Hin];
          auto.
Qed.

Lemma dict_of_keys (members o : list (str * pyval)) :
  NoDup (map fst o) -> NoDup (map fst (dict_of o members)).
Proof.
  revert o. induction members as [|[k v] members IH]; intros o Hnd;
    [exact Hnd|].
  unfold dict_of in *. simpl. apply IH, dict_set_keys, Hnd.
Qed.

(** X11.  [on_end_object(n)] behind [n] members (for each one its name and
    then its value pushed) replaces these items by one dict and leaves the
    items below as they are.  The dict has each name once, with the value
    of the member that was pushed first under that name; every name of a
    member is a key.  With fewer than [2 * n] items on the stack it raises
    [JSONError]. *)
Theorem on_end_object_pops (members : list (str * pyval)) (s : SimpleStack) :
  let obj := dict_of [] (rev members) in
  basic_on_end_object (length members) (member_items (rev members) ++ s)
  = Ok (PyDict obj :: s)
  /\ NoDup (map fst obj)
  /\ (forall k, dict_lookup obj k = dict_lookup members k)
  /\ (forall n s', size s' < n * 2 ->
         basic_on_end_object n s'
         = Raise (JSONError (CountExceedsStack (n * 2) (size s')))).
Proof.
  intros obj. unfold obj. split; [|split; [|split]].
  - rewrite <- (length_rev members). apply basic_on_end_object_items.
  - apply dict_of_keys. constructor.
  - intros k. apply dict_of_first_member.
  - intros n s' Hn. unfold basic_on_end_object.
    apply Nat.ltb_lt in Hn. rewrite Hn. reflexivity.
Qed.

Lemma on_end_object_pops_witness :
  basic_on_end_object 2
    [PyInt 2; PyStr (lit "a"); PyInt 1; PyStr (lit "a"); PyNone]
  = Ok [PyDict [(lit "a", PyInt 1)]; PyNone]
  /\ basic_on_end_object 2 [PyInt 1; PyStr (lit "a"); PyNone]
     = Raise (JSONError (CountExceedsStack 4 3)).
Proof.
  split.
  - exact (proj1 (on_end_object_pops [(lit "a", PyInt 1); (lit "a", PyInt 2)]
                    [PyNone])).
  - apply (proj2 (proj2 (proj2 (on_end_object_pops [] [])))). simpl. lia.
Defined.

(** ** The number state machine on any characters *)

(** X12.  [read_char] never changes the text, the counts or the accepting
    type when it refuses a character; when it accepts one, it appends
    exactly that character to the text, with one exception: a minus sign
    that is not the first character of the number or of its exponent is
    accepted and the machine stays as it was. *)
Theorem read_char_text (np : NumericParser) (c : option char) :
  (fst (read_char np c) = false ->
   np_value (snd (read_char np c)) = np_value np
   /\ np_char_count (snd (read_char np c)) = np_char_count np
   /\ np_digit_count (snd (read_char np c)) = np_digit_count np
   /\ np_accepting_type (snd (read_char np c)) = np_accepting_type np)
  /\ (fst (read_char np c) = true ->
      np_value (snd (read_char np c)) = np_value np ++ c_str c
      \/ (c = Some (ch "-") /\ np_char_count np <> 0
          /\ snd (read_char np c) = np)).
Proof.
  unfold read_char.
  destruct (c_is c (ch "-")) eqn:Hminus.
  { assert (Hc : c = Some (ch "-")).
    { destruct c as [y|]; [|discriminate]. simpl in Hminus.
      apply N.eqb_eq in Hminus. subst. reflexivity. }
    destruct (Nat.eqb_spec (np_char_count np) 0) as [Hz|Hnz]; cbn [fst snd].
    - split; [discriminate|]. intros _. left. rewrite Hc. reflexivity.
    - split; [discriminate|]. intros _. right. auto. }
  destruct (c_is c (ch "+")) eqn:Hplus.
  { assert (Hc : c = Some (ch "+")).
    { destruct c as [y|]; [|discriminate]. simpl in Hplus.
      apply N.eqb_eq in Hplus. subst. reflexivity. }
    destruct (NumericTokenKind_eqb (np_accepting_type np) NT_FLOAT
              && (np_char_count np =? 0)); cbn [fst snd].
    - split; [discriminate|]. intros _. left. rewrite Hc. reflexivity.
    - split; [auto | discriminate]. }
  destruct (c_is c (ch ".")) eqn:Hdot.
  { assert (Hc : c = Some (ch ".")).
    { destruct c as [y|]; [|discriminate]. simpl in Hdot.
      apply N.eqb_eq in Hdot. subst. reflexivity. }
    destruct (NumericTokenKind_eqb (np_accepting_type np) NT_INTEGER
              && (0 <? np_digit_count np)); cbn [fst snd].
    - split; [discriminate|]. intros _. left. rewrite Hc. reflexivity.
    - split; [auto | discriminate]. }
  destruct (c_isdigit c).
  { destruct (NumericTokenKind_eqb (np_accepting_type np) NT_INTEGER
              && (np_digit_count np =? 1) && str_eqb (np_value np) (lit "0"));
      cbn [fst snd].
    - split; [auto | discriminate].
    - split; [discriminate|]. intros _. left. reflexivity. }
  destruct (c_in c EXP_CHARS).
  { destruct (NumericTokenKind_eqb (np_accepting_type np) NT_INTEGER
              || NumericTokenKind_eqb (np_accepting_type np) NT_DECIMAL);
      cbn [fst snd].
    - split; [discriminate|]. intros _. left. reflexivity.
    - split; [auto | discriminate]. }
  cbn [fst snd]. split; [auto | discriminate].
Qed.

Lemma read_char_text_witness :
  np_value (snd (read_char (mkNumericParser 2 2 NT_INTEGER NT_INTEGER
                                            (lit "12")) (Some (ch "x"))))
  = lit "12".
Proof.
  apply (proj1 (read_char_text (mkNumericParser 2 2 NT_INTEGER NT_INTEGER
                                                (lit "12")) (Some (ch "x")))).
  reflexivity.
Defined.

(** ** What a lexeme of the lexer looks like *)

Definition ends_in_digit (t : str) : Prop :=
  exists front d, t = front ++ [d] /\ isdigit d = true.

(** When the machine has a type, its text is made of characters of numbers
    and ends in a digit. *)
Definition np_inv (np : NumericParser) : Prop :=
  Forall (fun y => continues_number y = true) (np_value np)
  /\ (np_type np <> NT_UNKNOWN ->
      0 < np_char_count np /\ ends_in_digit (np_value np)).

Lemma np_inv_init : np_inv NumericParser_init.
Proof. split; [constructor | intros Hk; exfalso; apply Hk; reflexivity]. Qed.

Lemma c_is_Some c x : c_is c x = true -> c = Some x.
Proof.
  destruct c as [y|]; [|discriminate]. simpl. intros Heq.
  apply N.eqb_eq in Heq. subst. reflexivity.
Qed.

Lemma np_inv_read_char np c :
  np_inv np -> np_inv (snd (read_char np c)).
Proof.
  intros [Hchars Hty]. unfold read_char.
  destruct (c_is c (ch "-")) eqn:Hminus.
  { apply c_is_Some in Hminus. subst c.
    destruct (Nat.eqb_spec (np_char_count np) 0) as [Hz|Hnz]; cbn [fst snd];
      [|split; assumption].
    split; cbn [accept np_value np_type np_char_count].
    - apply Forall_app. split; [exact Hchars | repeat constructor].
    - intros Hk. destruct (Hty Hk) as [Hpos _]. lia. }
  destruct (c_is c (ch "+")) eqn:Hplus.
  { apply c_is_Some in Hplus. subst c.
    destruct (NumericTokenKind_eqb (np_accepting_type np) NT_FLOAT) eqn:Hacc;
      cbn [andb fst snd]; [|split; assumption].
    destruct (Nat.eqb_spec (np_char_count np) 0) as [Hz|Hnz]; cbn [fst snd];
      [|split; assumption].
    split; cbn [accept np_value np_type np_char_count].
    - apply Forall_app. split; [exact Hchars | repeat constructor].
    - intros Hk. destruct (Hty Hk) as [Hpos _]. lia. }
  destruct (c_is c (ch ".")) eqn:Hdot.
  { apply c_is_Some in Hdot. subst c.
    destruct (NumericTokenKind_eqb (np_accepting_type np) NT_INTEGER
              && (0 <? np_digit_count np)); cbn [fst snd];
      [|split; assumption].
    split; cbn [accept np_value np_type np_char_count].
    - apply Forall_app. split; [exact Hchars | repeat constructor].
    - intros Hk. exfalso. apply Hk. reflexivity. }
  destruct (c_isdigit c) eqn:Hdigit.
  { destruct c as [d|]; [|discriminate]. simpl in Hdigit.
    destruct (NumericTokenKind_eqb (np_accepting_type np) NT_INTEGER
              && (np_digit_count np =? 1) && str_eqb (np_value np) (lit "0"));
      cbn [fst snd].
    - split; [exact Hchars|]. cbn [set_type np_type].
      intros Hk. exfalso. apply Hk. reflexivity.
    - split; cbn [np_value np_type np_char_count c_str].
      + apply Forall_app. split; [exact Hchars|]. constructor; [|constructor].
        unfold continues_number. rewrite Hdigit.
        rewrite orb_true_r. reflexivity.
      + intros _. split; [lia|]. exists (np_value np), d. auto. }
  destruct (c_in c EXP_CHARS) eqn:Hexp.
  { destruct c as [y|]; [|discriminate]. cbn [c_in] in Hexp.
    destruct (NumericTokenKind_eqb (np_accepting_type np) NT_INTEGER
              || NumericTokenKind_eqb (np_accepting_type np) NT_DECIMAL);
      cbn [fst snd].
    - split; cbn [np_value np_type np_char_count c_str].
      + apply Forall_app. split; [exact Hchars|]. constructor; [|constructor].
        unfold continues_number. rewrite Hexp. apply orb_true_r.
      + intros Hk. exfalso. apply Hk. reflexivity.
    - split; [exact Hchars|]. cbn [set_type np_type].
      intros Hk. exfalso. apply Hk. reflexivity. }
  cbn [fst snd]. split; assumption.
Qed.

Lemma handle_number_loop_inv fuel : forall np L np' L',
  np_inv np -> handle_number_loop fuel np L = Ok (np', L') -> np_inv np'.
Proof.
  induction fuel as [|fuel IH]; intros np L np' L' Hinv; [discriminate|].
  cbn [handle_number_loop]. run_m.
  pose proof (np_inv_read_char (c L) Hinv) as Hinv1.
  destruct (read_char np (c L)) as [ok np1]. cbn [snd] in Hinv1.
  destruct ok; [|intros Hrun; inversion Hrun; subst; exact Hinv1].
  destruct (next_char (set_c_accepted true L)) as [accepting L1].
  cbn [fst snd]. destruct accepting.
  - apply IH. exact Hinv1.
  - intros Hrun. inversion Hrun; subst. exact Hinv1.
Qed.

(** The shape of a lexeme, by its token. *)
Definition lexeme_sound (lx : Lexeme) : Prop :=
  match token lx with
  | UNKNOWN => False
  | LITERAL_FALSE =>
      text lx = lit "false" /\ literal_kind lx = LT_FALSE
      /\ numeric_kind lx = NT_UNKNOWN
  | LITERAL_NULL =>
      text lx = lit "null" /\ literal_kind lx = LT_NULL
      /\ numeric_kind lx = NT_UNKNOWN
  | LITERAL_TRUE =>
      text lx = lit "true" /\ literal_kind lx = LT_TRUE
      /\ numeric_kind lx = NT_UNKNOWN
  | NUMBER_INT | NUMBER_DECIMAL | NUMBER_FLOAT =>
      numeric_token (numeric_kind lx) = token lx
      /\ numeric_kind lx <> NT_UNKNOWN /\ literal_kind lx = LT_UNKNOWN
      /\ Forall (fun y => continues_number y = true) (text lx)
      /\ ends_in_digit (text lx)
  | STRING => literal_kind lx = LT_UNKNOWN /\ numeric_kind lx = NT_UNKNOWN
  | tok =>
      (exists x, text lx = [x] /\ dict_get STRUCTURALS x = Some tok)
      /\ literal_kind lx = LT_UNKNOWN /\ numeric_kind lx = NT_UNKNOWN
  end.

Lemma handle_string_loop_sound fuel start : forall value L lx L',
  handle_string_loop fuel start value L = Ok (lx, L') ->
  token lx = STRING /\ literal_kind lx = LT_UNKNOWN
  /\ numeric_kind lx = NT_UNKNOWN /\ lex_pos lx = start.
Proof.
  induction fuel as [|fuel IH]; intros value L lx L'; [discriminate|].
  cbn [handle_string_loop]. run_m.
  destruct (next_char L) as [ok L1]. cbn [fst snd].
  destruct ok; [|discriminate].
  destruct (c_is (c L1) QUOTE).
  { intros Hrun. inversion Hrun; subst. auto. }
  destruct (c_is (c L1) BACKSLASH); [|apply IH].
  destruct (next_char L1) as [ok2 L2]. cbn [fst snd].
  destruct ok2; [|discriminate]. cbn [negb].
  destruct (c_get ESCAPE_CHARS (c L2)); [apply IH|].
  destruct (c_is (c L2) (ch "u")); [|discriminate].
  destruct (handle_escaped_char (pos L1) L2) as [[decoded L3]| |];
    [apply IH | discriminate | discriminate].
Qed.

Lemma lexeme_at_char_sound L lx L' :
  lexeme_at_char L = Ok (lx, L') -> lexeme_sound lx /\ lex_pos lx = pos L.
Proof.
  unfold lexeme_at_char. run_m.
  destruct (c_is (c L) QUOTE).
  { unfold handle_string. run_m. intros Hrun.
    destruct (handle_string_loop_sound _ _ _ _ Hrun) as (Htok & Hl & Hn & Hp).
    unfold lexeme_sound. rewrite Htok. auto. }
  destruct (c_in (c L) DEC_DIGITS_S).
  { unfold handle_number. run_m.
    pose proof (@handle_number_loop_inv (loop_fuel L) NumericParser_init L)
      as Hinv.
    destruct (handle_number_loop (loop_fuel L) NumericParser_init L)
      as [[np L1]| |]; [|discriminate | discriminate].
    destruct (Hinv np L1 np_inv_init eq_refl) as [Hchars Hty].
    destruct (np_type np) eqn:Hkind; try discriminate;
      destruct (c_accepted L1 || is_whitespace (c L1) || is_structural (c L1));
      try discriminate; intros Hrun; inversion Hrun; subst;
      (split; [|reflexivity]); unfold lexeme_sound; cbn [token numeric_kind
        literal_kind text numeric_token];
      (split; [reflexivity|]); (split; [discriminate|]);
      (split; [reflexivity|]); (split; [exact Hchars|]);
      apply Hty; discriminate. }
  destruct (c_get STRUCTURALS (c L)) as [tok|] eqn:Htok.
  { intros Hrun. inversion Hrun; subst. split; [|reflexivity].
    destruct (c L) as [x|]; [|discriminate Htok]. cbn [c_get] in Htok.
    pose proof (structural_char_cases _ Htok) as Hin.
    unfold lexeme_sound. cbn [token text literal_kind numeric_kind c_str].
    unfold STRUCTURALS in Hin. cbn [In] in Hin.
    repeat (destruct Hin as [Heq|Hin];
            [injection Heq as Hx Ht; subst tok;
             (split; [exists x; split; [reflexivity | exact Htok]
                     | split; reflexivity])|]).
    destruct Hin. }
  destruct (c_in (c L) LITERAL_PREFIXES); [|discriminate].
  unfold handle_literal. run_m.
  destruct (handle_literal_loop (loop_fuel (set_c_accepted true L))
              (c_str (c L)) (set_c_accepted true L))
    as [[v L1]| |]; [|discriminate | discriminate].
  destruct (str_eqb v (lit "false")) eqn:Hf.
  { intros Hrun. inversion Hrun; subst. apply str_eqb_eq in Hf. subst.
    split; [|reflexivity]. unfold lexeme_sound. simpl. auto. }
  destruct (str_eqb v (lit "null")) eqn:Hn.
  { intros Hrun. inversion Hrun; subst. apply str_eqb_eq in Hn. subst.
    split; [|reflexivity]. unfold lexeme_sound. simpl. auto. }
  destruct (str_eqb v (lit "true")) eqn:Ht; [|discriminate].
  intros Hrun. inversion Hrun; subst. apply str_eqb_eq in Ht. subst.
  split; [|reflexivity]. unfold lexeme_sound. simpl. auto.
Qed.

(** X13.  Every lexeme that [Lexer.next_lexeme] returns, on any input and
    from any state, has a known token, and its fields agree with it: a
    literal token has the text [false], [null] or [true] and the kind of
    that name; a number token has the numeric kind of the token and a text
    made of digits, signs, points and exponent letters that ends in a digit;
    a structural token has the one character of that token as its text; a
    string has no literal or numeric kind. *)
Theorem next_lexeme_sound (L : Lexer) (lx : Lexeme) (L' : Lexer) :
  Lexer_next_lexeme L = Ok (Some lx, L') -> lexeme_sound lx.
Proof.
  assert (Hscan : forall L1, scan_lexeme L1 = Ok (Some lx, L') ->
                             lexeme_sound lx).
  { intros L1. unfold scan_lexeme, skip_whitespaces.
    cbv beta iota delta [bind gets modify].
    destruct (skip_whitespaces_loop (loop_fuel (set_initial false L1))
                (set_initial false L1)) as [[[] L2]| |];
      [|discriminate | discriminate].
    destruct (c_accepted L2); cbn [negb].
    - destruct (eof L2); discriminate.
    - destruct (lexeme_at_char L2) as [[lx2 L3]| |] eqn:Hat;
        [|discriminate | discriminate].
      unfold ret. intros Hrun. inversion Hrun; subst.
      apply (lexeme_at_char_sound _ Hat). }
  unfold Lexer_next_lexeme. run_m.
  destruct (c_accepted L || initial L); [|apply Hscan].
  destruct (next_char L) as [ok L1]. cbn [fst snd].
  destruct ok; cbn [negb]; [apply Hscan | discriminate].
Qed.

Lemma next_lexeme_sound_witness :
  lexeme_sound (number_lexeme (mkTextPos 1 1) NUMBER_INT (lit "12") NT_INTEGER).
Proof.
  apply (@next_lexeme_sound (Lexer_init (lit "1-2"))
           (number_lexeme (mkTextPos 1 1) NUMBER_INT (lit "12") NT_INTEGER)
           (mkLexer [] true false None true (mkTextPos 1 3))).
  vm_compute. reflexivity.
Defined.
